(** * sync_to_webflow: a shallow embedding of the Webflow synchronisation script

    The development follows [scripts/js/src/sync_to_webflow.ts].  A JavaScript
    string is modelled by the [string] of the bytes of its UTF-8 encoding:
    an ASCII character is one character of the model, any other one a run of
    characters above 127.  The case mappings of strings are builtins taken
    from the environment of the run.  Numbers that hold integers are
    modelled as [Z], a JS [Map] as an insertion-ordered
    association list with unique keys ([JsMap]), [undefined] as [Undefined]
    of [undef_or] and [null] as [None] of [option].  Remote calls are made
    explicit: a run threads the destination store and returns the sequence of
    mutating calls it attempted.

    Part I holds the model, Part II the properties. *)

From Stdlib Require Import String Ascii List ZArith Bool Arith Lia Permutation.
From Stdlib Require Import DecimalString.
Import ListNotations.
Local Open Scope string_scope.
Local Open Scope list_scope.

(* ===================================================================== *)
(** * Part I: the model *)

(** ** JavaScript values *)

(** [T | undefined]. *)
Inductive undef_or (T : Type) : Type :=
| Undefined : undef_or T
| Defined (x : T) : undef_or T.
Arguments Undefined {T}.
Arguments Defined {T} x.

(** Truthiness of a string: [''] is falsy. *)
Definition truthy (s : string) : bool := negb (s =? "").

(** [a?.f]: [undefined] when [a] is. *)
Definition opt_chain {A B : Type} (a : undef_or A) (f : A -> B) : undef_or B :=
  match a with Undefined => Undefined | Defined x => Defined (f x) end.

Definition option_eqb {A : Type} (eqb : A -> A -> bool) (a b : option A) : bool :=
  match a, b with
  | None, None => true
  | Some x, Some y => eqb x y
  | _, _ => false
  end.

(** ** JS [Map]: insertion-ordered association list with unique keys *)

Module JsMap.

Definition t (V : Type) : Type := list (string * V).

Definition empty {V : Type} : t V := [].

Fixpoint get {V : Type} (m : t V) (k : string) : option V :=
  match m with
  | [] => None
  | (k', v) :: r => if k' =? k then Some v else get r k
  end.

Definition has {V : Type} (m : t V) (k : string) : bool :=
  match get m k with Some _ => true | None => false end.

(** [m.set(k, v)]: an existing key keeps its position, a new key goes last. *)
Fixpoint set {V : Type} (m : t V) (k : string) (v : V) : t V :=
  match m with
  | [] => [(k, v)]
  | (k', v') :: r => if k' =? k then (k, v) :: r else (k', v') :: set r k v
  end.

Fixpoint delete {V : Type} (m : t V) (k : string) : t V :=
  match m with
  | [] => []
  | (k', v') :: r => if k' =? k then r else (k', v') :: delete r k
  end.

Definition keys {V : Type} (m : t V) : list string := map fst m.

Definition values {V : Type} (m : t V) : list V := map snd m.

(** [new Map(entries)]. *)
Definition of_entries {V : Type} (es : list (string * V)) : t V :=
  fold_left (fun m e => set m (fst e) (snd e)) es empty.

End JsMap.

(** ** Strings *)

Definition is_upper (c : ascii) : bool :=
  let n := nat_of_ascii c in (65 <=? n)%nat && (n <=? 90)%nat.

Definition is_lower (c : ascii) : bool :=
  let n := nat_of_ascii c in (97 <=? n)%nat && (n <=? 122)%nat.

Definition is_digit (c : ascii) : bool :=
  let n := nat_of_ascii c in (48 <=? n)%nat && (n <=? 57)%nat.

Definition lower_char (c : ascii) : ascii :=
  if is_upper c then ascii_of_nat (nat_of_ascii c + 32) else c.

Definition upper_char (c : ascii) : ascii :=
  if is_lower c then ascii_of_nat (nat_of_ascii c - 32) else c.

Fixpoint string_map (f : ascii -> ascii) (s : string) : string :=
  match s with
  | EmptyString => EmptyString
  | String c r => String (f c) (string_map f r)
  end.

(** The case mappings of ASCII strings: [A-Z] to [a-z] and back, every other
    character left as it is.  On a string of ASCII characters this is what
    [String.prototype.toLowerCase] and [toUpperCase] do. *)
Definition asciiLower : string -> string := string_map lower_char.

Definition asciiUpper : string -> string := string_map upper_char.

(** [s.replace(/[cls]/g, r)] for a character class [cls]. *)
Fixpoint replaceAll (cls : ascii -> bool) (r : string) (s : string) : string :=
  match s with
  | EmptyString => EmptyString
  | String c t =>
      if cls c then r ++ replaceAll cls r t else String c (replaceAll cls r t)
  end.

Fixpoint string_forallb (p : ascii -> bool) (s : string) : bool :=
  match s with
  | EmptyString => true
  | String c r => p c && string_forallb p r
  end.

Definition is_ascii (c : ascii) : bool := (nat_of_ascii c <? 128)%nat.

(** A string of ASCII characters only. *)
Definition isAscii (s : string) : bool := string_forallb is_ascii s.

Fixpoint string_flat_map (f : ascii -> string) (s : string) : string :=
  match s with
  | EmptyString => EmptyString
  | String c r => f c ++ string_flat_map f r
  end.

(** The class [[. _]]. *)
Definition sep_class (c : ascii) : bool :=
  (c =? ".")%char || (c =? " ")%char || (c =? "_")%char.

(** The class [[a-z0-9-]]. *)
Definition slug_class (c : ascii) : bool :=
  is_lower c || is_digit c || (c =? "-")%char.

(** The two replacements of [slugFromName], on the lower-cased name:
    [.replace(/[. _]/g, '-').replace(/[^a-z0-9-]/g, '')].  A character that
    is not ASCII is in neither class [[. _]] nor [[a-z0-9-]], so all the
    bytes of its encoding are removed, as the script removes it. *)
Definition slugOfLowered (lowered : string) : string :=
  replaceAll (fun c => negb (slug_class c)) ""
    (replaceAll sep_class "-" lowered).

(** What one character of the lower-cased name contributes to the slug. *)
Definition slug_of_unit (c : ascii) : string :=
  if sep_class c then "-"
  else if slug_class c then String c EmptyString
  else "".

(** What one character of an ASCII name contributes to the slug. *)
Definition slug_of_char (c : ascii) : string :=
  if sep_class c then "-"
  else if slug_class (lower_char c) then String (lower_char c) EmptyString
  else "".

(** The shape the specification's words ask of a slug: no hyphen at either
    end and no two hyphens in a row. *)
Fixpoint no_double_hyphen (s : string) : bool :=
  match s with
  | String "-" (String "-" _) => false
  | String _ r => no_double_hyphen r
  | EmptyString => true
  end.

Fixpoint last_char (s : string) : option ascii :=
  match s with
  | EmptyString => None
  | String c EmptyString => Some c
  | String _ r => last_char r
  end.

Definition no_edge_hyphen (s : string) : bool :=
  match s with
  | String "-" _ => false
  | _ => match last_char s with Some "-"%char => false | _ => true end
  end.

Definition collapsed_and_stripped (s : string) : bool :=
  no_double_hyphen s && no_edge_hyphen s.

(** The slug as the specification words it: of the lower-cased name, turn
    every maximal run of non-alphanumeric characters into one hyphen, and
    strip the hyphens at both ends.  [pending] records a run seen after some
    kept character and not yet closed by another one. *)
Definition is_alnum (c : ascii) : bool := is_lower c || is_digit c.

Fixpoint slug_spec_go (started pending : bool) (s : string) : string :=
  match s with
  | EmptyString => EmptyString
  | String c r =>
      if is_alnum c
      then (if started && pending then "-" else "")
             ++ String c (slug_spec_go true false r)
      else slug_spec_go started true r
  end.

(** ** Sorting of strings, as [Array.prototype.sort] without a comparator *)

Fixpoint sort_insert (x : string) (l : list string) : list string :=
  match l with
  | [] => [x]
  | y :: r => if (x <=? y)%string then x :: l else y :: sort_insert x r
  end.

Definition js_sort (l : list string) : list string :=
  fold_right sort_insert [] l.

(** [a.every((v, i) => v === b[i])]: an index past the end of [b] reads
    [undefined], which no string equals. *)
Fixpoint every_same (a b : list string) : bool :=
  match a with
  | [] => true
  | v :: a' =>
      match b with
      | [] => false
      | w :: b' => (v =? w) && every_same a' b'
      end
  end.

Definition isSameRefs (a b : list string) : bool :=
  (length a =? length b)%nat && every_same a b.

(** [a.slice(i, j)]. *)
Definition slice {A : Type} (i j : nat) (l : list A) : list A :=
  firstn (j - i) (skipn i l).

(** ** Helpers converting from the Webflow read types *)

Definition reqR {T : Type} (n : undef_or T) (def : T) : T :=
  match n with Undefined => def | Defined x => x end.

Definition optR {T : Type} (n : undef_or T) : option T :=
  match n with Undefined => None | Defined x => Some x end.

Definition reqRNum (n : undef_or Z) : Z := reqR n (-1)%Z.

Definition reqRStr (n : undef_or string) : string := reqR n "".

Definition reqRArr {T : Type} (n : undef_or (list T)) : list T := reqR n [].

(** ** Webflow data *)

(** Modelled from the spec: the declarations of [webflow_types.js] and of the
    [webflow-api] package are not among the sources.  The records below carry
    the fields the script reads and writes, optional where the script guards
    the read with [reqR], [optR] or [?.]. *)

Record WebflowImageRef : Type := {
  img_fileId : string;
  img_url : string
}.

Record CollectionItem (F : Type) : Type := {
  item_id : string;
  item_lastPublished : undef_or string;
  item_lastUpdated : undef_or string;
  item_fieldData : undef_or F
}.
Arguments item_id {F} _.
Arguments item_lastPublished {F} _.
Arguments item_lastUpdated {F} _.
Arguments item_fieldData {F} _.

(** Field data of a tag or a terrain, read or written: name and slug. *)
Record NameSlugFields : Type := {
  nf_name : string;
  nf_slug : string
}.

Definition WebflowMapTagFieldsRead : Type := NameSlugFields.
Definition WebflowMapTagFieldsWrite : Type := NameSlugFields.
Definition WebflowMapTerrainFieldsRead : Type := NameSlugFields.
Definition WebflowMapTerrainFieldsWrite : Type := NameSlugFields.

Record WebflowMapFieldsRead : Type := {
  r_name : string;
  r_slug : string;
  r_rowyid : undef_or string;
  r_minimap : undef_or WebflowImageRef;
  r_minimap_photo_thumb : undef_or WebflowImageRef;
  r_downloadurl : undef_or string;
  r_width : undef_or Z;
  r_height : undef_or Z;
  r_mapsize : undef_or Z;
  r_title : undef_or string;
  r_description : undef_or string;
  r_author : undef_or string;
  r_bg_image : undef_or WebflowImageRef;
  r_perspective_shot : undef_or WebflowImageRef;
  r_more_images : undef_or (list WebflowImageRef);
  r_wind_min : undef_or Z;
  r_wind_max : undef_or Z;
  r_tidal_strength : undef_or Z;
  r_team_count : undef_or Z;
  r_max_players : undef_or Z;
  r_mini_map : undef_or WebflowImageRef;
  r_height_map : undef_or WebflowImageRef;
  r_metal_map : undef_or WebflowImageRef;
  r_game_tags_ref_2 : undef_or (list string);
  r_terrain_types : undef_or (list string)
}.

Record WebflowMapFieldsWrite : Type := {
  w_name : string;
  w_slug : string;
  w_rowyid : string;
  w_minimap : string;
  w_minimap_photo_thumb : string;
  w_downloadurl : string;
  w_width : Z;
  w_height : Z;
  w_mapsize : Z;
  w_title : option string;
  w_description : option string;
  w_author : string;
  w_bg_image : option string;
  w_perspective_shot : option string;
  w_more_images : list string;
  w_wind_min : Z;
  w_wind_max : Z;
  w_tidal_strength : option Z;
  w_team_count : Z;
  w_max_players : Z;
  w_mini_map : string;
  w_height_map : string;
  w_metal_map : string;
  w_game_tags_ref_2 : list string;
  w_terrain_types : list string
}.

(** ** The internal representation *)

Record IWebsiteItem : Type := {
  ws_name : string;
  ws_slug : string
}.

Definition WebsiteMapTag : Type := IWebsiteItem.
Definition WebsiteMapTerrain : Type := IWebsiteItem.

(** [IWebflowItem]: an [IWebsiteItem] that remembers the item it was read
    from. *)
Record IWebflowItem : Type := {
  wf_name : string;
  wf_slug : string;
  wf_item : CollectionItem NameSlugFields
}.

Record WebsiteMapInfo : Type := {
  mi_name : string;
  mi_rowyId : string;
  mi_minimapUrl : string;
  mi_minimapThumbUrl : string;
  mi_downloadUrl : string;
  mi_width : Z;
  mi_height : Z;
  mi_mapSize : Z;
  mi_title : option string;
  mi_description : option string;
  mi_author : string;
  mi_bgImageUrl : option string;
  mi_perspectiveShotUrl : option string;
  mi_moreImagesUrl : list string;
  mi_windMin : Z;
  mi_windMax : Z;
  mi_tidalStrength : option Z;
  mi_teamCount : Z;
  mi_maxPlayers : Z;
  mi_textureMapUrl : string;
  mi_heightMapUrl : string;
  mi_metalMapUrl : string;
  mi_mapTags : list string;
  mi_mapTerrains : list string
}.

(** [WebflowMapInfo]: the fields of a [WebsiteMapInfo] read from an item,
    the item, and its field data (always set, the constructor asserts it). *)
Record WebflowMapInfo : Type := {
  wm_info : WebsiteMapInfo;
  wm_item : CollectionItem WebflowMapFieldsRead;
  wm_fieldData : WebflowMapFieldsRead
}.

(** ** The source of truth

    [MapList] is the JS object of [map_list.yaml], given by its
    [Object.entries]; the records keep the fields [buildWebflowInfo] reads.
    Metadata is typed [any] in the script: the derived numbers may be
    [undefined]. *)

Record UploadedFile : Type := {
  uf_ref : string
}.

Record MapInfo : Type := {
  springName : string;
  displayName : string;
  author : string;
  title : undef_or string;
  description : undef_or string;
  playerCount : Z;
  teamCount : Z;
  photo : list UploadedFile;
  backgroundImage : list UploadedFile;
  perspectiveShot : list UploadedFile;
  inGameShots : list UploadedFile
}.

Definition MapList : Type := list (string * MapInfo).

Record MapCDNInfo : Type := {
  mirrors : list string
}.

Record MapMetadata : Type := {
  extractedFiles : list string;
  location_bucket : string;
  location_path : string
}.

Record DerivedInfo : Type := {
  d_tags : list string;
  d_width : undef_or Z;
  d_height : undef_or Z;
  d_windMin : undef_or Z;
  d_windMax : undef_or Z;
  d_tidalStrength : undef_or Z;
  d_terrainOrdered : list string
}.

(** The terrain vocabulary: [$defs.terrainType.enum] of [map_list.yaml]. *)
Definition terrainType_enum : list string :=
  [ "lava"; "ice"; "acidic"; "alien"; "asteroid"; "space"; "desert";
    "forests"; "grassy"; "tropical"; "swamp"; "jungle"; "wasteland"; "metal";
    "industrial"; "ruins"; "sea"; "water"; "island"; "shallows";
    "chokepoints"; "asymmetrical"; "flat"; "hills" ].

(** ** The destination and the calls made to it *)

Inductive Vocabulary : Type := Tags | Terrains.

Inductive Coll : Type :=
| MapsColl : Coll
| VocabColl (v : Vocabulary) : Coll.

Inductive Payload : Type :=
| NameSlugPayload (f : NameSlugFields) : Payload
| MapPayload (f : WebflowMapFieldsWrite) : Payload.

(** The mutating calls of [webflow.collections.items]. *)
Inductive Call : Type :=
| CreateItem (c : Coll) (p : Payload) : Call
| UpdateItem (c : Coll) (id : string) (p : Payload) : Call
| DeleteItem (c : Coll) (id : string) : Call
| PublishItem (c : Coll) (ids : list string) : Call.

(** The destination's state: the items of the three collections, in
    listing order. *)
Record Store : Type := {
  st_maps : list (CollectionItem WebflowMapFieldsRead);
  st_tags : list (CollectionItem NameSlugFields);
  st_terrains : list (CollectionItem NameSlugFields)
}.

Inductive RefField : Type := MapTags | MapTerrains.

Inductive Error : Type :=
| MissingDownloadUrl (spring : string) : Error
| MissingValue (spring key : string) : Error
| MissingRef (field : RefField) (ref : string) : Error
| AssertionError : Error
| TypeError : Error
| RemoteError (c : Call) : Error.

(** ** The environment of a run

    What the script takes from outside: the bytes behind a URL (through
    their SHA-256 digest; the download is taken to succeed, one that fails
    ends the script with its error), the digest cache loaded at start-up, the builtins
    [encodeURI], [Date.parse] ([None] for [NaN]), [String.prototype.toLowerCase]
    and [toUpperCase], [getDerivedInfo] of [derived_map_info.js], and the
    destination's answers: whether a call fails, the item a create or update
    call returns, and the time a publish call records.  Of the two case
    mappings only what they do to ASCII strings is fixed here; what they do
    to other strings is the platform's. *)
Record Env : Type := {
  fetchDigest : string -> string;
  imageHashesCache : JsMap.t string;
  encodeURI : string -> string;
  Date_parse : string -> option Z;
  toLowerCase : string -> string;
  toUpperCase : string -> string;
  toLowerCase_ascii : forall s, isAscii s = true -> toLowerCase s = asciiLower s;
  toUpperCase_ascii : forall s, isAscii s = true -> toUpperCase s = asciiUpper s;
  getDerivedInfo : MapInfo -> MapMetadata -> DerivedInfo;
  callFails : Store -> Call -> bool;
  createdItem : Store -> Vocabulary -> NameSlugFields ->
                CollectionItem NameSlugFields;
  updatedItem : Store -> Vocabulary -> string -> NameSlugFields ->
                CollectionItem NameSlugFields;
  createdMap : Store -> WebflowMapFieldsWrite ->
               CollectionItem WebflowMapFieldsRead;
  updatedMap : Store -> string -> WebflowMapFieldsWrite ->
               CollectionItem WebflowMapFieldsRead;
  publishedAt : Store -> string
}.

(** ** Fallible and effectful computations

    [Res A] is a computation that returns or throws.  [M A] is one that also
    talks to the destination: from the store before, it gives the store
    after, the mutating calls attempted (in order) and the outcome.  A throw
    keeps the store and the calls made so far. *)

Definition Res (A : Type) : Type := (Error + A)%type.

Definition bindE {A B : Type} (r : Res A) (f : A -> Res B) : Res B :=
  match r with inl e => inl e | inr a => f a end.

Notation "'let?' x ':=' r 'in' k" := (bindE r (fun x => k))
  (at level 10, x pattern, r at level 100, k at level 200).

Fixpoint foldE {A B : Type} (f : B -> A -> Res B) (l : list A) (b : B) : Res B :=
  match l with
  | [] => inr b
  | x :: r => let? b' := f b x in foldE f r b'
  end.

Fixpoint mapE {A B : Type} (f : A -> Res B) (l : list A) : Res (list B) :=
  match l with
  | [] => inr []
  | x :: r => let? y := f x in let? ys := mapE f r in inr (y :: ys)
  end.

Definition M (A : Type) : Type := Store -> Store * list Call * Res A.

Definition ret {A : Type} (a : A) : M A := fun s => (s, [], inr a).

Definition bind {A B : Type} (m : M A) (f : A -> M B) : M B :=
  fun s =>
    match m s with
    | (s1, l1, inl e) => (s1, l1, inl e)
    | (s1, l1, inr a) =>
        match f a s1 with (s2, l2, r) => (s2, l1 ++ l2, r) end
    end.

Definition liftE {A : Type} (r : Res A) : M A := fun s => (s, [], r).

Notation "'let!' x ':=' m 'in' k" := (bind m (fun x => k))
  (at level 10, x pattern, m at level 100, k at level 200).

Fixpoint foldM {A B : Type} (f : B -> A -> M B) (l : list A) (b : B) : M B :=
  match l with
  | [] => ret b
  | x :: r => let! b' := f b x in foldM f r b'
  end.

(** The store, the calls and the outcome of a run. *)
Definition run_store {A : Type} (r : Store * list Call * Res A) : Store :=
  fst (fst r).

Definition run_calls {A : Type} (r : Store * list Call * Res A) : list Call :=
  snd (fst r).

Definition run_result {A : Type} (r : Store * list Call * Res A) : Res A :=
  snd r.

(** ** The image hash cache *)

Module ImageHashesCache.

Definition t : Type := JsMap.t string.

(** [getImageHash], for a call made on its own and run to its end: the
    digest and the cache after the call.  A falsy URL ([null] or ['']) has
    the empty digest; a cached URL is not fetched.  The download is taken to
    succeed; calls that overlap are modelled with the cache file below
    ([startHash], [finishHash]). *)
Definition getImageHash (fetch : string -> string) (c : t)
  (url : option string) : string * t :=
  match url with
  | None => ("", c)
  | Some u =>
      if truthy u then
        match JsMap.get c u with
        | Some d => (d, c)
        | None => let digest := fetch u in (digest, JsMap.set c u digest)
        end
      else ("", c)
  end.

End ImageHashesCache.

Section Model.

Variable E : Env.

(** The module-level [getImageHash]: the digest the cache of this run
    answers.  Calls only add entries for URLs not yet cached, so the answer
    for a URL is the same at every point of a run (Part II,
    [getImageHash_stable]). *)
Definition getImageHash (url : option string) : string :=
  fst (ImageHashesCache.getImageHash (fetchDigest E) (imageHashesCache E) url).

Definition sameImage (url1 url2 : option string) : bool :=
  getImageHash url1 =? getImageHash url2.

Definition sameImages (urls1 urls2 : list string) : bool :=
  let h1 := map (fun u => getImageHash (Some u)) urls1 in
  let h2 := map (fun u => getImageHash (Some u)) urls2 in
  if negb (length urls1 =? length urls2)%nat then false
  else every_same (js_sort h1) (js_sort h2).

Definition pickImage (url : string) (base : undef_or WebflowImageRef) : string :=
  match base with
  | Defined b =>
      if sameImage (Some url) (Some (img_url b)) then img_fileId b else url
  | Undefined => url
  end.

Definition pickImages (urls : list string)
  (base : undef_or (list WebflowImageRef)) : list string :=
  let h := map (fun url => (url, getImageHash (Some url))) urls in
  let hBaseEntries :=
    map (fun i => (getImageHash (Some (img_url i)), img_fileId i))
        (reqR base []) in
  let hBase := JsMap.of_entries hBaseEntries in
  map (fun uh =>
         match JsMap.get hBase (snd uh) with
         | Some baseFileId => if truthy baseFileId then baseFileId else fst uh
         | None => fst uh
         end) h.

(** ** Tags and terrains *)

Definition slugFromName (name : string) : string :=
  slugOfLowered (toLowerCase E name).

(** The slug as the specification words it. *)
Definition slug_spec (name : string) : string :=
  slug_spec_go false false (toLowerCase E name).

Definition isSameItem (a b : IWebsiteItem) : bool :=
  (ws_name a =? ws_name b) && (ws_slug a =? ws_slug b).

Definition isWebsiteMapTagEqual : WebsiteMapTag -> WebsiteMapTag -> bool :=
  isSameItem.

Definition isWebsiteMapTerrainEqual :
  WebsiteMapTerrain -> WebsiteMapTerrain -> bool := isSameItem.

(** An [IWebflowItem] seen as the [IWebsiteItem] it extends. *)
Definition asWebsiteItem (w : IWebflowItem) : IWebsiteItem :=
  {| ws_name := wf_name w; ws_slug := wf_slug w |}.

(** [IWebflowItemType]: a constructor from an item and [generateFields]. *)
Record IWebflowItemType : Type := {
  construct : CollectionItem NameSlugFields -> Error + IWebflowItem;
  generateFields : IWebsiteItem -> NameSlugFields
}.

(** [new WebflowMapTag(item)]: reading [o.name] of a missing [fieldData]
    is a [TypeError]. *)
Definition newNameSlugItem (item : CollectionItem NameSlugFields)
  : Error + IWebflowItem :=
  match item_fieldData item with
  | Undefined => inl TypeError
  | Defined o =>
      inr {| wf_name := nf_name o; wf_slug := nf_slug o; wf_item := item |}
  end.

Definition nameSlugFields (i : IWebsiteItem) : NameSlugFields :=
  {| nf_name := ws_name i; nf_slug := ws_slug i |}.

Definition WebflowMapTag : IWebflowItemType :=
  {| construct := newNameSlugItem; generateFields := nameSlugFields |}.

Definition WebflowMapTerrain : IWebflowItemType :=
  {| construct := newNameSlugItem; generateFields := nameSlugFields |}.

(** The comparison the reconciler is given for tags and for terrains. *)
Definition sameAs : IWebsiteItem -> IWebflowItem -> bool :=
  fun a b => isSameItem a (asWebsiteItem b).

(** ** Map records: equality, reading and writing *)

Definition isWebflowMapInfoEqual (a b : WebsiteMapInfo) : bool :=
  let allImagesSame := forallb (fun x => x)
    [ sameImage (Some (mi_minimapUrl a)) (Some (mi_minimapUrl b));
      sameImage (Some (mi_minimapThumbUrl a)) (Some (mi_minimapThumbUrl b));
      sameImage (mi_bgImageUrl a) (mi_bgImageUrl b);
      sameImage (mi_perspectiveShotUrl a) (mi_perspectiveShotUrl b);
      sameImages (mi_moreImagesUrl a) (mi_moreImagesUrl b);
      sameImage (Some (mi_textureMapUrl a)) (Some (mi_textureMapUrl b));
      sameImage (Some (mi_heightMapUrl a)) (Some (mi_heightMapUrl b));
      sameImage (Some (mi_metalMapUrl a)) (Some (mi_metalMapUrl b)) ] in
  allImagesSame &&
  (mi_name a =? mi_name b) &&
  (mi_rowyId a =? mi_rowyId b) &&
  (mi_downloadUrl a =? mi_downloadUrl b) &&
  (mi_width a =? mi_width b)%Z &&
  (mi_height a =? mi_height b)%Z &&
  (mi_mapSize a =? mi_mapSize b)%Z &&
  option_eqb String.eqb (mi_title a) (mi_title b) &&
  option_eqb String.eqb (mi_description a) (mi_description b) &&
  (mi_author a =? mi_author b) &&
  (mi_windMin a =? mi_windMin b)%Z &&
  (mi_windMax a =? mi_windMax b)%Z &&
  option_eqb Z.eqb (mi_tidalStrength a) (mi_tidalStrength b) &&
  (mi_teamCount a =? mi_teamCount b)%Z &&
  (mi_maxPlayers a =? mi_maxPlayers b)%Z &&
  isSameRefs (mi_mapTags a) (mi_mapTags b) &&
  isSameRefs (mi_mapTerrains a) (mi_mapTerrains b).

(** The fields the constructor of [WebflowMapInfo] reads from field data. *)
Definition readMapFields (o : WebflowMapFieldsRead) : WebsiteMapInfo :=
  {| mi_name := r_name o;
     mi_rowyId := reqRStr (r_rowyid o);
     mi_minimapUrl := reqRStr (opt_chain (r_minimap o) img_url);
     mi_minimapThumbUrl := reqRStr (opt_chain (r_minimap_photo_thumb o) img_url);
     mi_downloadUrl := reqRStr (r_downloadurl o);
     mi_width := reqRNum (r_width o);
     mi_height := reqRNum (r_height o);
     mi_mapSize := reqRNum (r_mapsize o);
     mi_title := optR (r_title o);
     mi_description := optR (r_description o);
     mi_author := reqRStr (r_author o);
     mi_bgImageUrl := optR (opt_chain (r_bg_image o) img_url);
     mi_perspectiveShotUrl := optR (opt_chain (r_perspective_shot o) img_url);
     mi_moreImagesUrl := reqRArr (opt_chain (r_more_images o) (map img_url));
     mi_windMin := reqRNum (r_wind_min o);
     mi_windMax := reqRNum (r_wind_max o);
     mi_tidalStrength := optR (r_tidal_strength o);
     mi_teamCount := reqRNum (r_team_count o);
     mi_maxPlayers := reqRNum (r_max_players o);
     mi_textureMapUrl := reqRStr (opt_chain (r_mini_map o) img_url);
     mi_heightMapUrl := reqRStr (opt_chain (r_height_map o) img_url);
     mi_metalMapUrl := reqRStr (opt_chain (r_metal_map o) img_url);
     mi_mapTags := reqRArr (r_game_tags_ref_2 o);
     mi_mapTerrains := reqRArr (r_terrain_types o) |}.

(** [new WebflowMapInfo(item)]: [assert(item.fieldData)], then the reads. *)
Definition newWebflowMapInfo (item : CollectionItem WebflowMapFieldsRead)
  : Error + WebflowMapInfo :=
  match item_fieldData item with
  | Undefined => inl AssertionError
  | Defined o =>
      inr {| wm_info := readMapFields o; wm_item := item; wm_fieldData := o |}
  end.

(** [base?.item.fieldData[f]]. *)
Definition baseField {A : Type} (base : undef_or WebflowMapInfo)
  (f : WebflowMapFieldsRead -> undef_or A) : undef_or A :=
  match base with
  | Undefined => Undefined
  | Defined b => f (wm_fieldData b)
  end.

(** [u ? pickImage(u, b) : null]. *)
Definition pickOptImage (u : option string) (b : undef_or WebflowImageRef)
  : option string :=
  match u with
  | Some s => if truthy s then Some (pickImage s b) else None
  | None => None
  end.

(** [WebflowMapInfo.generateFields(info, base)]. *)
Definition generateMapFields (info : WebsiteMapInfo)
  (base : undef_or WebflowMapInfo) : WebflowMapFieldsWrite :=
  {| w_name := mi_name info;
     w_slug := slugFromName (mi_name info);
     w_rowyid := mi_rowyId info;
     w_minimap := pickImage (mi_minimapUrl info) (baseField base r_minimap);
     w_minimap_photo_thumb :=
       pickImage (mi_minimapThumbUrl info) (baseField base r_minimap_photo_thumb);
     w_downloadurl := mi_downloadUrl info;
     w_width := mi_width info;
     w_height := mi_height info;
     w_mapsize := mi_mapSize info;
     w_title := mi_title info;
     w_description := mi_description info;
     w_author := mi_author info;
     w_bg_image := pickOptImage (mi_bgImageUrl info) (baseField base r_bg_image);
     w_perspective_shot :=
       pickOptImage (mi_perspectiveShotUrl info)
                    (baseField base r_perspective_shot);
     w_more_images :=
       pickImages (mi_moreImagesUrl info) (baseField base r_more_images);
     w_wind_min := mi_windMin info;
     w_wind_max := mi_windMax info;
     w_tidal_strength := mi_tidalStrength info;
     w_team_count := mi_teamCount info;
     w_max_players := mi_maxPlayers info;
     w_mini_map := pickImage (mi_textureMapUrl info) (baseField base r_mini_map);
     w_height_map := pickImage (mi_heightMapUrl info) (baseField base r_height_map);
     w_metal_map := pickImage (mi_metalMapUrl info) (baseField base r_metal_map);
     w_game_tags_ref_2 := mi_mapTags info;
     w_terrain_types := mi_mapTerrains info |}.

(** ** Building the canonical records *)

Definition imagorUrlBase : string :=
  "https://maps-metadata.beyondallreason.dev/i/".

Definition rowyBucket : string := "rowy-1f075.appspot.com".

(** The values an entry of [Object.entries(info)] can hold. *)
Inductive JsVal : Type :=
| JsUndefined : JsVal
| JsNull : JsVal
| JsString (s : string) : JsVal
| JsNumber (z : Z) : JsVal
| JsNaN : JsVal
| JsStrings (l : list string) : JsVal.

(** The object literal [info] as evaluated: the values taken from the CDN
    record and from the derived metadata may be [undefined]. *)
Record RawMapInfo : Type := {
  raw_name : string;
  raw_rowyId : string;
  raw_minimapUrl : string;
  raw_minimapThumbUrl : string;
  raw_downloadUrl : undef_or string;
  raw_width : undef_or Z;
  raw_height : undef_or Z;
  raw_title : option string;
  raw_description : option string;
  raw_author : string;
  raw_bgImageUrl : option string;
  raw_perspectiveShotUrl : option string;
  raw_moreImagesUrl : list string;
  raw_windMin : undef_or Z;
  raw_windMax : undef_or Z;
  raw_tidalStrength : option Z;
  raw_teamCount : Z;
  raw_maxPlayers : Z;
  raw_textureMapUrl : string;
  raw_heightMapUrl : string;
  raw_metalMapUrl : string;
  raw_mapTags : list string;
  raw_mapTerrains : list string
}.

Definition js_num (n : undef_or Z) : JsVal :=
  match n with Undefined => JsUndefined | Defined z => JsNumber z end.

Definition js_str (s : undef_or string) : JsVal :=
  match s with Undefined => JsUndefined | Defined x => JsString x end.

Definition js_nullable_str (s : option string) : JsVal :=
  match s with None => JsNull | Some x => JsString x end.

Definition js_nullable_num (n : option Z) : JsVal :=
  match n with None => JsNull | Some z => JsNumber z end.

(** The double nearest to an integer: 53 significant bits are kept, a tie
    goes to the even neighbour.  An integer below [2^53] is a double. *)
Definition roundToDouble (n : Z) : Z :=
  let a := Z.abs n in
  if (a <? 2 ^ 53)%Z then n
  else
    let e := (Z.log2 a - 52)%Z in
    let q := (a / 2 ^ e)%Z in
    let r := (a mod 2 ^ e)%Z in
    let half := (2 ^ (e - 1))%Z in
    let q' :=
      if (half <? r)%Z || ((r =? half)%Z && Z.odd q) then (q + 1)%Z else q in
    (Z.sgn n * (q' * 2 ^ e))%Z.

(** [a * b] on two numbers that hold integers: the exact product, rounded
    to a double.  Past the largest double (from [2^1024] on) the script
    holds [Infinity]; the model keeps finite numbers only, and what is
    stated of a product is stated below that bound. *)
Definition mulNumber (a b : Z) : Z := roundToDouble (a * b).

(** [width * height]: [NaN] when an operand is [undefined]. *)
Definition js_mul (a b : undef_or Z) : JsVal :=
  match a, b with
  | Defined x, Defined y => JsNumber (mulNumber x y)
  | _, _ => JsNaN
  end.

(** [Object.entries(info)], in the order of the object literal. *)
Definition info_entries (i : RawMapInfo) : list (string * JsVal) :=
  [ ("name", JsString (raw_name i));
    ("rowyId", JsString (raw_rowyId i));
    ("minimapUrl", JsString (raw_minimapUrl i));
    ("minimapThumbUrl", JsString (raw_minimapThumbUrl i));
    ("downloadUrl", js_str (raw_downloadUrl i));
    ("width", js_num (raw_width i));
    ("height", js_num (raw_height i));
    ("mapSize", js_mul (raw_width i) (raw_height i));
    ("title", js_nullable_str (raw_title i));
    ("description", js_nullable_str (raw_description i));
    ("author", JsString (raw_author i));
    ("bgImageUrl", js_nullable_str (raw_bgImageUrl i));
    ("perspectiveShotUrl", js_nullable_str (raw_perspectiveShotUrl i));
    ("moreImagesUrl", JsStrings (raw_moreImagesUrl i));
    ("windMin", js_num (raw_windMin i));
    ("windMax", js_num (raw_windMax i));
    ("tidalStrength", js_nullable_num (raw_tidalStrength i));
    ("teamCount", JsNumber (raw_teamCount i));
    ("maxPlayers", JsNumber (raw_maxPlayers i));
    ("textureMapUrl", JsString (raw_textureMapUrl i));
    ("heightMapUrl", JsString (raw_heightMapUrl i));
    ("metalMapUrl", JsString (raw_metalMapUrl i));
    ("mapTags", JsStrings (raw_mapTags i));
    ("mapTerrains", JsStrings (raw_mapTerrains i)) ].

(** [v === undefined || v === '']. *)
Definition isMissingValue (v : JsVal) : bool :=
  match v with
  | JsUndefined => true
  | JsString s => s =? ""
  | _ => false
  end.

(** The sanity check: the first entry with a missing value raises. *)
Fixpoint checkEntries (spring : string) (es : list (string * JsVal))
  : Error + unit :=
  match es with
  | [] => inr tt
  | (k, v) :: r =>
      if isMissingValue v then inl (MissingValue spring k)
      else checkEntries spring r
  end.

(** The record once the check has passed (no value is [undefined] then; the
    defaults of [reqR] below are never taken, see [checked_info_defined]). *)
Definition checkedInfo (i : RawMapInfo) : WebsiteMapInfo :=
  {| mi_name := raw_name i;
     mi_rowyId := raw_rowyId i;
     mi_minimapUrl := raw_minimapUrl i;
     mi_minimapThumbUrl := raw_minimapThumbUrl i;
     mi_downloadUrl := reqR (raw_downloadUrl i) "";
     mi_width := reqR (raw_width i) 0%Z;
     mi_height := reqR (raw_height i) 0%Z;
     mi_mapSize := mulNumber (reqR (raw_width i) 0%Z) (reqR (raw_height i) 0%Z);
     mi_title := raw_title i;
     mi_description := raw_description i;
     mi_author := raw_author i;
     mi_bgImageUrl := raw_bgImageUrl i;
     mi_perspectiveShotUrl := raw_perspectiveShotUrl i;
     mi_moreImagesUrl := raw_moreImagesUrl i;
     mi_windMin := reqR (raw_windMin i) 0%Z;
     mi_windMax := reqR (raw_windMax i) 0%Z;
     mi_tidalStrength := raw_tidalStrength i;
     mi_teamCount := raw_teamCount i;
     mi_maxPlayers := raw_maxPlayers i;
     mi_textureMapUrl := raw_textureMapUrl i;
     mi_heightMapUrl := raw_heightMapUrl i;
     mi_metalMapUrl := raw_metalMapUrl i;
     mi_mapTags := raw_mapTags i;
     mi_mapTerrains := raw_mapTerrains i |}.

(** [s || null]. *)
Definition or_null (s : undef_or string) : option string :=
  match s with
  | Defined x => if truthy x then Some x else None
  | Undefined => None
  end.

(** [n ?? null]. *)
Definition nullish (n : undef_or Z) : option Z :=
  match n with Defined z => Some z | Undefined => None end.

(** [a[0]]. *)
Definition first {A : Type} (a : list A) : undef_or A :=
  match a with [] => Undefined | x :: _ => Defined x end.

Definition imagorUrl (directive bucket path : string) : string :=
  imagorUrlBase ++ directive ++ "/" ++ bucket ++ "/" ++ encodeURI E path.

Definition fit1024 : string := "fit-in/1024x1024/filters:format(webp):quality(85)".
Definition fit640 : string := "fit-in/640x640/filters:format(webp):quality(85)".
Definition fit2250 : string := "fit-in/2250x/filters:format(webp):quality(85)".
Definition fit1024png : string := "fit-in/1024x1024/filters:format(png)".

(** [a.length > 0 ? url(a[0]!.ref) : null]. *)
Definition firstShotUrl (a : list UploadedFile) : option string :=
  match a with
  | [] => None
  | f :: _ => Some (imagorUrl fit2250 rowyBucket (uf_ref f))
  end.

(** The loop over [derivedInfo.tags]: every tag is [set] under its slug. *)
Definition addTags (allMapTags : JsMap.t WebsiteMapTag) (tags : list string)
  : JsMap.t WebsiteMapTag :=
  fold_left
    (fun m tag =>
       let slug := slugFromName tag in
       JsMap.set m slug {| ws_name := toUpperCase E tag; ws_slug := slug |})
    tags allMapTags.

Definition requiredFiles : list string := ["height.png"; "metal.png"; "texture.jpg"].

(** [assert(meta.extractedFiles.includes(img))] for each required file. *)
Definition includes (l : list string) (x : string) : bool :=
  existsb (fun y => y =? x) l.

Definition assertExtracted (meta : MapMetadata) : Error + unit :=
  if forallb (includes (extractedFiles meta)) requiredFiles then inr tt
  else inl AssertionError.

(** The object literal: [map.photo[0].ref] of an empty [photo] is a
    [TypeError]. *)
Definition rawInfo (rowyId : string) (m : MapInfo) (mi : MapCDNInfo)
  (meta : MapMetadata) (derivedInfo : DerivedInfo) : Error + RawMapInfo :=
  match first (photo m) with
  | Undefined => inl TypeError
  | Defined photo0 =>
      inr {|
        raw_name := displayName m;
        raw_rowyId := rowyId;
        raw_minimapUrl := imagorUrl fit1024 rowyBucket (uf_ref photo0);
        raw_minimapThumbUrl := imagorUrl fit640 rowyBucket (uf_ref photo0);
        raw_downloadUrl := first (mirrors mi);
        raw_width := d_width derivedInfo;
        raw_height := d_height derivedInfo;
        raw_title := or_null (title m);
        raw_description := or_null (description m);
        raw_author := author m;
        raw_bgImageUrl := firstShotUrl (backgroundImage m);
        raw_perspectiveShotUrl := firstShotUrl (perspectiveShot m);
        raw_moreImagesUrl :=
          map (fun i => imagorUrl fit2250 rowyBucket (uf_ref i))
              (inGameShots m);
        raw_windMin := d_windMin derivedInfo;
        raw_windMax := d_windMax derivedInfo;
        raw_tidalStrength := nullish (d_tidalStrength derivedInfo);
        raw_teamCount := teamCount m;
        raw_maxPlayers := playerCount m;
        raw_textureMapUrl :=
          imagorUrl fit1024 (location_bucket meta)
                    (location_path meta ++ "/texture.jpg");
        raw_heightMapUrl :=
          imagorUrl fit1024 (location_bucket meta)
                    (location_path meta ++ "/height.png");
        raw_metalMapUrl :=
          imagorUrl fit1024png (location_bucket meta)
                    (location_path meta ++ "/metal.png");
        raw_mapTags := d_tags derivedInfo;
        raw_mapTerrains := d_terrainOrdered derivedInfo
      |}
  end.

(** One iteration of the loop of [buildWebflowInfo], on the two maps
    built so far. *)
Definition buildStep (cdnInfo : JsMap.t MapCDNInfo)
  (mapsMetadata : JsMap.t MapMetadata)
  (acc : JsMap.t WebsiteMapInfo * JsMap.t WebsiteMapTag)
  (entry : string * MapInfo)
  : Res (JsMap.t WebsiteMapInfo * JsMap.t WebsiteMapTag) :=
  let rowyId := fst entry in
  let m := snd entry in
  match JsMap.get cdnInfo (springName m) with
  | None => inl (MissingDownloadUrl (springName m))
  | Some mi =>
      match JsMap.get mapsMetadata rowyId with
      | None => inl TypeError
      | Some meta =>
          let? _ := assertExtracted meta in
          let derivedInfo := getDerivedInfo E m meta in
          let allMapTags := addTags (snd acc) (d_tags derivedInfo) in
          let? info := rawInfo rowyId m mi meta derivedInfo in
          let? _ := checkEntries (springName m) (info_entries info) in
          inr (JsMap.set (fst acc) rowyId (checkedInfo info), allMapTags)
      end
  end.

Definition buildWebflowInfo (maps : MapList) (cdnInfo : JsMap.t MapCDNInfo)
  (mapsMetadata : JsMap.t MapMetadata)
  : Res (JsMap.t WebsiteMapInfo * JsMap.t WebsiteMapTag) :=
  foldE (buildStep cdnInfo mapsMetadata) maps (JsMap.empty, JsMap.empty).

Definition getRowyMapTerrains : JsMap.t WebsiteMapTerrain :=
  JsMap.of_entries
    (map (fun t => (t, {| ws_name := t; ws_slug := t |})) terrainType_enum).

(** ** Resolving tag and terrain references *)

Definition refsOf (field : RefField) (i : WebsiteMapInfo) : list string :=
  match field with MapTags => mi_mapTags i | MapTerrains => mi_mapTerrains i end.

Definition withRefs (field : RefField) (i : WebsiteMapInfo) (l : list string)
  : WebsiteMapInfo :=
  {| mi_name := mi_name i;
     mi_rowyId := mi_rowyId i;
     mi_minimapUrl := mi_minimapUrl i;
     mi_minimapThumbUrl := mi_minimapThumbUrl i;
     mi_downloadUrl := mi_downloadUrl i;
     mi_width := mi_width i;
     mi_height := mi_height i;
     mi_mapSize := mi_mapSize i;
     mi_title := mi_title i;
     mi_description := mi_description i;
     mi_author := mi_author i;
     mi_bgImageUrl := mi_bgImageUrl i;
     mi_perspectiveShotUrl := mi_perspectiveShotUrl i;
     mi_moreImagesUrl := mi_moreImagesUrl i;
     mi_windMin := mi_windMin i;
     mi_windMax := mi_windMax i;
     mi_tidalStrength := mi_tidalStrength i;
     mi_teamCount := mi_teamCount i;
     mi_maxPlayers := mi_maxPlayers i;
     mi_textureMapUrl := mi_textureMapUrl i;
     mi_heightMapUrl := mi_heightMapUrl i;
     mi_metalMapUrl := mi_metalMapUrl i;
     mi_mapTags := match field with MapTags => l | MapTerrains => mi_mapTags i end;
     mi_mapTerrains :=
       match field with MapTags => mi_mapTerrains i | MapTerrains => l end |}.

Definition resolveRef (field : RefField) (refs : JsMap.t IWebflowItem)
  (dryRun : bool) (ref : string) : Res string :=
  match JsMap.get refs ref with
  | None => if dryRun then inr ref else inl (MissingRef field ref)
  | Some t => inr (item_id (wf_item t))
  end.

Definition resolveItemRefsInMapInfos (mapInfos : JsMap.t WebsiteMapInfo)
  (field : RefField) (refs : JsMap.t IWebflowItem) (dryRun : bool)
  : Res (JsMap.t WebsiteMapInfo) :=
  mapE (fun e =>
          let? l := mapE (resolveRef field refs dryRun) (refsOf field (snd e)) in
          inr (fst e, withRefs field (snd e) l))
       mapInfos.

(** ** The destination's collections

    The destination system is an external collaborator.  Its state is
    modelled as the three listings: a create call appends the returned item
    to the listing, an update call replaces the item with the given
    identifier, a delete call removes it, and a publish call stamps the
    named items. *)

Definition vocabItems (v : Vocabulary) (s : Store)
  : list (CollectionItem NameSlugFields) :=
  match v with Tags => st_tags s | Terrains => st_terrains s end.

Definition setVocabItems (v : Vocabulary)
  (l : list (CollectionItem NameSlugFields)) (s : Store) : Store :=
  match v with
  | Tags => {| st_maps := st_maps s; st_tags := l; st_terrains := st_terrains s |}
  | Terrains => {| st_maps := st_maps s; st_tags := st_tags s; st_terrains := l |}
  end.

Definition setMapItems (l : list (CollectionItem WebflowMapFieldsRead))
  (s : Store) : Store :=
  {| st_maps := l; st_tags := st_tags s; st_terrains := st_terrains s |}.

Definition replaceItem {F : Type} (id : string) (it : CollectionItem F)
  (l : list (CollectionItem F)) : list (CollectionItem F) :=
  map (fun x => if item_id x =? id then it else x) l.

Definition removeItem {F : Type} (id : string) (l : list (CollectionItem F))
  : list (CollectionItem F) :=
  filter (fun x => negb (item_id x =? id)) l.

Definition stamped {F : Type} (ids : list string) (at_ : string)
  (l : list (CollectionItem F)) : list (CollectionItem F) :=
  map (fun x =>
         if includes ids (item_id x)
         then {| item_id := item_id x;
                 item_lastPublished := Defined at_;
                 item_lastUpdated := item_lastUpdated x;
                 item_fieldData := item_fieldData x |}
         else x) l.

Definition deleteFrom (c : Coll) (id : string) (s : Store) : Store :=
  match c with
  | MapsColl => setMapItems (removeItem id (st_maps s)) s
  | VocabColl v => setVocabItems v (removeItem id (vocabItems v s)) s
  end.

Definition publishIn (c : Coll) (ids : list string) (s : Store) : Store :=
  match c with
  | MapsColl => setMapItems (stamped ids (publishedAt E s) (st_maps s)) s
  | VocabColl v =>
      setVocabItems v (stamped ids (publishedAt E s) (vocabItems v s)) s
  end.

(** A call through [limiter.schedule]: it is recorded, and either fails
    (the store is left as it was) or takes effect. *)
Definition attempt {A : Type} (c : Call) (effect : Store -> Store * A) : M A :=
  fun s =>
    if callFails E s c then (s, [c], inl (RemoteError c))
    else (fst (effect s), [c], inr (snd (effect s))).

Definition createItem (v : Vocabulary) (fields : NameSlugFields)
  : M (CollectionItem NameSlugFields) :=
  attempt (CreateItem (VocabColl v) (NameSlugPayload fields))
    (fun s =>
       let it := createdItem E s v fields in
       (setVocabItems v (vocabItems v s ++ [it]) s, it)).

Definition updateItem (v : Vocabulary) (id : string) (fields : NameSlugFields)
  : M (CollectionItem NameSlugFields) :=
  attempt (UpdateItem (VocabColl v) id (NameSlugPayload fields))
    (fun s =>
       let it := updatedItem E s v id fields in
       (setVocabItems v (replaceItem id it (vocabItems v s)) s, it)).

Definition createMapItem (fields : WebflowMapFieldsWrite)
  : M (CollectionItem WebflowMapFieldsRead) :=
  attempt (CreateItem MapsColl (MapPayload fields))
    (fun s =>
       let it := createdMap E s fields in
       (setMapItems (st_maps s ++ [it]) s, it)).

Definition updateMapItem (id : string) (fields : WebflowMapFieldsWrite)
  : M (CollectionItem WebflowMapFieldsRead) :=
  attempt (UpdateItem MapsColl id (MapPayload fields))
    (fun s =>
       let it := updatedMap E s id fields in
       (setMapItems (replaceItem id it (st_maps s)) s, it)).

Definition deleteItem (c : Coll) (id : string) : M unit :=
  attempt (DeleteItem c id) (fun s => (deleteFrom c id s, tt)).

Definition publishItem (c : Coll) (ids : list string) : M unit :=
  attempt (PublishItem c ids) (fun s => (publishIn c ids s, tt)).

(** ** Reading the destination *)

(** [listItems(collection.id, { limit, offset })]. *)
Definition listItems {F : Type} (items : list (CollectionItem F))
  (limit offset : nat) : list (CollectionItem F) :=
  firstn limit (skipn offset items).

(** The paging loop of [getAllWebflowItems]: it stops at the first empty
    page.  [fuel] bounds the number of requests. *)
Fixpoint getAllWebflowItems_from {F : Type} (fuel offset : nat)
  (items : list (CollectionItem F)) : list (CollectionItem F) :=
  match fuel with
  | O => []
  | S fuel' =>
      match listItems items 100 offset with
      | [] => []
      | page => page ++ getAllWebflowItems_from fuel' (offset + 100) items
      end
  end.

Definition getAllWebflowItems {F : Type} (items : list (CollectionItem F))
  : list (CollectionItem F) :=
  getAllWebflowItems_from (S (length items)) 0 items.

Definition withRowyId (w : WebflowMapInfo) (rowyId : string) : WebflowMapInfo :=
  let i := wm_info w in
  {| wm_info :=
       {| mi_name := mi_name i;
          mi_rowyId := rowyId;
          mi_minimapUrl := mi_minimapUrl i;
          mi_minimapThumbUrl := mi_minimapThumbUrl i;
          mi_downloadUrl := mi_downloadUrl i;
          mi_width := mi_width i;
          mi_height := mi_height i;
          mi_mapSize := mi_mapSize i;
          mi_title := mi_title i;
          mi_description := mi_description i;
          mi_author := mi_author i;
          mi_bgImageUrl := mi_bgImageUrl i;
          mi_perspectiveShotUrl := mi_perspectiveShotUrl i;
          mi_moreImagesUrl := mi_moreImagesUrl i;
          mi_windMin := mi_windMin i;
          mi_windMax := mi_windMax i;
          mi_tidalStrength := mi_tidalStrength i;
          mi_teamCount := mi_teamCount i;
          mi_maxPlayers := mi_maxPlayers i;
          mi_textureMapUrl := mi_textureMapUrl i;
          mi_heightMapUrl := mi_heightMapUrl i;
          mi_metalMapUrl := mi_metalMapUrl i;
          mi_mapTags := mi_mapTags i;
          mi_mapTerrains := mi_mapTerrains i |};
     wm_item := wm_item w;
     wm_fieldData := wm_fieldData w |}.

Definition string_of_nat (n : nat) : string :=
  NilEmpty.string_of_uint (Nat.to_uint n).

(** The indexing loop of [getAllWebflowMaps]: a record whose [rowyId] is
    already a key is renamed with the next [-bad] suffix, then [set]. *)
Definition indexMapStep (acc : JsMap.t WebflowMapInfo * nat)
  (w : WebflowMapInfo) : JsMap.t WebflowMapInfo * nat :=
  let res := fst acc in
  let dupId := snd acc in
  if JsMap.has res (mi_rowyId (wm_info w)) then
    let w' := withRowyId w (mi_rowyId (wm_info w) ++ "-bad" ++ string_of_nat dupId) in
    (JsMap.set res (mi_rowyId (wm_info w')) w', S dupId)
  else (JsMap.set res (mi_rowyId (wm_info w)) w, dupId).

Definition indexMaps (maps : list WebflowMapInfo) : JsMap.t WebflowMapInfo :=
  fst (fold_left indexMapStep maps (JsMap.empty, O)).

Definition getAllWebflowMaps : M (JsMap.t WebflowMapInfo) :=
  fun s =>
    (s, [],
     let? maps := mapE newWebflowMapInfo (getAllWebflowItems (st_maps s)) in
     inr (indexMaps maps)).

Definition indexBySlug (l : list IWebflowItem) : JsMap.t IWebflowItem :=
  JsMap.of_entries (map (fun t => (wf_slug t, t)) l).

Definition getAllWebflowMapTags : M (JsMap.t IWebflowItem) :=
  fun s =>
    (s, [],
     let? tags := mapE (construct WebflowMapTag)
                       (getAllWebflowItems (vocabItems Tags s)) in
     inr (indexBySlug tags)).

Definition getAllWebflowMapTerrains : M (JsMap.t IWebflowItem) :=
  fun s =>
    (s, [],
     let? terrains := mapE (construct WebflowMapTerrain)
                           (getAllWebflowItems (vocabItems Terrains s)) in
     inr (indexBySlug terrains)).

(** ** The collection reconciler *)

(** [assert(item.fieldData!.slug!)], giving the slug. *)
Definition assertSlug (item : CollectionItem NameSlugFields) : Res string :=
  match item_fieldData item with
  | Undefined => inl TypeError
  | Defined o => if truthy (nf_slug o) then inr (nf_slug o) else inl AssertionError
  end.

(** [dest.set(item.fieldData!.slug!, new webflowItemType(item))] after the
    assertion. *)
Definition recordItem (webflowItemType : IWebflowItemType)
  (dest : JsMap.t IWebflowItem) (item : CollectionItem NameSlugFields)
  : Res (JsMap.t IWebflowItem) :=
  let? slug := assertSlug item in
  let? w := construct webflowItemType item in
  inr (JsMap.set dest slug w).

(** One iteration of [syncCollectionToWebflowAdditions], on the [dest] map
    as mutated so far. *)
Definition additionStep (webflowItemType : IWebflowItemType)
  (equals : IWebsiteItem -> IWebflowItem -> bool) (v : Vocabulary)
  (dryRun : bool) (dest : JsMap.t IWebflowItem) (item : IWebsiteItem)
  : M (JsMap.t IWebflowItem) :=
  match JsMap.get dest (ws_slug item) with
  | None =>
      let fields := generateFields webflowItemType item in
      if negb dryRun then
        let! created := createItem v fields in
        liftE (recordItem webflowItemType dest created)
      else ret dest
  | Some webflowTag =>
      if negb (equals item webflowTag) then
        let fields := generateFields webflowItemType item in
        if negb dryRun then
          let! updated := updateItem v (item_id (wf_item webflowTag)) fields in
          liftE (recordItem webflowItemType dest updated)
        else ret dest
      else ret dest
  end.

Definition syncCollectionToWebflowAdditions
  (webflowItemType : IWebflowItemType)
  (equals : IWebsiteItem -> IWebflowItem -> bool)
  (src : JsMap.t IWebsiteItem) (dest : JsMap.t IWebflowItem)
  (v : Vocabulary) (dryRun : bool) : M (JsMap.t IWebflowItem) :=
  foldM (additionStep webflowItemType equals v dryRun) (JsMap.values src) dest.

(** One iteration of [syncCollectionToWebflowRemovals].  The loop walks
    [dest.values()] while deleting from [dest]: an entry deleted before the
    walk reaches it is not visited, which [JsMap.has dest] of its key tells
    (the loop only deletes). *)
Definition removalStep (v : Vocabulary) (src : JsMap.t IWebsiteItem)
  (dryRun : bool) (dest : JsMap.t IWebflowItem) (entry : string * IWebflowItem)
  : M (JsMap.t IWebflowItem) :=
  let item := snd entry in
  if negb (JsMap.has dest (fst entry)) then ret dest
  else if negb (JsMap.has src (wf_slug item)) then
    if negb dryRun then
      let! _ := deleteItem (VocabColl v) (item_id (wf_item item)) in
      ret (JsMap.delete dest (wf_slug item))
    else ret dest
  else ret dest.

Definition syncCollectionToWebflowRemovals (v : Vocabulary)
  (src : JsMap.t IWebsiteItem) (dest : JsMap.t IWebflowItem) (dryRun : bool)
  : M (JsMap.t IWebflowItem) :=
  foldM (removalStep v src dryRun) dest dest.

Definition syncMapTagsToWebflowAdditions (src : JsMap.t WebsiteMapTag)
  (dest : JsMap.t IWebflowItem) (dryRun : bool) : M (JsMap.t IWebflowItem) :=
  syncCollectionToWebflowAdditions WebflowMapTag
    (fun a b => isWebsiteMapTagEqual a (asWebsiteItem b)) src dest Tags dryRun.

Definition syncMapTagsToWebflowRemovals (src : JsMap.t WebsiteMapTag)
  (dest : JsMap.t IWebflowItem) (dryRun : bool) : M (JsMap.t IWebflowItem) :=
  syncCollectionToWebflowRemovals Tags src dest dryRun.

(** The terrain additions pass the tag item type, as the script does. *)
Definition syncMapTerrainsToWebflowAdditions (src : JsMap.t WebsiteMapTerrain)
  (dest : JsMap.t IWebflowItem) (dryRun : bool) : M (JsMap.t IWebflowItem) :=
  syncCollectionToWebflowAdditions WebflowMapTag
    (fun a b => isWebsiteMapTerrainEqual a (asWebsiteItem b))
    src dest Terrains dryRun.

Definition syncMapTerrainsToWebflowRemovals (src : JsMap.t WebsiteMapTerrain)
  (dest : JsMap.t IWebflowItem) (dryRun : bool) : M (JsMap.t IWebflowItem) :=
  syncCollectionToWebflowRemovals Terrains src dest dryRun.

(** ** Reconciling the maps *)

(** An entry of [updatesP]: the outcome of the comparison, the canonical
    record and the destination record it was compared with. *)
Definition Update : Type := (bool * WebsiteMapInfo * WebflowMapInfo)%type.

(** First loop of [syncMapsToWebflow]: additions, and the comparisons
    queued for the third loop. *)
Definition mapAdditionStep (dryRun : bool)
  (acc : JsMap.t WebflowMapInfo * list Update) (m : WebsiteMapInfo)
  : M (JsMap.t WebflowMapInfo * list Update) :=
  let dest := fst acc in
  let updatesP := snd acc in
  match JsMap.get dest (mi_rowyId m) with
  | None =>
      let fields := generateMapFields m Undefined in
      if negb dryRun then
        let! item := createMapItem fields in
        let! w := liftE (newWebflowMapInfo item) in
        ret (JsMap.set dest (mi_rowyId m) w, updatesP)
      else ret acc
  | Some webflowMap =>
      ret (dest,
           updatesP ++ [(isWebflowMapInfoEqual m (wm_info webflowMap), m, webflowMap)])
  end.

(** Second loop: removals, walking [dest.values()] as [removalStep] does. *)
Definition mapRemovalStep (src : JsMap.t WebsiteMapInfo) (dryRun : bool)
  (dest : JsMap.t WebflowMapInfo) (entry : string * WebflowMapInfo)
  : M (JsMap.t WebflowMapInfo) :=
  let w := snd entry in
  if negb (JsMap.has dest (fst entry)) then ret dest
  else if negb (JsMap.has src (mi_rowyId (wm_info w))) then
    if negb dryRun then
      let! _ := deleteItem MapsColl (item_id (wm_item w)) in
      ret (JsMap.delete dest (mi_rowyId (wm_info w)))
    else ret dest
  else ret dest.

(** Third loop: the updates of the records found different. *)
Definition mapUpdateStep (dryRun : bool) (dest : JsMap.t WebflowMapInfo)
  (u : Update) : M (JsMap.t WebflowMapInfo) :=
  let m := snd (fst u) in
  let webflowMap := snd u in
  let fields := generateMapFields m (Defined webflowMap) in
  if negb dryRun then
    let! item := updateMapItem (item_id (wm_item webflowMap)) fields in
    let! w := liftE (newWebflowMapInfo item) in
    ret (JsMap.set dest (mi_rowyId m) w)
  else ret dest.

Definition syncMapsToWebflow (src : JsMap.t WebsiteMapInfo)
  (dest : JsMap.t WebflowMapInfo) (dryRun : bool)
  : M (JsMap.t WebflowMapInfo) :=
  let! acc := foldM (mapAdditionStep dryRun) (JsMap.values src) (dest, []) in
  let! dest1 := foldM (mapRemovalStep src dryRun) (fst acc) (fst acc) in
  let updates := filter (fun u => negb (fst (fst u))) (snd acc) in
  foldM (mapUpdateStep dryRun) updates dest1.

(** ** Publishing *)

(** [Date.parse(d)], with [NaN] for [undefined]. *)
Definition parseDate (d : undef_or string) : option Z :=
  match d with Undefined => None | Defined s => Date_parse E s end.

(** [!i.lastPublished || Date.parse(i.lastPublished) < Date.parse(i.lastUpdated!)]:
    a comparison with [NaN] is false. *)
Definition needsPublish {F : Type} (i : CollectionItem F) : bool :=
  match item_lastPublished i with
  | Undefined => true
  | Defined p =>
      if negb (truthy p) then true
      else match Date_parse E p, parseDate (item_lastUpdated i) with
           | Some tp, Some tu => (tp <? tu)%Z
           | _, _ => false
           end
  end.

Definition chunkSize : nat := 100.

(** The chunking loop, from index [i]; [fuel] bounds the iterations. *)
Fixpoint publishChunks (fuel i : nat) (itemIds : list string)
  : list (list string) :=
  match fuel with
  | O => []
  | S fuel' =>
      if (i <? length itemIds)%nat
      then slice i (i + chunkSize) itemIds
             :: publishChunks fuel' (i + chunkSize) itemIds
      else []
  end.

Definition publishUpdatedWebflowItems {F : Type} (c : Coll)
  (items : list (CollectionItem F)) (dryRun : bool) : M unit :=
  let itemIds := map item_id (filter needsPublish items) in
  if negb dryRun then
    foldM (fun (_ : unit) itemIdsChunk => publishItem c itemIdsChunk)
          (publishChunks (length itemIds) 0 itemIds) tt
  else ret tt.

(** ** The sync command *)

Record Source : Type := {
  src_maps : MapList;
  src_cdnInfo : JsMap.t MapCDNInfo;
  src_mapsMetadata : JsMap.t MapMetadata
}.

Definition syncCommand (src : Source) (dryRun : bool) : M unit :=
  let! webflowMaps := getAllWebflowMaps in
  let! webflowMapTags := getAllWebflowMapTags in
  let! webflowMapTerrains := getAllWebflowMapTerrains in
  let! built := liftE (buildWebflowInfo (src_maps src) (src_cdnInfo src)
                                        (src_mapsMetadata src)) in
  let rowyMapsInfo := fst built in
  let rowyMapTagsInfo := snd built in
  let rowyMapTerrainsInfo := getRowyMapTerrains in
  let! webflowMapTags :=
    syncMapTagsToWebflowAdditions rowyMapTagsInfo webflowMapTags dryRun in
  let! rowyMapsInfo :=
    liftE (resolveItemRefsInMapInfos rowyMapsInfo MapTags webflowMapTags dryRun) in
  let! webflowMapTerrains :=
    syncMapTerrainsToWebflowAdditions rowyMapTerrainsInfo webflowMapTerrains dryRun in
  let! rowyMapsInfo :=
    liftE (resolveItemRefsInMapInfos rowyMapsInfo MapTerrains webflowMapTerrains
                                     dryRun) in
  let! webflowMaps := syncMapsToWebflow rowyMapsInfo webflowMaps dryRun in
  let! _ := publishUpdatedWebflowItems (VocabColl Terrains)
              (map wf_item (JsMap.values webflowMapTerrains)) dryRun in
  let! _ := publishUpdatedWebflowItems (VocabColl Tags)
              (map wf_item (JsMap.values webflowMapTags)) dryRun in
  let! _ := publishUpdatedWebflowItems MapsColl
              (map wm_item (JsMap.values webflowMaps)) dryRun in
  let! webflowMapTags :=
    syncMapTagsToWebflowRemovals rowyMapTagsInfo webflowMapTags dryRun in
  let! _ :=
    syncMapTerrainsToWebflowRemovals rowyMapTerrainsInfo webflowMapTerrains dryRun in
  ret tt.

(** ** Notions used to state the properties *)

(** The tag names [buildWebflowInfo] meets, in the order it meets them. *)
Definition discoveredTags (maps : MapList) (mapsMetadata : JsMap.t MapMetadata)
  : list string :=
  flat_map
    (fun e =>
       match JsMap.get mapsMetadata (fst e) with
       | Some meta => d_tags (getDerivedInfo E (snd e) meta)
       | None => []
       end) maps.

(** An existing asset has the digest of the desired URL. *)
Definition sameDigest (url : string) (a : WebflowImageRef) : bool :=
  getImageHash (Some (img_url a)) =? getImageHash (Some url).

(** The last existing asset with the digest of the desired URL. *)
Definition lastWithDigest (url : string) (base : list WebflowImageRef)
  : option WebflowImageRef :=
  find (sameDigest url) (rev base).

(** The entry [out] written for [url] is the handle of the last asset of
    [base] with the digest of [url], or [url] itself when there is none. *)
Definition lastDigestMatched (base : list WebflowImageRef) (url out : string)
  : Prop :=
  (exists before a after,
     base = before ++ a :: after /\ sameDigest url a = true /\
     (forall b, In b after -> sameDigest url b = false) /\
     out = img_fileId a) \/
  ((forall a, In a base -> sameDigest url a = false) /\ out = url).

(** What the specification asks of the resolver of one list entry. *)
Definition digestMatched (base : list WebflowImageRef) (url out : string)
  : Prop :=
  (exists a, In a base /\ sameDigest url a = true /\ out = img_fileId a) \/
  ((forall a, In a base -> sameDigest url a = false) /\ out = url).

(** What a dry run writes for a reference: the identifier of the item
    found, the reference itself when there is none. *)
Definition keepUnresolved (refs : JsMap.t IWebflowItem) (ref : string) : string :=
  match JsMap.get refs ref with
  | Some t => item_id (wf_item t)
  | None => ref
  end.






(** *** Notions for the idempotence of a sync *)

(** The natural keys the script reads from destination items. *)
Definition slugOf (it : CollectionItem NameSlugFields) : string :=
  match item_fieldData it with Defined o => nf_slug o | Undefined => "" end.

Definition rowyIdOf (it : CollectionItem WebflowMapFieldsRead) : string :=
  match item_fieldData it with
  | Defined o => reqRStr (r_rowyid o)
  | Undefined => ""
  end.

(** A destination without duplicates: in each collection the identifiers
    are pairwise distinct and so are the natural keys (slug, row id). *)
Definition uniquelyKeyed (s : Store) : Prop :=
  NoDup (map item_id (st_maps s)) /\ NoDup (map rowyIdOf (st_maps s)) /\
  NoDup (map item_id (st_tags s)) /\ NoDup (map slugOf (st_tags s)) /\
  NoDup (map item_id (st_terrains s)) /\ NoDup (map slugOf (st_terrains s)).

(** An image URL as [buildWebflowInfo] makes them. *)
Definition canonicalUrl (u : string) : Prop := prefix imagorUrlBase u = true.

Definition canonicalImages (i : WebsiteMapInfo) : Prop :=
  canonicalUrl (mi_minimapUrl i) /\
  canonicalUrl (mi_minimapThumbUrl i) /\
  (forall u, mi_bgImageUrl i = Some u -> canonicalUrl u) /\
  (forall u, mi_perspectiveShotUrl i = Some u -> canonicalUrl u) /\
  Forall canonicalUrl (mi_moreImagesUrl i) /\
  canonicalUrl (mi_textureMapUrl i) /\
  canonicalUrl (mi_heightMapUrl i) /\
  canonicalUrl (mi_metalMapUrl i).

(** The record [w] is the reading of an item of the store. *)
Definition readFromStore (w : WebflowMapInfo) (s : Store) : Prop :=
  exists it, In it (st_maps s) /\
    item_id it = item_id (wm_item w) /\
    item_fieldData it = Defined (wm_fieldData w).

(** What idempotence asks of the destination, for the stores [good] it can
    be in: a created item has a fresh identifier, an updated item keeps its
    identifier, a tag or terrain is stored as written, and a map written
    from a canonical record reads back as a record equal to it. *)
Record DestinationContract (good : Store -> Prop) : Prop := {
  dc_create_vocab : forall s v f,
    good s ->
    item_fieldData (createdItem E s v f) = Defined f /\
    ~ In (item_id (createdItem E s v f)) (map item_id (vocabItems v s)) /\
    good (setVocabItems v (vocabItems v s ++ [createdItem E s v f]) s);
  dc_update_vocab : forall s v id f,
    good s ->
    item_id (updatedItem E s v id f) = id /\
    item_fieldData (updatedItem E s v id f) = Defined f /\
    good (setVocabItems v
            (replaceItem id (updatedItem E s v id f) (vocabItems v s)) s);
  dc_delete : forall s c id, good s -> good (deleteFrom c id s);
  dc_publish : forall s c ids, good s -> good (publishIn c ids s);
  dc_create_map : forall s info,
    good s -> canonicalImages info ->
    let it := createdMap E s (generateMapFields info Undefined) in
    ~ In (item_id it) (map item_id (st_maps s)) /\
    (exists o, item_fieldData it = Defined o /\
               isWebflowMapInfoEqual info (readMapFields o) = true) /\
    good (setMapItems (st_maps s ++ [it]) s);
  dc_update_map : forall s info w,
    good s -> canonicalImages info -> readFromStore w s ->
    let it := updatedMap E s (item_id (wm_item w))
                (generateMapFields info (Defined w)) in
    item_id it = item_id (wm_item w) /\
    (exists o, item_fieldData it = Defined o /\
               isWebflowMapInfoEqual info (readMapFields o) = true) /\
    good (setMapItems (replaceItem (item_id (wm_item w)) it (st_maps s)) s)
}.

(** A source map: every entry is stored under the key of its value. *)
Definition keyedBy {V : Type} (key : V -> string) (m : JsMap.t V) : Prop :=
  NoDup (JsMap.keys m) /\ forall e, In e m -> fst e = key (snd e).

(** A vocabulary of the destination needs no call: every source item is
    there under its slug with the same name, and nothing else is. *)
Definition vocabSettled (src : JsMap.t IWebsiteItem)
  (dest : JsMap.t IWebflowItem) : Prop :=
  (forall i, In i (JsMap.values src) ->
     exists w, JsMap.get dest (ws_slug i) = Some w /\
               isSameItem i (asWebsiteItem w) = true) /\
  (forall e, In e dest -> JsMap.has src (wf_slug (snd e)) = true).

(** The maps of the destination need no call. *)
Definition mapsSettled (src : JsMap.t WebsiteMapInfo)
  (dest : JsMap.t WebflowMapInfo) : Prop :=
  (forall m, In m (JsMap.values src) ->
     exists w, JsMap.get dest (mi_rowyId m) = Some w /\
               isWebflowMapInfoEqual m (wm_info w) = true) /\
  (forall e, In e dest -> JsMap.has src (mi_rowyId (wm_info (snd e))) = true).

(** The map [dest] the script holds mirrors the listing [items] of a
    collection: entry by entry, in order, related by [rel], with distinct
    keys and distinct identifiers. *)
Definition linked {W F : Type} (rel : string -> W -> CollectionItem F -> Prop)
  (dest : JsMap.t W) (items : list (CollectionItem F)) : Prop :=
  Forall2 (fun e it => rel (fst e) (snd e) it) dest items /\
  NoDup (JsMap.keys dest) /\ NoDup (map item_id items).

(** A tag or terrain record stands for an item: same identifier, and the
    item's field data hold the record's name and slug, the slug being the
    key.  Time stamps are left out. *)
Definition vocabRel (k : string) (w : IWebflowItem)
  (it : CollectionItem NameSlugFields) : Prop :=
  item_id (wf_item w) = item_id it /\
  item_fieldData it = Defined {| nf_name := wf_name w; nf_slug := wf_slug w |} /\
  k = wf_slug w.

(** A map record stands for an item. *)
Definition mapRel (k : string) (w : WebflowMapInfo)
  (it : CollectionItem WebflowMapFieldsRead) : Prop :=
  item_id (wm_item w) = item_id it /\
  item_fieldData it = Defined (wm_fieldData w) /\
  wm_info w = readMapFields (wm_fieldData w) /\
  k = mi_rowyId (wm_info w).

(** Mutating calls by kind. *)
Definition isCreate (c : Call) : bool :=
  match c with CreateItem _ _ => true | _ => false end.

Definition isUpdate (c : Call) : bool :=
  match c with UpdateItem _ _ _ => true | _ => false end.

Definition isDelete (c : Call) : bool :=
  match c with DeleteItem _ _ => true | _ => false end.

Definition isPublish (c : Call) : bool :=
  match c with PublishItem _ _ => true | _ => false end.

Definition callColl (c : Call) : Coll :=
  match c with
  | CreateItem k _ | UpdateItem k _ _ | DeleteItem k _ | PublishItem k _ => k
  end.

Definition isMapsColl (c : Coll) : bool :=
  match c with MapsColl => true | VocabColl _ => false end.

(** A delete call on the tag or the terrain collection. *)
Definition isVocabDelete (c : Call) : bool :=
  match c with DeleteItem (VocabColl _) _ => true | _ => false end.

(** A call on the map collection. *)
Definition touchesMaps (c : Call) : bool := isMapsColl (callColl c).

(** A create, update or delete call. *)
Definition isReconcileCall (c : Call) : bool :=
  isCreate c || isUpdate c || isDelete c.

(** The identifiers published by a sequence of calls, in order. *)
Definition publishedIds (calls : list Call) : list string :=
  flat_map (fun c => match c with PublishItem _ ids => ids | _ => [] end) calls.

(** The item has no [lastPublished] time stamp. *)
Definition neverPublished {F : Type} (i : CollectionItem F) : Prop :=
  item_lastPublished i = Undefined \/ item_lastPublished i = Defined "".

(** The item was published at a time strictly before its last update:
    both time stamps are there, both are dates, and the first is the
    earlier one. *)
Definition publishedBeforeUpdate {F : Type} (i : CollectionItem F) : Prop :=
  exists p u tp tu,
    item_lastPublished i = Defined p /\
    item_lastUpdated i = Defined u /\
    Date_parse E p = Some tp /\
    Date_parse E u = Some tu /\
    (tp < tu)%Z.

(** The item was published at or after its last update. *)
Definition publishedSinceUpdate {F : Type} (i : CollectionItem F) : Prop :=
  exists p u tp tu,
    item_lastPublished i = Defined p /\ p <> "" /\
    item_lastUpdated i = Defined u /\
    Date_parse E p = Some tp /\
    Date_parse E u = Some tu /\
    (tu <= tp)%Z.

(** Every call a computation attempts satisfies [P], from any store. *)
Definition allCalls {A : Type} (P : Call -> Prop) (m : M A) : Prop :=
  forall s, Forall P (run_calls (m s)).

(** A computation that attempts no call and leaves the store as it is. *)
Definition silent {A : Type} (m : M A) : Prop :=
  forall s, run_store (m s) = s /\ run_calls (m s) = [].

(** The calls of a computation fall in two phases: first calls satisfying
    [P], then calls satisfying [Q]. *)
Definition twoPhases {A : Type} (P Q : Call -> Prop) (m : M A) : Prop :=
  forall s, exists l1 l2,
    run_calls (m s) = l1 ++ l2 /\ Forall P l1 /\ Forall Q l2.

End Model.

(** ** Notions used by the properties *)

(** The three ways a source map is rejected. *)
Definition incomplete (E : Env) (cdnInfo : JsMap.t MapCDNInfo)
  (mapsMetadata : JsMap.t MapMetadata) (rowyId : string) (m : MapInfo) : Prop :=
  JsMap.get cdnInfo (springName m) = None \/
  (exists meta f,
     JsMap.get mapsMetadata rowyId = Some meta /\
     In f requiredFiles /\ ~ In f (extractedFiles meta)) \/
  (exists mi meta info k v,
     JsMap.get cdnInfo (springName m) = Some mi /\
     JsMap.get mapsMetadata rowyId = Some meta /\
     rawInfo E rowyId m mi meta (getDerivedInfo E m meta) = inr info /\
     In (k, v) (info_entries info) /\
     (v = JsUndefined \/ v = JsString "")).

Definition entryOfMap (w : WebflowMapInfo) : string * WebflowMapInfo :=
  (mi_rowyId (wm_info w), w).

Definition vocabId (w : IWebflowItem) : string := item_id (wf_item w).

Definition keptBy (src : JsMap.t IWebsiteItem) (e : string * IWebflowItem) : bool :=
  JsMap.has src (wf_slug (snd e)).

(** The three maps of the script mirror the three listings. *)
Definition mirrored (maps : JsMap.t WebflowMapInfo)
  (tags terrains : JsMap.t IWebflowItem) (s : Store) : Prop :=
  linked mapRel maps (st_maps s) /\
  linked vocabRel tags (vocabItems Tags s) /\
  linked vocabRel terrains (vocabItems Terrains s).

Definition mapId (w : WebflowMapInfo) : string := item_id (wm_item w).

Definition ukey (u : Update) : string := mi_rowyId (snd (fst u)).

Definition keptMap (src : JsMap.t WebsiteMapInfo)
  (e : string * WebflowMapInfo) : bool :=
  JsMap.has src (mi_rowyId (wm_info (snd e))).

(** The canonical records of a build are stored under their row identifier
    and hold image URLs of the image proxy; the vocabulary is stored under
    the slugs. *)
Definition wellBuilt (b : JsMap.t WebsiteMapInfo * JsMap.t WebsiteMapTag) : Prop :=
  keyedBy mi_rowyId (fst b) /\
  (forall m, In m (JsMap.values (fst b)) -> canonicalImages m) /\
  keyedBy ws_slug (snd b).

(** What a complete run leaves: local maps that mirror the store, settled
    against the vocabularies and the records the run has built. *)
Record Reconciled (E : Env) (src : Source) (s : Store)
  (rc_infos : JsMap.t WebsiteMapInfo) (rc_tags : JsMap.t WebsiteMapTag)
  (rc_i1 rc_i2 : JsMap.t WebsiteMapInfo)
  (rc_tagRefs rc_terrainRefs : JsMap.t IWebflowItem)
  (rc_maps : JsMap.t WebflowMapInfo)
  (rc_mapTags rc_mapTerrains : JsMap.t IWebflowItem) : Prop := {
  rc_built :
    buildWebflowInfo E (src_maps src) (src_cdnInfo src) (src_mapsMetadata src)
    = inr (rc_infos, rc_tags);
  rc_resolved1 :
    resolveItemRefsInMapInfos rc_infos MapTags rc_tagRefs false = inr rc_i1;
  rc_resolved2 :
    resolveItemRefsInMapInfos rc_i1 MapTerrains rc_terrainRefs false = inr rc_i2;
  rc_tagRefs_keys : NoDup (JsMap.keys rc_tagRefs);
  rc_terrainRefs_keys : NoDup (JsMap.keys rc_terrainRefs);
  rc_tags_kept : forall e, In e rc_mapTags -> In e rc_tagRefs;
  rc_terrains_kept : forall e, In e rc_mapTerrains -> In e rc_terrainRefs;
  rc_linked_maps : linked mapRel rc_maps (st_maps s);
  rc_linked_tags : linked vocabRel rc_mapTags (st_tags s);
  rc_linked_terrains : linked vocabRel rc_mapTerrains (st_terrains s);
  rc_settled_tags : vocabSettled rc_tags rc_mapTags;
  rc_settled_terrains : vocabSettled getRowyMapTerrains rc_mapTerrains;
  rc_settled_maps : mapsSettled E rc_i2 rc_maps
}.

(** ** A concrete environment

    A small destination used to run the model on concrete inputs: the image
    behind [cdn:u] has the bytes of the one behind [u], an uploaded URL [u]
    is hosted at [cdn:u] under the handle [file:u], items are returned as
    written, no call fails, time stamps are decimal numbers, and the case
    mappings are those of ASCII strings (the names and tags of the concrete
    inputs are ASCII). *)

Definition stripPrefix (p s : string) : string :=
  if prefix p s then substring (String.length p) (String.length s - String.length p) s
  else s.

Definition demoDigest (u : string) : string := "sha256:" ++ stripPrefix "cdn:" u.

Definition demoHost (s : string) : WebflowImageRef :=
  let u := stripPrefix "file:" s in
  {| img_fileId := "file:" ++ u; img_url := "cdn:" ++ u |}.

Definition demoParse (s : string) : option Z :=
  match NilEmpty.uint_of_string s with
  | Some d => Some (Z.of_uint d)
  | None => None
  end.

Definition demoStored (f : WebflowMapFieldsWrite) : WebflowMapFieldsRead :=
  {| r_name := w_name f;
     r_slug := w_slug f;
     r_rowyid := Defined (w_rowyid f);
     r_minimap := Defined (demoHost (w_minimap f));
     r_minimap_photo_thumb := Defined (demoHost (w_minimap_photo_thumb f));
     r_downloadurl := Defined (w_downloadurl f);
     r_width := Defined (w_width f);
     r_height := Defined (w_height f);
     r_mapsize := Defined (w_mapsize f);
     r_title := match w_title f with Some t => Defined t | None => Undefined end;
     r_description :=
       match w_description f with Some t => Defined t | None => Undefined end;
     r_author := Defined (w_author f);
     r_bg_image :=
       match w_bg_image f with Some i => Defined (demoHost i) | None => Undefined end;
     r_perspective_shot :=
       match w_perspective_shot f with
       | Some i => Defined (demoHost i)
       | None => Undefined
       end;
     r_more_images := Defined (map demoHost (w_more_images f));
     r_wind_min := Defined (w_wind_min f);
     r_wind_max := Defined (w_wind_max f);
     r_tidal_strength :=
       match w_tidal_strength f with Some t => Defined t | None => Undefined end;
     r_team_count := Defined (w_team_count f);
     r_max_players := Defined (w_max_players f);
     r_mini_map := Defined (demoHost (w_mini_map f));
     r_height_map := Defined (demoHost (w_height_map f));
     r_metal_map := Defined (demoHost (w_metal_map f));
     r_game_tags_ref_2 := Defined (w_game_tags_ref_2 f);
     r_terrain_types := Defined (w_terrain_types f) |}.

(** An identifier longer than every identifier of the list. *)
Fixpoint padding (n : nat) : string :=
  match n with
  | O => ""
  | S n' => String "0" (padding n')
  end.

Definition mintId (ids : list string) : string :=
  String "i" (padding (list_max (map String.length ids))).

Definition demoItem {F : Type} (id : string) (f : F) : CollectionItem F :=
  {| item_id := id;
     item_lastPublished := Undefined;
     item_lastUpdated := Defined "200";
     item_fieldData := Defined f |}.

(** Every map derives the given tags, an 8 by 12 size, and no terrain. *)
Definition demoDerived (tags : list string) (m : MapInfo) (meta : MapMetadata)
  : DerivedInfo :=
  {| d_tags := tags;
     d_width := Defined 8%Z;
     d_height := Defined 12%Z;
     d_windMin := Defined 0%Z;
     d_windMax := Defined 20%Z;
     d_tidalStrength := Undefined;
     d_terrainOrdered := [] |}.

Definition demoEnv (tags : list string) : Env :=
  {| fetchDigest := demoDigest;
     imageHashesCache := JsMap.empty;
     encodeURI := fun s => s;
     Date_parse := demoParse;
     toLowerCase := asciiLower;
     toUpperCase := asciiUpper;
     toLowerCase_ascii := fun s _ => eq_refl;
     toUpperCase_ascii := fun s _ => eq_refl;
     getDerivedInfo := demoDerived tags;
     callFails := fun _ _ => false;
     createdItem :=
       fun s v f => demoItem (mintId (map item_id (vocabItems v s))) f;
     updatedItem := fun _ _ id f => demoItem id f;
     createdMap :=
       fun s f => demoItem (mintId (map item_id (st_maps s))) (demoStored f);
     updatedMap := fun _ id f => demoItem id (demoStored f);
     publishedAt := fun _ => "300" |}.

Definition demoMap : MapInfo :=
  {| springName := "Red Comet 1.2";
     displayName := "Red Comet";
     author := "somebody";
     title := Undefined;
     description := Defined "A small map";
     playerCount := 8%Z;
     teamCount := 2%Z;
     photo := [ {| uf_ref := "maps/red/photo.png" |} ];
     backgroundImage := [];
     perspectiveShot := [];
     inGameShots := [ {| uf_ref := "maps/red/shot1.png" |} ] |}.

Definition demoMeta : MapMetadata :=
  {| extractedFiles := ["height.png"; "metal.png"; "texture.jpg"; "type.png"];
     location_bucket := "bucket";
     location_path := "red" |}.

Definition demoSource : Source :=
  {| src_maps := [("row1", demoMap)];
     src_cdnInfo := [("Red Comet 1.2", {| mirrors := ["https://cdn/red.sd7"] |})];
     src_mapsMetadata := [("row1", demoMeta)] |}.

(** The same source with [metal.png] missing from the extracted files. *)
Definition missingFileSource : Source :=
  {| src_maps := [("row1", demoMap)];
     src_cdnInfo := [("Red Comet 1.2", {| mirrors := ["https://cdn/red.sd7"] |})];
     src_mapsMetadata :=
       [("row1", {| extractedFiles := ["height.png"; "texture.jpg"];
                    location_bucket := "bucket";
                    location_path := "red" |})] |}.

Definition emptyStore : Store :=
  {| st_maps := []; st_tags := []; st_terrains := [] |}.

(** Field data of a map item that holds a name and a row identifier only. *)
Definition bareFields (name : string) (rowyid : undef_or string)
  : WebflowMapFieldsRead :=
  {| r_name := name;
     r_slug := slugFromName (demoEnv []) name;
     r_rowyid := rowyid;
     r_minimap := Undefined;
     r_minimap_photo_thumb := Undefined;
     r_downloadurl := Undefined;
     r_width := Undefined;
     r_height := Undefined;
     r_mapsize := Undefined;
     r_title := Undefined;
     r_description := Undefined;
     r_author := Undefined;
     r_bg_image := Undefined;
     r_perspective_shot := Undefined;
     r_more_images := Undefined;
     r_wind_min := Undefined;
     r_wind_max := Undefined;
     r_tidal_strength := Undefined;
     r_team_count := Undefined;
     r_max_players := Undefined;
     r_mini_map := Undefined;
     r_height_map := Undefined;
     r_metal_map := Undefined;
     r_game_tags_ref_2 := Undefined;
     r_terrain_types := Undefined |}.

(** A destination with two maps of the same row identifier, and a third
    one whose row identifier is the name the reading gives to the
    duplicate. *)
Definition shadowedStore : Store :=
  {| st_maps := [ demoItem "map-a" (bareFields "Red Comet" (Defined "row1"));
                  demoItem "map-b" (bareFields "Red Comet" (Defined "row1-bad0"));
                  demoItem "map-c" (bareFields "Red Comet" (Defined "row1")) ];
     st_tags := [];
     st_terrains := [] |}.

(** The assets of the concrete destination: every one is hosted at [cdn:u]
    under the handle [file:u]. *)
Definition hosted (a : WebflowImageRef) : Prop :=
  exists u, img_fileId a = ("file:" ++ u)%string /\
            img_url a = ("cdn:" ++ u)%string.

Definition whenDefined {A : Type} (P : A -> Prop) (x : undef_or A) : Prop :=
  match x with Defined a => P a | Undefined => True end.

Definition hostedFields (o : WebflowMapFieldsRead) : Prop :=
  whenDefined hosted (r_minimap o) /\
  whenDefined hosted (r_minimap_photo_thumb o) /\
  whenDefined hosted (r_bg_image o) /\
  whenDefined hosted (r_perspective_shot o) /\
  whenDefined (Forall hosted) (r_more_images o) /\
  whenDefined hosted (r_mini_map o) /\
  whenDefined hosted (r_height_map o) /\
  whenDefined hosted (r_metal_map o).

Definition demoGood (s : Store) : Prop :=
  forall it o, In it (st_maps s) -> item_fieldData it = Defined o ->
    hostedFields o.

(** A destination out of date: the map of [row1] holds no field, the map
    of [row0] is no longer in the source, and a tag and a terrain are no
    longer in the vocabularies. *)
Definition staleStore : Store :=
  {| st_maps := [ demoItem "map-1" (bareFields "Red Comet" (Defined "row1"));
                  demoItem "map-0" (bareFields "Gone" (Defined "row0")) ];
     st_tags := [ demoItem "tag-old" {| nf_name := "OLD"; nf_slug := "old" |} ];
     st_terrains :=
       [ demoItem "terrain-bog" {| nf_name := "bog"; nf_slug := "bog" |} ] |}.

(** ** The image hash cache and its file

    [ImageHashesCache] with its counter of new hashes and the file it is
    saved in.  The file is the one [saveImageHashesCacheSync] writes: a
    version number and the entries of the map; a file that cannot be read or
    parsed is [None].  Whether a write fails is left to the environment. *)

Record CacheFile : Type := {
  cf_version : Z;
  cf_entries : list (string * string)
}.

Definition imageHashesCacheVersion : Z := 1.

Record CacheState : Type := {
  cs_cache : JsMap.t string;
  cs_newHashes : nat;
  cs_file : option CacheFile
}.

(** The map the constructor ends with: the entries of the file when its
    version is the current one, the empty map otherwise. *)
Definition loadCache (file : option CacheFile) : JsMap.t string :=
  match file with
  | Some c =>
      if (cf_version c =? imageHashesCacheVersion)%Z
      then JsMap.of_entries (cf_entries c)
      else JsMap.empty
  | None => JsMap.empty
  end.

Definition newImageHashesCache (file : option CacheFile) : CacheState :=
  {| cs_cache := loadCache file; cs_newHashes := 0; cs_file := file |}.

(** [saveImageHashesCacheSync]: a failed write is caught and only warned
    about. *)
Definition saveImageHashesCacheSync (writeFails : bool) (st : CacheState)
  : CacheState :=
  if writeFails then st
  else {| cs_cache := cs_cache st;
          cs_newHashes := cs_newHashes st;
          cs_file := Some {| cf_version := imageHashesCacheVersion;
                             cf_entries := cs_cache st |} |}.

(** [getImageHash] of the class, with the counter: the map is saved at the
    31st new hash since the last save, and the counter starts again. *)
Definition getImageHashCounted (fetch : string -> string)
  (writeFails : CacheState -> bool) (st : CacheState) (url : option string)
  : string * CacheState :=
  match url with
  | None => ("", st)
  | Some u =>
      if truthy u then
        match JsMap.get (cs_cache st) u with
        | Some d => (d, st)
        | None =>
            let digest := fetch u in
            let st1 := {| cs_cache := JsMap.set (cs_cache st) u digest;
                          cs_newHashes := S (cs_newHashes st);
                          cs_file := cs_file st |} in
            if (30 <? cs_newHashes st1)%nat then
              let st2 := saveImageHashesCacheSync (writeFails st1) st1 in
              (digest, {| cs_cache := cs_cache st2;
                          cs_newHashes := 0;
                          cs_file := cs_file st2 |})
            else (digest, st1)
        end
      else ("", st)
  end.

(** *** Calls that overlap

    [getImageHash] is asynchronous: it tests the map, awaits the download,
    and only then sets the map and counts.  Its callers start several calls
    together ([Promise.all] in [sameImage], [sameImages], [pickImages]), and
    the tests of all of them run before the first download ends.  A call is
    thus made of two steps; a call made on its own is the first step
    followed at once by the second ([getImageHashCounted]). *)

Inductive Started : Type :=
| Answered (digest : string) : Started
| Downloading (url : string) : Started.

(** Up to the [await]: a falsy URL and a URL of the map are answered. *)
Definition startHash (st : CacheState) (url : option string) : Started :=
  match url with
  | None => Answered ""
  | Some u =>
      if truthy u then
        match JsMap.get (cs_cache st) u with
        | Some d => Answered d
        | None => Downloading u
        end
      else Answered ""
  end.

(** From the end of the download on, in the state the cache is in by then.
    A download that failed is [None]: the call throws and sets nothing. *)
Definition finishHash (writeFails : CacheState -> bool) (st : CacheState)
  (u : string) (downloaded : option string) : option string * CacheState :=
  match downloaded with
  | None => (None, st)
  | Some digest =>
      let st1 := {| cs_cache := JsMap.set (cs_cache st) u digest;
                    cs_newHashes := S (cs_newHashes st);
                    cs_file := cs_file st |} in
      if (30 <? cs_newHashes st1)%nat then
        let st2 := saveImageHashesCacheSync (writeFails st1) st1 in
        (Some digest, {| cs_cache := cs_cache st2;
                         cs_newHashes := 0;
                         cs_file := cs_file st2 |})
      else (Some digest, st1)
  end.

(** The calls started together in the state [st], for the URLs given: all
    the tests are made in [st]; then the downloads, which all succeed, end
    in the order of the list.  The result is the digests answered, the state
    after the last call and the number of downloads. *)
Definition hashTogether (fetch : string -> string)
  (writeFails : CacheState -> bool) (st : CacheState)
  (urls : list (option string)) : list string * CacheState * nat :=
  fold_left
    (fun acc started =>
       match started with
       | Answered d => (fst (fst acc) ++ [d], snd (fst acc), snd acc)
       | Downloading u =>
           (fst (fst acc) ++ [fetch u],
            snd (finishHash writeFails (snd (fst acc)) u (Some (fetch u))),
            S (snd acc))
       end)
    (map (startHash st) urls) ([], st, 0).

(** The state after hashing the URLs one after the other. *)
Definition hashAll (fetch : string -> string) (writeFails : CacheState -> bool)
  (st : CacheState) (urls : list (option string)) : CacheState :=
  fold_left (fun st url => snd (getImageHashCounted fetch writeFails st url))
            urls st.

(** The URLs of the map that the file does not hold. *)
Definition unsaved (st : CacheState) : list string :=
  filter (fun k => negb (JsMap.has (loadCache (cs_file st)) k))
         (JsMap.keys (cs_cache st)).

(** What the counter guarantees: at most as many URLs of the map are
    missing from the file as new hashes were counted, and never more than
    30. *)
Definition flushInvariant (st : CacheState) : Prop :=
  NoDup (JsMap.keys (cs_cache st)) /\
  length (unsaved st) <= cs_newHashes st /\
  cs_newHashes st <= 30.

(** The record [i] is what [buildWebflowInfo] makes of the source map [m]
    of row [k]: the fields checked by the build are there, the tags and the
    terrains are those the map derives, as written.  The map size is
    the product of the width and the height as a double: the exact product
    below [2^53], the nearest double from there on. *)
Definition builtFrom (E : Env) (cdnInfo : JsMap.t MapCDNInfo)
  (mapsMetadata : JsMap.t MapMetadata) (k : string) (m : MapInfo)
  (i : WebsiteMapInfo) : Prop :=
  exists mi meta,
    JsMap.get cdnInfo (springName m) = Some mi /\
    JsMap.get mapsMetadata k = Some meta /\
    (forall f, In f requiredFiles -> In f (extractedFiles meta)) /\
    mi_mapTags i = d_tags (getDerivedInfo E m meta) /\
    mi_mapTerrains i = d_terrainOrdered (getDerivedInfo E m meta) /\
    mi_rowyId i = k /\ k <> "" /\
    mi_name i = displayName m /\ displayName m <> "" /\
    mi_author i = author m /\ author m <> "" /\
    first (mirrors mi) = Defined (mi_downloadUrl i) /\ mi_downloadUrl i <> "" /\
    d_width (getDerivedInfo E m meta) = Defined (mi_width i) /\
    d_height (getDerivedInfo E m meta) = Defined (mi_height i) /\
    (Z.abs (mi_width i * mi_height i) < 2 ^ 1023 ->
     mi_mapSize i = roundToDouble (mi_width i * mi_height i))%Z /\
    (Z.abs (mi_width i * mi_height i) < 2 ^ 53 ->
     mi_mapSize i = mi_width i * mi_height i)%Z /\
    mi_teamCount i = teamCount m /\ mi_maxPlayers i = playerCount m /\
    mi_title i <> Some "" /\ mi_description i <> Some "" /\
    canonicalImages i.

(** The calls [l] fall in consecutive phases, one for each predicate of
    [ps] in order; a phase may be empty. *)
Fixpoint inPhases (ps : list (Call -> bool)) (l : list Call) : Prop :=
  match ps with
  | [] => l = []
  | p :: ps' =>
      exists l1 l2,
        l = l1 ++ l2 /\ Forall (fun c => p c = true) l1 /\ inPhases ps' l2
  end.

Definition phased {A : Type} (ps : list (Call -> bool)) (m : M A) : Prop :=
  forall s, inPhases ps (run_calls (m s)).

(** A create or an update in the collection of the tags or of the terrains. *)
Definition isVocabWrite (c : Call) : bool :=
  (isCreate c || isUpdate c) && negb (isMapsColl (callColl c)).

Definition isMapCreate (c : Call) : bool :=
  isCreate c && isMapsColl (callColl c).

Definition isMapDelete (c : Call) : bool :=
  isDelete c && isMapsColl (callColl c).

Definition isMapUpdate (c : Call) : bool :=
  isUpdate c && isMapsColl (callColl c).

(** The six phases of a sync. *)
Definition syncPhases : list (Call -> bool) :=
  [isVocabWrite; isMapCreate; isMapDelete; isMapUpdate; isPublish; isVocabDelete].

(** A computation that ends with the remote call that failed: when its
    result is the failure of a call, that call is the last one attempted. *)
Definition failStop {A : Type} (m : M A) : Prop :=
  forall s c, run_result (m s) = inl (RemoteError c) ->
    exists before, run_calls (m s) = before ++ [c].

(** A result that is not the failure of a remote call. *)
Definition pureResult {A : Type} (r : Res A) : Prop :=
  forall c, r <> inl (RemoteError c).

(** The environment [E] with another oracle for the failure of calls. *)
Definition withCallFails (E : Env) (fails : Store -> Call -> bool) : Env :=
  {| fetchDigest := fetchDigest E;
     imageHashesCache := imageHashesCache E;
     encodeURI := encodeURI E;
     Date_parse := Date_parse E;
     toLowerCase := toLowerCase E;
     toUpperCase := toUpperCase E;
     toLowerCase_ascii := toLowerCase_ascii E;
     toUpperCase_ascii := toUpperCase_ascii E;
     getDerivedInfo := getDerivedInfo E;
     callFails := fails;
     createdItem := createdItem E;
     updatedItem := updatedItem E;
     createdMap := createdMap E;
     updatedMap := updatedMap E;
     publishedAt := publishedAt E |}.

(** The items of a collection of tags or terrains are those of the
    vocabulary [src]: every entry of the vocabulary has an item with its
    name and slug, and every item has a slug of the vocabulary. *)
Definition vocabularyInStore (src : JsMap.t IWebsiteItem)
  (items : list (CollectionItem NameSlugFields)) : Prop :=
  (forall i, In i (JsMap.values src) ->
     exists it, In it items /\
       item_fieldData it
       = Defined {| nf_name := ws_name i; nf_slug := ws_slug i |}) /\
  (forall it, In it items ->
     exists o, item_fieldData it = Defined o /\
               JsMap.has src (nf_slug o) = true).

(** The items of the collection of maps are those of the records [src]:
    every record has an item that reads back equal to it, and every item
    holds the row identifier of a record. *)
Definition mapsInStore (E : Env) (src : JsMap.t WebsiteMapInfo)
  (items : list (CollectionItem WebflowMapFieldsRead)) : Prop :=
  (forall m, In m (JsMap.values src) ->
     exists it o, In it items /\ item_fieldData it = Defined o /\
       isWebflowMapInfoEqual E m (readMapFields o) = true) /\
  (forall it, In it items ->
     exists o, item_fieldData it = Defined o /\
               JsMap.has src (reqRStr (r_rowyid o)) = true).

(** ** The collection behind a reference field

    [getFieldCollection] looks the field up among the fields of the
    collection of the maps and asks for the collection named under its
    [validations].  A field is modelled by what the function reads of it;
    the result is the identifier it passes to [webflow.collections.get]. *)

Record CollectionField : Type := {
  fld_slug : string;
  fld_validations : undef_or (undef_or string)
}.

Inductive FieldError : Type :=
| WrongFieldCount (field : string) (n : nat) : FieldError
| FieldTypeError : FieldError.

Definition getFieldCollection (field : string) (fields : list CollectionField)
  : FieldError + undef_or string :=
  let fs := filter (fun f => fld_slug f =? field) fields in
  if negb (length fs =? 1)%nat then inl (WrongFieldCount field (length fs))
  else
    match fs with
    | f :: _ =>
        match fld_validations f with
        | Undefined => inl FieldTypeError
        | Defined collectionId => inr collectionId
        end
    | [] => inl FieldTypeError
    end.

(** ** More concrete inputs *)

(** An item with the given time stamps. *)
Definition stampedItem (id : string) (lastPublished : undef_or string)
  (lastUpdated : string) : CollectionItem NameSlugFields :=
  {| item_id := id;
     item_lastPublished := lastPublished;
     item_lastUpdated := Defined lastUpdated;
     item_fieldData := Defined {| nf_name := id; nf_slug := id |} |}.

Definition publishDemoItems : list (CollectionItem NameSlugFields) :=
  [ stampedItem "never" Undefined "200";
    stampedItem "stale" (Defined "100") "200";
    stampedItem "fresh" (Defined "300") "200";
    stampedItem "same" (Defined "200") "200" ].

(** The concrete destination, where every deletion fails. *)
Definition failingDeletes : Env :=
  withCallFails (demoEnv ["ffa"]) (fun _ c => isDelete c).

(** A vocabulary of one tag. *)
Definition ffaVocabulary : JsMap.t IWebsiteItem :=
  [("ffa", {| ws_name := "FFA"; ws_slug := "ffa" |})].

(** The local map read from the tags of [staleStore]. *)
Definition staleTags : JsMap.t IWebflowItem :=
  [("old", {| wf_name := "OLD"; wf_slug := "old";
              wf_item := demoItem "tag-old"
                           {| nf_name := "OLD"; nf_slug := "old" |} |})].

(** The record read from the map item of [row1] in [staleStore], and the
    local entry that holds it. *)
Definition bareRecord : WebsiteMapInfo :=
  readMapFields (bareFields "Red Comet" (Defined "row1")).

Definition bareEntry : WebflowMapInfo :=
  {| wm_info := bareRecord;
     wm_item := demoItem "map-1" (bareFields "Red Comet" (Defined "row1"));
     wm_fieldData := bareFields "Red Comet" (Defined "row1") |}.

(** The canonical record the concrete source builds for the row [row1],
    when the maps derive the given tags. *)
Definition demoRecordWith (tags : list string) : WebsiteMapInfo :=
  match buildWebflowInfo (demoEnv tags) (src_maps demoSource)
          (src_cdnInfo demoSource) (src_mapsMetadata demoSource) with
  | inr built =>
      match JsMap.get (fst built) "row1" with
      | Some i => i
      | None => bareRecord
      end
  | inl _ => bareRecord
  end.


(** Field data of a map item that holds a name, a row identifier and tags. *)
Definition taggedFields (name : string) (rowyid : undef_or string)
  (tags : list string) : WebflowMapFieldsRead :=
  {| r_name := name;
     r_slug := slugFromName (demoEnv []) name;
     r_rowyid := rowyid;
     r_minimap := Undefined;
     r_minimap_photo_thumb := Undefined;
     r_downloadurl := Undefined;
     r_width := Undefined;
     r_height := Undefined;
     r_mapsize := Undefined;
     r_title := Undefined;
     r_description := Undefined;
     r_author := Undefined;
     r_bg_image := Undefined;
     r_perspective_shot := Undefined;
     r_more_images := Undefined;
     r_wind_min := Undefined;
     r_wind_max := Undefined;
     r_tidal_strength := Undefined;
     r_team_count := Undefined;
     r_max_players := Undefined;
     r_mini_map := Undefined;
     r_height_map := Undefined;
     r_metal_map := Undefined;
     r_game_tags_ref_2 := Defined tags;
     r_terrain_types := Undefined |}.

(** The destination of [shadowedStore] with a tag that is no longer in the
    source, which the second map refers to. *)
Definition orphanStore : Store :=
  {| st_maps :=
       [ demoItem "map-a" (bareFields "Red Comet" (Defined "row1"));
         demoItem "map-b"
           (taggedFields "Red Comet" (Defined "row1-bad0") ["tag-old"]);
         demoItem "map-c" (bareFields "Red Comet" (Defined "row1")) ];
     st_tags := [ demoItem "tag-old" {| nf_name := "OLD"; nf_slug := "old" |} ];
     st_terrains := [] |}.

(** A destination whose one map refers to a tag that is no longer in the
    source. *)
Definition referringStore : Store :=
  {| st_maps :=
       [ demoItem "map-1" (taggedFields "Red Comet" (Defined "row1") ["tag-old"]) ];
     st_tags := [ demoItem "tag-old" {| nf_name := "OLD"; nf_slug := "old" |} ];
     st_terrains := [] |}.

(** The identifiers of the maps updated by a sequence of calls, in order. *)
Definition updatedMapIds (calls : list Call) : list string :=
  flat_map (fun c => match c with
                     | UpdateItem MapsColl id _ => [id]
                     | _ => []
                     end) calls.

(** The tags a map item of the destination holds. *)
Definition tagsOfItem (it : CollectionItem WebflowMapFieldsRead)
  : undef_or (list string) :=
  match item_fieldData it with
  | Defined o => r_game_tags_ref_2 o
  | Undefined => Undefined
  end.


(** The local entry of the tag [ffa]. *)
Definition ffaEntry : IWebflowItem :=
  {| wf_name := "FFA"; wf_slug := "ffa";
     wf_item := demoItem "tag-ffa" {| nf_name := "FFA"; nf_slug := "ffa" |} |}.

(** ** Notions used by the further properties *)

(** Two canonical records that differ at most in their references: every
    field but the tags and the terrains is the same. *)
Definition sameButRefs (a b : WebsiteMapInfo) : Prop :=
  mi_name b = mi_name a /\
  mi_rowyId b = mi_rowyId a /\
  mi_minimapUrl b = mi_minimapUrl a /\
  mi_minimapThumbUrl b = mi_minimapThumbUrl a /\
  mi_downloadUrl b = mi_downloadUrl a /\
  mi_width b = mi_width a /\
  mi_height b = mi_height a /\
  mi_mapSize b = mi_mapSize a /\
  mi_title b = mi_title a /\
  mi_description b = mi_description a /\
  mi_author b = mi_author a /\
  mi_bgImageUrl b = mi_bgImageUrl a /\
  mi_perspectiveShotUrl b = mi_perspectiveShotUrl a /\
  mi_moreImagesUrl b = mi_moreImagesUrl a /\
  mi_windMin b = mi_windMin a /\
  mi_windMax b = mi_windMax a /\
  mi_tidalStrength b = mi_tidalStrength a /\
  mi_teamCount b = mi_teamCount a /\
  mi_maxPlayers b = mi_maxPlayers a /\
  mi_textureMapUrl b = mi_textureMapUrl a /\
  mi_heightMapUrl b = mi_heightMapUrl a /\
  mi_metalMapUrl b = mi_metalMapUrl a.

(** The listing holds an item with the identifier [id] whose slug is
    [ref]. *)
Definition heldIn (items : list (CollectionItem NameSlugFields))
  (ref id : string) : Prop :=
  exists it o, In it items /\ item_id it = id /\
               item_fieldData it = Defined o /\ nf_slug o = ref.

(** The identifier [id] is that of the item the map [refs] holds under the
    reference [ref]. *)
Definition idOf (refs : JsMap.t IWebflowItem) (ref id : string) : Prop :=
  exists t, JsMap.get refs ref = Some t /\ id = item_id (wf_item t).

(** The record [b] is the record [a] with the references of one of its two
    lists replaced, one by one and in order, by the identifiers of the items
    held under them, and nothing else changed. *)
Definition resolvedFrom (field : RefField) (refs : JsMap.t IWebflowItem)
  (a b : WebsiteMapInfo) : Prop :=
  sameButRefs a b /\
  match field with
  | MapTags =>
      Forall2 (idOf refs) (mi_mapTags a) (mi_mapTags b) /\
      mi_mapTerrains b = mi_mapTerrains a
  | MapTerrains =>
      Forall2 (idOf refs) (mi_mapTerrains a) (mi_mapTerrains b) /\
      mi_mapTags b = mi_mapTags a
  end.

(** A list of strings in the order of [Array.prototype.sort]. *)
Inductive sortedStrings : list string -> Prop :=
| sorted_nil : sortedStrings []
| sorted_cons x l :
    Forall (fun y => (x <=? y)%string = true) l -> sortedStrings l ->
    sortedStrings (x :: l).

(** Two canonical records that differ in nothing the comparison looks at:
    equal fields, equal reference lists, images with equal digests, and
    more-images with the same digests up to order. *)
Definition sameRecord (E : Env) (a b : WebsiteMapInfo) : Prop :=
  getImageHash E (Some (mi_minimapUrl a)) = getImageHash E (Some (mi_minimapUrl b)) /\
  getImageHash E (Some (mi_minimapThumbUrl a))
  = getImageHash E (Some (mi_minimapThumbUrl b)) /\
  getImageHash E (mi_bgImageUrl a) = getImageHash E (mi_bgImageUrl b) /\
  getImageHash E (mi_perspectiveShotUrl a)
  = getImageHash E (mi_perspectiveShotUrl b) /\
  Permutation (map (fun u => getImageHash E (Some u)) (mi_moreImagesUrl a))
              (map (fun u => getImageHash E (Some u)) (mi_moreImagesUrl b)) /\
  getImageHash E (Some (mi_textureMapUrl a))
  = getImageHash E (Some (mi_textureMapUrl b)) /\
  getImageHash E (Some (mi_heightMapUrl a))
  = getImageHash E (Some (mi_heightMapUrl b)) /\
  getImageHash E (Some (mi_metalMapUrl a))
  = getImageHash E (Some (mi_metalMapUrl b)) /\
  mi_name a = mi_name b /\
  mi_rowyId a = mi_rowyId b /\
  mi_downloadUrl a = mi_downloadUrl b /\
  mi_width a = mi_width b /\
  mi_height a = mi_height b /\
  mi_mapSize a = mi_mapSize b /\
  mi_title a = mi_title b /\
  mi_description a = mi_description b /\
  mi_author a = mi_author b /\
  mi_windMin a = mi_windMin b /\
  mi_windMax a = mi_windMax b /\
  mi_tidalStrength a = mi_tidalStrength b /\
  mi_teamCount a = mi_teamCount b /\
  mi_maxPlayers a = mi_maxPlayers b /\
  mi_mapTags a = mi_mapTags b /\
  mi_mapTerrains a = mi_mapTerrains b.

(* ===================================================================== *)
(** * Part II: properties *)

(** ** Association maps *)

Module JsMapFacts.

Lemma get_set_same {V : Type} (m : JsMap.t V) (k : string) (v : V) :
  JsMap.get (JsMap.set m k v) k = Some v.
Proof.
  induction m as [|[k' v'] r IH]; simpl.
  - now rewrite String.eqb_refl.
  - destruct (k' =? k) eqn:Hk; simpl.
    + now rewrite String.eqb_refl.
    + now rewrite Hk.
Qed.

Lemma get_set_other {V : Type} (m : JsMap.t V) (k k' : string) (v : V) :
  k <> k' -> JsMap.get (JsMap.set m k v) k' = JsMap.get m k'.
Proof.
  intros Hne. induction m as [|[k0 v0] r IH]; simpl.
  - destruct (String.eqb_spec k k'); [contradiction | reflexivity].
  - destruct (String.eqb_spec k0 k) as [->|Hk0]; simpl.
    + destruct (String.eqb_spec k k'); [contradiction | reflexivity].
    + destruct (k0 =? k'); [reflexivity | exact IH].
Qed.

Lemma get_set {V : Type} (m : JsMap.t V) (k k' : string) (v : V) :
  JsMap.get (JsMap.set m k v) k' = if k =? k' then Some v else JsMap.get m k'.
Proof.
  destruct (String.eqb_spec k k') as [->|Hne].
  - apply get_set_same.
  - now apply get_set_other.
Qed.

Lemma get_In {V : Type} (m : JsMap.t V) (k : string) (v : V) :
  JsMap.get m k = Some v -> In (k, v) m.
Proof.
  induction m as [|[k' v'] r IH]; simpl; [discriminate|].
  destruct (String.eqb_spec k' k) as [->|Hne].
  - intros [= ->]. now left.
  - intros H. right. now apply IH.
Qed.

Lemma get_None_keys {V : Type} (m : JsMap.t V) (k : string) :
  JsMap.get m k = None <-> ~ In k (JsMap.keys m).
Proof.
  induction m as [|[k' v'] r IH]; simpl.
  - tauto.
  - destruct (String.eqb_spec k' k) as [->|Hne].
    + split; [discriminate | intros H; exfalso; apply H; now left].
    + rewrite IH. tauto.
Qed.

Lemma has_keys {V : Type} (m : JsMap.t V) (k : string) :
  JsMap.has m k = true <-> In k (JsMap.keys m).
Proof.
  unfold JsMap.has. destruct (JsMap.get m k) eqn:Hg.
  - split; [intros _ | reflexivity].
    apply get_In in Hg. unfold JsMap.keys.
    change k with (fst (k, v)). now apply in_map.
  - apply get_None_keys in Hg. split; [discriminate | contradiction].
Qed.

Lemma set_absent {V : Type} (m : JsMap.t V) (k : string) (v : V) :
  JsMap.get m k = None -> JsMap.set m k v = m ++ [(k, v)].
Proof.
  induction m as [|[k' v'] r IH]; simpl; [reflexivity|].
  destruct (k' =? k); [discriminate|].
  intros H. now rewrite IH.
Qed.

Lemma keys_set_present {V : Type} (m : JsMap.t V) (k : string) (v : V) :
  In k (JsMap.keys m) -> JsMap.keys (JsMap.set m k v) = JsMap.keys m.
Proof.
  induction m as [|[k' v'] r IH]; simpl; [contradiction|].
  destruct (String.eqb_spec k' k) as [->|Hne]; simpl; [reflexivity|].
  intros [H|H]; [contradiction|]. f_equal. now apply IH.
Qed.

Lemma keys_set_absent {V : Type} (m : JsMap.t V) (k : string) (v : V) :
  ~ In k (JsMap.keys m) -> JsMap.keys (JsMap.set m k v) = JsMap.keys m ++ [k].
Proof.
  intros H. apply get_None_keys in H. rewrite (set_absent _ _ _ H).
  unfold JsMap.keys. now rewrite map_app.
Qed.

Lemma NoDup_keys_set {V : Type} (m : JsMap.t V) (k : string) (v : V) :
  NoDup (JsMap.keys m) -> NoDup (JsMap.keys (JsMap.set m k v)).
Proof.
  intros Hnd. destruct (in_dec string_dec k (JsMap.keys m)) as [Hin|Hout].
  - now rewrite keys_set_present.
  - rewrite keys_set_absent by assumption.
    apply NoDup_app; [assumption | repeat constructor; intros [] | ].
    intros x Hx [<-|[]]. contradiction.
Qed.

End JsMapFacts.

(** ** Slugs *)

Lemma sep_class_lower (c : ascii) : sep_class (lower_char c) = sep_class c.
Proof. destruct c as [[] [] [] [] [] [] [] []]; reflexivity. Qed.

Lemma slug_class_fixed (c : ascii) :
  slug_class c = true -> lower_char c = c /\ sep_class c = false.
Proof. destruct c as [[] [] [] [] [] [] [] []]; vm_compute; intuition congruence. Qed.

Lemma slugOfLowered_cons (c : ascii) (s : string) :
  slugOfLowered (String c s) = (slug_of_unit c ++ slugOfLowered s)%string.
Proof.
  unfold slugOfLowered, slug_of_unit. simpl.
  destruct (sep_class c) eqn:Hs.
  - reflexivity.
  - simpl. destruct (slug_class c); reflexivity.
Qed.

Lemma string_forallb_app (p : ascii -> bool) (a b : string) :
  string_forallb p (a ++ b)%string = string_forallb p a && string_forallb p b.
Proof. induction a; simpl; [reflexivity|]. rewrite IHa. now rewrite andb_assoc. Qed.

Lemma slug_of_unit_class (c : ascii) :
  string_forallb slug_class (slug_of_unit c) = true.
Proof.
  unfold slug_of_unit. destruct (sep_class c); [reflexivity|].
  destruct (slug_class c) eqn:H; simpl; [now rewrite H | reflexivity].
Qed.

Lemma slugOfLowered_flat_map (s : string) :
  slugOfLowered s = string_flat_map slug_of_unit s.
Proof.
  induction s as [|c r IH]; [reflexivity|].
  rewrite slugOfLowered_cons. simpl. now rewrite IH.
Qed.

Lemma slugOfLowered_class (s : string) :
  string_forallb slug_class (slugOfLowered s) = true.
Proof.
  induction s as [|c r IH]; [reflexivity|].
  rewrite slugOfLowered_cons, string_forallb_app, slug_of_unit_class. exact IH.
Qed.

Lemma slug_class_ascii (c : ascii) : slug_class c = true -> is_ascii c = true.
Proof. destruct c as [[] [] [] [] [] [] [] []]; vm_compute; congruence. Qed.

Lemma slug_chars_ascii (s : string) :
  string_forallb slug_class s = true -> isAscii s = true.
Proof.
  unfold isAscii. induction s as [|c r IH]; simpl; [reflexivity|].
  intros H. apply andb_prop in H as [Hc Hr].
  now rewrite (slug_class_ascii c Hc), (IH Hr).
Qed.

(** A string of slug characters is left as it is by the ASCII lower-casing
    and by the two replacements. *)
Lemma slug_chars_lower (s : string) :
  string_forallb slug_class s = true -> asciiLower s = s /\ slugOfLowered s = s.
Proof.
  induction s as [|c r IH]; simpl; [intros _; split; reflexivity|].
  intros H. apply andb_prop in H as [Hc Hr].
  destruct (IH Hr) as [IH1 IH2].
  destruct (slug_class_fixed c Hc) as [Hl Hsep]. split.
  - unfold asciiLower in *. simpl. now rewrite Hl, IH1.
  - rewrite slugOfLowered_cons, IH2. unfold slug_of_unit. now rewrite Hsep, Hc.
Qed.

Lemma slug_of_unit_lower (c : ascii) :
  slug_of_unit (lower_char c) = slug_of_char c.
Proof. unfold slug_of_unit, slug_of_char. now rewrite sep_class_lower. Qed.

(** The slug of an ASCII name, character by character of the name. *)
Lemma slugOfLowered_asciiLower (name : string) :
  slugOfLowered (asciiLower name) = string_flat_map slug_of_char name.
Proof.
  rewrite slugOfLowered_flat_map. unfold asciiLower.
  induction name as [|c r IH]; [reflexivity|].
  simpl. now rewrite slug_of_unit_lower, IH.
Qed.

Section Slugs.

Variable E : Env.

Lemma slugFromName_flat_map (name : string) :
  slugFromName E name = string_flat_map slug_of_unit (toLowerCase E name).
Proof. apply slugOfLowered_flat_map. Qed.

Lemma slugFromName_class (name : string) :
  string_forallb slug_class (slugFromName E name) = true.
Proof. apply slugOfLowered_class. Qed.

Lemma slug_chars_fixed (s : string) :
  string_forallb slug_class s = true ->
  toLowerCase E s = s /\ slugFromName E s = s.
Proof.
  intros H. destruct (slug_chars_lower s H) as [Hl Hs].
  assert (Hlow : toLowerCase E s = s)
    by now rewrite (toLowerCase_ascii E s (slug_chars_ascii s H)).
  split; [exact Hlow|]. unfold slugFromName. now rewrite Hlow.
Qed.

(** Re-applying [slugFromName] to a slug changes nothing. *)
Lemma slugFromName_idempotent (name : string) :
  slugFromName E (slugFromName E name) = slugFromName E name.
Proof. apply slug_chars_fixed, slugFromName_class. Qed.

Lemma slugFromName_ascii (name : string) :
  isAscii name = true ->
  slugFromName E name = string_flat_map slug_of_char name.
Proof.
  intros H. unfold slugFromName. rewrite (toLowerCase_ascii E name H).
  apply slugOfLowered_asciiLower.
Qed.

(** C8, as the code has it: the slug of a name is made of the characters
    [a-z], [0-9] and [-] only and is its own lower-casing; it is the
    concatenation, character by character of the lower-cased name, of a
    hyphen for each of ['.'], [' '] and ['_'], the character itself when it
    is in [a-z0-9-], and nothing otherwise; for an ASCII name the
    lower-casing is that of [A-Z], character by character of the name.  Runs
    are not collapsed and hyphens at the ends are kept. *)
Theorem slugFromName_shape (name : string) :
  string_forallb slug_class (slugFromName E name) = true /\
  toLowerCase E (slugFromName E name) = slugFromName E name /\
  slugFromName E name = string_flat_map slug_of_unit (toLowerCase E name) /\
  (isAscii name = true ->
   slugFromName E name = string_flat_map slug_of_char name).
Proof.
  split; [apply slugFromName_class|]. split.
  - apply slug_chars_fixed, slugFromName_class.
  - split; [apply slugFromName_flat_map | apply slugFromName_ascii].
Qed.

End Slugs.

(** An ASCII name with capitals, separators and a dropped character. *)
Lemma slugFromName_shape_witness :
  slugFromName (demoEnv []) "Red_Comet v.2 (Remake)" = "red-comet-v-2-remake".
Proof.
  exact (proj2 (proj2 (proj2 (slugFromName_shape (demoEnv [])
                                "Red_Comet v.2 (Remake)"))) eq_refl).
Defined.

(** C8, as stated, fails: a run of two separators gives two hyphens and a
    trailing separator gives a trailing hyphen, where the specification's
    slug has one hyphen and none at the end. *)
Lemma slugFromName_not_collapsed :
  slugFromName (demoEnv []) "a  b_" = "a--b-" /\
  slug_spec (demoEnv []) "a  b_" = "a-b" /\
  collapsed_and_stripped (slugFromName (demoEnv []) "a  b_") = false.
Proof. repeat split. Qed.

(** ** The tag vocabulary *)

Section Vocabulary.

Variable E : Env.

Lemma addTags_app (m : JsMap.t WebsiteMapTag) (l1 l2 : list string) :
  addTags E (addTags E m l1) l2 = addTags E m (l1 ++ l2).
Proof. unfold addTags. now rewrite fold_left_app. Qed.

Lemma addTags_get_other (m : JsMap.t WebsiteMapTag) (l : list string) (k : string) :
  (forall t, In t l -> slugFromName E t <> k) ->
  JsMap.get (addTags E m l) k = JsMap.get m k.
Proof.
  revert m. induction l as [|t r IH]; intros m H; [reflexivity|].
  change (addTags E m (t :: r)) with
    (addTags E (JsMap.set m (slugFromName E t)
                {| ws_name := toUpperCase E t; ws_slug := slugFromName E t |}) r).
  rewrite IH by (intros x Hx; apply H; now right).
  apply JsMapFacts.get_set_other. apply H. now left.
Qed.

Lemma addTags_last_wins (m : JsMap.t WebsiteMapTag)
  (before after : list string) (tag : string) :
  (forall t, In t after -> slugFromName E t <> slugFromName E tag) ->
  JsMap.get (addTags E m (before ++ tag :: after)) (slugFromName E tag) =
  Some {| ws_name := toUpperCase E tag; ws_slug := slugFromName E tag |}.
Proof.
  intros H. rewrite <- addTags_app.
  change (addTags E (addTags E m before) (tag :: after)) with
    (addTags E (JsMap.set (addTags E m before) (slugFromName E tag)
                {| ws_name := toUpperCase E tag; ws_slug := slugFromName E tag |})
             after).
  rewrite addTags_get_other by assumption.
  apply JsMapFacts.get_set_same.
Qed.

Lemma addTags_has_old (m : JsMap.t WebsiteMapTag) (l : list string) (k : string) :
  JsMap.has m k = true -> JsMap.has (addTags E m l) k = true.
Proof.
  revert m. induction l as [|t r IH]; intros m H; [exact H|].
  change (addTags E m (t :: r)) with
    (addTags E (JsMap.set m (slugFromName E t)
                {| ws_name := toUpperCase E t; ws_slug := slugFromName E t |}) r).
  apply IH. unfold JsMap.has in *. rewrite JsMapFacts.get_set.
  destruct (slugFromName E t =? k); [reflexivity | exact H].
Qed.

(** Every tag met has an entry under its slug. *)
Lemma addTags_has_new (m : JsMap.t WebsiteMapTag) (l : list string) (t : string) :
  In t l -> JsMap.has (addTags E m l) (slugFromName E t) = true.
Proof.
  revert m. induction l as [|x r IH]; intros m Hin; [destruct Hin|].
  change (addTags E m (x :: r)) with
    (addTags E (JsMap.set m (slugFromName E x)
                {| ws_name := toUpperCase E x; ws_slug := slugFromName E x |}) r).
  destruct Hin as [->|Hin]; [|now apply IH].
  apply addTags_has_old. unfold JsMap.has.
  now rewrite JsMapFacts.get_set_same.
Qed.

(** The vocabulary a successful build returns is the accumulation of the
    discovered tags, map after map. *)
Lemma buildWebflowInfo_vocabulary (cdnInfo : JsMap.t MapCDNInfo)
  (mapsMetadata : JsMap.t MapMetadata) (maps : MapList)
  (acc res : JsMap.t WebsiteMapInfo * JsMap.t WebsiteMapTag) :
  foldE (buildStep E cdnInfo mapsMetadata) maps acc = inr res ->
  snd res = addTags E (snd acc) (discoveredTags E maps mapsMetadata).
Proof.
  revert acc. induction maps as [|[rowyId m] r IH]; intros acc; cbn [foldE].
  - intros [= <-]. reflexivity.
  - unfold buildStep at 1. cbn [fst snd].
    destruct (JsMap.get cdnInfo (springName m)) as [mi|]; [|discriminate].
    destruct (JsMap.get mapsMetadata rowyId) as [meta|] eqn:Hmeta; [|discriminate].
    destruct (assertExtracted meta); cbn [bindE]; [discriminate|].
    destruct (rawInfo E rowyId m mi meta (getDerivedInfo E m meta)) as [|info];
      cbn [bindE]; [discriminate|].
    destruct (checkEntries (springName m) (info_entries info));
      cbn [bindE]; [discriminate|].
    intros H. apply IH in H. rewrite H. cbn [snd].
    unfold discoveredTags at 2. cbn [flat_map fst snd]. rewrite Hmeta.
    fold (discoveredTags E r mapsMetadata).
    now rewrite addTags_app.
Qed.

(** C9, as the code has it: every discovered tag is [set] in the vocabulary
    under its slug, with the upper-cased tag as display name; the entry
    stored for a slug is the one written by the last tag with that slug (a
    later occurrence of the slug replaces the stored entry).  For an ASCII
    tag the name is the tag with [a-z] turned into [A-Z]. *)
Theorem vocabulary_last_occurrence_wins (maps : MapList)
  (cdnInfo : JsMap.t MapCDNInfo) (mapsMetadata : JsMap.t MapMetadata)
  (infos : JsMap.t WebsiteMapInfo) (vocabulary : JsMap.t WebsiteMapTag)
  (before after : list string) (tag : string) :
  buildWebflowInfo E maps cdnInfo mapsMetadata = inr (infos, vocabulary) ->
  discoveredTags E maps mapsMetadata = before ++ tag :: after ->
  (forall t, In t after -> slugFromName E t <> slugFromName E tag) ->
  JsMap.get vocabulary (slugFromName E tag) =
  Some {| ws_name := toUpperCase E tag; ws_slug := slugFromName E tag |} /\
  (isAscii tag = true ->
   JsMap.get vocabulary (slugFromName E tag) =
   Some {| ws_name := asciiUpper tag;
           ws_slug := string_flat_map slug_of_char tag |}).
Proof.
  intros Hb Hd Hafter. apply buildWebflowInfo_vocabulary in Hb.
  simpl in Hb.
  assert (Hget : JsMap.get vocabulary (slugFromName E tag) =
                 Some {| ws_name := toUpperCase E tag;
                         ws_slug := slugFromName E tag |}).
  { rewrite Hb, Hd. now apply addTags_last_wins. }
  split; [exact Hget|].
  intros Hascii. rewrite Hget.
  now rewrite (toUpperCase_ascii E tag Hascii), (slugFromName_ascii E tag Hascii).
Qed.

End Vocabulary.

(** The vocabulary the concrete source builds from the tags [a b], [a.b]. *)
Example demo_vocabulary :
  option_map snd
    (match buildWebflowInfo (demoEnv ["a b"; "a.b"]) (src_maps demoSource)
             (src_cdnInfo demoSource) (src_mapsMetadata demoSource) with
     | inr r => Some r
     | inl _ => None
     end)
  = Some [("a-b", {| ws_name := "A.B"; ws_slug := "a-b" |})].
Proof. vm_compute. reflexivity. Qed.

(** C9, as stated, fails: the tags [a b] and [a.b] share the slug [a-b];
    the first occurrence would store the name [A B], yet the vocabulary
    built from them holds [A.B], written by the later occurrence. *)
Lemma vocabulary_first_occurrence_replaced :
  exists infos vocabulary,
    buildWebflowInfo (demoEnv ["a b"; "a.b"]) (src_maps demoSource)
      (src_cdnInfo demoSource) (src_mapsMetadata demoSource)
    = inr (infos, vocabulary) /\
    slugFromName (demoEnv ["a b"; "a.b"]) "a b" = "a-b" /\
    slugFromName (demoEnv ["a b"; "a.b"]) "a.b" = "a-b" /\
    JsMap.get vocabulary "a-b" = Some {| ws_name := "A.B"; ws_slug := "a-b" |} /\
    JsMap.get vocabulary (slugFromName (demoEnv ["a b"; "a.b"]) "a b")
    <> Some {| ws_name := toUpperCase (demoEnv ["a b"; "a.b"]) "a b";
               ws_slug := slugFromName (demoEnv ["a b"; "a.b"]) "a b" |}.
Proof.
  eexists. eexists. split; [vm_compute; reflexivity|].
  split; [reflexivity|]. split; [reflexivity|]. split; [reflexivity|].
  vm_compute. discriminate.
Qed.

(** Three tags in lower case, the first and the last with the same slug:
    the entry of the slug holds the upper-cased last one. *)
Lemma vocabulary_last_occurrence_wins_witness :
  match buildWebflowInfo (demoEnv ["a b"; "ffa"; "a.b"]) (src_maps demoSource)
          (src_cdnInfo demoSource) (src_mapsMetadata demoSource) with
  | inr built =>
      JsMap.get (snd built) "a-b" = Some {| ws_name := "A.B"; ws_slug := "a-b" |}
  | inl _ => False
  end.
Proof.
  destruct (buildWebflowInfo (demoEnv ["a b"; "ffa"; "a.b"])
              (src_maps demoSource) (src_cdnInfo demoSource)
              (src_mapsMetadata demoSource)) as [e|[infos vocabulary]] eqn:Hb.
  - vm_compute in Hb. discriminate Hb.
  - exact (proj2 (vocabulary_last_occurrence_wins (demoEnv ["a b"; "ffa"; "a.b"])
                    (src_maps demoSource) (src_cdnInfo demoSource)
                    (src_mapsMetadata demoSource) infos vocabulary
                    ["a b"; "ffa"] [] "a.b" Hb eq_refl
                    (fun t (H : In t []) => match H with end))
                 eq_refl).
Defined.

(** ** Image references *)

(** A call of the cache's [getImageHash] only records the digest it
    returns: the digest later answered for any URL is unchanged. *)
Lemma getImageHash_stable (fetch : string -> string) (c : ImageHashesCache.t)
  (u url : option string) :
  fst (ImageHashesCache.getImageHash fetch
         (snd (ImageHashesCache.getImageHash fetch c u)) url)
  = fst (ImageHashesCache.getImageHash fetch c url).
Proof.
  destruct u as [u|]; [|reflexivity]. simpl.
  destruct (truthy u); [|reflexivity].
  destruct (JsMap.get c u) eqn:Hu; [reflexivity|]. simpl.
  destruct url as [url|]; [|reflexivity]. simpl.
  destruct (truthy url); [|reflexivity].
  rewrite JsMapFacts.get_set.
  destruct (String.eqb_spec u url) as [->|Hne].
  - now rewrite Hu.
  - destruct (JsMap.get c url); reflexivity.
Qed.

Section Images.

Variable E : Env.

Lemma sameImage_true (u1 u2 : option string) :
  sameImage E u1 u2 = true <-> getImageHash E u1 = getImageHash E u2.
Proof. unfold sameImage. apply String.eqb_eq. Qed.

(** C3: with an existing asset whose digest is that of the desired URL the
    resolver returns the asset's file handle; with no asset, or one whose
    digest differs, it returns the desired URL. *)
Theorem pickImage_resolves (url : string) (base : undef_or WebflowImageRef) :
  (forall b, base = Defined b ->
     getImageHash E (Some (img_url b)) = getImageHash E (Some url) ->
     pickImage E url base = img_fileId b) /\
  (forall b, base = Defined b ->
     getImageHash E (Some (img_url b)) <> getImageHash E (Some url) ->
     pickImage E url base = url) /\
  (base = Undefined -> pickImage E url base = url).
Proof.
  repeat split.
  - intros b -> H. unfold pickImage.
    destruct (sameImage E (Some url) (Some (img_url b))) eqn:Hs; [reflexivity|].
    symmetry in H. apply sameImage_true in H. congruence.
  - intros b -> H. unfold pickImage.
    destruct (sameImage E (Some url) (Some (img_url b))) eqn:Hs; [|reflexivity].
    apply sameImage_true in Hs. symmetry in Hs. contradiction.
  - intros ->. reflexivity.
Qed.

Lemma of_entries_snoc {V : Type} (es : list (string * V)) (e : string * V) :
  JsMap.of_entries (es ++ [e]) = JsMap.set (JsMap.of_entries es) (fst e) (snd e).
Proof. unfold JsMap.of_entries. now rewrite fold_left_app. Qed.

(** [new Map(entries).get(k)] is the value of the last entry with key [k]. *)
Lemma of_entries_get {V : Type} (es : list (string * V)) (k : string) :
  JsMap.get (JsMap.of_entries es) k
  = option_map snd (find (fun e => fst e =? k) (rev es)).
Proof.
  induction es as [|e es IH] using rev_ind; [reflexivity|].
  rewrite of_entries_snoc, JsMapFacts.get_set, rev_app_distr. simpl.
  destruct (fst e =? k); [reflexivity | exact IH].
Qed.

Lemma find_map {A B : Type} (f : A -> B) (p : B -> bool) (l : list A) :
  find p (map f l) = option_map f (find (fun x => p (f x)) l).
Proof.
  induction l as [|x r IH]; [reflexivity|]. simpl.
  destruct (p (f x)); [reflexivity | exact IH].
Qed.

(** What [pickImages] writes for each desired URL: the handle of the last
    existing asset with its digest when that handle is not empty, the URL
    otherwise. *)
Lemma pickImages_last_match (urls : list string) (base : list WebflowImageRef) :
  pickImages E urls (Defined base)
  = map (fun url =>
           match lastWithDigest E url base with
           | Some a => if truthy (img_fileId a) then img_fileId a else url
           | None => url
           end) urls.
Proof.
  unfold pickImages. rewrite map_map. apply map_ext. intros url. simpl.
  rewrite of_entries_get, <- map_rev, find_map. simpl.
  unfold lastWithDigest, sameDigest.
  destruct (find _ (rev base)); reflexivity.
Qed.

Lemma pickImages_no_base (urls : list string) :
  pickImages E urls Undefined = urls.
Proof.
  unfold pickImages. simpl. rewrite map_map. simpl. apply map_id.
Qed.

Lemma find_rev_last {A : Type} (p : A -> bool) (l : list A) (a : A) :
  find p (rev l) = Some a ->
  exists before after,
    l = before ++ a :: after /\ p a = true /\
    forall b, In b after -> p b = false.
Proof.
  induction l as [|x l IH] using rev_ind; [discriminate|].
  rewrite rev_app_distr. cbn [rev app find].
  destruct (p x) eqn:Hx.
  - intros [= <-]. exists l, []. split; [reflexivity|]. split; [exact Hx|].
    intros b [].
  - intros Hf. destruct (IH Hf) as (before & after & -> & Ha & Hafter).
    exists before, (after ++ [x]). split; [now rewrite <- app_assoc|].
    split; [exact Ha|]. intros b Hb. apply in_app_or in Hb as [Hb|[<-|[]]];
      [now apply Hafter | exact Hx].
Qed.

(** X26: provided the existing assets have non-empty file handles, every
    desired URL whose digest is that of some existing asset is written as
    the handle of the last asset of the list with that digest, and every
    other one as the URL itself, whatever the order of the two lists; with
    no list of existing assets every URL is written as it is. *)
Theorem pickImages_digest_match (urls : list string)
  (base : list WebflowImageRef) :
  (forall a, In a base -> truthy (img_fileId a) = true) ->
  Forall2 (lastDigestMatched E base) urls (pickImages E urls (Defined base)) /\
  Forall2 (digestMatched E base) urls (pickImages E urls (Defined base)) /\
  pickImages E urls Undefined = urls.
Proof.
  intros Hne. split; [|split; [|apply pickImages_no_base]];
    rewrite pickImages_last_match;
    induction urls as [|url r IH]; simpl; constructor; try exact IH;
    unfold lastWithDigest;
    destruct (find (sameDigest E url) (rev base)) as [a|] eqn:Hf.
  - destruct (find_rev_last _ _ _ Hf) as (before & after & Hb & Ha & Hafter).
    assert (Hin : In a base) by (rewrite Hb; apply in_elt).
    rewrite (Hne a Hin). left. exists before, a, after. auto.
  - right. split; [|reflexivity]. intros a Hin.
    apply (find_none _ _ Hf). now apply in_rev in Hin.
  - apply find_some in Hf as [Hin Hd]. apply in_rev in Hin.
    rewrite (Hne a Hin). left. exists a. auto.
  - right. split; [|reflexivity]. intros a Hin.
    apply (find_none _ _ Hf). now apply in_rev in Hin.
Qed.

End Images.

Lemma pickImage_resolves_witness :
  pickImage (demoEnv []) "https://img/a.png"
    (Defined {| img_fileId := "file-1"; img_url := "cdn:https://img/a.png" |})
  = "file-1".
Proof.
  apply (proj1 (pickImage_resolves (demoEnv []) "https://img/a.png"
                  (Defined {| img_fileId := "file-1";
                              img_url := "cdn:https://img/a.png" |}))
           {| img_fileId := "file-1"; img_url := "cdn:https://img/a.png" |});
    reflexivity.
Defined.

(** The list example of the specification: the existing assets hold the
    desired images in the other order. *)
Example pickImages_reordered :
  pickImages (demoEnv []) ["https://img/a.png"; "https://img/b.png"]
    (Defined [ {| img_fileId := "file-b"; img_url := "cdn:https://img/b.png" |};
               {| img_fileId := "file-a"; img_url := "cdn:https://img/a.png" |} ])
  = ["file-a"; "file-b"].
Proof. reflexivity. Qed.

Lemma pickImages_digest_match_witness :
  pickImages (demoEnv []) ["https://img/a.png"; "https://img/c.png"]
    (Defined
       [ {| img_fileId := "file-a1"; img_url := "cdn:https://img/a.png" |};
         {| img_fileId := "file-b"; img_url := "cdn:https://img/b.png" |};
         {| img_fileId := "file-a2"; img_url := "cdn:https://img/a.png" |} ])
  = ["file-a2"; "https://img/c.png"] /\
  Forall2
    (lastDigestMatched (demoEnv [])
       [ {| img_fileId := "file-a1"; img_url := "cdn:https://img/a.png" |};
         {| img_fileId := "file-b"; img_url := "cdn:https://img/b.png" |};
         {| img_fileId := "file-a2"; img_url := "cdn:https://img/a.png" |} ])
    ["https://img/a.png"; "https://img/c.png"]
    (pickImages (demoEnv []) ["https://img/a.png"; "https://img/c.png"]
       (Defined
          [ {| img_fileId := "file-a1"; img_url := "cdn:https://img/a.png" |};
            {| img_fileId := "file-b"; img_url := "cdn:https://img/b.png" |};
            {| img_fileId := "file-a2"; img_url := "cdn:https://img/a.png" |} ])).
Proof.
  split; [reflexivity|].
  apply pickImages_digest_match.
  intros a [<-|[<-|[<-|[]]]]; reflexivity.
Defined.

(** C4: an existing asset with an empty file handle holds the bytes of the
    desired URL.  [pickImages] finds its handle under the digest, tests it
    for truthiness and writes the URL; [pickImage], given the same URL and
    the same asset, returns the handle. *)
Lemma pickImages_empty_handle_unmatched :
  getImageHash (demoEnv []) (Some "cdn:https://img/a.png")
  = getImageHash (demoEnv []) (Some "https://img/a.png") /\
  pickImages (demoEnv []) ["https://img/a.png"]
    (Defined [ {| img_fileId := ""; img_url := "cdn:https://img/a.png" |} ])
  = ["https://img/a.png"] /\
  pickImage (demoEnv []) "https://img/a.png"
    (Defined {| img_fileId := ""; img_url := "cdn:https://img/a.png" |})
  = "" /\
  ~ Forall2
      (digestMatched (demoEnv [])
         [ {| img_fileId := ""; img_url := "cdn:https://img/a.png" |} ])
      ["https://img/a.png"]
      (pickImages (demoEnv []) ["https://img/a.png"]
         (Defined [ {| img_fileId := ""; img_url := "cdn:https://img/a.png" |} ])).
Proof.
  split; [reflexivity|]. split; [reflexivity|]. split; [reflexivity|].
  intros H. inversion H as [|u o us os Hm _]; subst.
  destruct Hm as [[a [[<-|[]] [_ Ho]]] | [Hall _]].
  - discriminate Ho.
  - specialize (Hall _ (or_introl eq_refl)). discriminate Hall.
Qed.

(** ** Computations and their calls *)

Section Runs.

Variable E : Env.

Lemma bind_run {A B : Type} (m : M A) (f : A -> M B) (s : Store) :
  bind m f s =
  match run_result (m s) with
  | inl e => (run_store (m s), run_calls (m s), inl e)
  | inr a =>
      (run_store (f a (run_store (m s))),
       run_calls (m s) ++ run_calls (f a (run_store (m s))),
       run_result (f a (run_store (m s))))
  end.
Proof.
  unfold bind, run_result, run_store, run_calls.
  destruct (m s) as [[s1 l1] [e|a]]; simpl; [reflexivity|].
  destruct (f a s1) as [[s2 l2] r]; reflexivity.
Qed.

Lemma allCalls_ret {A : Type} (P : Call -> Prop) (a : A) : allCalls P (ret a).
Proof. intros s. constructor. Qed.

Lemma allCalls_liftE {A : Type} (P : Call -> Prop) (r : Res A) :
  allCalls P (liftE r).
Proof. intros s. constructor. Qed.

Lemma allCalls_bind {A B : Type} (P : Call -> Prop) (m : M A) (f : A -> M B) :
  allCalls P m -> (forall a, allCalls P (f a)) -> allCalls P (bind m f).
Proof.
  intros Hm Hf s. rewrite bind_run. specialize (Hm s).
  destruct (run_result (m s)); unfold run_calls in *; simpl; [exact Hm|].
  apply Forall_app. split; [exact Hm | apply Hf].
Qed.

Lemma allCalls_foldM {A B : Type} (P : Call -> Prop) (f : B -> A -> M B)
  (l : list A) (b : B) :
  (forall b x, allCalls P (f b x)) -> allCalls P (foldM f l b).
Proof.
  intros Hf. revert b. induction l as [|x r IH]; intros b; simpl.
  - apply allCalls_ret.
  - apply allCalls_bind; [apply Hf | intros b'; apply IH].
Qed.

Lemma allCalls_attempt {A : Type} (P : Call -> Prop) (c : Call)
  (effect : Store -> Store * A) :
  P c -> allCalls P (attempt E c effect).
Proof.
  intros Hc s. unfold attempt, run_calls.
  destruct (callFails E s c); simpl; repeat constructor; exact Hc.
Qed.

Lemma allCalls_weaken {A : Type} (P Q : Call -> Prop) (m : M A) :
  (forall c, P c -> Q c) -> allCalls P m -> allCalls Q m.
Proof. intros H Hm s. eapply Forall_impl; [exact H | apply Hm]. Qed.

Lemma silent_ret {A : Type} (a : A) : silent (ret a).
Proof. intros s. split; reflexivity. Qed.

Lemma silent_liftE {A : Type} (r : Res A) : silent (liftE r).
Proof. intros s. split; reflexivity. Qed.

Lemma silent_bind {A B : Type} (m : M A) (f : A -> M B) :
  silent m -> (forall a, silent (f a)) -> silent (bind m f).
Proof.
  intros Hm Hf s. rewrite bind_run. destruct (Hm s) as [Hs Hc].
  destruct (run_result (m s)) as [e|a]; unfold run_store, run_calls in *; simpl.
  - now split.
  - destruct (Hf a (fst (fst (m s)))) as [Hs' Hc']. unfold run_store, run_calls in *.
    rewrite Hs', Hc, Hc'. split; [exact Hs | reflexivity].
Qed.

Lemma silent_foldM {A B : Type} (f : B -> A -> M B) (l : list A) (b : B) :
  (forall b x, silent (f b x)) -> silent (foldM f l b).
Proof.
  intros Hf. revert b. induction l as [|x r IH]; intros b; simpl.
  - apply silent_ret.
  - apply silent_bind; [apply Hf | intros b'; apply IH].
Qed.

Lemma twoPhases_late {A : Type} (P Q : Call -> Prop) (m : M A) :
  allCalls Q m -> twoPhases P Q m.
Proof. intros H s. exists [], (run_calls (m s)). repeat split; [constructor | apply H]. Qed.

Lemma twoPhases_bind {A B : Type} (P Q : Call -> Prop) (m : M A) (f : A -> M B) :
  allCalls P m -> (forall a, twoPhases P Q (f a)) -> twoPhases P Q (bind m f).
Proof.
  intros Hm Hf s. rewrite bind_run. specialize (Hm s).
  destruct (run_result (m s)) as [e|a]; unfold run_calls in *; simpl.
  - exists (snd (fst (m s))), []. rewrite app_nil_r. repeat split; [exact Hm | constructor].
  - destruct (Hf a (run_store (m s))) as [l1 [l2 [Heq [H1 H2]]]].
    exists (snd (fst (m s)) ++ l1), l2. unfold run_calls in Heq.
    rewrite Heq, app_assoc. repeat split; [|exact H2].
    apply Forall_app. now split.
Qed.

End Runs.

(** ** Publishing *)

Section Publish.

Variable E : Env.

Lemma truthy_false (s : string) : truthy s = false <-> s = "".
Proof.
  unfold truthy. destruct (String.eqb_spec s ""); simpl; split; congruence.
Qed.

Lemma truthy_true (s : string) : truthy s = true <-> s <> "".
Proof.
  unfold truthy. destruct (String.eqb_spec s ""); simpl; split; congruence.
Qed.

Lemma needsPublish_spec {F : Type} (i : CollectionItem F) :
  needsPublish E i = true <-> neverPublished i \/ publishedBeforeUpdate E i.
Proof.
  unfold needsPublish, neverPublished, publishedBeforeUpdate, parseDate.
  destruct (item_lastPublished i) as [|p] eqn:Hp.
  - split; [intros _; left; now left | reflexivity].
  - destruct (truthy p) eqn:Ht; simpl.
    + apply truthy_true in Ht.
      destruct (Date_parse E p) as [tp|] eqn:Hdp.
      * destruct (item_lastUpdated i) as [|u] eqn:Hu.
        -- split; [discriminate|].
           intros [[H|H]|[p' [u' [tp' [tu' [H1 [H2 _]]]]]]]; congruence.
        -- destruct (Date_parse E u) as [tu|] eqn:Hdu.
           ++ rewrite Z.ltb_lt. split.
              ** intros Hlt. right. exists p, u, tp, tu. auto.
              ** intros [[H|H]|[p' [u' [tp' [tu' [H1 [H2 [H3 [H4 H5]]]]]]]]];
                   congruence.
           ++ split; [discriminate|].
              intros [[H|H]|[p' [u' [tp' [tu' [H1 [H2 [H3 [H4 H5]]]]]]]]];
                congruence.
      * split; [discriminate|].
        intros [[H|H]|[p' [u' [tp' [tu' [H1 [H2 [H3 [H4 H5]]]]]]]]]; congruence.
    + apply truthy_false in Ht. subst p.
      split; [intros _; left; now right | reflexivity].
Qed.

Lemma needsPublish_since {F : Type} (i : CollectionItem F) :
  publishedSinceUpdate E i -> needsPublish E i = false.
Proof.
  intros [p [u [tp [tu [Hp [Hne [Hu [Hdp [Hdu Hle]]]]]]]]].
  unfold needsPublish, parseDate. rewrite Hp. apply truthy_true in Hne.
  rewrite Hne. simpl. rewrite Hdp, Hu, Hdu. now apply Z.ltb_ge.
Qed.

Lemma In_firstn {A : Type} (n : nat) (l : list A) (x : A) :
  In x (firstn n l) -> In x l.
Proof.
  revert l. induction n as [|n IH]; intros [|y r]; simpl; try tauto.
  intros [H|H]; [now left | right; now apply IH].
Qed.

Lemma skipn_skipn_add {A : Type} (n m : nat) (l : list A) :
  skipn n (skipn m l) = skipn (m + n) l.
Proof.
  revert l. induction m as [|m IH]; intros l; [reflexivity|].
  destruct l as [|x r]; simpl; [now rewrite skipn_nil | apply IH].
Qed.

(** With enough fuel the chunks, put end to end, are the identifiers from
    index [i] on. *)
Lemma publishChunks_concat (fuel i : nat) (ids : list string) :
  length ids - i <= fuel ->
  concat (publishChunks fuel i ids) = skipn i ids.
Proof.
  revert i. induction fuel as [|fuel IH]; intros i Hf; simpl.
  - symmetry. apply skipn_all2. lia.
  - destruct (Nat.ltb_spec i (length ids)) as [Hlt|Hge].
    + simpl. rewrite IH by (unfold chunkSize; lia).
      unfold slice, chunkSize. replace (i + 100 - i) with 100 by lia.
      rewrite <- skipn_skipn_add. apply firstn_skipn.
    + symmetry. apply skipn_all2. lia.
Qed.

Lemma publishChunks_sizes (fuel i : nat) (ids : list string) :
  Forall (fun chunk => 0 < length chunk <= chunkSize) (publishChunks fuel i ids).
Proof.
  revert i. induction fuel as [|fuel IH]; intros i; simpl; [constructor|].
  destruct (Nat.ltb_spec i (length ids)) as [Hlt|Hge]; constructor; [|apply IH].
  unfold slice. replace (i + chunkSize - i) with chunkSize by lia.
  rewrite length_firstn, length_skipn. unfold chunkSize. lia.
Qed.

(** More fuel than the loop needs changes nothing. *)
Lemma publishChunks_fuel (fuel fuel' i : nat) (ids : list string) :
  length ids - i <= fuel -> length ids - i <= fuel' ->
  publishChunks fuel i ids = publishChunks fuel' i ids.
Proof.
  revert fuel' i. induction fuel as [|fuel IH]; intros fuel' i H H'.
  - destruct fuel'; [reflexivity|]. simpl.
    destruct (Nat.ltb_spec i (length ids)); [lia | reflexivity].
  - destruct fuel' as [|fuel']; simpl;
      destruct (Nat.ltb_spec i (length ids)); try reflexivity; try lia.
    f_equal. apply IH; unfold chunkSize; lia.
Qed.

Lemma publishItem_run (c : Coll) (ids : list string) (s : Store) :
  publishItem E c ids s =
  if callFails E s (PublishItem c ids)
  then (s, [PublishItem c ids], inl (RemoteError (PublishItem c ids)))
  else (publishIn E c ids s, [PublishItem c ids], inr tt).
Proof. reflexivity. Qed.

Lemma publish_calls (c : Coll) (chunks : list (list string)) (s : Store) :
  exists n,
    run_calls (foldM (fun (_ : unit) ch => publishItem E c ch) chunks tt s)
    = map (PublishItem c) (firstn n chunks) /\
    ((forall s' call, callFails E s' call = false) -> n = length chunks).
Proof.
  revert s. induction chunks as [|ch r IH]; intros s; cbn [foldM].
  - exists 0. split; reflexivity.
  - rewrite bind_run, publishItem_run.
    destruct (callFails E s (PublishItem c ch)) eqn:Hf;
      cbn [run_result run_store run_calls fst snd].
    + exists 1. split; [reflexivity|]. intros H. now rewrite H in Hf.
    + destruct (IH (publishIn E c ch s)) as [n [Hn Hall]].
      exists (S n). split; [cbn [firstn map app]; now rewrite <- Hn|].
      intros H. now rewrite (Hall H).
Qed.

(** C7: the publish step selects the items whose [lastPublished] is missing
    or parses to a time strictly before [lastUpdated] (an item published at
    or after its last update is left out); every publish call carries
    between 1 and 100 identifiers; and when no call fails the identifiers
    published, taken in order, are those of the selected items: an
    identifier is published exactly when it is that of an item never
    published or published before its last update. *)
Theorem publish_selection {F : Type} (c : Coll)
  (items : list (CollectionItem F)) (s : Store) :
  (forall i : CollectionItem F,
     (needsPublish E i = true <-> neverPublished i \/ publishedBeforeUpdate E i) /\
     (publishedSinceUpdate E i -> needsPublish E i = false)) /\
  Forall (fun call =>
            exists chunk, call = PublishItem c chunk /\
                          0 < length chunk <= 100)
         (run_calls (publishUpdatedWebflowItems E c items false s)) /\
  ((forall s' call, callFails E s' call = false) ->
   publishedIds (run_calls (publishUpdatedWebflowItems E c items false s))
   = map item_id (filter (needsPublish E) items) /\
   forall id,
     In id (publishedIds (run_calls (publishUpdatedWebflowItems E c items false s)))
     <-> exists i, In i items /\ item_id i = id /\
                   (neverPublished i \/ publishedBeforeUpdate E i)).
Proof.
  split; [intros i; split; [apply needsPublish_spec | apply needsPublish_since]|].
  assert (Hsel : forall id,
            In id (map item_id (filter (needsPublish E) items)) <->
            exists i, In i items /\ item_id i = id /\
                      (neverPublished i \/ publishedBeforeUpdate E i)).
  { intros id. rewrite in_map_iff. split.
    - intros [i [Hid Hi]]. apply filter_In in Hi as [Hi Hn].
      exists i. repeat split; [assumption | assumption |].
      now apply needsPublish_spec.
    - intros [i [Hi [Hid Hn]]]. exists i. split; [assumption|].
      apply filter_In. split; [assumption | now apply needsPublish_spec]. }
  revert Hsel.
  unfold publishUpdatedWebflowItems. simpl.
  set (ids := map item_id (filter (needsPublish E) items)).
  destruct (publish_calls c (publishChunks (length ids) 0 ids) s) as [n [Hn Hall]].
  rewrite Hn. split.
  - apply Forall_forall. intros call Hin. apply in_map_iff in Hin as [ch [<- Hch]].
    exists ch. split; [reflexivity|].
    apply In_firstn in Hch.
    pose proof (publishChunks_sizes (length ids) 0 ids) as Hs.
    rewrite Forall_forall in Hs. apply (Hs ch Hch).
  - intros Hok.
    assert (Hids : publishedIds
                     (map (PublishItem c)
                        (firstn n (publishChunks (length ids) 0 ids))) = ids).
    { rewrite (Hall Hok), firstn_all.
      unfold publishedIds. rewrite flat_map_concat_map, map_map. simpl.
      rewrite map_id. apply publishChunks_concat. lia. }
    rewrite Hids. split; [reflexivity | exact Hsel].
Qed.

(** In a dry run nothing is published. *)
Lemma publish_dry_run {F : Type} (c : Coll) (items : list (CollectionItem F)) :
  silent (publishUpdatedWebflowItems E c items true).
Proof. intros s. split; reflexivity. Qed.

End Publish.

(** ** The calls of each phase *)

Section Phases.

Variable E : Env.

Ltac calls_step :=
  first [ apply allCalls_ret
        | apply allCalls_liftE
        | apply allCalls_attempt
        | apply allCalls_bind; [|intros ?]
        | apply allCalls_foldM; intros ? ? ].

Ltac silent_step :=
  first [ apply silent_ret
        | apply silent_liftE
        | apply silent_bind; [|intros ?]
        | apply silent_foldM; intros ? ? ].

(** Reading the destination attempts no mutating call. *)
Lemma getAllWebflowMaps_silent : silent getAllWebflowMaps.
Proof. intros s. split; reflexivity. Qed.

Lemma getAllWebflowMapTags_silent : silent getAllWebflowMapTags.
Proof. intros s. split; reflexivity. Qed.

Lemma getAllWebflowMapTerrains_silent : silent getAllWebflowMapTerrains.
Proof. intros s. split; reflexivity. Qed.

Lemma silent_allCalls {A : Type} (P : Call -> Prop) (m : M A) :
  silent m -> allCalls P m.
Proof. intros H s. destruct (H s) as [_ ->]. constructor. Qed.

(** The additions of a vocabulary create and update in its collection. *)
Lemma additions_calls (ty : IWebflowItemType)
  (equals : IWebsiteItem -> IWebflowItem -> bool)
  (src : JsMap.t IWebsiteItem) (dest : JsMap.t IWebflowItem)
  (v : Vocabulary) (dryRun : bool) :
  allCalls (fun c => callColl c = VocabColl v /\ isDelete c = false /\
                     isPublish c = false)
           (syncCollectionToWebflowAdditions E ty equals src dest v dryRun).
Proof.
  unfold syncCollectionToWebflowAdditions. calls_step.
  unfold additionStep.
  destruct (JsMap.get b (ws_slug x)) as [w|].
  - destruct (negb (equals x w)); [|calls_step].
    destruct (negb dryRun); [|calls_step].
    calls_step; [|calls_step]. unfold updateItem. calls_step. now repeat split.
  - destruct (negb dryRun); [|calls_step].
    calls_step; [|calls_step]. unfold createItem. calls_step. now repeat split.
Qed.

Lemma additions_dry_run (ty : IWebflowItemType)
  (equals : IWebsiteItem -> IWebflowItem -> bool)
  (src : JsMap.t IWebsiteItem) (dest : JsMap.t IWebflowItem) (v : Vocabulary) :
  silent (syncCollectionToWebflowAdditions E ty equals src dest v true).
Proof.
  unfold syncCollectionToWebflowAdditions. silent_step.
  unfold additionStep. simpl.
  destruct (JsMap.get b (ws_slug x)) as [w|]; [|silent_step].
  destruct (negb (equals x w)); silent_step.
Qed.

(** The removals of a vocabulary only delete in its collection. *)
Lemma removals_calls (v : Vocabulary) (src : JsMap.t IWebsiteItem)
  (dest : JsMap.t IWebflowItem) (dryRun : bool) :
  allCalls (fun c => callColl c = VocabColl v /\ isDelete c = true)
           (syncCollectionToWebflowRemovals E v src dest dryRun).
Proof.
  unfold syncCollectionToWebflowRemovals. calls_step.
  unfold removalStep.
  destruct (negb (JsMap.has b (fst x))); [calls_step|].
  destruct (negb (JsMap.has src (wf_slug (snd x)))); [|calls_step].
  destruct (negb dryRun); [|calls_step].
  calls_step; [|calls_step]. unfold deleteItem. calls_step. now split.
Qed.

Lemma removals_dry_run (v : Vocabulary) (src : JsMap.t IWebsiteItem)
  (dest : JsMap.t IWebflowItem) :
  silent (syncCollectionToWebflowRemovals E v src dest true).
Proof.
  unfold syncCollectionToWebflowRemovals. silent_step.
  unfold removalStep. simpl.
  destruct (negb (JsMap.has b (fst x))); [silent_step|].
  destruct (negb (JsMap.has src (wf_slug (snd x)))); silent_step.
Qed.

(** Reconciling the maps only calls the map collection, and never
    publishes. *)
Lemma syncMaps_calls (src : JsMap.t WebsiteMapInfo)
  (dest : JsMap.t WebflowMapInfo) (dryRun : bool) :
  allCalls (fun c => callColl c = MapsColl /\ isPublish c = false)
           (syncMapsToWebflow E src dest dryRun).
Proof.
  unfold syncMapsToWebflow. calls_step; [|calls_step].
  - calls_step. unfold mapAdditionStep.
    destruct (JsMap.get (fst b) (mi_rowyId x)); [calls_step|].
    destruct (negb dryRun); [|calls_step].
    calls_step; [|calls_step; calls_step].
    unfold createMapItem. calls_step. now split.
  - calls_step. unfold mapRemovalStep.
    destruct (negb (JsMap.has b (fst x))); [calls_step|].
    destruct (negb (JsMap.has src (mi_rowyId (wm_info (snd x))))); [|calls_step].
    destruct (negb dryRun); [|calls_step].
    calls_step; [|calls_step]. unfold deleteItem. calls_step. now split.
  - calls_step. unfold mapUpdateStep.
    destruct (negb dryRun); [|calls_step].
    calls_step; [|calls_step; calls_step].
    unfold updateMapItem. calls_step. now split.
Qed.

Lemma syncMaps_dry_run (src : JsMap.t WebsiteMapInfo)
  (dest : JsMap.t WebflowMapInfo) :
  silent (syncMapsToWebflow E src dest true).
Proof.
  unfold syncMapsToWebflow. silent_step; [|silent_step].
  - silent_step. unfold mapAdditionStep. simpl.
    destruct (JsMap.get (fst b) (mi_rowyId x)); silent_step.
  - silent_step. unfold mapRemovalStep. simpl.
    destruct (negb (JsMap.has b (fst x))); [silent_step|].
    destruct (negb (JsMap.has src (mi_rowyId (wm_info (snd x))))); silent_step.
  - silent_step. unfold mapUpdateStep. simpl. silent_step.
Qed.

Lemma publish_calls_kind {F : Type} (c : Coll)
  (items : list (CollectionItem F)) (dryRun : bool) :
  allCalls (fun call => isPublish call = true)
           (publishUpdatedWebflowItems E c items dryRun).
Proof.
  unfold publishUpdatedWebflowItems.
  destruct (negb dryRun); [|calls_step].
  calls_step. unfold publishItem. calls_step. reflexivity.
Qed.

End Phases.

(** ** Dry runs and the order of the phases *)

Section Command.

Variable E : Env.

Lemma mapE_total {A B : Type} (f : A -> Res B) (g : A -> B) (l : list A) :
  (forall x, In x l -> f x = inr (g x)) -> mapE f l = inr (map g l).
Proof.
  induction l as [|x r IH]; intros H; simpl; [reflexivity|].
  rewrite (H x (or_introl eq_refl)). simpl.
  rewrite IH by (intros y Hy; apply H; now right). reflexivity.
Qed.

Lemma mapE_inl {A B : Type} (f : A -> Res B) (l : list A) (e : Error) :
  mapE f l = inl e -> exists x, In x l /\ f x = inl e.
Proof.
  induction l as [|x r IH]; simpl; [discriminate|].
  destruct (f x) as [e'|y] eqn:Hx; simpl.
  - intros [= ->]. exists x. auto.
  - destruct (mapE f r) as [e'|ys]; simpl; [|discriminate].
    intros [= ->]. destruct (IH eq_refl) as [z [Hz Hf]]. exists z. auto.
Qed.

Lemma mapE_inr {A B : Type} (f : A -> Res B) (l : list A) (ys : list B) :
  mapE f l = inr ys -> forall x, In x l -> exists y, f x = inr y.
Proof.
  revert ys. induction l as [|x r IH]; intros ys; simpl; [intros _ z []|].
  destruct (f x) as [e'|y] eqn:Hx; simpl; [discriminate|].
  destruct (mapE f r) as [e'|ys'] eqn:Hr; simpl; [discriminate|].
  intros _ z [<-|Hz]; [eauto | eapply IH; eauto].
Qed.

Lemma resolveRef_dry_run (field : RefField) (refs : JsMap.t IWebflowItem)
  (ref : string) :
  resolveRef field refs true ref = inr (keepUnresolved refs ref).
Proof. unfold resolveRef, keepUnresolved. destruct (JsMap.get refs ref); reflexivity. Qed.

Lemma resolveItemRefs_dry_run (mapInfos : JsMap.t WebsiteMapInfo)
  (field : RefField) (refs : JsMap.t IWebflowItem) :
  resolveItemRefsInMapInfos mapInfos field refs true
  = inr (map (fun e =>
                (fst e,
                 withRefs field (snd e)
                   (map (keepUnresolved refs) (refsOf field (snd e)))))
             mapInfos).
Proof.
  unfold resolveItemRefsInMapInfos. apply mapE_total. intros e _.
  rewrite (mapE_total _ (keepUnresolved refs)); [reflexivity|].
  intros ref _. apply resolveRef_dry_run.
Qed.

Lemma resolveItemRefs_missing (mapInfos : JsMap.t WebsiteMapInfo)
  (field : RefField) (refs : JsMap.t IWebflowItem)
  (k : string) (i : WebsiteMapInfo) (ref : string) :
  In (k, i) mapInfos -> In ref (refsOf field i) -> JsMap.get refs ref = None ->
  exists ref', JsMap.get refs ref' = None /\
    resolveItemRefsInMapInfos mapInfos field refs false
    = inl (MissingRef field ref').
Proof.
  intros Hi Hr Hg. unfold resolveItemRefsInMapInfos.
  destruct (mapE _ mapInfos) as [e|out] eqn:Hm.
  - apply mapE_inl in Hm as [x [_ Hx]].
    destruct (mapE (resolveRef field refs false) (refsOf field (snd x)))
      as [e'|l] eqn:Hl; simpl in Hx; [|discriminate].
    injection Hx as <-. apply mapE_inl in Hl as [ref' [_ Hf]].
    unfold resolveRef in Hf. destruct (JsMap.get refs ref') eqn:Hg'; [discriminate|].
    injection Hf as <-. exists ref'. auto.
  - exfalso. destruct (mapE_inr _ _ _ Hm (k, i) Hi) as [y Hy]. simpl in Hy.
    destruct (mapE (resolveRef field refs false) (refsOf field i))
      as [e'|l] eqn:Hl; simpl in Hy; [discriminate|].
    destruct (mapE_inr _ _ _ Hl ref Hr) as [z Hz].
    unfold resolveRef in Hz. now rewrite Hg in Hz.
Qed.

Lemma syncCommand_dry_run (src : Source) : silent (syncCommand E src true).
Proof.
  unfold syncCommand.
  apply silent_bind; [apply getAllWebflowMaps_silent | intros webflowMaps].
  apply silent_bind; [apply getAllWebflowMapTags_silent | intros tags].
  apply silent_bind; [apply getAllWebflowMapTerrains_silent | intros terrains].
  apply silent_bind; [apply silent_liftE | intros built].
  apply silent_bind; [apply additions_dry_run | intros tags1].
  apply silent_bind; [apply silent_liftE | intros infos1].
  apply silent_bind; [apply additions_dry_run | intros terrains1].
  apply silent_bind; [apply silent_liftE | intros infos2].
  apply silent_bind; [apply syncMaps_dry_run | intros maps1].
  apply silent_bind; [apply publish_dry_run | intros ?].
  apply silent_bind; [apply publish_dry_run | intros ?].
  apply silent_bind; [apply publish_dry_run | intros ?].
  apply silent_bind; [apply removals_dry_run | intros tags2].
  apply silent_bind; [apply removals_dry_run | intros ?].
  apply silent_ret.
Qed.

(** C2: a dry run attempts no mutating call and leaves the destination as
    it found it, whatever the differences it computes; in a dry run a
    reference to a tag or terrain that is not in the destination is passed
    through unresolved, and outside a dry run it raises. *)
Theorem dry_run_purity (src : Source) (s : Store) :
  run_store (syncCommand E src true s) = s /\
  run_calls (syncCommand E src true s) = [] /\
  (forall mapInfos field refs,
     resolveItemRefsInMapInfos mapInfos field refs true
     = inr (map (fun e =>
                   (fst e,
                    withRefs field (snd e)
                      (map (keepUnresolved refs) (refsOf field (snd e)))))
                mapInfos)) /\
  (forall refs ref, JsMap.get refs ref = None -> keepUnresolved refs ref = ref) /\
  (forall mapInfos field refs k i ref,
     In (k, i) mapInfos -> In ref (refsOf field i) ->
     JsMap.get refs ref = None ->
     exists ref', JsMap.get refs ref' = None /\
       resolveItemRefsInMapInfos mapInfos field refs false
       = inl (MissingRef field ref')).
Proof.
  destruct (syncCommand_dry_run src s) as [Hs Hc].
  repeat split; try assumption.
  - apply resolveItemRefs_dry_run.
  - intros refs ref H. unfold keepUnresolved. now rewrite H.
  - apply resolveItemRefs_missing.
Qed.

Ltac call_kind :=
  let c := fresh "c" in
  intros c; destruct c as [[|?] ?|[|?] ? ?|[|?] ?|[|?] ?];
  unfold touchesMaps, isVocabDelete; simpl; intuition congruence.

(** Whatever the run, its calls fall in two phases: before the removals of
    tags and terrains no tag or terrain is deleted, and from then on no call
    touches the map collection. *)
Lemma syncCommand_phases (src : Source) (dryRun : bool) :
  twoPhases (fun c => isVocabDelete c = false) (fun c => touchesMaps c = false)
            (syncCommand E src dryRun).
Proof.
  unfold syncCommand.
  apply twoPhases_bind;
    [apply silent_allCalls, getAllWebflowMaps_silent | intros webflowMaps].
  apply twoPhases_bind;
    [apply silent_allCalls, getAllWebflowMapTags_silent | intros tags].
  apply twoPhases_bind;
    [apply silent_allCalls, getAllWebflowMapTerrains_silent | intros terrains].
  apply twoPhases_bind; [apply allCalls_liftE | intros built].
  apply twoPhases_bind;
    [eapply allCalls_weaken; [|apply additions_calls]; call_kind | intros tags1].
  apply twoPhases_bind; [apply allCalls_liftE | intros infos1].
  apply twoPhases_bind;
    [eapply allCalls_weaken; [|apply additions_calls]; call_kind | intros terrains1].
  apply twoPhases_bind; [apply allCalls_liftE | intros infos2].
  apply twoPhases_bind;
    [eapply allCalls_weaken; [|apply syncMaps_calls]; call_kind | intros maps1].
  apply twoPhases_bind;
    [eapply allCalls_weaken; [|apply publish_calls_kind]; call_kind | intros ?].
  apply twoPhases_bind;
    [eapply allCalls_weaken; [|apply publish_calls_kind]; call_kind | intros ?].
  apply twoPhases_bind;
    [eapply allCalls_weaken; [|apply publish_calls_kind]; call_kind | intros ?].
  apply twoPhases_late.
  apply allCalls_bind;
    [eapply allCalls_weaken; [|apply removals_calls]; call_kind | intros tags2].
  apply allCalls_bind;
    [eapply allCalls_weaken; [|apply removals_calls]; call_kind | intros ?].
  apply allCalls_ret.
Qed.

(** In the sequence of calls of a sync, no call on the map collection
    (create, update, delete or publish) comes after a delete call on the tag
    or terrain collection. *)
Theorem removals_after_map_updates (src : Source) (dryRun : bool) (s : Store)
  (before after : list Call) (c : Call) :
  run_calls (syncCommand E src dryRun s) = before ++ c :: after ->
  isVocabDelete c = true ->
  Forall (fun c' => touchesMaps c' = false) after.
Proof.
  intros Hcalls Hc.
  destruct (syncCommand_phases src dryRun s) as [l1 [l2 [Heq [H1 H2]]]].
  rewrite Heq in Hcalls. apply app_eq_app in Hcalls as [l [[Ha Hb]|[Ha Hb]]].
  - destruct l as [|x l].
    + simpl in Hb. subst l2. now inversion H2.
    + injection Hb as <- Hb. subst l1.
      apply Forall_app in H1 as [_ H1]. inversion H1; congruence.
  - subst l2. apply Forall_app in H2 as [_ H2]. now inversion H2.
Qed.

End Command.

Lemma dry_run_purity_witness :
  run_store (syncCommand (demoEnv ["ffa"]) demoSource true staleStore) = staleStore /\
  run_calls (syncCommand (demoEnv ["ffa"]) demoSource true staleStore) = [] /\
  keepUnresolved [] "ffa" = "ffa".
Proof.
  pose proof (dry_run_purity (demoEnv ["ffa"]) demoSource staleStore)
    as [Hs [Hc [_ [Hk _]]]].
  split; [exact Hs | split; [exact Hc | apply Hk; reflexivity]].
Defined.

(** The calls of a first sync against the out-of-date destination end with
    the two removals; the terrain is deleted last. *)
Lemma removals_after_map_updates_witness :
  Forall (fun c' => touchesMaps c' = false)
         [DeleteItem (VocabColl Terrains) "terrain-bog"].
Proof.
  apply (removals_after_map_updates (demoEnv ["ffa"]) demoSource false staleStore
           (firstn 30 (run_calls (syncCommand (demoEnv ["ffa"]) demoSource false
                                              staleStore)))
           [DeleteItem (VocabColl Terrains) "terrain-bog"]
           (DeleteItem (VocabColl Tags) "tag-old")).
  - vm_compute. reflexivity.
  - reflexivity.
Defined.

(** C6: the destination holds the tag [tag-old], which no map of the source
    has, and three maps with the row identifiers [row1], [row1-bad0] and
    [row1], the second of which refers to the tag.  The reading of the maps
    drops the second map (the third one, renamed, takes its key), so the
    sync, which completes, updates the first map, deletes the third one and
    then deletes the tag: the second map was never updated and still refers
    to the deleted tag. *)
Lemma tag_deleted_under_shadowed_map :
  map (fun it => (item_id it, tagsOfItem it)) (st_maps orphanStore)
  = [("map-a", Undefined); ("map-b", Defined ["tag-old"]); ("map-c", Undefined)] /\
  run_result (syncCommand (demoEnv []) demoSource false orphanStore) = inr tt /\
  updatedMapIds (run_calls (syncCommand (demoEnv []) demoSource false orphanStore)) = ["map-a"] /\
  filter isDelete (run_calls (syncCommand (demoEnv []) demoSource false orphanStore))
  = [DeleteItem MapsColl "map-c"; DeleteItem (VocabColl Tags) "tag-old"] /\
  map (fun it => (item_id it, tagsOfItem it))
      (st_maps (run_store (syncCommand (demoEnv []) demoSource false orphanStore)))
  = [("map-a", Defined []); ("map-b", Defined ["tag-old"])] /\
  st_tags (run_store (syncCommand (demoEnv []) demoSource false orphanStore)) = [].
Proof. repeat split; vm_compute; reflexivity. Qed.

(** Four items: never published; published at 100 and updated at 200;
    published at 300 and updated at 200; published and updated at 200.  The
    first two are published, in one call. *)
Lemma publish_selection_witness :
  publishedIds
    (run_calls (publishUpdatedWebflowItems (demoEnv []) (VocabColl Tags)
                  publishDemoItems false emptyStore))
  = ["never"; "stale"] /\
  publishedBeforeUpdate (demoEnv []) (stampedItem "stale" (Defined "100") "200") /\
  publishedSinceUpdate (demoEnv []) (stampedItem "fresh" (Defined "300") "200") /\
  needsPublish (demoEnv []) (stampedItem "same" (Defined "200") "200") = false.
Proof.
  destruct (publish_selection (demoEnv []) (VocabColl Tags) publishDemoItems
              emptyStore) as [Hsel [_ Hids]].
  split; [rewrite (proj1 (Hids (fun _ _ => eq_refl))); reflexivity|].
  split.
  { exists "100", "200", 100%Z, 200%Z. repeat split. }
  split.
  { exists "300", "200", 300%Z, 200%Z. repeat split; [discriminate | lia]. }
  apply (proj2 (Hsel (stampedItem "same" (Defined "200") "200"))).
  exists "200", "200", 200%Z, 200%Z. repeat split; [discriminate | lia].
Defined.

(** ** Rejection of incomplete E records *)

Section Build.

Variable E : Env.

Lemma foldE_fails {A B : Type} (f : B -> A -> Res B) (l : list A) (b : B) (x : A) :
  In x l -> (forall b', exists e, f b' x = inl e) ->
  exists e, foldE f l b = inl e.
Proof.
  intros Hin Hx. revert b. induction l as [|y r IH]; intros b; [destruct Hin|].
  simpl. destruct Hin as [->|Hin].
  - destruct (Hx b) as [e He]. rewrite He. simpl. eauto.
  - destruct (f b y) as [e|b']; simpl; eauto.
Qed.

Lemma checkEntries_missing (spring : string) (es : list (string * JsVal))
  (k : string) (v : JsVal) :
  In (k, v) es -> isMissingValue v = true ->
  exists k', checkEntries spring es = inl (MissingValue spring k').
Proof.
  induction es as [|[k0 v0] r IH]; intros Hin Hv; [destruct Hin|]. simpl.
  destruct (isMissingValue v0) eqn:H0; [eauto|].
  destruct Hin as [[= -> ->]|Hin]; [congruence | now apply IH].
Qed.

Lemma checkEntries_ok (spring : string) (es : list (string * JsVal)) :
  checkEntries spring es = inr tt <->
  (forall k v, In (k, v) es -> isMissingValue v = false).
Proof.
  induction es as [|[k0 v0] r IH]; simpl.
  - split; [intros _ k v [] | reflexivity].
  - destruct (isMissingValue v0) eqn:H0.
    + split; [discriminate|]. intros H. specialize (H k0 v0 (or_introl eq_refl)).
      congruence.
    + rewrite IH. split.
      * intros H k v [[= <- <-]|Hin]; [assumption | eauto].
      * intros H k v Hin. apply (H k v). now right.
Qed.

Lemma includes_In (l : list string) (x : string) :
  includes l x = true <-> In x l.
Proof.
  unfold includes. rewrite existsb_exists. split.
  - intros [y [Hy Heq]]. apply String.eqb_eq in Heq. now subst.
  - intros H. exists x. split; [assumption | apply String.eqb_refl].
Qed.

Lemma assertExtracted_missing (meta : MapMetadata) (f : string) :
  In f requiredFiles -> ~ In f (extractedFiles meta) ->
  assertExtracted meta = inl AssertionError.
Proof.
  intros Hf Hn. unfold assertExtracted.
  destruct (forallb (includes (extractedFiles meta)) requiredFiles) eqn:Hall;
    [|reflexivity].
  rewrite forallb_forall in Hall. specialize (Hall f Hf).
  apply includes_In in Hall. contradiction.
Qed.

Lemma buildStep_missing_cdn (cdnInfo : JsMap.t MapCDNInfo)
  (mapsMetadata : JsMap.t MapMetadata)
  (acc : JsMap.t WebsiteMapInfo * JsMap.t WebsiteMapTag)
  (rowyId : string) (m : MapInfo) :
  JsMap.get cdnInfo (springName m) = None ->
  buildStep E cdnInfo mapsMetadata acc (rowyId, m)
  = inl (MissingDownloadUrl (springName m)).
Proof. intros H. unfold buildStep. simpl. now rewrite H. Qed.

Lemma buildStep_missing_value (cdnInfo : JsMap.t MapCDNInfo)
  (mapsMetadata : JsMap.t MapMetadata)
  (acc : JsMap.t WebsiteMapInfo * JsMap.t WebsiteMapTag)
  (rowyId : string) (m : MapInfo) (mi : MapCDNInfo) (meta : MapMetadata)
  (info : RawMapInfo) (k : string) (v : JsVal) :
  JsMap.get cdnInfo (springName m) = Some mi ->
  JsMap.get mapsMetadata rowyId = Some meta ->
  assertExtracted meta = inr tt ->
  rawInfo E rowyId m mi meta (getDerivedInfo E m meta) = inr info ->
  In (k, v) (info_entries info) -> isMissingValue v = true ->
  exists k', buildStep E cdnInfo mapsMetadata acc (rowyId, m)
             = inl (MissingValue (springName m) k').
Proof.
  intros Hc Hm Ha Hr Hin Hv. unfold buildStep. cbn [fst snd].
  rewrite Hc, Hm, Ha. cbn [bindE]. rewrite Hr. cbn [bindE].
  destruct (checkEntries_missing (springName m) _ _ _ Hin Hv) as [k' Hk].
  rewrite Hk. cbn [bindE]. exists k'. reflexivity.
Qed.

Lemma buildStep_rejects (cdnInfo : JsMap.t MapCDNInfo)
  (mapsMetadata : JsMap.t MapMetadata) (rowyId : string) (m : MapInfo) :
  incomplete E cdnInfo mapsMetadata rowyId m ->
  forall acc, exists e,
    buildStep E cdnInfo mapsMetadata acc (rowyId, m) = inl e.
Proof.
  intros Hinc acc. unfold buildStep. cbn [fst snd].
  destruct (JsMap.get cdnInfo (springName m)) as [mi|] eqn:Hc; [|eauto].
  destruct (JsMap.get mapsMetadata rowyId) as [meta|] eqn:Hm; [|eauto].
  destruct Hinc as [H|[[meta' [f [H1 [H2 H3]]]]|
                       [mi' [meta' [info [k [v [H1 [H2 [H3 [H4 H5]]]]]]]]]]].
  - congruence.
  - assert (meta' = meta) by congruence. subst meta'.
    rewrite (assertExtracted_missing _ _ H2 H3). simpl. eauto.
  - assert (mi' = mi) by congruence. assert (meta' = meta) by congruence.
    subst mi' meta'.
    destruct (assertExtracted meta) as [e|[]]; cbn [bindE]; [eauto|].
    rewrite H3. cbn [bindE].
    assert (Hv : isMissingValue v = true) by (destruct H5; subst v; reflexivity).
    destruct (checkEntries_missing (springName m) _ _ _ H4 Hv) as [k' Hk].
    rewrite Hk. simpl. eauto.
Qed.

(** A computation that throws without a call and without touching the store. *)
Lemma bind_silent_failure {A B : Type} (m : M A) (f : A -> M B) (s : Store) :
  silent m ->
  (forall a, exists e, f a s = (s, [], inl e)) ->
  exists e, bind m f s = (s, [], inl e).
Proof.
  intros Hm Hf. destruct (Hm s) as [Hs Hc]. unfold bind.
  unfold run_store, run_calls in *.
  destruct (m s) as [[s1 l1] [e|a]]; simpl in *; subst; [eauto|].
  destruct (Hf a) as [e He]. rewrite He. eauto.
Qed.

Lemma syncCommand_build_failure (src : Source) (dryRun : bool) (s : Store)
  (e : Error) :
  buildWebflowInfo E (src_maps src) (src_cdnInfo src) (src_mapsMetadata src)
  = inl e ->
  exists e', syncCommand E src dryRun s = (s, [], inl e').
Proof.
  intros Hb. unfold syncCommand.
  apply bind_silent_failure; [apply getAllWebflowMaps_silent | intros webflowMaps].
  apply bind_silent_failure; [apply getAllWebflowMapTags_silent | intros tags].
  apply bind_silent_failure;
    [apply getAllWebflowMapTerrains_silent | intros terrains].
  rewrite Hb. exists e. reflexivity.
Qed.

(** C5: a source map whose CDN entry is missing, or whose metadata lacks one
    of [height.png], [metal.png], [texture.jpg], or whose record holds a
    field that is [undefined] or the empty string, makes the build raise; the
    sync then ends in an error having attempted no mutating call and with the
    destination untouched.  A numeric field, zero included, passes the
    check. *)
Theorem build_rejects_incomplete (src : Source) (dryRun : bool) (s : Store)
  (rowyId : string) (m : MapInfo) :
  In (rowyId, m) (src_maps src) ->
  incomplete E (src_cdnInfo src) (src_mapsMetadata src) rowyId m ->
  (exists e,
     buildWebflowInfo E (src_maps src) (src_cdnInfo src) (src_mapsMetadata src)
     = inl e) /\
  (exists e', syncCommand E src dryRun s = (s, [], inl e')) /\
  (forall z, isMissingValue (JsNumber z) = false).
Proof.
  intros Hin Hinc.
  destruct (foldE_fails (buildStep E (src_cdnInfo src) (src_mapsMetadata src))
              (src_maps src) (JsMap.empty, JsMap.empty) (rowyId, m) Hin
              (buildStep_rejects _ _ _ _ Hinc)) as [e He].
  split; [exists e; exact He|]. split; [|reflexivity].
  now apply syncCommand_build_failure with (e := e).
Qed.

End Build.

Lemma build_rejects_incomplete_witness :
  (exists e,
     buildWebflowInfo (demoEnv []) (src_maps missingFileSource)
       (src_cdnInfo missingFileSource) (src_mapsMetadata missingFileSource)
     = inl e) /\
  (exists e',
     syncCommand (demoEnv []) missingFileSource false staleStore
     = (staleStore, [], inl e')) /\
  (forall z, isMissingValue (JsNumber z) = false).
Proof.
  apply (build_rejects_incomplete (demoEnv []) missingFileSource false staleStore
           "row1" demoMap).
  - left. reflexivity.
  - right. left.
    exists {| extractedFiles := ["height.png"; "texture.jpg"];
              location_bucket := "bucket"; location_path := "red" |}, "metal.png".
    split; [reflexivity|]. split; [simpl; tauto|].
    simpl. intros [H|[H|[]]]; discriminate H.
Defined.

(** A record whose numbers are all zero passes the sanity check. *)
Example zero_is_accepted :
  checkEntries "Red Comet 1.2"
    [("width", JsNumber 0); ("windMin", JsNumber 0); ("teamCount", JsNumber 0)]
  = inr tt.
Proof. reflexivity. Qed.

(** ** Sentinels for absent destination fields *)

Section Sentinels.

Variable E : Env.

Lemma isWebflowMapInfoEqual_inv (a b : WebsiteMapInfo) :
  isWebflowMapInfoEqual E a b = true ->
  (sameImage E (Some (mi_minimapUrl a)) (Some (mi_minimapUrl b)) = true /\
   sameImage E (Some (mi_minimapThumbUrl a)) (Some (mi_minimapThumbUrl b)) = true /\
   sameImage E (mi_bgImageUrl a) (mi_bgImageUrl b) = true /\
   sameImage E (mi_perspectiveShotUrl a) (mi_perspectiveShotUrl b) = true /\
   sameImages E (mi_moreImagesUrl a) (mi_moreImagesUrl b) = true /\
   sameImage E (Some (mi_textureMapUrl a)) (Some (mi_textureMapUrl b)) = true /\
   sameImage E (Some (mi_heightMapUrl a)) (Some (mi_heightMapUrl b)) = true /\
   sameImage E (Some (mi_metalMapUrl a)) (Some (mi_metalMapUrl b)) = true) /\
  mi_name a = mi_name b /\
  mi_rowyId a = mi_rowyId b /\
  mi_downloadUrl a = mi_downloadUrl b /\
  mi_width a = mi_width b /\
  mi_height a = mi_height b /\
  mi_mapSize a = mi_mapSize b /\
  option_eqb String.eqb (mi_title a) (mi_title b) = true /\
  option_eqb String.eqb (mi_description a) (mi_description b) = true /\
  mi_author a = mi_author b /\
  mi_windMin a = mi_windMin b /\
  mi_windMax a = mi_windMax b /\
  option_eqb Z.eqb (mi_tidalStrength a) (mi_tidalStrength b) = true /\
  mi_teamCount a = mi_teamCount b /\
  mi_maxPlayers a = mi_maxPlayers b /\
  isSameRefs (mi_mapTags a) (mi_mapTags b) = true /\
  isSameRefs (mi_mapTerrains a) (mi_mapTerrains b) = true.
Proof.
  unfold isWebflowMapInfoEqual. cbn [forallb]. intros H.
  repeat (apply andb_prop in H; destruct H as [H ?]).
  repeat match goal with
         | X : (_ =? _)%string = true |- _ => apply String.eqb_eq in X
         | X : (_ =? _)%Z = true |- _ => apply Z.eqb_eq in X
         | X : _ && _ = true |- _ => apply andb_prop in X; destruct X
         end.
  repeat split; assumption.
Qed.








End Sentinels.

(** ** Successful computations, step by step *)

Section Success.

Variable E : Env.

Lemma bind_inr {A B : Type} (m : M A) (f : A -> M B) (s s' : Store)
  (l : list Call) (b : B) :
  bind m f s = (s', l, inr b) ->
  exists s1 l1 a l2,
    m s = (s1, l1, inr a) /\ f a s1 = (s', l2, inr b) /\ l = l1 ++ l2.
Proof.
  unfold bind. destruct (m s) as [[s1 l1] [e|a]]; [discriminate|].
  destruct (f a s1) as [[s2 l2] r] eqn:Hf. intros [= <- <- ->].
  exists s1, l1, a, l2. auto.
Qed.

Lemma ret_inr {A : Type} (a b : A) (s s' : Store) (l : list Call) :
  ret a s = (s', l, inr b) -> s' = s /\ l = [] /\ b = a.
Proof. unfold ret. intros [= <- <- <-]. auto. Qed.

Lemma liftE_inr {A : Type} (r : Res A) (b : A) (s s' : Store) (l : list Call) :
  liftE r s = (s', l, inr b) -> s' = s /\ l = [] /\ r = inr b.
Proof. unfold liftE. intros [= <- <- ->]. auto. Qed.

Lemma attempt_inr {A : Type} (c : Call) (effect : Store -> Store * A)
  (s s' : Store) (l : list Call) (a : A) :
  attempt E c effect s = (s', l, inr a) ->
  callFails E s c = false /\ s' = fst (effect s) /\ a = snd (effect s) /\ l = [c].
Proof.
  unfold attempt. destruct (callFails E s c); [discriminate|].
  intros [= <- <- <-]. auto.
Qed.

Lemma foldM_cons_inr {A B : Type} (f : B -> A -> M B) (x : A) (r : list A)
  (b b' : B) (s s' : Store) (l : list Call) :
  foldM f (x :: r) b s = (s', l, inr b') ->
  exists s1 l1 b1 l2,
    f b x s = (s1, l1, inr b1) /\ foldM f r b1 s1 = (s', l2, inr b') /\
    l = l1 ++ l2.
Proof. apply bind_inr. Qed.

(** A successful fold, phrased with an invariant [I] on the accumulator and
    the store and a property [P] of calls: both carry over from the steps. *)
Lemma foldM_invariant {A B : Type} (f : B -> A -> M B)
  (I : B -> Store -> Prop) (P : Call -> Prop) (l : list A) :
  (forall b x s s1 l1 b1,
     In x l -> I b s -> f b x s = (s1, l1, inr b1) -> I b1 s1 /\ Forall P l1) ->
  forall b b' s s' calls,
    I b s -> foldM f l b s = (s', calls, inr b') -> I b' s' /\ Forall P calls.
Proof.
  induction l as [|x r IH]; intros Hstep b b' s s' calls Hi Hrun.
  - apply ret_inr in Hrun as [-> [-> ->]]. split; [assumption | constructor].
  - apply foldM_cons_inr in Hrun as [s1 [l1 [b1 [l2 [H1 [H2 ->]]]]]].
    destruct (Hstep b x s s1 l1 b1 (or_introl eq_refl) Hi H1) as [Hi1 Hp1].
    destruct (IH (fun b0 x0 s0 s2 l0 b2 Hin => Hstep b0 x0 s0 s2 l0 b2 (or_intror Hin))
                 b1 b' s1 s' l2 Hi1 H2) as [Hi2 Hp2].
    split; [assumption | apply Forall_app; now split].
Qed.

End Success.

(** ** Updates of the map collection *)

Section MapUpdates.

Variable E : Env.





End MapUpdates.

(** ** A settled destination needs no reconciling call *)

Section Settled.

Variable E : Env.

Lemma bind_quiet {A B : Type} (m : M A) (f : A -> M B) (s : Store) (a : A) :
  m s = (s, [], inr a) -> bind m f s = f a s.
Proof. intros H. unfold bind. rewrite H. now destruct (f a s) as [[s2 l2] r]. Qed.

Lemma bind_quiet_failure {A B : Type} (m : M A) (f : A -> M B) (s : Store)
  (e : Error) :
  m s = (s, [], inl e) -> bind m f s = (s, [], inl e).
Proof. intros H. unfold bind. now rewrite H. Qed.

Lemma additions_no_call (ty : IWebflowItemType) (v : Vocabulary)
  (dryRun : bool) (dest : JsMap.t IWebflowItem) (l : list IWebsiteItem)
  (s : Store) :
  (forall i, In i l ->
     exists w, JsMap.get dest (ws_slug i) = Some w /\ sameAs i w = true) ->
  foldM (additionStep E ty sameAs v dryRun) l dest s = (s, [], inr dest).
Proof.
  induction l as [|x r IH]; intros H; [reflexivity|].
  cbn [foldM]. rewrite bind_quiet with (a := dest).
  - apply IH. intros i Hi. apply H. now right.
  - unfold additionStep. destruct (H x (or_introl eq_refl)) as [w [Hg Heq]].
    rewrite Hg, Heq. reflexivity.
Qed.

Lemma removals_no_call (v : Vocabulary) (src : JsMap.t IWebsiteItem)
  (dryRun : bool) (dest : JsMap.t IWebflowItem)
  (l : list (string * IWebflowItem)) (s : Store) :
  (forall e, In e l -> JsMap.has src (wf_slug (snd e)) = true) ->
  foldM (removalStep E v src dryRun) l dest s = (s, [], inr dest).
Proof.
  induction l as [|x r IH]; intros H; [reflexivity|].
  cbn [foldM]. rewrite bind_quiet with (a := dest).
  - apply IH. intros e He. apply H. now right.
  - unfold removalStep. rewrite (H x (or_introl eq_refl)). cbn [negb].
    now destruct (negb (JsMap.has dest (fst x))).
Qed.

Lemma mapAdditions_no_call (dryRun : bool) (dest : JsMap.t WebflowMapInfo)
  (l : list WebsiteMapInfo) (s : Store) :
  (forall m, In m l ->
     exists w, JsMap.get dest (mi_rowyId m) = Some w /\
               isWebflowMapInfoEqual E m (wm_info w) = true) ->
  forall ups, Forall (fun u : Update => fst (fst u) = true) ups ->
  exists ups', Forall (fun u : Update => fst (fst u) = true) ups' /\
    foldM (mapAdditionStep E dryRun) l (dest, ups) s = (s, [], inr (dest, ups')).
Proof.
  induction l as [|x r IH]; intros H ups Hups.
  - exists ups. split; [assumption | reflexivity].
  - destruct (H x (or_introl eq_refl)) as [w [Hg Heq]].
    destruct (IH (fun m Hm => H m (or_intror Hm))
                 (ups ++ [(isWebflowMapInfoEqual E x (wm_info w), x, w)]))
      as [ups' [Hall Hrun]].
    { apply Forall_app. split; [assumption|]. repeat constructor. exact Heq. }
    exists ups'. split; [assumption|].
    cbn [foldM].
    rewrite bind_quiet
      with (a := (dest, ups ++ [(isWebflowMapInfoEqual E x (wm_info w), x, w)])).
    + exact Hrun.
    + unfold mapAdditionStep. cbn [fst snd]. now rewrite Hg.
Qed.

Lemma mapRemovals_no_call (src : JsMap.t WebsiteMapInfo) (dryRun : bool)
  (dest : JsMap.t WebflowMapInfo) (l : list (string * WebflowMapInfo))
  (s : Store) :
  (forall e, In e l -> JsMap.has src (mi_rowyId (wm_info (snd e))) = true) ->
  foldM (mapRemovalStep E src dryRun) l dest s = (s, [], inr dest).
Proof.
  induction l as [|x r IH]; intros H; [reflexivity|].
  cbn [foldM]. rewrite bind_quiet with (a := dest).
  - apply IH. intros e He. apply H. now right.
  - unfold mapRemovalStep. rewrite (H x (or_introl eq_refl)). cbn [negb].
    now destruct (negb (JsMap.has dest (fst x))).
Qed.

Lemma filter_none {A : Type} (p : A -> bool) (l : list A) :
  Forall (fun x => p x = false) l -> filter p l = [].
Proof.
  induction 1 as [|x r Hx _ IH]; [reflexivity|]. simpl. now rewrite Hx.
Qed.

Lemma syncMaps_no_call (src : JsMap.t WebsiteMapInfo)
  (dest : JsMap.t WebflowMapInfo) (dryRun : bool) (s : Store) :
  mapsSettled E src dest ->
  syncMapsToWebflow E src dest dryRun s = (s, [], inr dest).
Proof.
  intros [Hadd Hrem]. unfold syncMapsToWebflow.
  destruct (mapAdditions_no_call dryRun dest (JsMap.values src) s Hadd []
              (Forall_nil _)) as [ups [Hups Hrun]].
  rewrite (bind_quiet _ _ _ _ Hrun). cbn [fst snd].
  rewrite (bind_quiet _ _ _ _ (mapRemovals_no_call src dryRun dest dest s Hrem)).
  rewrite filter_none; [reflexivity|].
  eapply Forall_impl; [|exact Hups]. intros u Hu. simpl. now rewrite Hu.
Qed.

Lemma publish_not_reconcile {F : Type} (c : Coll)
  (items : list (CollectionItem F)) (dryRun : bool) :
  allCalls (fun call => isReconcileCall call = false)
           (publishUpdatedWebflowItems E c items dryRun).
Proof.
  eapply allCalls_weaken; [|apply publish_calls_kind].
  intros [] H; unfold isReconcileCall; simpl in *; congruence.
Qed.

Lemma quiet_allCalls {A : Type} (P : Call -> Prop) (m : M A) (a : A) :
  (forall s, m s = (s, [], inr a)) -> allCalls P m.
Proof. intros H s. rewrite H. constructor. Qed.

(** A sync against a destination that reads as settled attempts no create,
    update or delete call. *)
Lemma settled_sync_no_reconcile (src : Source) (s : Store)
  (webflowMaps : JsMap.t WebflowMapInfo)
  (webflowMapTags webflowMapTerrains : JsMap.t IWebflowItem)
  (infos : JsMap.t WebsiteMapInfo) (tags : JsMap.t WebsiteMapTag) :
  getAllWebflowMaps s = (s, [], inr webflowMaps) ->
  getAllWebflowMapTags s = (s, [], inr webflowMapTags) ->
  getAllWebflowMapTerrains s = (s, [], inr webflowMapTerrains) ->
  buildWebflowInfo E (src_maps src) (src_cdnInfo src) (src_mapsMetadata src)
  = inr (infos, tags) ->
  vocabSettled tags webflowMapTags ->
  vocabSettled getRowyMapTerrains webflowMapTerrains ->
  (forall i1 i2,
     resolveItemRefsInMapInfos infos MapTags webflowMapTags false = inr i1 ->
     resolveItemRefsInMapInfos i1 MapTerrains webflowMapTerrains false = inr i2 ->
     mapsSettled E i2 webflowMaps) ->
  Forall (fun c => isReconcileCall c = false)
         (run_calls (syncCommand E src false s)).
Proof.
  intros Hm Ht Hr Hb [Pt Qt] [Pr Qr] Hmaps. unfold syncCommand.
  rewrite (bind_quiet _ _ _ _ Hm), (bind_quiet _ _ _ _ Ht),
          (bind_quiet _ _ _ _ Hr), Hb.
  rewrite bind_quiet with (a := (infos, tags)) by reflexivity. cbn [fst snd].
  unfold syncMapTagsToWebflowAdditions, syncCollectionToWebflowAdditions.
  rewrite (bind_quiet _ _ _ _
             (additions_no_call WebflowMapTag Tags false webflowMapTags
                (JsMap.values tags) s Pt)).
  destruct (resolveItemRefsInMapInfos infos MapTags webflowMapTags false)
    as [e|i1] eqn:H1.
  { rewrite bind_quiet_failure with (e := e) by reflexivity. constructor. }
  rewrite bind_quiet with (a := i1) by reflexivity.
  unfold syncMapTerrainsToWebflowAdditions, syncCollectionToWebflowAdditions.
  rewrite (bind_quiet _ _ _ _
             (additions_no_call WebflowMapTag Terrains false webflowMapTerrains
                (JsMap.values getRowyMapTerrains) s Pr)).
  destruct (resolveItemRefsInMapInfos i1 MapTerrains webflowMapTerrains false)
    as [e|i2] eqn:H2.
  { rewrite bind_quiet_failure with (e := e) by reflexivity. constructor. }
  rewrite bind_quiet with (a := i2) by reflexivity.
  rewrite (bind_quiet _ _ _ _
             (syncMaps_no_call i2 webflowMaps false s (Hmaps i1 i2 eq_refl H2))).
  apply allCalls_bind; [apply publish_not_reconcile | intros ?].
  apply allCalls_bind; [apply publish_not_reconcile | intros ?].
  apply allCalls_bind; [apply publish_not_reconcile | intros ?].
  apply allCalls_bind.
  { apply quiet_allCalls with (a := webflowMapTags). intros s'.
    apply removals_no_call. exact Qt. }
  intros tags2. apply allCalls_bind; [|intros ?; apply allCalls_ret].
  apply quiet_allCalls with (a := webflowMapTerrains). intros s'.
  apply removals_no_call. exact Qr.
Qed.

End Settled.

(** ** The script's maps mirror the destination *)

Section Linked.

Context {W F : Type}.
Variable rel : string -> W -> CollectionItem F -> Prop.
Variable idOf : W -> string.
Hypothesis rel_id : forall k w it, rel k w it -> idOf w = item_id it.

Lemma Forall2_In_l {A B : Type} (R : A -> B -> Prop) (l1 : list A) (l2 : list B)
  (x : A) :
  Forall2 R l1 l2 -> In x l1 -> exists y, In y l2 /\ R x y.
Proof.
  induction 1 as [|a b r1 r2 Hab _ IH]; intros Hin; [destruct Hin|].
  destruct Hin as [<-|Hin].
  - exists b. split; [now left | assumption].
  - destruct (IH Hin) as [y [Hy Hr]]. exists y. split; [now right | assumption].
Qed.

Lemma Forall2_In_r {A B : Type} (R : A -> B -> Prop) (l1 : list A) (l2 : list B)
  (y : B) :
  Forall2 R l1 l2 -> In y l2 -> exists x, In x l1 /\ R x y.
Proof.
  induction 1 as [|a b r1 r2 Hab _ IH]; intros Hin; [destruct Hin|].
  destruct Hin as [<-|Hin].
  - exists a. split; [now left | assumption].
  - destruct (IH Hin) as [x [Hx Hr]]. exists x. split; [now right | assumption].
Qed.

Lemma linked_get (dest : JsMap.t W) (items : list (CollectionItem F))
  (k : string) (w : W) :
  linked rel dest items -> JsMap.get dest k = Some w ->
  exists it, In it items /\ rel k w it.
Proof.
  intros [H2 _] Hg. apply JsMapFacts.get_In in Hg.
  destruct (Forall2_In_l _ _ _ _ H2 Hg) as [it [Hin Hr]]. eauto.
Qed.

Lemma In_get {V : Type} (m : JsMap.t V) (k : string) (v : V) :
  NoDup (JsMap.keys m) -> In (k, v) m -> JsMap.get m k = Some v.
Proof.
  induction m as [|[k0 v0] r IH]; intros Hnd Hin; [destruct Hin|].
  simpl in Hnd. inversion Hnd as [|? ? Hnot Hnd']; subst. simpl.
  destruct Hin as [[= -> ->]|Hin].
  - now rewrite String.eqb_refl.
  - destruct (String.eqb_spec k0 k) as [->|Hne]; [|now apply IH].
    exfalso. apply Hnot. change k with (fst (k, v)). now apply in_map.
Qed.

Lemma NoDup_snoc {A : Type} (l : list A) (x : A) :
  NoDup l -> ~ In x l -> NoDup (l ++ [x]).
Proof.
  intros Hnd Hx. apply NoDup_app; [assumption | repeat constructor; intros [] |].
  intros y Hy [<-|[]]. contradiction.
Qed.

Lemma linked_append (dest : JsMap.t W) (items : list (CollectionItem F))
  (k : string) (w : W) (it : CollectionItem F) :
  linked rel dest items -> JsMap.get dest k = None ->
  ~ In (item_id it) (map item_id items) -> rel k w it ->
  linked rel (JsMap.set dest k w) (items ++ [it]).
Proof.
  intros [H2 [Hk Hi]] Hg Hfresh Hr. rewrite (JsMapFacts.set_absent _ _ _ Hg).
  split; [|split].
  - apply Forall2_app; [assumption | now repeat constructor].
  - unfold JsMap.keys. rewrite map_app. apply NoDup_snoc; [assumption|].
    now apply JsMapFacts.get_None_keys.
  - rewrite map_app. now apply NoDup_snoc.
Qed.

Lemma replaceItem_ids (id : string) (it : CollectionItem F)
  (items : list (CollectionItem F)) :
  item_id it = id ->
  map item_id (replaceItem id it items) = map item_id items.
Proof.
  intros Hid. unfold replaceItem. rewrite map_map. apply map_ext_in.
  intros x _. destruct (String.eqb_spec (item_id x) id); congruence.
Qed.

Lemma replaceItem_absent (id : string) (it : CollectionItem F)
  (items : list (CollectionItem F)) :
  ~ In id (map item_id items) -> replaceItem id it items = items.
Proof.
  intros H. unfold replaceItem. rewrite <- (map_id items) at 2.
  apply map_ext_in. intros x Hx.
  destruct (String.eqb_spec (item_id x) id) as [Heq|]; [|reflexivity].
  exfalso. apply H. rewrite <- Heq. now apply in_map.
Qed.

Lemma removeItem_absent (id : string) (items : list (CollectionItem F)) :
  ~ In id (map item_id items) -> removeItem id items = items.
Proof.
  intros H. unfold removeItem. induction items as [|x r IH]; [reflexivity|].
  simpl. destruct (String.eqb_spec (item_id x) id) as [Heq|Hne]; simpl.
  - exfalso. apply H. left. assumption.
  - f_equal. apply IH. intros Hin. apply H. now right.
Qed.

Lemma linked_replace (dest : JsMap.t W) (items : list (CollectionItem F))
  (k : string) (w0 w : W) (it : CollectionItem F) :
  linked rel dest items -> JsMap.get dest k = Some w0 ->
  item_id it = idOf w0 -> rel k w it ->
  linked rel (JsMap.set dest k w) (replaceItem (idOf w0) it items).
Proof.
  intros [H2 [Hk Hi]] Hg Hid Hr. split; [|split].
  - revert Hk Hi Hg. induction H2 as [|[k0 w0'] it0 D' items' Hhead Htail IH];
      intros Hk Hi Hg; [discriminate|].
    simpl in Hg, Hhead, Hk, Hi. inversion Hk as [|? ? Hk0 Hk']; subst.
    inversion Hi as [|? ? Hi0 Hi']; subst. cbn [JsMap.set replaceItem map].
    destruct (String.eqb_spec k0 k) as [->|Hne].
    + injection Hg as ->. rewrite <- (rel_id _ _ _ Hhead), String.eqb_refl.
      constructor; [assumption|].
      fold (replaceItem (idOf w0) it items').
      rewrite replaceItem_absent; [assumption|].
      now rewrite (rel_id _ _ _ Hhead).
    + assert (Hit0 : item_id it0 <> idOf w0).
      { intros Heq. apply Hi0. apply JsMapFacts.get_In in Hg.
        destruct (Forall2_In_l _ _ _ _ Htail Hg) as [it' [Hin' Hr']].
        simpl in Hr'. rewrite Heq, (rel_id _ _ _ Hr'). now apply in_map. }
      destruct (String.eqb_spec (item_id it0) (idOf w0)); [contradiction|].
      constructor; [assumption | now apply IH].
  - rewrite JsMapFacts.keys_set_present; [assumption|].
    apply JsMapFacts.has_keys. unfold JsMap.has. now rewrite Hg.
  - now rewrite replaceItem_ids.
Qed.

Lemma NoDup_keys_delete {V : Type} (m : JsMap.t V) (k : string) :
  NoDup (JsMap.keys m) -> NoDup (JsMap.keys (JsMap.delete m k)).
Proof.
  induction m as [|[k0 v0] r IH]; intros Hnd; [constructor|].
  simpl in Hnd. inversion Hnd as [|? ? Hnot Hnd']; subst. simpl.
  destruct (k0 =? k); [assumption|]. simpl. constructor; [|now apply IH].
  intros Hin. apply Hnot. clear -Hin.
  induction r as [|[k1 v1] r IH]; [destruct Hin|]. simpl in *.
  destruct (k1 =? k); [now right|].
  destruct Hin as [<-|Hin]; [now left | right; now apply IH].
Qed.

Lemma NoDup_ids_remove (id : string) (items : list (CollectionItem F)) :
  NoDup (map item_id items) -> NoDup (map item_id (removeItem id items)).
Proof.
  intros H. unfold removeItem. induction items as [|x r IH]; [constructor|].
  simpl in H. inversion H as [|? ? Hnot Hnd]; subst. simpl.
  destruct (negb (item_id x =? id)); [|now apply IH].
  simpl. constructor; [|now apply IH].
  intros Hin. apply Hnot. apply in_map_iff in Hin as [y [Hy Hin]].
  apply filter_In in Hin as [Hin _]. rewrite <- Hy. now apply in_map.
Qed.

Lemma linked_delete (dest : JsMap.t W) (items : list (CollectionItem F))
  (k : string) (w0 : W) :
  linked rel dest items -> JsMap.get dest k = Some w0 ->
  linked rel (JsMap.delete dest k) (removeItem (idOf w0) items).
Proof.
  intros [H2 [Hk Hi]] Hg. split; [|split].
  - revert Hk Hi Hg. induction H2 as [|[k0 w0'] it0 D' items' Hhead Htail IH];
      intros Hk Hi Hg; [discriminate|].
    simpl in Hg, Hhead, Hk, Hi. inversion Hk as [|? ? Hk0 Hk']; subst.
    inversion Hi as [|? ? Hi0 Hi']; subst.
    cbn [JsMap.delete]. unfold removeItem. cbn [filter].
    fold (removeItem (idOf w0) items').
    destruct (String.eqb_spec k0 k) as [->|Hne].
    + injection Hg as ->. rewrite <- (rel_id _ _ _ Hhead), String.eqb_refl.
      cbn [negb]. rewrite removeItem_absent; [assumption|].
      now rewrite (rel_id _ _ _ Hhead).
    + assert (Hit0 : item_id it0 <> idOf w0).
      { intros Heq. apply Hi0. apply JsMapFacts.get_In in Hg.
        destruct (Forall2_In_l _ _ _ _ Htail Hg) as [it' [Hin' Hr']].
        simpl in Hr'. rewrite Heq, (rel_id _ _ _ Hr'). now apply in_map. }
      destruct (String.eqb_spec (item_id it0) (idOf w0)); [contradiction|].
      cbn [negb]. constructor; [assumption | now apply IH].
  - now apply NoDup_keys_delete.
  - now apply NoDup_ids_remove.
Qed.

(** Stamping items leaves the mirror in place when [rel] does not look at
    time stamps. *)
Lemma linked_stamped (dest : JsMap.t W) (items : list (CollectionItem F))
  (ids : list string) (at_ : string) :
  (forall k w it it',
     item_id it' = item_id it -> item_fieldData it' = item_fieldData it ->
     rel k w it -> rel k w it') ->
  linked rel dest items -> linked rel dest (stamped ids at_ items).
Proof.
  intros Hrel [H2 [Hk Hi]]. split; [|split; [assumption|]].
  - clear Hk Hi. induction H2 as [|e it D' items' Hhead Htail IH];
      [constructor|].
    cbn [stamped map]. constructor; [|exact IH].
    destruct (includes ids (item_id it)); [|assumption].
    eapply Hrel; [| |exact Hhead]; reflexivity.
  - unfold stamped. rewrite map_map.
    erewrite map_ext; [exact Hi|].
    intros x. now destruct (includes ids (item_id x)).
Qed.

End Linked.

(** ** Reading a destination without duplicates *)

Section Reading.

(** The paging loop returns the whole listing. *)
Lemma getAllWebflowItems_from_all {F : Type} (fuel offset : nat)
  (items : list (CollectionItem F)) :
  length items - offset < fuel ->
  getAllWebflowItems_from fuel offset items = skipn offset items.
Proof.
  revert offset. induction fuel as [|fuel IH]; intros offset Hf; [lia|].
  cbn [getAllWebflowItems_from]. unfold listItems.
  destruct (firstn 100 (skipn offset items)) as [|x page] eqn:Hp.
  - destruct (skipn offset items); [reflexivity | discriminate].
  - rewrite <- Hp.
    assert (Hlen : offset < length items).
    { destruct (Nat.ltb_spec offset (length items)); [assumption|].
      rewrite skipn_all2 in Hp by assumption. discriminate. }
    rewrite IH by lia. rewrite <- skipn_skipn_add. apply firstn_skipn.
Qed.

Lemma getAllWebflowItems_all {F : Type} (items : list (CollectionItem F)) :
  getAllWebflowItems items = items.
Proof. unfold getAllWebflowItems. rewrite getAllWebflowItems_from_all; [reflexivity | lia]. Qed.

Lemma of_entries_NoDup {V : Type} (es : list (string * V)) :
  NoDup (map fst es) -> JsMap.of_entries es = es.
Proof.
  induction es as [|e es IH] using rev_ind; intros Hnd; [reflexivity|].
  rewrite map_app in Hnd. simpl in Hnd.
  rewrite of_entries_snoc, IH by now apply NoDup_app_remove_r in Hnd.
  destruct e as [k v]. apply JsMapFacts.set_absent.
  apply JsMapFacts.get_None_keys. intros Hin.
  apply NoDup_remove_2 in Hnd. rewrite app_nil_r in Hnd. contradiction.
Qed.

Lemma mapE_Forall2 {A B : Type} (f : A -> Res B) (l : list A) (ys : list B) :
  mapE f l = inr ys -> Forall2 (fun x y => f x = inr y) l ys.
Proof.
  revert ys. induction l as [|x r IH]; intros ys; simpl.
  - intros [= <-]. constructor.
  - destruct (f x) as [e|y] eqn:Hx; simpl; [discriminate|].
    destruct (mapE f r) as [e|ys'] eqn:Hr; simpl; [discriminate|].
    intros [= <-]. constructor; [assumption | now apply IH].
Qed.

Lemma Forall2_mapE {A B : Type} (f : A -> Res B) (l : list A) (ys : list B) :
  Forall2 (fun x y => f x = inr y) l ys -> mapE f l = inr ys.
Proof.
  induction 1 as [|x y r ys' Hx _ IH]; [reflexivity|].
  simpl. rewrite Hx. simpl. now rewrite IH.
Qed.

(** The tags (or terrains) read from a listing without duplicate slugs
    mirror the listing. *)
Lemma read_vocab_linked (items : list (CollectionItem NameSlugFields))
  (ws : list IWebflowItem) :
  NoDup (map item_id items) -> NoDup (map slugOf items) ->
  mapE newNameSlugItem items = inr ws ->
  linked vocabRel (indexBySlug ws) items /\
  map fst (indexBySlug ws) = map slugOf items.
Proof.
  intros Hi Hs Hm. apply mapE_Forall2 in Hm.
  assert (Hkeys : map fst (map (fun t => (wf_slug t, t)) ws) = map slugOf items).
  { clear Hi Hs. induction Hm as [|it w r ws' Hw _ IH]; [reflexivity|].
    cbn [map fst]. rewrite IH. f_equal. unfold newNameSlugItem, slugOf in *.
    destruct (item_fieldData it); [discriminate|]. now injection Hw as <-. }
  unfold indexBySlug. rewrite of_entries_NoDup by (rewrite Hkeys; exact Hs).
  split; [|exact Hkeys].
  split; [|split; [|exact Hi]].
  - clear Hi Hs Hkeys. induction Hm as [|it w r ws' Hw _ IH]; [constructor|].
    cbn [map]. constructor; [|exact IH]. cbn [fst snd].
    unfold newNameSlugItem in Hw. destruct (item_fieldData it) as [|o] eqn:Ho;
      [discriminate|].
    injection Hw as <-. unfold vocabRel. cbn [wf_item wf_name wf_slug].
    destruct o; auto.
  - unfold JsMap.keys. rewrite Hkeys. exact Hs.
Qed.

(** A listing mirrored by some map reads without error. *)
Lemma linked_vocab_readable (dest : JsMap.t IWebflowItem)
  (items : list (CollectionItem NameSlugFields)) :
  linked vocabRel dest items ->
  NoDup (map slugOf items) /\ exists ws, mapE newNameSlugItem items = inr ws.
Proof.
  intros [H2 [Hk _]]. split.
  - replace (map slugOf items) with (JsMap.keys dest); [assumption|].
    clear Hk. induction H2 as [|e it D r [_ [Hf Hkey]] _ IH]; [reflexivity|].
    simpl. rewrite IH. f_equal. unfold slugOf. now rewrite Hf.
  - clear Hk. induction H2 as [|e it D r [_ [Hf _]] _ [ws IH]].
    + exists []. reflexivity.
    + simpl. unfold newNameSlugItem at 1. rewrite Hf. simpl. rewrite IH.
      simpl. eauto.
Qed.

(** Two maps mirroring the same listing hold the same names, slugs and
    identifiers under the same keys. *)
Lemma linked_vocab_agree (d1 d2 : JsMap.t IWebflowItem)
  (items : list (CollectionItem NameSlugFields)) (k : string) (w1 : IWebflowItem) :
  linked vocabRel d1 items -> linked vocabRel d2 items ->
  JsMap.get d1 k = Some w1 ->
  exists w2, JsMap.get d2 k = Some w2 /\
    wf_name w2 = wf_name w1 /\ wf_slug w2 = wf_slug w1 /\
    item_id (wf_item w2) = item_id (wf_item w1).
Proof.
  intros L1 [H2 [Hk2 _]] Hg.
  destruct (linked_get _ _ _ _ _ L1 Hg) as [it [Hin [Hid [Hf Hkey]]]].
  destruct (Forall2_In_r _ _ _ _ H2 Hin) as [[k2 w2] [Hin2 [Hid2 [Hf2 Hkey2]]]].
  simpl in *. rewrite Hf in Hf2. injection Hf2 as Hn Hs.
  exists w2. repeat split; try congruence.
  apply In_get; [assumption|]. congruence.
Qed.

Lemma linked_vocab_agree_entry (d1 d2 : JsMap.t IWebflowItem)
  (items : list (CollectionItem NameSlugFields)) (e2 : string * IWebflowItem) :
  linked vocabRel d1 items -> linked vocabRel d2 items -> In e2 d2 ->
  exists e1, In e1 d1 /\ wf_slug (snd e1) = wf_slug (snd e2).
Proof.
  intros [H1 _] [H2 _] Hin.
  destruct (Forall2_In_l _ _ _ _ H2 Hin) as [it [Hit [_ [Hf2 _]]]].
  destruct (Forall2_In_r _ _ _ _ H1 Hit) as [e1 [Hin1 [_ [Hf1 _]]]].
  exists e1. split; [assumption|]. rewrite Hf1 in Hf2. now injection Hf2.
Qed.

End Reading.

Section ReadingMaps.

(** Without duplicate row identifiers the indexing loop renames nothing. *)
Lemma indexMaps_fold (l : list WebflowMapInfo) :
  forall (acc : JsMap.t WebflowMapInfo) (n : nat),
    (forall w, In w l -> ~ In (mi_rowyId (wm_info w)) (JsMap.keys acc)) ->
    NoDup (map (fun w => mi_rowyId (wm_info w)) l) ->
    fold_left indexMapStep l (acc, n) = (acc ++ map entryOfMap l, n).
Proof.
  induction l as [|w r IH]; intros acc n Hout Hnd.
  - simpl. now rewrite app_nil_r.
  - simpl in Hnd. inversion Hnd as [|? ? Hw Hr]; subst.
    cbn [fold_left]. unfold indexMapStep at 2. cbn [fst snd].
    assert (Hg : JsMap.get acc (mi_rowyId (wm_info w)) = None).
    { apply JsMapFacts.get_None_keys. apply Hout. now left. }
    unfold JsMap.has. rewrite Hg. rewrite (JsMapFacts.set_absent _ _ _ Hg).
    rewrite IH; [|intros w' Hw'|assumption].
    + cbn [map]. now rewrite <- app_assoc.
    + unfold JsMap.keys. rewrite map_app. intros Hin.
      apply in_app_or in Hin as [Hin|[Heq|[]]].
      * apply (Hout w' (or_intror Hw')). exact Hin.
      * apply Hw. simpl in Heq. rewrite Heq.
        apply (in_map (fun w0 => mi_rowyId (wm_info w0))). exact Hw'.
Qed.

Lemma indexMaps_NoDup (ws : list WebflowMapInfo) :
  NoDup (map (fun w => mi_rowyId (wm_info w)) ws) ->
  indexMaps ws = map entryOfMap ws.
Proof.
  intros H. unfold indexMaps.
  rewrite indexMaps_fold; [reflexivity | intros w _ [] | assumption].
Qed.

Lemma read_maps_linked (items : list (CollectionItem WebflowMapFieldsRead))
  (ws : list WebflowMapInfo) :
  NoDup (map item_id items) -> NoDup (map rowyIdOf items) ->
  mapE newWebflowMapInfo items = inr ws ->
  linked mapRel (indexMaps ws) items.
Proof.
  intros Hi Hs Hm. apply mapE_Forall2 in Hm.
  assert (Hkeys : map (fun w => mi_rowyId (wm_info w)) ws = map rowyIdOf items).
  { clear Hi Hs. induction Hm as [|it w r ws' Hw _ IH]; [reflexivity|].
    cbn [map]. rewrite IH. f_equal. unfold newWebflowMapInfo, rowyIdOf in *.
    destruct (item_fieldData it); [discriminate|]. now injection Hw as <-. }
  rewrite indexMaps_NoDup by (rewrite Hkeys; exact Hs).
  split; [|split; [|exact Hi]].
  - clear Hi Hs Hkeys. induction Hm as [|it w r ws' Hw _ IH]; [constructor|].
    cbn [map]. constructor; [|exact IH]. unfold entryOfMap. cbn [fst snd].
    unfold newWebflowMapInfo in Hw. destruct (item_fieldData it) as [|o] eqn:Ho;
      [discriminate|].
    injection Hw as <-. unfold mapRel. cbn [wm_item wm_info wm_fieldData]. auto.
  - unfold JsMap.keys. rewrite map_map. cbn [entryOfMap fst].
    rewrite <- Hkeys in Hs. exact Hs.
Qed.

Lemma linked_maps_readable (dest : JsMap.t WebflowMapInfo)
  (items : list (CollectionItem WebflowMapFieldsRead)) :
  linked mapRel dest items ->
  NoDup (map rowyIdOf items) /\ exists ws, mapE newWebflowMapInfo items = inr ws.
Proof.
  intros [H2 [Hk _]]. split.
  - replace (map rowyIdOf items) with (JsMap.keys dest); [assumption|].
    clear Hk. induction H2 as [|e it D r [_ [Hf [Hi Hkey]]] _ IH]; [reflexivity|].
    simpl. rewrite IH. f_equal. unfold rowyIdOf. now rewrite Hf, Hkey, Hi.
  - clear Hk. induction H2 as [|e it D r [_ [Hf _]] _ [ws IH]].
    + exists []. reflexivity.
    + simpl. unfold newWebflowMapInfo at 1. rewrite Hf. simpl. rewrite IH.
      simpl. eauto.
Qed.

Lemma linked_maps_agree (d1 d2 : JsMap.t WebflowMapInfo)
  (items : list (CollectionItem WebflowMapFieldsRead)) (k : string)
  (w1 : WebflowMapInfo) :
  linked mapRel d1 items -> linked mapRel d2 items ->
  JsMap.get d1 k = Some w1 ->
  exists w2, JsMap.get d2 k = Some w2 /\ wm_info w2 = wm_info w1.
Proof.
  intros L1 [H2 [Hk2 _]] Hg.
  destruct (linked_get _ _ _ _ _ L1 Hg) as [it [Hin [Hid [Hf [Hi Hkey]]]]].
  destruct (Forall2_In_r _ _ _ _ H2 Hin)
    as [[k2 w2] [Hin2 [Hid2 [Hf2 [Hi2 Hkey2]]]]].
  simpl in *. rewrite Hf in Hf2. injection Hf2 as Ho.
  assert (Hinfo : wm_info w2 = wm_info w1) by congruence.
  exists w2. split; [|assumption].
  apply In_get; [assumption|]. congruence.
Qed.

Lemma linked_maps_agree_entry (d1 d2 : JsMap.t WebflowMapInfo)
  (items : list (CollectionItem WebflowMapFieldsRead))
  (e2 : string * WebflowMapInfo) :
  linked mapRel d1 items -> linked mapRel d2 items -> In e2 d2 ->
  exists e1, In e1 d1 /\ wm_info (snd e1) = wm_info (snd e2).
Proof.
  intros [H1 _] [H2 _] Hin.
  destruct (Forall2_In_l _ _ _ _ H2 Hin) as [it [Hit [_ [Hf2 [Hi2 _]]]]].
  destruct (Forall2_In_r _ _ _ _ H1 Hit) as [e1 [Hin1 [_ [Hf1 [Hi1 _]]]]].
  exists e1. split; [assumption|]. rewrite Hf1 in Hf2. injection Hf2 as Ho.
  congruence.
Qed.

End ReadingMaps.

(** ** The first sync brings the destination to a settled state *)

Section Establish.

Variable E : Env.
Variable good : Store -> Prop.
Hypothesis contract : DestinationContract E good.

Lemma vocabRel_id (k : string) (w : IWebflowItem)
  (it : CollectionItem NameSlugFields) :
  vocabRel k w it -> vocabId w = item_id it.
Proof. now intros [H _]. Qed.

Lemma vocabItems_set_same (v : Vocabulary)
  (l : list (CollectionItem NameSlugFields)) (s : Store) :
  vocabItems v (setVocabItems v l s) = l.
Proof. now destruct v. Qed.

Lemma vocabItems_set_other (v v' : Vocabulary)
  (l : list (CollectionItem NameSlugFields)) (s : Store) :
  v' <> v -> vocabItems v' (setVocabItems v l s) = vocabItems v' s.
Proof. destruct v, v'; intros H; try reflexivity; now contradiction H. Qed.

Lemma st_maps_setVocab (v : Vocabulary)
  (l : list (CollectionItem NameSlugFields)) (s : Store) :
  st_maps (setVocabItems v l s) = st_maps s.
Proof. now destruct v. Qed.

Lemma isSameItem_refl (x : IWebsiteItem) (w : IWebflowItem) :
  wf_name w = ws_name x -> wf_slug w = ws_slug x -> sameAs x w = true.
Proof.
  intros Hn Hs. unfold sameAs, isSameItem, asWebsiteItem. simpl.
  now rewrite Hn, Hs, !String.eqb_refl.
Qed.

(** What recording a returned item does, when the item holds the fields
    written for [x]. *)
Lemma recordItem_written (dest dest' : JsMap.t IWebflowItem)
  (item : CollectionItem NameSlugFields) (x : IWebsiteItem) :
  item_fieldData item = Defined (nameSlugFields x) ->
  recordItem WebflowMapTag dest item = inr dest' ->
  dest' = JsMap.set dest (ws_slug x)
            {| wf_name := ws_name x; wf_slug := ws_slug x; wf_item := item |}.
Proof.
  intros Hf. unfold recordItem, assertSlug. cbn [construct WebflowMapTag].
  unfold newNameSlugItem. rewrite Hf. cbn [nameSlugFields nf_slug nf_name].
  destruct (truthy (ws_slug x)); cbn [bindE]; [|discriminate].
  now intros [= <-].
Qed.

Lemma additionStep_establishes (v : Vocabulary) (dest dest' : JsMap.t IWebflowItem)
  (x : IWebsiteItem) (s s' : Store) (calls : list Call) :
  additionStep E WebflowMapTag sameAs v false dest x s = (s', calls, inr dest') ->
  linked vocabRel dest (vocabItems v s) -> good s ->
  linked vocabRel dest' (vocabItems v s') /\ good s' /\
  st_maps s' = st_maps s /\
  (forall v', v' <> v -> vocabItems v' s' = vocabItems v' s) /\
  (exists w, JsMap.get dest' (ws_slug x) = Some w /\ sameAs x w = true) /\
  (forall k, k <> ws_slug x -> JsMap.get dest' k = JsMap.get dest k).
Proof.
  intros Hrun Hl Hg. unfold additionStep in Hrun.
  cbn [generateFields WebflowMapTag negb] in Hrun.
  destruct (JsMap.get dest (ws_slug x)) as [w0|] eqn:Hget.
  - destruct (sameAs x w0) eqn:Heq; cbn [negb] in Hrun.
    + apply ret_inr in Hrun as [-> [_ ->]].
      split; [assumption|]. split; [assumption|]. split; [reflexivity|].
      split; [reflexivity|]. split; [exists w0; auto | reflexivity].
    + apply bind_inr in Hrun as [s1 [l1 [it [l2 [H1 [H2 _]]]]]].
      unfold updateItem in H1. apply attempt_inr in H1 as [_ [Hs1 [Hit _]]].
      cbn [fst snd] in Hs1, Hit.
      apply liftE_inr in H2 as [-> [_ Hrec]].
      destruct (dc_update_vocab E good contract s v (vocabId w0)
                  (nameSlugFields x) Hg) as [Hid [Hf Hgood]].
      fold (vocabId w0) in Hs1, Hit. rewrite <- Hit in Hid, Hf, Hgood.
      rewrite <- Hit, <- Hs1 in *. clear Hit.
      apply (recordItem_written _ _ _ _ Hf) in Hrec. subst dest'.
      rewrite Hs1. rewrite vocabItems_set_same, st_maps_setVocab.
      split; [|split; [rewrite <- Hs1; exact Hgood|split; [reflexivity|split; [|split]]]].
      * apply (linked_replace vocabRel vocabId vocabRel_id); auto.
        unfold vocabRel. cbn [wf_item wf_name wf_slug]. rewrite Hf. auto.
      * intros v' Hv'. now apply vocabItems_set_other.
      * eexists. split; [apply JsMapFacts.get_set_same|].
        now apply isSameItem_refl.
      * intros k Hk. apply JsMapFacts.get_set_other. congruence.
  - apply bind_inr in Hrun as [s1 [l1 [it [l2 [H1 [H2 _]]]]]].
    unfold createItem in H1. apply attempt_inr in H1 as [_ [Hs1 [Hit _]]].
    cbn [fst snd] in Hs1, Hit.
    apply liftE_inr in H2 as [-> [_ Hrec]].
    destruct (dc_create_vocab E good contract s v (nameSlugFields x) Hg)
      as [Hf [Hfresh Hgood]].
    rewrite <- Hit in Hf, Hfresh, Hgood. rewrite <- Hit in Hs1. clear Hit.
    apply (recordItem_written _ _ _ _ Hf) in Hrec. subst dest'.
    rewrite Hs1. rewrite vocabItems_set_same, st_maps_setVocab.
    split; [|split; [exact Hgood|split; [reflexivity|split; [|split]]]].
    + apply (linked_append vocabRel); auto.
      unfold vocabRel. cbn [wf_item wf_name wf_slug]. rewrite Hf. auto.
    + intros v' Hv'. now apply vocabItems_set_other.
    + eexists. split; [apply JsMapFacts.get_set_same|].
      now apply isSameItem_refl.
    + intros k Hk. apply JsMapFacts.get_set_other. congruence.
Qed.

Lemma additions_establish (v : Vocabulary) (l : list IWebsiteItem) :
  NoDup (map ws_slug l) ->
  forall dest dest' s s' calls,
    foldM (additionStep E WebflowMapTag sameAs v false) l dest s
    = (s', calls, inr dest') ->
    linked vocabRel dest (vocabItems v s) -> good s ->
    linked vocabRel dest' (vocabItems v s') /\ good s' /\
    st_maps s' = st_maps s /\
    (forall v', v' <> v -> vocabItems v' s' = vocabItems v' s) /\
    (forall i, In i l ->
       exists w, JsMap.get dest' (ws_slug i) = Some w /\ sameAs i w = true) /\
    (forall k, ~ In k (map ws_slug l) -> JsMap.get dest' k = JsMap.get dest k).
Proof.
  induction l as [|x r IH]; intros Hnd dest dest' s s' calls Hrun Hl Hg.
  - apply ret_inr in Hrun as [-> [_ ->]].
    split; [assumption|]. split; [assumption|]. split; [reflexivity|].
    split; [reflexivity|]. split; [intros i [] | reflexivity].
  - simpl in Hnd. inversion Hnd as [|? ? Hx Hr]; subst.
    apply foldM_cons_inr in Hrun as [s1 [l1 [d1 [l2 [H1 [H2 _]]]]]].
    destruct (additionStep_establishes v dest d1 x s s1 l1 H1 Hl Hg)
      as [Hl1 [Hg1 [Hm1 [Hf1 [Hx1 Hk1]]]]].
    destruct (IH Hr d1 dest' s1 s' l2 H2 Hl1 Hg1)
      as [Hl2 [Hg2 [Hm2 [Hf2 [Hr2 Hk2]]]]].
    split; [assumption|]. split; [assumption|].
    split; [congruence|]. split; [|split].
    + intros v' Hv'. rewrite (Hf2 v' Hv'). now apply Hf1.
    + intros i [<-|Hi]; [|now apply Hr2].
      destruct Hx1 as [w [Hw Heq]]. exists w. split; [|assumption].
      rewrite Hk2; assumption.
    + intros k Hk. simpl in Hk. rewrite Hk2 by tauto. apply Hk1.
      intros ->. apply Hk. now left.
Qed.

(** *** Removals of a vocabulary *)

Lemma get_delete_other {V : Type} (m : JsMap.t V) (k k' : string) :
  k <> k' -> JsMap.get (JsMap.delete m k) k' = JsMap.get m k'.
Proof.
  intros Hne. induction m as [|[k0 v0] r IH]; [reflexivity|]. simpl.
  destruct (String.eqb_spec k0 k) as [->|Hk0]; simpl.
  - destruct (String.eqb_spec k k'); [contradiction | reflexivity].
  - destruct (k0 =? k'); [reflexivity | exact IH].
Qed.

Lemma In_delete {V : Type} (m : JsMap.t V) (k : string) (e : string * V) :
  In e (JsMap.delete m k) -> In e m.
Proof.
  induction m as [|[k0 v0] r IH]; [intros []|]. simpl.
  destruct (k0 =? k); [now right|].
  intros [<-|H]; [now left | right; now apply IH].
Qed.

Lemma In_delete_key {V : Type} (m : JsMap.t V) (k : string) (e : string * V) :
  NoDup (JsMap.keys m) -> In e (JsMap.delete m k) -> fst e <> k.
Proof.
  induction m as [|[k0 v0] r IH]; intros Hnd; [intros []|]. simpl in *.
  inversion Hnd as [|? ? Hk0 Hr]; subst.
  destruct (String.eqb_spec k0 k) as [->|Hne].
  - intros Hin Heq. apply Hk0. rewrite <- Heq. now apply in_map.
  - intros [<-|H]; [assumption | now apply IH].
Qed.

(** The removal loop, seen from the entries still to visit: the map keeps
    mirroring the listing, keeps its entries of the source vocabulary, and in
    the end holds no other entry. *)
Lemma removals_establish (v : Vocabulary) (src : JsMap.t IWebsiteItem)
  (rest : list (string * IWebflowItem)) :
  forall dest dest' s s' calls,
    foldM (removalStep E v src false) rest dest s = (s', calls, inr dest') ->
    linked vocabRel dest (vocabItems v s) -> good s ->
    (forall e, In e rest -> JsMap.has dest (fst e) = true ->
               JsMap.get dest (fst e) = Some (snd e)) ->
    linked vocabRel dest' (vocabItems v s') /\ good s' /\
    st_maps s' = st_maps s /\
    (forall v', v' <> v -> vocabItems v' s' = vocabItems v' s) /\
    (forall k w, JsMap.get dest k = Some w -> keptBy src (k, w) = true ->
                 JsMap.get dest' k = Some w) /\
    (forall e, In e dest' -> In e dest) /\
    (forall e, In e dest' -> keptBy src e = true \/
                             (In e dest /\ ~ In (fst e) (map fst rest))).
Proof.
  induction rest as [|x r IH]; intros dest dest' s s' calls Hrun Hl Hg Hsnap.
  - apply ret_inr in Hrun as [-> [_ ->]].
    split; [assumption|]. split; [assumption|]. split; [reflexivity|].
    split; [reflexivity|]. split; [auto|]. split; [auto|].
    intros e He. right. split; [assumption | intros []].
  - apply foldM_cons_inr in Hrun as [s1 [l1 [d1 [l2 [H1 [H2 _]]]]]].
    unfold removalStep in H1.
    destruct (JsMap.has dest (fst x)) eqn:Hhas; cbn [negb] in H1.
    + destruct (JsMap.has src (wf_slug (snd x))) eqn:Hkeep; cbn [negb] in H1.
      * apply ret_inr in H1 as [-> [_ ->]].
        destruct (IH dest dest' s s' l2 H2 Hl Hg
                    (fun e He => Hsnap e (or_intror He)))
          as [Hl2 [Hg2 [Hm2 [Hf2 [Hk2 [Hsub2 Hall2]]]]]].
        split; [assumption|]. split; [assumption|]. split; [assumption|].
        split; [assumption|]. split; [assumption|]. split; [assumption|].
        intros e He. destruct (Hall2 e He) as [Hk|[Hin Hnot]]; [now left|].
        destruct (String.eqb_spec (fst e) (fst x)) as [Heq|Hne].
        -- left. pose proof (Hsnap x (or_introl eq_refl) Hhas) as Hgx.
           destruct Hl as [_ [Hnd _]].
           pose proof (In_get _ _ _ Hnd (eq_ind _ (fun p => In p dest) Hin _
                         (surjective_pairing e))) as Hge.
           rewrite Heq, Hgx in Hge. injection Hge as Hsnd.
           unfold keptBy. now rewrite <- Hsnd.
        -- right. split; [assumption|]. simpl.
           intros [Heq'|Hr']; [congruence | contradiction].
      * apply bind_inr in H1 as [s2 [l3 [u [l4 [H1 [H3 _]]]]]].
        unfold deleteItem in H1. apply attempt_inr in H1 as [_ [Hs2 _]].
        cbn [fst] in Hs2. apply ret_inr in H3 as [-> [_ ->]].
        pose proof (Hsnap x (or_introl eq_refl) Hhas) as Hgx.
        destruct (linked_get _ _ _ _ _ Hl Hgx) as [it [_ [_ [_ Hkey]]]].
        rewrite <- Hkey in *.
        assert (Hl1 : linked vocabRel (JsMap.delete dest (fst x))
                        (vocabItems v s2)).
        { rewrite Hs2. cbn [deleteFrom]. rewrite vocabItems_set_same.
          apply (linked_delete vocabRel vocabId vocabRel_id); assumption. }
        assert (Hg1 : good s2) by (rewrite Hs2; now apply (dc_delete E good contract)).
        destruct Hl as [_ [Hnd _]].
        destruct (IH (JsMap.delete dest (fst x)) dest' s2 s' l2 H2 Hl1 Hg1)
          as [Hl2 [Hg2 [Hm2 [Hf2 [Hk2 [Hsub2 Hall2]]]]]].
        { intros e He Hh.
          assert (Hne : fst x <> fst e).
          { intros Heq. unfold JsMap.has in Hh.
            destruct (JsMap.get (JsMap.delete dest (fst x)) (fst e)) eqn:Hd;
              [|discriminate].
            apply JsMapFacts.get_In in Hd.
            apply (In_delete_key _ _ _ Hnd) in Hd. simpl in Hd. congruence. }
          rewrite get_delete_other by assumption.
          apply Hsnap; [now right|].
          unfold JsMap.has in *. now rewrite get_delete_other in Hh. }
        split; [assumption|]. split; [assumption|].
        split; [rewrite Hm2, Hs2; cbn [deleteFrom]; apply st_maps_setVocab|].
        split; [|split; [|split]].
        -- intros v' Hv'. rewrite (Hf2 v' Hv'), Hs2. cbn [deleteFrom].
           now apply vocabItems_set_other.
        -- intros k w Hgk Hkept. apply Hk2; [|assumption].
           rewrite get_delete_other; [assumption|].
           intros Heq. subst k. rewrite Hgx in Hgk. injection Hgk as <-.
           unfold keptBy in Hkept. simpl in Hkept. congruence.
        -- intros e He. apply In_delete with (k := fst x). now apply Hsub2.
        -- intros e He. destruct (Hall2 e He) as [Hk|[Hin Hnot]]; [now left|].
           right. split; [now apply In_delete in Hin|]. simpl.
           intros [Heq|Hr]; [|contradiction].
           apply (In_delete_key _ _ _ Hnd) in Hin. congruence.
    + apply ret_inr in H1 as [-> [_ ->]].
      destruct (IH dest dest' s s' l2 H2 Hl Hg
                  (fun e He => Hsnap e (or_intror He)))
        as [Hl2 [Hg2 [Hm2 [Hf2 [Hk2 [Hsub2 Hall2]]]]]].
      split; [assumption|]. split; [assumption|]. split; [assumption|].
      split; [assumption|]. split; [assumption|]. split; [assumption|].
      intros e He. destruct (Hall2 e He) as [Hk|[Hin Hnot]]; [now left|].
      right. split; [assumption|]. simpl. intros [Heq|Hr]; [|contradiction].
      assert (Hin' : In (fst e) (JsMap.keys dest)) by now apply in_map.
      apply JsMapFacts.has_keys in Hin'. congruence.
Qed.

Lemma sameAs_inv (i : IWebsiteItem) (w : IWebflowItem) :
  sameAs i w = true -> wf_name w = ws_name i /\ wf_slug w = ws_slug i.
Proof.
  unfold sameAs, isSameItem, asWebsiteItem. simpl. intros H.
  apply andb_prop in H as [Hn Hs].
  apply String.eqb_eq in Hn, Hs. auto.
Qed.

Lemma keyedBy_has {V : Type} (key : V -> string) (m : JsMap.t V) (x : V) :
  keyedBy key m -> In x (JsMap.values m) -> JsMap.has m (key x) = true.
Proof.
  intros [_ Hk] Hin. apply JsMapFacts.has_keys.
  apply in_map_iff in Hin as [e [<- He]]. rewrite <- (Hk e He).
  now apply in_map.
Qed.

(** After the additions and the removals of a vocabulary, the script's map
    mirrors the listing and is settled. *)
Lemma removals_settle (v : Vocabulary) (src : JsMap.t IWebsiteItem)
  (dest dest' : JsMap.t IWebflowItem) (s s' : Store) (calls : list Call) :
  keyedBy ws_slug src ->
  (forall i, In i (JsMap.values src) ->
     exists w, JsMap.get dest (ws_slug i) = Some w /\ sameAs i w = true) ->
  syncCollectionToWebflowRemovals E v src dest false s = (s', calls, inr dest') ->
  linked vocabRel dest (vocabItems v s) -> good s ->
  linked vocabRel dest' (vocabItems v s') /\ good s' /\
  st_maps s' = st_maps s /\
  (forall v', v' <> v -> vocabItems v' s' = vocabItems v' s) /\
  vocabSettled src dest' /\
  (forall e, In e dest' -> In e dest).
Proof.
  intros Hkey Hadd Hrun Hl Hg. unfold syncCollectionToWebflowRemovals in Hrun.
  destruct (removals_establish v src dest dest dest' s s' calls Hrun Hl Hg)
    as [Hl' [Hg' [Hm [Hf [Hkept [Hsub Hall]]]]]].
  { intros e He _. destruct Hl as [_ [Hnd _]]. apply In_get; [assumption|].
    now destruct e. }
  split; [assumption|]. split; [assumption|]. split; [assumption|].
  split; [assumption|]. split; [|assumption]. split.
  - intros i Hi. destruct (Hadd i Hi) as [w [Hw Heq]]. exists w.
    split; [|assumption]. apply Hkept; [assumption|].
    unfold keptBy. cbn [snd]. destruct (sameAs_inv _ _ Heq) as [_ ->].
    now apply keyedBy_has.
  - intros e He. destruct (Hall e He) as [Hk|[Hin Hnot]]; [exact Hk|].
    exfalso. apply Hnot. now apply in_map.
Qed.

(** *** Publishing changes time stamps only *)

Lemma vocabRel_stamps (k : string) (w : IWebflowItem)
  (it it' : CollectionItem NameSlugFields) :
  item_id it' = item_id it -> item_fieldData it' = item_fieldData it ->
  vocabRel k w it -> vocabRel k w it'.
Proof. unfold vocabRel. intros -> ->. auto. Qed.

Lemma mapRel_stamps (k : string) (w : WebflowMapInfo)
  (it it' : CollectionItem WebflowMapFieldsRead) :
  item_id it' = item_id it -> item_fieldData it' = item_fieldData it ->
  mapRel k w it -> mapRel k w it'.
Proof. unfold mapRel. intros -> ->. auto. Qed.

Lemma publishIn_mirrored (maps : JsMap.t WebflowMapInfo)
  (tags terrains : JsMap.t IWebflowItem) (c : Coll) (ids : list string)
  (s : Store) :
  mirrored maps tags terrains s ->
  mirrored maps tags terrains (publishIn E c ids s).
Proof.
  intros [Hm [Ht Hr]]. unfold mirrored, publishIn.
  destruct c as [|[|]]; cbn [setMapItems setVocabItems vocabItems st_maps
                              st_tags st_terrains] in *.
  - split; [|split; assumption].
    apply linked_stamped; [apply mapRel_stamps | assumption].
  - split; [assumption|]. split; [|assumption].
    apply linked_stamped; [apply vocabRel_stamps | assumption].
  - split; [assumption|]. split; [assumption|].
    apply linked_stamped; [apply vocabRel_stamps | assumption].
Qed.

Lemma publish_establishes {F : Type} (maps : JsMap.t WebflowMapInfo)
  (tags terrains : JsMap.t IWebflowItem) (c : Coll)
  (items : list (CollectionItem F)) (s s' : Store) (calls : list Call) (u : unit) :
  publishUpdatedWebflowItems E c items false s = (s', calls, inr u) ->
  mirrored maps tags terrains s -> good s ->
  mirrored maps tags terrains s' /\ good s'.
Proof.
  unfold publishUpdatedWebflowItems. cbn [negb]. intros Hrun Hm Hg.
  assert (H : (mirrored maps tags terrains s' /\ good s') /\
              Forall (fun _ => True) calls).
  { eapply (foldM_invariant (fun (_ : unit) ch => publishItem E c ch)
              (fun _ s0 => mirrored maps tags terrains s0 /\ good s0)
              (fun _ => True)); [|split; eassumption|exact Hrun].
    intros b x s0 s1 l1 b1 _ [Hm0 Hg0] Hstep. unfold publishItem in Hstep.
    apply attempt_inr in Hstep as [_ [-> [_ ->]]]. cbn [fst].
    split; [split|repeat constructor].
    - now apply publishIn_mirrored.
    - now apply (dc_publish E good contract). }
  exact (proj1 H).
Qed.

(** *** Reconciling the maps *)

Lemma mapRel_id (k : string) (w : WebflowMapInfo)
  (it : CollectionItem WebflowMapFieldsRead) :
  mapRel k w it -> mapId w = item_id it.
Proof. now intros [H _]. Qed.

Lemma vocabItems_setMaps (v : Vocabulary)
  (l : list (CollectionItem WebflowMapFieldsRead)) (s : Store) :
  vocabItems v (setMapItems l s) = vocabItems v s.
Proof. now destruct v. Qed.

(** The record read from a returned item that reads back equal to [m]. *)
Lemma returned_record (m : WebsiteMapInfo)
  (it : CollectionItem WebflowMapFieldsRead) (o : WebflowMapFieldsRead)
  (w : WebflowMapInfo) :
  item_fieldData it = Defined o ->
  isWebflowMapInfoEqual E m (readMapFields o) = true ->
  newWebflowMapInfo it = inr w ->
  mapRel (mi_rowyId m) w it /\ isWebflowMapInfoEqual E m (wm_info w) = true.
Proof.
  intros Hf Heq Hw. unfold newWebflowMapInfo in Hw. rewrite Hf in Hw.
  injection Hw as <-. cbn [wm_info]. split; [|assumption].
  unfold mapRel. cbn [wm_item wm_info wm_fieldData].
  repeat split; try assumption.
  apply isWebflowMapInfoEqual_inv in Heq. tauto.
Qed.

Lemma mapAdditionStep_establishes (acc acc' : JsMap.t WebflowMapInfo * list Update)
  (m : WebsiteMapInfo) (s s' : Store) (calls : list Call) :
  mapAdditionStep E false acc m s = (s', calls, inr acc') ->
  canonicalImages m ->
  linked mapRel (fst acc) (st_maps s) -> good s ->
  linked mapRel (fst acc') (st_maps s') /\ good s' /\
  (forall v, vocabItems v s' = vocabItems v s) /\
  ((exists w, JsMap.get (fst acc) (mi_rowyId m) = None /\
              fst acc' = JsMap.set (fst acc) (mi_rowyId m) w /\
              isWebflowMapInfoEqual E m (wm_info w) = true /\
              snd acc' = snd acc) \/
   (exists w, JsMap.get (fst acc) (mi_rowyId m) = Some w /\
              fst acc' = fst acc /\
              snd acc' = snd acc
                         ++ [(isWebflowMapInfoEqual E m (wm_info w), m, w)])).
Proof.
  intros Hrun Hcan Hl Hg. unfold mapAdditionStep in Hrun.
  destruct (JsMap.get (fst acc) (mi_rowyId m)) as [w0|] eqn:Hget.
  - apply ret_inr in Hrun as [-> [_ ->]]. cbn [fst snd].
    split; [assumption|]. split; [assumption|]. split; [reflexivity|].
    right. exists w0. auto.
  - cbn [negb] in Hrun.
    apply bind_inr in Hrun as [s1 [l1 [it [l2 [H1 [H2 _]]]]]].
    unfold createMapItem in H1. apply attempt_inr in H1 as [_ [Hs1 [Hit _]]].
    cbn [fst snd] in Hs1, Hit.
    apply bind_inr in H2 as [s2 [l3 [w [l4 [H2 [H3 _]]]]]].
    apply liftE_inr in H2 as [-> [_ Hw]].
    apply ret_inr in H3 as [-> [_ ->]]. cbn [fst snd].
    destruct (dc_create_map E good contract s m Hg Hcan)
      as [Hfresh [[o [Hf Heq]] Hgood]].
    rewrite <- Hit in Hfresh, Hf, Hgood. rewrite <- Hit in Hs1. clear Hit.
    destruct (returned_record m it o w Hf Heq Hw) as [Hrel Heqw].
    rewrite Hs1. cbn [st_maps setMapItems].
    split; [|split; [exact Hgood|split]].
    + apply (linked_append mapRel); assumption.
    + intros v. apply vocabItems_setMaps.
    + left. exists w. auto.
Qed.

Lemma mapAdditions_establish (l : list WebsiteMapInfo) :
  NoDup (map mi_rowyId l) -> (forall m, In m l -> canonicalImages m) ->
  forall acc acc' s s' calls,
    foldM (mapAdditionStep E false) l acc s = (s', calls, inr acc') ->
    linked mapRel (fst acc) (st_maps s) -> good s ->
    linked mapRel (fst acc') (st_maps s') /\ good s' /\
    (forall v, vocabItems v s' = vocabItems v s) /\
    (forall k w, JsMap.get (fst acc) k = Some w ->
                 JsMap.get (fst acc') k = Some w) /\
    (forall u, In u (snd acc) -> In u (snd acc')) /\
    (forall m, In m l ->
       exists w, JsMap.get (fst acc') (mi_rowyId m) = Some w /\
         (isWebflowMapInfoEqual E m (wm_info w) = true \/
          In (false, m, w) (snd acc'))) /\
    (forall u, In u (snd acc') ->
       In u (snd acc) \/
       (In (snd (fst u)) l /\
        JsMap.get (fst acc) (ukey u) = Some (snd u) /\
        fst (fst u) = isWebflowMapInfoEqual E (snd (fst u)) (wm_info (snd u)))) /\
    (NoDup (map ukey (snd acc)) ->
     (forall u, In u (snd acc) -> ~ In (ukey u) (map mi_rowyId l)) ->
     NoDup (map ukey (snd acc'))).
Proof.
  induction l as [|x r IH]; intros Hnd Hcan acc acc' s s' calls Hrun Hl Hg.
  - apply ret_inr in Hrun as [-> [_ ->]].
    split; [assumption|]. split; [assumption|]. split; [reflexivity|].
    split; [auto|]. split; [auto|]. split; [intros m []|].
    split; [auto | auto].
  - simpl in Hnd. inversion Hnd as [|? ? Hx Hr]; subst.
    apply foldM_cons_inr in Hrun as [s1 [l1 [acc1 [l2 [H1 [H2 _]]]]]].
    destruct (mapAdditionStep_establishes acc acc1 x s s1 l1 H1
                (Hcan x (or_introl eq_refl)) Hl Hg)
      as [Hl1 [Hg1 [Hf1 Hstep]]].
    destruct (IH Hr (fun m Hm => Hcan m (or_intror Hm)) acc1 acc' s1 s' l2 H2 Hl1 Hg1)
      as [Hl2 [Hg2 [Hf2 [HA [HE [HB [HC HD]]]]]]].
    assert (HA1 : forall k w, JsMap.get (fst acc) k = Some w ->
                              JsMap.get (fst acc1) k = Some w).
    { intros k w Hk. destruct Hstep as [[w' [Hn [-> _]]]|[w' [_ [-> _]]]];
        [|assumption].
      rewrite JsMapFacts.get_set_other; [assumption | congruence]. }
    assert (HE1 : forall u, In u (snd acc) -> In u (snd acc1)).
    { intros u Hu. destruct Hstep as [[w' [_ [_ [_ ->]]]]|[w' [_ [_ ->]]]];
        [assumption | apply in_or_app; now left]. }
    split; [assumption|]. split; [assumption|].
    split; [intros v; now rewrite Hf2|].
    split; [auto|]. split; [auto|]. split; [|split].
    + intros m [<-|Hm]; [|now apply HB].
      destruct Hstep as [[w [_ [Hset [Heq _]]]]|[w [Hget [Hfst Hsnd]]]].
      * exists w. split; [|now left]. apply HA. rewrite Hset.
        apply JsMapFacts.get_set_same.
      * exists w. split; [apply HA; now rewrite Hfst|].
        destruct (isWebflowMapInfoEqual E x (wm_info w)) eqn:Heq; [now left|].
        right. apply HE. rewrite Hsnd. apply in_or_app. right. now left.
    + intros u Hu. destruct (HC u Hu) as [Hin|[Hin [Hget Hflag]]].
      * destruct Hstep as [[w [_ [_ [_ Hsnd]]]]|[w [Hget [Hfst Hsnd]]]].
        -- left. now rewrite <- Hsnd.
        -- rewrite Hsnd in Hin. apply in_app_or in Hin as [Hin|[<-|[]]];
             [now left|]. right. unfold ukey. cbn [fst snd].
           split; [now left | split; [exact Hget | reflexivity]].
      * right. split; [now right|]. split; [|assumption].
        destruct Hstep as [[w [_ [Hset _]]]|[w [_ [Hfst _]]]].
        -- rewrite Hset in Hget. rewrite JsMapFacts.get_set_other in Hget;
             [assumption|].
           intros Heq. apply Hx. unfold ukey in Heq. rewrite Heq.
           now apply in_map.
        -- now rewrite <- Hfst.
    + intros Hnd0 Hout. apply HD.
      * destruct Hstep as [[w [_ [_ [_ ->]]]]|[w [_ [_ ->]]]]; [assumption|].
        rewrite map_app. apply NoDup_snoc; [assumption|].
        cbn [map ukey fst snd]. intros Hin.
        apply in_map_iff in Hin as [u [Hu Hin]].
        apply (Hout u Hin). rewrite Hu. now left.
      * intros u Hu Hin.
        destruct Hstep as [[w [_ [_ [_ Hsnd]]]]|[w [_ [_ Hsnd]]]];
          rewrite Hsnd in Hu.
        -- apply (Hout u Hu). now right.
        -- apply in_app_or in Hu as [Hu|[<-|[]]].
           ++ apply (Hout u Hu). now right.
           ++ cbn [ukey fst snd] in Hin. contradiction.
Qed.

Lemma mapRemovals_establish (src : JsMap.t WebsiteMapInfo)
  (rest : list (string * WebflowMapInfo)) :
  forall dest dest' s s' calls,
    foldM (mapRemovalStep E src false) rest dest s = (s', calls, inr dest') ->
    linked mapRel dest (st_maps s) -> good s ->
    (forall e, In e rest -> JsMap.has dest (fst e) = true ->
               JsMap.get dest (fst e) = Some (snd e)) ->
    linked mapRel dest' (st_maps s') /\ good s' /\
    (forall v, vocabItems v s' = vocabItems v s) /\
    (forall k w, JsMap.get dest k = Some w -> keptMap src (k, w) = true ->
                 JsMap.get dest' k = Some w) /\
    (forall e, In e dest' -> In e dest) /\
    (forall e, In e dest' -> keptMap src e = true \/
                             (In e dest /\ ~ In (fst e) (map fst rest))).
Proof.
  induction rest as [|x r IH]; intros dest dest' s s' calls Hrun Hl Hg Hsnap.
  - apply ret_inr in Hrun as [-> [_ ->]].
    split; [assumption|]. split; [assumption|]. split; [reflexivity|].
    split; [auto|]. split; [auto|].
    intros e He. right. split; [assumption | intros []].
  - apply foldM_cons_inr in Hrun as [s1 [l1 [d1 [l2 [H1 [H2 _]]]]]].
    unfold mapRemovalStep in H1.
    destruct (JsMap.has dest (fst x)) eqn:Hhas; cbn [negb] in H1.
    + destruct (JsMap.has src (mi_rowyId (wm_info (snd x)))) eqn:Hkeep;
        cbn [negb] in H1.
      * apply ret_inr in H1 as [-> [_ ->]].
        destruct (IH dest dest' s s' l2 H2 Hl Hg
                    (fun e He => Hsnap e (or_intror He)))
          as [Hl2 [Hg2 [Hf2 [Hk2 [Hsub2 Hall2]]]]].
        split; [assumption|]. split; [assumption|]. split; [assumption|].
        split; [assumption|]. split; [assumption|].
        intros e He. destruct (Hall2 e He) as [Hk|[Hin Hnot]]; [now left|].
        destruct (String.eqb_spec (fst e) (fst x)) as [Heq|Hne].
        -- left. pose proof (Hsnap x (or_introl eq_refl) Hhas) as Hgx.
           destruct Hl as [_ [Hnd _]].
           pose proof (In_get _ _ _ Hnd (eq_ind _ (fun p => In p dest) Hin _
                         (surjective_pairing e))) as Hge.
           rewrite Heq, Hgx in Hge. injection Hge as Hsnd.
           unfold keptMap. now rewrite <- Hsnd.
        -- right. split; [assumption|]. simpl.
           intros [Heq'|Hr']; [congruence | contradiction].
      * apply bind_inr in H1 as [s2 [l3 [u [l4 [H1 [H3 _]]]]]].
        unfold deleteItem in H1. apply attempt_inr in H1 as [_ [Hs2 _]].
        cbn [fst] in Hs2. apply ret_inr in H3 as [-> [_ ->]].
        pose proof (Hsnap x (or_introl eq_refl) Hhas) as Hgx.
        destruct (linked_get _ _ _ _ _ Hl Hgx) as [it [_ [_ [_ [_ Hkey]]]]].
        rewrite <- Hkey in *.
        assert (Hl1 : linked mapRel (JsMap.delete dest (fst x)) (st_maps s2)).
        { rewrite Hs2. cbn [deleteFrom setMapItems st_maps].
          apply (linked_delete mapRel mapId mapRel_id); assumption. }
        assert (Hg1 : good s2) by (rewrite Hs2; now apply (dc_delete E good contract)).
        destruct Hl as [_ [Hnd _]].
        destruct (IH (JsMap.delete dest (fst x)) dest' s2 s' l2 H2 Hl1 Hg1)
          as [Hl2 [Hg2 [Hf2 [Hk2 [Hsub2 Hall2]]]]].
        { intros e He Hh.
          assert (Hne : fst x <> fst e).
          { intros Heq. unfold JsMap.has in Hh.
            destruct (JsMap.get (JsMap.delete dest (fst x)) (fst e)) eqn:Hd;
              [|discriminate].
            apply JsMapFacts.get_In in Hd.
            apply (In_delete_key _ _ _ Hnd) in Hd. simpl in Hd. congruence. }
          rewrite get_delete_other by assumption.
          apply Hsnap; [now right|].
          unfold JsMap.has in *. now rewrite get_delete_other in Hh. }
        split; [assumption|]. split; [assumption|].
        split; [|split; [|split]].
        -- intros v. rewrite (Hf2 v), Hs2. cbn [deleteFrom].
           apply vocabItems_setMaps.
        -- intros k w Hgk Hkept. apply Hk2; [|assumption].
           rewrite get_delete_other; [assumption|].
           intros Heq. subst k. rewrite Hgx in Hgk. injection Hgk as <-.
           unfold keptMap in Hkept. simpl in Hkept. congruence.
        -- intros e He. apply In_delete with (k := fst x). now apply Hsub2.
        -- intros e He. destruct (Hall2 e He) as [Hk|[Hin Hnot]]; [now left|].
           right. split; [now apply In_delete in Hin|]. simpl.
           intros [Heq|Hr]; [|contradiction].
           apply (In_delete_key _ _ _ Hnd) in Hin. congruence.
    + apply ret_inr in H1 as [-> [_ ->]].
      destruct (IH dest dest' s s' l2 H2 Hl Hg
                  (fun e He => Hsnap e (or_intror He)))
        as [Hl2 [Hg2 [Hf2 [Hk2 [Hsub2 Hall2]]]]].
      split; [assumption|]. split; [assumption|]. split; [assumption|].
      split; [assumption|]. split; [assumption|].
      intros e He. destruct (Hall2 e He) as [Hk|[Hin Hnot]]; [now left|].
      right. split; [assumption|]. simpl. intros [Heq|Hr]; [|contradiction].
      assert (Hin' : In (fst e) (JsMap.keys dest)) by now apply in_map.
      apply JsMapFacts.has_keys in Hin'. congruence.
Qed.

Lemma mapUpdates_establish (l : list Update) :
  NoDup (map ukey l) ->
  (forall u, In u l -> canonicalImages (snd (fst u))) ->
  forall dest dest' s s' calls,
    foldM (mapUpdateStep E false) l dest s = (s', calls, inr dest') ->
    linked mapRel dest (st_maps s) -> good s ->
    (forall u, In u l -> JsMap.get dest (ukey u) = Some (snd u)) ->
    linked mapRel dest' (st_maps s') /\ good s' /\
    (forall v, vocabItems v s' = vocabItems v s) /\
    (forall k, ~ In k (map ukey l) -> JsMap.get dest' k = JsMap.get dest k) /\
    (forall u, In u l ->
       exists w', JsMap.get dest' (ukey u) = Some w' /\
                  isWebflowMapInfoEqual E (snd (fst u)) (wm_info w') = true) /\
    JsMap.keys dest' = JsMap.keys dest.
Proof.
  induction l as [|x r IH]; intros Hnd Hcan dest dest' s s' calls Hrun Hl Hg Hbase.
  - apply ret_inr in Hrun as [-> [_ ->]].
    split; [assumption|]. split; [assumption|]. split; [reflexivity|].
    split; [reflexivity|]. split; [intros u [] | reflexivity].
  - simpl in Hnd. inversion Hnd as [|? ? Hx Hr]; subst.
    apply foldM_cons_inr in Hrun as [s1 [l1 [d1 [l2 [H1 [H2 _]]]]]].
    unfold mapUpdateStep in H1. cbn [negb] in H1.
    apply bind_inr in H1 as [s2 [l3 [it [l4 [H1 [H3 _]]]]]].
    unfold updateMapItem in H1. apply attempt_inr in H1 as [_ [Hs2 [Hit _]]].
    cbn [fst snd] in Hs2, Hit.
    apply bind_inr in H3 as [s3 [l5 [w' [l6 [H3 [H4 _]]]]]].
    apply liftE_inr in H3 as [-> [_ Hw']].
    apply ret_inr in H4 as [-> [_ ->]].
    pose proof (Hbase x (or_introl eq_refl)) as Hgx.
    assert (Hread : readFromStore (snd x) s).
    { destruct (linked_get _ _ _ _ _ Hl Hgx) as [it0 [Hin [Hid [Hf _]]]].
      exists it0. auto. }
    destruct (dc_update_map E good contract s (snd (fst x)) (snd x) Hg
                (Hcan x (or_introl eq_refl)) Hread)
      as [Hid [[o [Hf Heq]] Hgood]].
    rewrite <- Hit in Hid, Hf, Hgood. rewrite <- Hit in Hs2. clear Hit.
    destruct (returned_record _ it o w' Hf Heq Hw') as [Hrel Heqw].
    assert (Hl1 : linked mapRel (JsMap.set dest (ukey x) w') (st_maps s2)).
    { rewrite Hs2. cbn [setMapItems st_maps].
      apply (linked_replace mapRel mapId mapRel_id); assumption. }
    assert (Hg1 : good s2) by (rewrite Hs2; exact Hgood).
    destruct (IH Hr (fun u Hu => Hcan u (or_intror Hu))
                 (JsMap.set dest (ukey x) w') dest' s2 s' l2 H2 Hl1 Hg1)
      as [Hl2 [Hg2 [Hf2 [Hk2 [Hu2 Hkeys2]]]]].
    { intros u Hu. rewrite JsMapFacts.get_set_other; [now apply Hbase; right|].
      intros Heq'. apply Hx. rewrite Heq'. now apply in_map. }
    split; [assumption|]. split; [assumption|].
    split; [|split; [|split]].
    + intros v. rewrite (Hf2 v), Hs2. apply vocabItems_setMaps.
    + intros k Hk. simpl in Hk. rewrite Hk2 by tauto.
      apply JsMapFacts.get_set_other. intros Heq'. apply Hk. now left.
    + intros u [<-|Hu]; [|now apply Hu2].
      exists w'. split; [|assumption].
      rewrite Hk2 by assumption. apply JsMapFacts.get_set_same.
    + rewrite Hkeys2. apply JsMapFacts.keys_set_present.
      apply JsMapFacts.has_keys. unfold JsMap.has. now rewrite Hgx.
Qed.

Lemma keyedBy_values_NoDup {V : Type} (key : V -> string) (m : JsMap.t V) :
  keyedBy key m -> NoDup (map key (JsMap.values m)).
Proof.
  intros [Hnd Hk]. replace (map key (JsMap.values m)) with (JsMap.keys m);
    [assumption|].
  unfold JsMap.keys, JsMap.values. rewrite map_map. apply map_ext_in.
  intros e He. now apply Hk.
Qed.

Lemma NoDup_map_filter {V K : Type} (key : V -> K) (keep : V -> bool)
  (items : list V) (Hkeys : NoDup (map key items)) :
  NoDup (map key (filter keep items)).
Proof.
  induction items as [|x r IH]; [constructor|].
  simpl in Hkeys. inversion Hkeys as [|? ? Hx Hr]; subst. simpl.
  destruct (keep x); [|now apply IH]. simpl. constructor; [|now apply IH].
  intros Hin. apply Hx. apply in_map_iff in Hin as [y [Hy Hin]].
  apply filter_In in Hin as [Hin _]. rewrite <- Hy. now apply in_map.
Qed.

Lemma NoDup_map_inj {A B : Type} (f : A -> B) (l : list A) (x y : A) :
  NoDup (map f l) -> In x l -> In y l -> f x = f y -> x = y.
Proof.
  induction l as [|z r IH]; intros H Hx Hy Heq; [destruct Hx|].
  simpl in H. inversion H as [|? ? Hz Hr]; subst.
  destruct Hx as [<-|Hx], Hy as [<-|Hy]; auto.
  - exfalso. apply Hz. rewrite Heq. now apply in_map.
  - exfalso. apply Hz. rewrite <- Heq. now apply in_map.
Qed.

Lemma linked_map_key (dest : JsMap.t WebflowMapInfo)
  (items : list (CollectionItem WebflowMapFieldsRead))
  (e : string * WebflowMapInfo) :
  linked mapRel dest items -> In e dest -> fst e = mi_rowyId (wm_info (snd e)).
Proof.
  intros [H2 _] Hin.
  destruct (Forall2_In_l _ _ _ _ H2 Hin) as [it [_ [_ [_ [_ Hk]]]]]. exact Hk.
Qed.

(** A completed sync of the maps leaves the script's map mirroring the
    listing, and settled. *)
Lemma syncMaps_establish (src : JsMap.t WebsiteMapInfo)
  (dest dest' : JsMap.t WebflowMapInfo) (s s' : Store) (calls : list Call) :
  keyedBy mi_rowyId src ->
  (forall m, In m (JsMap.values src) -> canonicalImages m) ->
  syncMapsToWebflow E src dest false s = (s', calls, inr dest') ->
  linked mapRel dest (st_maps s) -> good s ->
  linked mapRel dest' (st_maps s') /\ good s' /\
  (forall v, vocabItems v s' = vocabItems v s) /\
  mapsSettled E src dest'.
Proof.
  intros Hkey Hcan Hrun Hl Hg. unfold syncMapsToWebflow in Hrun.
  apply bind_inr in Hrun as [s1 [l1 [acc1 [l2 [H1 [Hrun _]]]]]].
  apply bind_inr in Hrun as [s2 [l3 [d2 [l4 [H2 [H3 _]]]]]].
  pose proof (keyedBy_values_NoDup _ _ Hkey) as Hnd.
  destruct (mapAdditions_establish (JsMap.values src) Hnd Hcan (dest, []) acc1
              s s1 l1 H1 Hl Hg)
    as [Hl1 [Hg1 [Hf1 [HA [_ [HB [HC HD]]]]]]].
  cbn [fst snd] in HA, HC, HD.
  assert (Hupd : forall u, In u (snd acc1) ->
            In (snd (fst u)) (JsMap.values src) /\
            JsMap.get (fst acc1) (ukey u) = Some (snd u) /\
            fst (fst u) = isWebflowMapInfoEqual E (snd (fst u)) (wm_info (snd u))).
  { intros u Hu. destruct (HC u Hu) as [[]|[Hin [Hget Hflag]]]. auto. }
  assert (Hkept : forall m w, In m (JsMap.values src) ->
            JsMap.get (fst acc1) (mi_rowyId m) = Some w ->
            keptMap src (mi_rowyId m, w) = true).
  { intros m w Hm Hget. unfold keptMap. cbn [snd].
    pose proof (linked_map_key _ _ (mi_rowyId m, w) Hl1
                  (JsMapFacts.get_In _ _ _ Hget)) as Hk.
    cbn [fst snd] in Hk. rewrite <- Hk. now apply keyedBy_has. }
  destruct (mapRemovals_establish src (fst acc1) (fst acc1) d2 s1 s2 l3 H2 Hl1 Hg1)
    as [Hl2 [Hg2 [Hf2 [Hk2 [Hsub2 Hall2]]]]].
  { intros e He _. destruct Hl1 as [_ [Hnd1 _]]. apply In_get; [assumption|].
    now destruct e. }
  set (updates := filter (fun u : Update => negb (fst (fst u))) (snd acc1)) in *.
  assert (Hin_upd : forall u, In u updates -> In u (snd acc1) /\ fst (fst u) = false).
  { intros u Hu. apply filter_In in Hu as [Hu Hflag]. split; [assumption|].
    now destruct (fst (fst u)). }
  destruct (mapUpdates_establish updates) with (dest := d2) (dest' := dest')
    (s := s2) (s' := s') (calls := l4)
    as [Hl3 [Hg3 [Hf3 [Hk3 [Hu3 Hkeys3]]]]]; try assumption.
  { apply NoDup_map_filter. apply HD; [constructor | intros u []]. }
  { intros u Hu. apply Hcan. apply Hin_upd in Hu as [Hu _].
    now apply Hupd in Hu. }
  { intros u Hu. apply Hin_upd in Hu as [Hu _].
    destruct (Hupd u Hu) as [Hm [Hget _]].
    apply Hk2; [assumption|]. now apply Hkept. }
  split; [assumption|]. split; [assumption|].
  split; [intros v; now rewrite Hf3, Hf2|]. split.
  - intros m Hm. destruct (HB m Hm) as [w [Hget [Heq|Hq]]].
    + exists w. split; [|assumption].
      rewrite Hk3; [apply Hk2; auto|].
      intros Hin. apply in_map_iff in Hin as [u [Hu Hin]].
      apply Hin_upd in Hin as [Hin Hfalse].
      destruct (Hupd u Hin) as [Hmu [Hgu Hflag]].
      assert (Hsame : snd (fst u) = m)
        by (apply (NoDup_map_inj mi_rowyId _ _ _ Hnd); assumption).
      unfold ukey in Hgu. rewrite Hsame, Hget in Hgu. injection Hgu as Hw.
      rewrite Hsame, <- Hw, Heq in Hflag. congruence.
    + destruct (Hu3 (false, m, w)) as [w' [Hw' Heq']].
      { apply filter_In. split; [assumption | reflexivity]. }
      exists w'. auto.
  - intros e He.
    assert (Hk : In (fst e) (JsMap.keys d2)).
    { rewrite <- Hkeys3. now apply in_map. }
    apply in_map_iff in Hk as [e2 [Hfst He2]].
    destruct (Hall2 e2 He2) as [Hkept2|[_ Hnot]].
    + unfold keptMap in Hkept2.
      rewrite <- (linked_map_key _ _ e Hl3 He), <- Hfst,
              (linked_map_key _ _ e2 Hl2 He2). exact Hkept2.
    + exfalso. apply Hnot. apply in_map. now apply Hsub2.
Qed.

(** *** What [buildWebflowInfo] and the resolution of references keep *)

Lemma In_set {V : Type} (m : JsMap.t V) (k : string) (v : V) (e : string * V) :
  In e (JsMap.set m k v) -> e = (k, v) \/ In e m.
Proof.
  induction m as [|[k0 v0] r IH]; simpl.
  - intros [<-|[]]. now left.
  - destruct (k0 =? k); simpl.
    + intros [<-|H]; [now left | right; now right].
    + intros [<-|H]; [right; now left|].
      destruct (IH H) as [->|Hin]; [now left | right; now right].
Qed.

Lemma keyedBy_set {V : Type} (key : V -> string) (m : JsMap.t V) (v : V) :
  keyedBy key m -> keyedBy key (JsMap.set m (key v) v).
Proof.
  intros [Hnd Hk]. split; [now apply JsMapFacts.NoDup_keys_set|].
  intros e He. apply In_set in He as [->|He]; [reflexivity | now apply Hk].
Qed.

Lemma keyedBy_empty {V : Type} (key : V -> string) :
  keyedBy key (@JsMap.empty V).
Proof. split; [constructor | intros e []]. Qed.

Lemma addTags_keyed (tags : list string) (m : JsMap.t WebsiteMapTag) :
  keyedBy ws_slug m -> keyedBy ws_slug (addTags E m tags).
Proof.
  revert m. induction tags as [|t r IH]; intros m Hm; [assumption|].
  apply IH.
  exact (keyedBy_set ws_slug m
           {| ws_name := toUpperCase E t; ws_slug := slugFromName E t |} Hm).
Qed.

Lemma getRowyMapTerrains_keyed : keyedBy ws_slug getRowyMapTerrains.
Proof.
  unfold getRowyMapTerrains, JsMap.of_entries.
  generalize terrainType_enum. intros l.
  assert (H : forall m : JsMap.t WebsiteMapTerrain, keyedBy ws_slug m ->
            keyedBy ws_slug
              (fold_left (fun m e => JsMap.set m (fst e) (snd e))
                 (map (fun t => (t, {| ws_name := t; ws_slug := t |})) l) m)).
  { induction l as [|t r IH]; intros m Hm; [assumption|].
    apply IH. exact (keyedBy_set ws_slug m {| ws_name := t; ws_slug := t |} Hm). }
  apply H, keyedBy_empty.
Qed.

Lemma prefix_app (a b : string) : prefix a (a ++ b) = true.
Proof.
  induction a as [|c a IH]; [now destruct b|].
  simpl. destruct (ascii_dec c c); [exact IH | contradiction].
Qed.

Lemma imagorUrl_canonical (directive bucket path : string) :
  canonicalUrl (imagorUrl E directive bucket path).
Proof. apply prefix_app. Qed.

Lemma firstShotUrl_canonical (a : list UploadedFile) (u : string) :
  firstShotUrl E a = Some u -> canonicalUrl u.
Proof.
  destruct a; [discriminate|]. intros [= <-]. apply imagorUrl_canonical.
Qed.

Lemma rawInfo_canonical (rowyId : string) (m : MapInfo) (mi : MapCDNInfo)
  (meta : MapMetadata) (d : DerivedInfo) (info : RawMapInfo) :
  rawInfo E rowyId m mi meta d = inr info ->
  canonicalImages (checkedInfo info) /\ mi_rowyId (checkedInfo info) = rowyId.
Proof.
  unfold rawInfo. destruct (first (photo m)); [discriminate|].
  intros [= <-]. split; [|reflexivity].
  unfold canonicalImages, checkedInfo.
  cbn [mi_minimapUrl mi_minimapThumbUrl mi_bgImageUrl mi_perspectiveShotUrl
       mi_moreImagesUrl mi_textureMapUrl mi_heightMapUrl mi_metalMapUrl
       raw_minimapUrl raw_minimapThumbUrl raw_bgImageUrl raw_perspectiveShotUrl
       raw_moreImagesUrl raw_textureMapUrl raw_heightMapUrl raw_metalMapUrl].
  split; [apply imagorUrl_canonical|].
  split; [apply imagorUrl_canonical|].
  split; [intros u; apply firstShotUrl_canonical|].
  split; [intros u; apply firstShotUrl_canonical|].
  split.
  { apply Forall_forall. intros u Hu. apply in_map_iff in Hu as [f [<- _]].
    apply imagorUrl_canonical. }
  split; [apply imagorUrl_canonical|].
  split; apply imagorUrl_canonical.
Qed.

Lemma In_values_set {V : Type} (m : JsMap.t V) (k : string) (v x : V) :
  In x (JsMap.values (JsMap.set m k v)) -> x = v \/ In x (JsMap.values m).
Proof.
  intros H. apply in_map_iff in H as [e [<- He]].
  apply In_set in He as [->|He]; [now left | right; now apply in_map].
Qed.

Lemma buildStep_wellBuilt (cdnInfo : JsMap.t MapCDNInfo)
  (mapsMetadata : JsMap.t MapMetadata)
  (acc res : JsMap.t WebsiteMapInfo * JsMap.t WebsiteMapTag)
  (entry : string * MapInfo) :
  buildStep E cdnInfo mapsMetadata acc entry = inr res ->
  wellBuilt acc -> wellBuilt res.
Proof.
  destruct entry as [rowyId m]. unfold buildStep. cbn [fst snd].
  destruct (JsMap.get cdnInfo (springName m)) as [mi|]; [|discriminate].
  destruct (JsMap.get mapsMetadata rowyId) as [meta|]; [|discriminate].
  destruct (assertExtracted meta); cbn [bindE]; [discriminate|].
  destruct (rawInfo E rowyId m mi meta (getDerivedInfo E m meta)) as [|info] eqn:Hraw;
    cbn [bindE]; [discriminate|].
  destruct (checkEntries (springName m) (info_entries info));
    cbn [bindE]; [discriminate|].
  intros [= <-] [Hk [Hc Ht]].
  destruct (rawInfo_canonical _ _ _ _ _ _ Hraw) as [Hcan Hid].
  unfold wellBuilt. cbn [fst snd]. split; [|split].
  - rewrite <- Hid at 1. now apply keyedBy_set.
  - intros x Hx. apply In_values_set in Hx as [->|Hx]; [assumption | now apply Hc].
  - now apply addTags_keyed.
Qed.

Lemma buildWebflowInfo_wellBuilt (maps : MapList) (cdnInfo : JsMap.t MapCDNInfo)
  (mapsMetadata : JsMap.t MapMetadata)
  (res : JsMap.t WebsiteMapInfo * JsMap.t WebsiteMapTag) :
  buildWebflowInfo E maps cdnInfo mapsMetadata = inr res -> wellBuilt res.
Proof.
  unfold buildWebflowInfo.
  assert (H : forall acc, wellBuilt acc ->
            foldE (buildStep E cdnInfo mapsMetadata) maps acc = inr res ->
            wellBuilt res).
  { induction maps as [|e r IH]; intros acc Hacc; cbn [foldE].
    - now intros [= <-].
    - destruct (buildStep E cdnInfo mapsMetadata acc e) as [|acc1] eqn:Hs;
        cbn [bindE]; [discriminate|].
      apply IH. now apply (buildStep_wellBuilt _ _ _ _ _ Hs). }
  apply H. split; [apply keyedBy_empty|].
  split; [intros m [] | apply keyedBy_empty].
Qed.

Lemma withRefs_canonical (field : RefField) (i : WebsiteMapInfo) (l : list string) :
  canonicalImages i -> canonicalImages (withRefs field i l).
Proof. intros H. exact H. Qed.

Lemma resolve_keeps (mapInfos out : JsMap.t WebsiteMapInfo) (field : RefField)
  (refs : JsMap.t IWebflowItem) (dryRun : bool) :
  resolveItemRefsInMapInfos mapInfos field refs dryRun = inr out ->
  keyedBy mi_rowyId mapInfos ->
  (forall m, In m (JsMap.values mapInfos) -> canonicalImages m) ->
  keyedBy mi_rowyId out /\
  (forall m, In m (JsMap.values out) -> canonicalImages m).
Proof.
  intros Hres [Hnd Hk] Hc. unfold resolveItemRefsInMapInfos in Hres.
  apply mapE_Forall2 in Hres.
  assert (Hshape : Forall2 (fun e e' => fst e' = fst e /\
                      exists l, snd e' = withRefs field (snd e) l) mapInfos out).
  { eapply Forall2_impl; [|exact Hres]. intros e e' H. cbn beta in H.
    destruct (mapE (resolveRef field refs dryRun) (refsOf field (snd e)));
      cbn [bindE] in H; [discriminate|].
    injection H as <-. cbn [fst snd]. eauto. }
  clear Hres. split; [split|].
  - replace (JsMap.keys out) with (JsMap.keys mapInfos); [assumption|].
    clear -Hshape. induction Hshape as [|e e' r r' [H _] _ IH]; [reflexivity|].
    simpl. now rewrite IH, H.
  - intros e' He'. destruct (Forall2_In_r _ _ _ _ Hshape He') as [e [He [Hf [l Hs]]]].
    rewrite Hf, Hs. rewrite (Hk e He). now destruct field.
  - intros m Hm. apply in_map_iff in Hm as [e' [<- He']].
    destruct (Forall2_In_r _ _ _ _ Hshape He') as [e [He [Hf [l Hs]]]].
    rewrite Hs. apply withRefs_canonical. apply Hc. now apply in_map.
Qed.

Lemma mapE_agree {A B : Type} (f1 f2 : A -> Res B) (l : list A) (ys : list B) :
  (forall x y, f2 x = inr y -> f1 x = inr y) ->
  mapE f2 l = inr ys -> mapE f1 l = inr ys.
Proof.
  intros H Hm. apply Forall2_mapE. apply mapE_Forall2 in Hm.
  eapply Forall2_impl; [|exact Hm]. intros x y. apply H.
Qed.

(** References resolved against a map that agrees with another one on the
    identifiers it holds resolve the same against the other. *)
Lemma resolve_agree (mapInfos out : JsMap.t WebsiteMapInfo) (field : RefField)
  (refs1 refs2 : JsMap.t IWebflowItem) :
  (forall ref w2, JsMap.get refs2 ref = Some w2 ->
     exists w1, JsMap.get refs1 ref = Some w1 /\
                item_id (wf_item w1) = item_id (wf_item w2)) ->
  resolveItemRefsInMapInfos mapInfos field refs2 false = inr out ->
  resolveItemRefsInMapInfos mapInfos field refs1 false = inr out.
Proof.
  intros Hag. unfold resolveItemRefsInMapInfos. apply mapE_agree.
  intros e e'.
  destruct (mapE (resolveRef field refs2 false) (refsOf field (snd e)))
    as [|l] eqn:Hl; cbn [bindE]; [discriminate|].
  intros [= <-].
  assert (Hone : forall ref id, resolveRef field refs2 false ref = inr id ->
            resolveRef field refs1 false ref = inr id).
  { intros ref id. unfold resolveRef.
    destruct (JsMap.get refs2 ref) as [w2|] eqn:H2; [|discriminate].
    destruct (Hag ref w2 H2) as [w1 [-> Hid]]. now rewrite Hid. }
  now rewrite (mapE_agree (resolveRef field refs1 false) _ _ _ Hone Hl).
Qed.

(** *** The first complete run *)

Lemma getAllWebflowMaps_inr (s s' : Store) (l : list Call)
  (maps : JsMap.t WebflowMapInfo) :
  getAllWebflowMaps s = (s', l, inr maps) ->
  s' = s /\ l = [] /\
  exists ws, mapE newWebflowMapInfo (st_maps s) = inr ws /\ maps = indexMaps ws.
Proof.
  unfold getAllWebflowMaps. rewrite getAllWebflowItems_all.
  destruct (mapE newWebflowMapInfo (st_maps s)) as [|ws]; cbn [bindE];
    intros [= <- <- <-]; eauto.
Qed.

Lemma getAllWebflowMapTags_inr (s s' : Store) (l : list Call)
  (tags : JsMap.t IWebflowItem) :
  getAllWebflowMapTags s = (s', l, inr tags) ->
  s' = s /\ l = [] /\
  exists ws, mapE newNameSlugItem (st_tags s) = inr ws /\ tags = indexBySlug ws.
Proof.
  unfold getAllWebflowMapTags. rewrite getAllWebflowItems_all.
  cbn [vocabItems WebflowMapTag construct].
  destruct (mapE newNameSlugItem (st_tags s)) as [|ws]; cbn [bindE];
    intros [= <- <- <-]; eauto.
Qed.

Lemma getAllWebflowMapTerrains_inr (s s' : Store) (l : list Call)
  (terrains : JsMap.t IWebflowItem) :
  getAllWebflowMapTerrains s = (s', l, inr terrains) ->
  s' = s /\ l = [] /\
  exists ws, mapE newNameSlugItem (st_terrains s) = inr ws /\
             terrains = indexBySlug ws.
Proof.
  unfold getAllWebflowMapTerrains. rewrite getAllWebflowItems_all.
  cbn [vocabItems WebflowMapTerrain construct].
  destruct (mapE newNameSlugItem (st_terrains s)) as [|ws]; cbn [bindE];
    intros [= <- <- <-]; eauto.
Qed.

Lemma first_run_reconciles (src : Source) (s0 s1 : Store) (calls : list Call) :
  good s0 -> uniquelyKeyed s0 ->
  syncCommand E src false s0 = (s1, calls, inr tt) ->
  exists infos tags i1 i2 tagRefs terrainRefs maps mapTags mapTerrains,
    Reconciled E src s1 infos tags i1 i2 tagRefs terrainRefs maps
               mapTags mapTerrains.
Proof.
  intros Hgood (Um1 & Um2 & Ut1 & Ut2 & Ur1 & Ur2) Hrun.
  unfold syncCommand in Hrun.
  apply bind_inr in Hrun as (sa & la & M0 & lb & Hread & Hrun & ->).
  apply getAllWebflowMaps_inr in Hread as (-> & -> & wsm & Hwsm & ->).
  apply bind_inr in Hrun as (sa & la & Dt0 & lb' & Hread & Hrun & ->).
  apply getAllWebflowMapTags_inr in Hread as (-> & -> & wst & Hwst & ->).
  apply bind_inr in Hrun as (sa & la & Dr0 & lb'' & Hread & Hrun & ->).
  apply getAllWebflowMapTerrains_inr in Hread as (-> & -> & wsr & Hwsr & ->).
  apply bind_inr in Hrun as (sa & la & [infos tags] & lb3 & Hb & Hrun & ->).
  apply liftE_inr in Hb as (-> & -> & Hb). cbn [fst snd] in Hrun.
  pose proof (read_maps_linked _ _ Um1 Um2 Hwsm) as LM0.
  destruct (read_vocab_linked _ _ Ut1 Ut2 Hwst) as [LT0 _].
  destruct (read_vocab_linked _ _ Ur1 Ur2 Hwsr) as [LR0 _].
  destruct (buildWebflowInfo_wellBuilt _ _ _ _ Hb) as (Kinfos & Cinfos & Ktags).
  cbn [fst snd] in Kinfos, Cinfos, Ktags.
  (* tag additions *)
  apply bind_inr in Hrun as (s2 & l2 & Dt1 & lb4 & Hadd & Hrun & ->).
  unfold syncMapTagsToWebflowAdditions, syncCollectionToWebflowAdditions in Hadd.
  destruct (additions_establish Tags (JsMap.values tags)
              (keyedBy_values_NoDup _ _ Ktags) _ _ _ _ _ Hadd LT0 Hgood)
    as (LT1 & G2 & Fm2 & Fv2 & Dn_t & _).
  apply bind_inr in Hrun as (sa & la & i1 & lb5 & Hres1 & Hrun & ->).
  apply liftE_inr in Hres1 as (-> & -> & Hres1).
  destruct (resolve_keeps _ _ _ _ _ Hres1 Kinfos Cinfos) as [K1 Cres1].
  (* terrain additions *)
  apply bind_inr in Hrun as (s3 & l3 & Dr1 & lb6 & Hadd2 & Hrun & ->).
  unfold syncMapTerrainsToWebflowAdditions, syncCollectionToWebflowAdditions
    in Hadd2.
  assert (LR0' : linked vocabRel (indexBySlug wsr) (vocabItems Terrains s2)).
  { rewrite (Fv2 Terrains) by discriminate. exact LR0. }
  destruct (additions_establish Terrains (JsMap.values getRowyMapTerrains)
              (keyedBy_values_NoDup _ _ getRowyMapTerrains_keyed)
              _ _ _ _ _ Hadd2 LR0' G2)
    as (LR1 & G3 & Fm3 & Fv3 & Dn_r & _).
  apply bind_inr in Hrun as (sa & la & i2 & lb7 & Hres2 & Hrun & ->).
  apply liftE_inr in Hres2 as (-> & -> & Hres2).
  destruct (resolve_keeps _ _ _ _ _ Hres2 K1 Cres1) as [K2 Cres2].
  (* maps *)
  apply bind_inr in Hrun as (s4 & l4 & M1 & lb8 & Hmaps & Hrun & ->).
  assert (LM0' : linked mapRel (indexMaps wsm) (st_maps s3)).
  { rewrite Fm3, Fm2. exact LM0. }
  destruct (syncMaps_establish _ _ _ _ _ _ K2 Cres2 Hmaps LM0' G3)
    as (LM1 & G4 & Fv4 & SM).
  assert (Mir4 : mirrored M1 Dt1 Dr1 s4).
  { split; [exact LM1|]. split.
    - rewrite Fv4, (Fv3 Tags) by discriminate. exact LT1.
    - rewrite Fv4. exact LR1. }
  (* publication *)
  apply bind_inr in Hrun as (s5 & l5 & u5 & lb9 & Hp1 & Hrun & ->).
  destruct (publish_establishes _ _ _ _ _ _ _ _ _ Hp1 Mir4 G4) as [Mir5 G5].
  apply bind_inr in Hrun as (s6 & l6 & u6 & lb10 & Hp2 & Hrun & ->).
  destruct (publish_establishes _ _ _ _ _ _ _ _ _ Hp2 Mir5 G5) as [Mir6 G6].
  apply bind_inr in Hrun as (s7 & l7 & u7 & lb11 & Hp3 & Hrun & ->).
  destruct (publish_establishes _ _ _ _ _ _ _ _ _ Hp3 Mir6 G6)
    as [(LM7 & LT7 & LR7) G7].
  (* removals *)
  apply bind_inr in Hrun as (s8 & l8 & Dt2 & lb12 & Hrem1 & Hrun & ->).
  unfold syncMapTagsToWebflowRemovals in Hrem1.
  destruct (removals_settle Tags tags Dt1 Dt2 s7 s8 l8 Ktags Dn_t Hrem1 LT7 G7)
    as (LT8 & G8 & Fm8 & Fv8 & ST & Sub_t).
  apply bind_inr in Hrun as (s9 & l9 & Dr2 & lb13 & Hrem2 & Hrun & ->).
  unfold syncMapTerrainsToWebflowRemovals in Hrem2.
  assert (LR8 : linked vocabRel Dr1 (vocabItems Terrains s8)).
  { rewrite (Fv8 Terrains) by discriminate. exact LR7. }
  destruct (removals_settle Terrains getRowyMapTerrains Dr1 Dr2 s8 s9 l9
              getRowyMapTerrains_keyed Dn_r Hrem2 LR8 G8)
    as (LR9 & G9 & Fm9 & Fv9 & SR & Sub_r).
  apply ret_inr in Hrun as (-> & -> & _).
  exists infos, tags, i1, i2, Dt1, Dr1, M1, Dt2, Dr2.
  constructor; try assumption.
  - apply LT1.
  - apply LR1.
  - rewrite Fm9, Fm8. exact LM7.
  - change (st_tags s9) with (vocabItems Tags s9).
    rewrite (Fv9 Tags) by discriminate. exact LT8.
Qed.

(** *** The run that follows *)

Lemma vocabSettled_agree (src : JsMap.t IWebsiteItem)
  (d1 d2 : JsMap.t IWebflowItem) (items : list (CollectionItem NameSlugFields)) :
  linked vocabRel d1 items -> linked vocabRel d2 items ->
  vocabSettled src d1 -> vocabSettled src d2.
Proof.
  intros L1 L2 [P Q]. split.
  - intros i Hi. destruct (P i Hi) as [w [Hw Hs]].
    destruct (linked_vocab_agree _ _ _ _ _ L1 L2 Hw) as [w2 [Hw2 [Hn [Hsl _]]]].
    exists w2. split; [exact Hw2|].
    unfold asWebsiteItem in *. now rewrite Hn, Hsl.
  - intros e2 He2.
    destruct (linked_vocab_agree_entry _ _ _ _ L1 L2 He2) as [e1 [He1 Hsl]].
    rewrite <- Hsl. now apply Q.
Qed.

Lemma mapsSettled_agree (src : JsMap.t WebsiteMapInfo)
  (d1 d2 : JsMap.t WebflowMapInfo)
  (items : list (CollectionItem WebflowMapFieldsRead)) :
  linked mapRel d1 items -> linked mapRel d2 items ->
  mapsSettled E src d1 -> mapsSettled E src d2.
Proof.
  intros L1 L2 [P Q]. split.
  - intros m Hm. destruct (P m Hm) as [w [Hw Hs]].
    destruct (linked_maps_agree _ _ _ _ _ L1 L2 Hw) as [w2 [Hw2 Hi]].
    exists w2. split; [exact Hw2 | now rewrite Hi].
  - intros e2 He2.
    destruct (linked_maps_agree_entry _ _ _ _ L1 L2 He2) as [e1 [He1 Hi]].
    rewrite <- Hi. now apply Q.
Qed.

(** The identifiers a later reading resolves are those the run resolved. *)
Lemma refs_agree (refs kept later : JsMap.t IWebflowItem)
  (items : list (CollectionItem NameSlugFields)) :
  NoDup (JsMap.keys refs) -> (forall e, In e kept -> In e refs) ->
  linked vocabRel kept items -> linked vocabRel later items ->
  forall ref w2, JsMap.get later ref = Some w2 ->
    exists w1, JsMap.get refs ref = Some w1 /\
               item_id (wf_item w1) = item_id (wf_item w2).
Proof.
  intros Hnd Hsub Lk Ll ref w2 Hw2.
  destruct (linked_vocab_agree _ _ _ _ _ Ll Lk Hw2) as [w1 [Hw1 [_ [_ Hid]]]].
  exists w1. split; [|exact Hid].
  apply In_get; [exact Hnd|]. apply Hsub. now apply JsMapFacts.get_In.
Qed.

Lemma reconciled_run_quiet (src : Source) (s : Store)
  (infos : JsMap.t WebsiteMapInfo) (tags : JsMap.t WebsiteMapTag)
  (i1 i2 : JsMap.t WebsiteMapInfo) (tagRefs terrainRefs : JsMap.t IWebflowItem)
  (maps : JsMap.t WebflowMapInfo) (mapTags mapTerrains : JsMap.t IWebflowItem) :
  Reconciled E src s infos tags i1 i2 tagRefs terrainRefs maps mapTags mapTerrains ->
  Forall (fun c => isReconcileCall c = false)
         (run_calls (syncCommand E src false s)).
Proof.
  intros [Hb H1 H2 Nt Nr St Sr LM LT LR ST SR SM].
  destruct (linked_maps_readable _ _ LM) as [Um [wsm Hwsm]].
  destruct (linked_vocab_readable _ _ LT) as [Ut [wst Hwst]].
  destruct (linked_vocab_readable _ _ LR) as [Ur [wsr Hwsr]].
  pose proof (read_maps_linked _ _ (proj2 (proj2 LM)) Um Hwsm) as LM2.
  destruct (read_vocab_linked _ _ (proj2 (proj2 LT)) Ut Hwst) as [LT2 _].
  destruct (read_vocab_linked _ _ (proj2 (proj2 LR)) Ur Hwsr) as [LR2 _].
  apply settled_sync_no_reconcile
    with (webflowMaps := indexMaps wsm) (webflowMapTags := indexBySlug wst)
         (webflowMapTerrains := indexBySlug wsr) (infos := infos) (tags := tags).
  - unfold getAllWebflowMaps. now rewrite getAllWebflowItems_all, Hwsm.
  - unfold getAllWebflowMapTags. rewrite getAllWebflowItems_all.
    cbn [vocabItems WebflowMapTag construct]. now rewrite Hwst.
  - unfold getAllWebflowMapTerrains. rewrite getAllWebflowItems_all.
    cbn [vocabItems WebflowMapTerrain construct]. now rewrite Hwsr.
  - exact Hb.
  - exact (vocabSettled_agree _ _ _ _ LT LT2 ST).
  - exact (vocabSettled_agree _ _ _ _ LR LR2 SR).
  - intros j1 j2 Hj1 Hj2.
    apply (resolve_agree _ _ _ tagRefs) in Hj1;
      [|exact (refs_agree _ _ _ _ Nt St LT LT2)].
    rewrite H1 in Hj1. injection Hj1 as <-.
    apply (resolve_agree _ _ _ terrainRefs) in Hj2;
      [|exact (refs_agree _ _ _ _ Nr Sr LR LR2)].
    rewrite H2 in Hj2. injection Hj2 as <-.
    exact (mapsSettled_agree _ _ _ _ LM LM2 SM).
Qed.

(** X25: when the destination holds no two items with the same
    identifier, no two maps with the same row identifier and no two tags or
    terrains with the same slug, and it honours its contract (it stores
    what is written under a fresh identifier, and a map read back compares
    equal to the record written), then after a complete run of the
    synchronisation a second run on the same source makes no create, update
    or delete call. *)
Theorem sync_twice_no_reconcile (src : Source) (s0 s1 : Store)
  (calls : list Call) :
  good s0 -> uniquelyKeyed s0 ->
  syncCommand E src false s0 = (s1, calls, inr tt) ->
  Forall (fun c => isReconcileCall c = false)
         (run_calls (syncCommand E src false s1)).
Proof.
  intros Hgood Huniq Hrun.
  destruct (first_run_reconciles src s0 s1 calls Hgood Huniq Hrun)
    as (infos & tags & i1 & i2 & tagRefs & terrainRefs & maps & mapTags &
        mapTerrains & Hrec).
  exact (reconciled_run_quiet _ _ _ _ _ _ _ _ _ _ _ Hrec).
Qed.

End Establish.

(** ** The concrete destination honours the contract *)

Section DemoDestination.

Variable tags : list string.

Lemma substring_all (s : string) : substring 0 (String.length s) s = s.
Proof. induction s as [|c s IH]; simpl; [reflexivity | now rewrite IH]. Qed.

Lemma prefix_empty (u : string) : prefix "" u = true.
Proof. now destruct u. Qed.

Lemma stripPrefix_cdn (u : string) : stripPrefix "cdn:" ("cdn:" ++ u)%string = u.
Proof.
  unfold stripPrefix. simpl. rewrite Nat.sub_0_r, prefix_empty.
  apply substring_all.
Qed.

Lemma stripPrefix_file (u : string) :
  stripPrefix "file:" ("file:" ++ u)%string = u.
Proof.
  unfold stripPrefix. simpl. rewrite Nat.sub_0_r, prefix_empty.
  apply substring_all.
Qed.

Lemma canonical_head (u : string) :
  canonicalUrl u -> exists r, u = String "h" r.
Proof.
  unfold canonicalUrl, imagorUrlBase.
  destruct u as [|c r]; cbn [prefix]; [discriminate|].
  destruct (ascii_dec "h" c) as [<-|]; [eauto | discriminate].
Qed.

Lemma canonical_plain (u : string) :
  canonicalUrl u ->
  stripPrefix "cdn:" u = u /\ stripPrefix "file:" u = u /\ truthy u = true.
Proof.
  intros H. destruct (canonical_head u H) as [r ->]. now repeat split.
Qed.

Lemma demo_getImageHash (u : string) :
  getImageHash (demoEnv tags) (Some u)
  = if truthy u then demoDigest u else "".
Proof.
  unfold getImageHash, ImageHashesCache.getImageHash. cbn [demoEnv fetchDigest imageHashesCache].
  destruct (truthy u); reflexivity.
Qed.

Lemma digest_canonical (u : string) :
  canonicalUrl u -> getImageHash (demoEnv tags) (Some u) = ("sha256:" ++ u)%string.
Proof.
  intros H. destruct (canonical_plain u H) as (Hc & _ & Ht).
  rewrite demo_getImageHash, Ht. unfold demoDigest. now rewrite Hc.
Qed.

Lemma digest_cdn (v : string) :
  getImageHash (demoEnv tags) (Some ("cdn:" ++ v)%string) = ("sha256:" ++ v)%string.
Proof.
  rewrite demo_getImageHash. unfold demoDigest. now rewrite stripPrefix_cdn.
Qed.

Lemma sameImage_cdn (u : string) :
  canonicalUrl u ->
  sameImage (demoEnv tags) (Some u) (Some ("cdn:" ++ u)%string) = true.
Proof.
  intros H. unfold sameImage. rewrite digest_canonical, digest_cdn by assumption.
  apply String.eqb_refl.
Qed.

Lemma demoHost_plain (u : string) :
  canonicalUrl u -> img_url (demoHost u) = ("cdn:" ++ u)%string.
Proof.
  intros H. destruct (canonical_plain u H) as (_ & Hf & _).
  unfold demoHost. cbn [img_url]. now rewrite Hf.
Qed.

Lemma demoHost_file (u : string) :
  img_url (demoHost ("file:" ++ u)) = ("cdn:" ++ u)%string.
Proof. unfold demoHost. cbn [img_url]. now rewrite stripPrefix_file. Qed.

Lemma demoHost_hosted (x : string) : hosted (demoHost x).
Proof. exists (stripPrefix "file:" x). now split. Qed.

(** The asset a written image ends up as is hosted at [cdn:u], whether the
    URL or the handle of the previous asset was written. *)
Lemma pickImage_hosted (u : string) (b : undef_or WebflowImageRef) :
  canonicalUrl u -> whenDefined hosted b ->
  img_url (demoHost (pickImage (demoEnv tags) u b)) = ("cdn:" ++ u)%string.
Proof.
  intros Hu Hb. destruct b as [|a]; cbn [pickImage]; [now apply demoHost_plain|].
  destruct Hb as [v [Hf Hv]]. unfold sameImage.
  rewrite Hv, digest_canonical, digest_cdn by assumption.
  destruct (String.eqb_spec ("sha256:" ++ u) ("sha256:" ++ v)) as [Heq|_];
    [|now apply demoHost_plain].
  injection Heq as <-. rewrite Hf. apply demoHost_file.
Qed.

Lemma pickOptImage_hosted (u : option string) (b : undef_or WebflowImageRef) :
  (forall x, u = Some x -> canonicalUrl x) -> whenDefined hosted b ->
  sameImage (demoEnv tags) u
    (optR (opt_chain
             (match pickOptImage (demoEnv tags) u b with
              | Some i => Defined (demoHost i)
              | None => Undefined
              end) img_url)) = true.
Proof.
  intros Hu Hb. destruct u as [x|]; cbn [pickOptImage]; [|reflexivity].
  pose proof (Hu x eq_refl) as Hx.
  destruct (canonical_plain x Hx) as (_ & _ & ->).
  cbn [opt_chain optR]. rewrite pickImage_hosted by assumption.
  now apply sameImage_cdn.
Qed.

Lemma every_same_refl (l : list string) : every_same l l = true.
Proof.
  induction l as [|x l IH]; [reflexivity|].
  cbn [every_same]. now rewrite String.eqb_refl, IH.
Qed.

Lemma isSameRefs_refl (l : list string) : isSameRefs l l = true.
Proof. unfold isSameRefs. now rewrite Nat.eqb_refl, every_same_refl. Qed.

Lemma sameImages_cdn (urls : list string) :
  Forall canonicalUrl urls ->
  sameImages (demoEnv tags) urls (map (fun u => "cdn:" ++ u)%string urls) = true.
Proof.
  intros H. unfold sameImages. rewrite length_map, Nat.eqb_refl. cbn [negb].
  rewrite map_map.
  replace (map (fun u => getImageHash (demoEnv tags) (Some ("cdn:" ++ u)%string)) urls)
    with (map (fun u => getImageHash (demoEnv tags) (Some u)) urls).
  - apply every_same_refl.
  - apply map_ext_in. intros u Hu. rewrite digest_cdn.
    apply digest_canonical. rewrite Forall_forall in H. now apply H.
Qed.

Lemma pickImages_hosted (urls : list string)
  (base : undef_or (list WebflowImageRef)) :
  Forall canonicalUrl urls -> whenDefined (Forall hosted) base ->
  map img_url (map demoHost (pickImages (demoEnv tags) urls base))
  = map (fun u => "cdn:" ++ u)%string urls.
Proof.
  intros Hu Hb. unfold pickImages. rewrite !map_map.
  apply map_ext_in. intros u Hin. cbn [fst snd].
  rewrite Forall_forall in Hu. pose proof (Hu u Hin) as Hc.
  rewrite of_entries_get.
  destruct (find _ _) as [e|] eqn:Hf; cbn [option_map];
    [|now apply demoHost_plain].
  apply find_some in Hf as [He Hk]. apply in_rev in He.
  apply in_map_iff in He as [a [<- Ha]]. cbn [fst snd] in *.
  assert (Hh : hosted a).
  { destruct base as [|l]; [destruct Ha|].
    cbn [reqR] in Ha. cbn [whenDefined] in Hb.
    rewrite Forall_forall in Hb. now apply Hb. }
  destruct Hh as [v [Hfile Hurl]].
  rewrite Hurl, digest_cdn, digest_canonical in Hk by assumption.
  apply String.eqb_eq in Hk. injection Hk as ->.
  rewrite Hfile. cbn [truthy String.eqb append]. cbn.
  apply demoHost_file.
Qed.

Lemma option_eqb_refl {A : Type} (eqb : A -> A -> bool) (x : option A) :
  (forall a, eqb a a = true) -> option_eqb eqb x x = true.
Proof. intros H. destruct x; [apply H | reflexivity]. Qed.

Lemma pickImage_same (u : string) (b : undef_or WebflowImageRef) :
  canonicalUrl u -> whenDefined hosted b ->
  sameImage (demoEnv tags) (Some u)
    (Some (img_url (demoHost (pickImage (demoEnv tags) u b)))) = true.
Proof.
  intros Hu Hb. rewrite pickImage_hosted by assumption. now apply sameImage_cdn.
Qed.

Lemma pickImages_same (urls : list string)
  (base : undef_or (list WebflowImageRef)) :
  Forall canonicalUrl urls -> whenDefined (Forall hosted) base ->
  sameImages (demoEnv tags) urls
    (map img_url (map demoHost (pickImages (demoEnv tags) urls base))) = true.
Proof.
  intros Hu Hb. rewrite pickImages_hosted by assumption. now apply sameImages_cdn.
Qed.

(** A record written to the concrete destination, over an item of the
    destination or none, reads back equal. *)
Lemma demo_round_trip (info : WebsiteMapInfo) (base : undef_or WebflowMapInfo) :
  canonicalImages info ->
  whenDefined (fun w => hostedFields (wm_fieldData w)) base ->
  isWebflowMapInfoEqual (demoEnv tags) info
    (readMapFields (demoStored (generateMapFields (demoEnv tags) info base)))
  = true.
Proof.
  intros (U1 & U2 & U3 & U4 & U5 & U6 & U7 & U8) Hb.
  assert (B : whenDefined hosted (baseField base r_minimap) /\
              whenDefined hosted (baseField base r_minimap_photo_thumb) /\
              whenDefined hosted (baseField base r_bg_image) /\
              whenDefined hosted (baseField base r_perspective_shot) /\
              whenDefined (Forall hosted) (baseField base r_more_images) /\
              whenDefined hosted (baseField base r_mini_map) /\
              whenDefined hosted (baseField base r_height_map) /\
              whenDefined hosted (baseField base r_metal_map)).
  { destruct base as [|w]; [cbn; tauto | exact Hb]. }
  destruct B as (B1 & B2 & B3 & B4 & B5 & B6 & B7 & B8).
  unfold isWebflowMapInfoEqual.
  repeat (apply andb_true_intro; split);
    try exact eq_refl; try apply String.eqb_refl; try apply Z.eqb_refl;
    try apply Nat.eqb_refl; try apply every_same_refl.
  - exact (pickImage_same _ _ U1 B1).
  - exact (pickImage_same _ _ U2 B2).
  - exact (pickOptImage_hosted _ _ U3 B3).
  - exact (pickOptImage_hosted _ _ U4 B4).
  - exact (pickImages_same _ _ U5 B5).
  - exact (pickImage_same _ _ U6 B6).
  - exact (pickImage_same _ _ U7 B7).
  - exact (pickImage_same _ _ U8 B8).
  - cbn. destruct (mi_title info); [apply String.eqb_refl | reflexivity].
  - cbn. destruct (mi_description info); [apply String.eqb_refl | reflexivity].
  - cbn. destruct (mi_tidalStrength info); [apply Z.eqb_refl | reflexivity].
Qed.

Lemma demoStored_hosted (f : WebflowMapFieldsWrite) : hostedFields (demoStored f).
Proof.
  unfold hostedFields, demoStored; cbn.
  repeat split; try apply demoHost_hosted.
  - destruct (w_bg_image f); [apply demoHost_hosted | exact I].
  - destruct (w_perspective_shot f); [apply demoHost_hosted | exact I].
  - apply Forall_forall. intros a Ha. apply in_map_iff in Ha as [x [<- _]].
    apply demoHost_hosted.
Qed.

Lemma length_padding (n : nat) : String.length (padding n) = n.
Proof. induction n as [|n IH]; simpl; [reflexivity | now rewrite IH]. Qed.

Lemma mintId_fresh (ids : list string) : ~ In (mintId ids) ids.
Proof.
  intros Hin.
  assert (Hle : String.length (mintId ids) <= list_max (map String.length ids)).
  { assert (H : Forall (fun k => k <= list_max (map String.length ids))
                       (map String.length ids))
      by (apply list_max_le; lia).
    rewrite Forall_forall in H. apply H. now apply in_map. }
  unfold mintId in Hle. cbn [String.length] in Hle.
  rewrite length_padding in Hle. lia.
Qed.


Lemma demoGood_vocab (v : Vocabulary) (l : list (CollectionItem NameSlugFields))
  (s : Store) :
  demoGood s -> demoGood (setVocabItems v l s).
Proof. intros H it o. rewrite st_maps_setVocab. apply H. Qed.

Lemma demoGood_maps (l : list (CollectionItem WebflowMapFieldsRead)) (s : Store) :
  (forall it, In it l ->
     (exists x, In x (st_maps s) /\ item_fieldData x = item_fieldData it) \/
     (exists f, item_fieldData it = Defined (demoStored f))) ->
  demoGood s -> demoGood (setMapItems l s).
Proof.
  intros Hl H it o Hin Ho. cbn [setMapItems st_maps] in Hin.
  destruct (Hl it Hin) as [[x [Hx Hf]]|[f Hf]].
  - apply (H x o Hx). now rewrite Hf.
  - rewrite Hf in Ho. injection Ho as <-. apply demoStored_hosted.
Qed.

Lemma demo_contract : DestinationContract (demoEnv tags) demoGood.
Proof.
  constructor.
  - intros s v f Hg. split; [reflexivity|]. split.
    + apply mintId_fresh.
    + now apply demoGood_vocab.
  - intros s v id f Hg. split; [reflexivity|]. split; [reflexivity|].
    now apply demoGood_vocab.
  - intros s [|v] id Hg; cbn [deleteFrom]; [|now apply demoGood_vocab].
    apply demoGood_maps; [|exact Hg].
    intros it Hin. left. exists it. split; [|reflexivity].
    unfold removeItem in Hin. now apply filter_In in Hin.
  - intros s [|v] ids Hg; cbn [publishIn]; [|now apply demoGood_vocab].
    apply demoGood_maps; [|exact Hg].
    intros it Hin. left. unfold stamped in Hin.
    apply in_map_iff in Hin as [x [<- Hx]]. exists x. split; [exact Hx|].
    now destruct (includes ids (item_id x)).
  - intros s info Hg Hc it. subst it. split; [apply mintId_fresh|]. split.
    + eexists. split; [reflexivity|].
      exact (demo_round_trip info Undefined Hc I).
    + apply demoGood_maps; [|exact Hg].
      intros it Hin. apply in_app_or in Hin as [Hin|[<-|[]]].
      * left. now exists it.
      * right. eexists. reflexivity.
  - intros s info w Hg Hc (x & Hx & Hid & Hf) it. subst it.
    split; [reflexivity|]. split.
    + eexists. split; [reflexivity|].
      exact (demo_round_trip info (Defined w) Hc (Hg x _ Hx Hf)).
    + apply demoGood_maps; [|exact Hg].
      intros it Hin. unfold replaceItem in Hin.
      apply in_map_iff in Hin as [y [<- Hy]].
      destruct (item_id y =? item_id (wm_item w)).
      * right. eexists. reflexivity.
      * left. now exists y.
Qed.

End DemoDestination.



(** A first sync against the out-of-date destination completes, and the
    sync that follows makes no create, update or delete call. *)
Lemma sync_twice_no_reconcile_witness :
  run_result (syncCommand (demoEnv ["ffa"]) demoSource false staleStore) = inr tt /\
  Forall (fun c => isReconcileCall c = false)
    (run_calls
       (syncCommand (demoEnv ["ffa"]) demoSource false
          (run_store (syncCommand (demoEnv ["ffa"]) demoSource false staleStore)))).
Proof.
  split; [vm_compute; reflexivity|].
  apply (sync_twice_no_reconcile (demoEnv ["ffa"]) demoGood
           (demo_contract ["ffa"]) demoSource staleStore
           (run_store (syncCommand (demoEnv ["ffa"]) demoSource false staleStore))
           (run_calls (syncCommand (demoEnv ["ffa"]) demoSource false staleStore))).
  - intros it o [<-|[<-|[]]] [= <-]; unfold hostedFields; cbn; tauto.
  - unfold uniquelyKeyed, staleStore. cbn.
    repeat match goal with
           | |- _ /\ _ => split
           | |- NoDup _ => constructor
           | |- ~ In _ _ => simpl; intuition discriminate
           end.
  - vm_compute. reflexivity.
Defined.

(** C1: the destination holds three maps with the row identifiers [row1],
    [row1-bad0] and [row1].  [getAllWebflowMaps] renames the third one to
    [row1-bad0] and sets it over the second one, so of the three maps listed
    it returns two.  The first sync, which completes, never sees the second
    map and deletes the third one; the second sync, with nothing changed in
    between, deletes the second one. *)
Lemma second_sync_deletes_shadowed_map :
  map item_id (st_maps shadowedStore) = ["map-a"; "map-b"; "map-c"] /\
  match run_result (getAllWebflowMaps shadowedStore) with
  | inr maps => map (fun e => (fst e, item_id (wm_item (snd e)))) maps
  | inl _ => []
  end = [("row1", "map-a"); ("row1-bad0", "map-c")] /\
  run_result (syncCommand (demoEnv ["ffa"]) demoSource false shadowedStore)
  = inr tt /\
  filter isDelete
    (run_calls (syncCommand (demoEnv ["ffa"]) demoSource false shadowedStore))
  = [DeleteItem MapsColl "map-c"] /\
  run_calls
    (syncCommand (demoEnv ["ffa"]) demoSource false
       (run_store (syncCommand (demoEnv ["ffa"]) demoSource false shadowedStore)))
  = [DeleteItem MapsColl "map-b"].
Proof. repeat split; vm_compute; reflexivity. Qed.

(* ===================================================================== *)
(** * Part III: further properties of the script *)

(** ** Slugs and reference lists *)

(** X1: a string made of the characters [a-z], [0-9] and [-] is its own
    slug, so the slug of a slug is that slug. *)
Theorem slug_of_slug (E : Env) (name : string) :
  (string_forallb slug_class name = true -> slugFromName E name = name) /\
  slugFromName E (slugFromName E name) = slugFromName E name.
Proof.
  split.
  - intros H. exact (proj2 (slug_chars_fixed E name H)).
  - exact (proj2 (slug_chars_fixed E _ (slugFromName_class E name))).
Qed.

Lemma every_same_eq (a b : list string) :
  length a = length b -> every_same a b = true -> a = b.
Proof.
  revert b. induction a as [|x a IH]; intros [|y b] Hl H; try discriminate.
  - reflexivity.
  - cbn [every_same] in H. apply andb_prop in H as [Hx Hr].
    apply String.eqb_eq in Hx. subst y. f_equal. apply IH; [|exact Hr].
    simpl in Hl. congruence.
Qed.

(** X2: two lists of references are the same exactly when they are equal
    element by element, in the same order: reordering the tags of a map
    makes the lists differ. *)
Theorem isSameRefs_iff_eq (a b : list string) :
  isSameRefs a b = true <-> a = b.
Proof.
  unfold isSameRefs. split.
  - intros H. apply andb_prop in H as [Hl He].
    apply Nat.eqb_eq in Hl. now apply every_same_eq.
  - intros ->. now rewrite Nat.eqb_refl, every_same_refl.
Qed.

(** ** Comparing image lists *)

Lemma string_leb_trans (a b c : string) :
  (a <=? b)%string = true -> (b <=? c)%string = true -> (a <=? c)%string = true.
Proof.
  unfold String.leb. revert b c.
  induction a as [|x a IH]; intros [|y b] [|z c]; cbn [String.compare];
    try congruence.
  unfold Ascii.compare.
  destruct (N.compare_spec (N_of_ascii x) (N_of_ascii y)) as [Hxy|Hxy|Hxy],
           (N.compare_spec (N_of_ascii y) (N_of_ascii z)) as [Hyz|Hyz|Hyz],
           (N.compare_spec (N_of_ascii x) (N_of_ascii z)) as [Hxz|Hxz|Hxz];
    try congruence; try (exfalso; lia).
  apply IH.
Qed.

Lemma sort_insert_perm (x : string) (l : list string) :
  Permutation (sort_insert x l) (x :: l).
Proof.
  induction l as [|y r IH]; cbn [sort_insert]; [reflexivity|].
  destruct (x <=? y)%string; [reflexivity|].
  rewrite IH. apply perm_swap.
Qed.

Lemma js_sort_perm (l : list string) : Permutation (js_sort l) l.
Proof.
  induction l as [|x r IH]; [reflexivity|].
  cbn [js_sort fold_right]. rewrite sort_insert_perm. now constructor.
Qed.

Lemma sort_insert_sorted (x : string) (l : list string) :
  sortedStrings l -> sortedStrings (sort_insert x l).
Proof.
  induction 1 as [|y l Hy Hl IH]; cbn [sort_insert].
  - constructor; constructor.
  - destruct (x <=? y)%string eqn:Hxy.
    + constructor; [|now constructor]. constructor; [exact Hxy|].
      eapply Forall_impl; [|exact Hy]. intros z Hz.
      exact (string_leb_trans _ _ _ Hxy Hz).
    + constructor; [|exact IH].
      assert (Hyx : (y <=? x)%string = true).
      { destruct (String.leb_total x y) as [H|H]; [congruence | exact H]. }
      eapply Permutation_Forall.
      * symmetry. apply sort_insert_perm.
      * now constructor.
Qed.

Lemma js_sort_sorted (l : list string) : sortedStrings (js_sort l).
Proof.
  induction l as [|x r IH]; [constructor|].
  cbn [js_sort fold_right]. now apply sort_insert_sorted.
Qed.

Lemma sorted_perm_eq (a b : list string) :
  sortedStrings a -> sortedStrings b -> Permutation a b -> a = b.
Proof.
  intros Ha. revert b. induction Ha as [|x a Hx Ha IH]; intros b Hb Hp.
  - apply Permutation_nil in Hp. now subst.
  - destruct Hb as [|y b Hy Hb].
    + symmetry in Hp. apply Permutation_nil in Hp. discriminate.
    + assert (Hxy : x = y).
      { assert (Hin1 : In x (y :: b))
          by (apply (Permutation_in _ Hp); now left).
        assert (Hin2 : In y (x :: a))
          by (apply (Permutation_in _ (Permutation_sym Hp)); now left).
        rewrite Forall_forall in Hx, Hy.
        destruct Hin1 as [->|Hin1]; [reflexivity|].
        destruct Hin2 as [->|Hin2]; [reflexivity|].
        apply String.leb_antisym; [now apply Hx | now apply Hy]. }
      subst y. f_equal. apply IH; [exact Hb|].
      now apply Permutation_cons_inv in Hp.
Qed.

Section ImageLists.

Variable E : Env.

Lemma sameImages_sorted (urls1 urls2 : list string) :
  sameImages E urls1 urls2 = true ->
  js_sort (map (fun u => getImageHash E (Some u)) urls1)
  = js_sort (map (fun u => getImageHash E (Some u)) urls2).
Proof.
  unfold sameImages.
  destruct (Nat.eqb_spec (length urls1) (length urls2)) as [Hl|];
    cbn [negb]; [|discriminate].
  intros He. apply every_same_eq; [|exact He].
  rewrite !(Permutation_length (js_sort_perm _)).
  now rewrite !length_map.
Qed.

Lemma sameImages_of_sorted (urls1 urls2 : list string) :
  length urls1 = length urls2 ->
  js_sort (map (fun u => getImageHash E (Some u)) urls1)
  = js_sort (map (fun u => getImageHash E (Some u)) urls2) ->
  sameImages E urls1 urls2 = true.
Proof.
  intros Hl Hs. unfold sameImages.
  rewrite Hl, Nat.eqb_refl. cbn [negb]. rewrite Hs. apply every_same_refl.
Qed.

Lemma sameImages_perm (urls1 urls2 : list string) :
  sameImages E urls1 urls2 = true <->
  Permutation (map (fun u => getImageHash E (Some u)) urls1)
              (map (fun u => getImageHash E (Some u)) urls2).
Proof.
  split.
  - intros H. apply sameImages_sorted in H.
    rewrite <- (js_sort_perm (map _ urls1)), H. apply js_sort_perm.
  - intros Hp. apply sameImages_of_sorted.
    + apply Permutation_length in Hp. now rewrite !length_map in Hp.
    + apply sorted_perm_eq; try apply js_sort_sorted.
      now rewrite !js_sort_perm.
Qed.

(** X3: two lists of image URLs are the same images exactly when their
    digests are the same up to order (with the same multiplicities): the
    order of the images does not matter. *)
Theorem sameImages_iff_permutation (urls1 urls2 : list string) :
  sameImages E urls1 urls2 = true <->
  Permutation (map (fun u => getImageHash E (Some u)) urls1)
              (map (fun u => getImageHash E (Some u)) urls2).
Proof.
  split.
  - intros H.
    pose proof (sameImages_sorted urls1 urls2 H) as Hs.
    transitivity (js_sort (map (fun u => getImageHash E (Some u)) urls1)).
    + symmetry. apply js_sort_perm.
    + rewrite Hs. apply js_sort_perm.
  - intros Hp. apply sameImages_of_sorted.
    + apply Permutation_length in Hp. now rewrite !length_map in Hp.
    + apply sorted_perm_eq.
      * apply js_sort_sorted.
      * apply js_sort_sorted.
      * transitivity (map (fun u => getImageHash E (Some u)) urls1);
          [apply js_sort_perm|].
        transitivity (map (fun u => getImageHash E (Some u)) urls2);
          [exact Hp | symmetry; apply js_sort_perm].
Qed.

Lemma option_eqb_eq {A : Type} (eqb : A -> A -> bool) (x y : option A) :
  (forall a b, eqb a b = true <-> a = b) ->
  option_eqb eqb x y = true <-> x = y.
Proof.
  intros H. destruct x as [a|], y as [b|]; cbn [option_eqb].
  - rewrite H. split; congruence.
  - split; discriminate.
  - split; discriminate.
  - split; reflexivity.
Qed.

Lemma isSameRefs_eq (a b : list string) : isSameRefs a b = true <-> a = b.
Proof.
  unfold isSameRefs. split.
  - intros H. apply andb_prop in H as [Hl He].
    apply Nat.eqb_eq in Hl. now apply every_same_eq.
  - intros ->. now rewrite Nat.eqb_refl, every_same_refl.
Qed.

Lemma isWebflowMapInfoEqual_sameRecord (a b : WebsiteMapInfo) :
  isWebflowMapInfoEqual E a b = true <-> sameRecord E a b.
Proof.
  unfold isWebflowMapInfoEqual, sameRecord. cbn [forallb].
  rewrite !andb_true_iff, !sameImage_true, sameImages_perm, !String.eqb_eq,
          !Z.eqb_eq, !isSameRefs_eq,
          !(option_eqb_eq String.eqb _ _ String.eqb_eq),
          (option_eqb_eq Z.eqb _ _ Z.eqb_eq).
  tauto.
Qed.

(** X4: a canonical record and the record read from a destination item
    compare equal exactly when their scalar fields are equal, their tag and
    terrain references are equal in order, their images have equal digests
    and their more-images have the same digests up to order; the comparison
    is reflexive, symmetric and transitive. *)
Theorem isWebflowMapInfoEqual_equivalence (a b c : WebsiteMapInfo) :
  (isWebflowMapInfoEqual E a b = true <-> sameRecord E a b) /\
  isWebflowMapInfoEqual E a a = true /\
  isWebflowMapInfoEqual E a b = isWebflowMapInfoEqual E b a /\
  (isWebflowMapInfoEqual E a b = true -> isWebflowMapInfoEqual E b c = true ->
   isWebflowMapInfoEqual E a c = true).
Proof.
  assert (Hrefl : forall x, sameRecord E x x).
  { intros x. unfold sameRecord. repeat split; reflexivity. }
  assert (Hsym : forall x y, sameRecord E x y -> sameRecord E y x).
  { intros x y H. unfold sameRecord in *.
    repeat match goal with H : _ /\ _ |- _ => destruct H end.
    repeat split; (symmetry; assumption). }
  split; [apply isWebflowMapInfoEqual_sameRecord|].
  split; [apply isWebflowMapInfoEqual_sameRecord, Hrefl|].
  split.
  - destruct (isWebflowMapInfoEqual E a b) eqn:Hab,
             (isWebflowMapInfoEqual E b a) eqn:Hba; try reflexivity.
    + apply isWebflowMapInfoEqual_sameRecord, Hsym,
        isWebflowMapInfoEqual_sameRecord in Hab. congruence.
    + apply isWebflowMapInfoEqual_sameRecord, Hsym,
        isWebflowMapInfoEqual_sameRecord in Hba. congruence.
  - intros Hab Hbc.
    apply isWebflowMapInfoEqual_sameRecord in Hab, Hbc.
    apply isWebflowMapInfoEqual_sameRecord.
    unfold sameRecord in *.
    repeat match goal with H : _ /\ _ |- _ => destruct H end.
    repeat split; (etransitivity; eassumption).
Qed.

End ImageLists.

(** ** The image hash cache *)

Lemma of_entries_keys_NoDup {V : Type} (es : list (string * V)) :
  NoDup (JsMap.keys (JsMap.of_entries es)).
Proof.
  unfold JsMap.of_entries.
  assert (H : forall m : JsMap.t V, NoDup (JsMap.keys m) ->
            NoDup (JsMap.keys
                     (fold_left (fun m e => JsMap.set m (fst e) (snd e)) es m))).
  { induction es as [|e r IH]; intros m Hm; [exact Hm|].
    apply IH. now apply JsMapFacts.NoDup_keys_set. }
  apply H. constructor.
Qed.

Lemma loadCache_keys_NoDup (file : option CacheFile) :
  NoDup (JsMap.keys (loadCache file)).
Proof.
  unfold loadCache. destruct file as [c|]; [|constructor].
  destruct (cf_version c =? imageHashesCacheVersion)%Z;
    [apply of_entries_keys_NoDup | constructor].
Qed.

Lemma getImageHash_keeps (fetch : string -> string) (c : ImageHashesCache.t)
  (url : option string) (k d : string) :
  JsMap.get c k = Some d ->
  JsMap.get (snd (ImageHashesCache.getImageHash fetch c url)) k = Some d.
Proof.
  intros Hk. unfold ImageHashesCache.getImageHash.
  destruct url as [u|]; [|exact Hk].
  destruct (truthy u); [|exact Hk].
  destruct (JsMap.get c u) eqn:Hu; [exact Hk|].
  cbn [snd]. rewrite JsMapFacts.get_set_other; [exact Hk|].
  intros ->. congruence.
Qed.

(** A call made on its own is the test followed by the end of its
    download. *)
Lemma getImageHashCounted_steps (fetch : string -> string)
  (writeFails : CacheState -> bool) (st : CacheState) (url : option string) :
  getImageHashCounted fetch writeFails st url =
  match startHash st url with
  | Answered d => (d, st)
  | Downloading u => (fetch u, snd (finishHash writeFails st u (Some (fetch u))))
  end.
Proof.
  unfold getImageHashCounted, startHash, finishHash.
  destruct url as [u|]; [|reflexivity].
  destruct (truthy u); [|reflexivity].
  destruct (JsMap.get (cs_cache st) u); [reflexivity|].
  cbv zeta. destruct (30 <? _)%nat; reflexivity.
Qed.

Lemma finishHash_holds (writeFails : CacheState -> bool) (st : CacheState)
  (u d : string) :
  JsMap.get (cs_cache (snd (finishHash writeFails st u (Some d)))) u = Some d.
Proof.
  unfold finishHash. cbv zeta. cbn [cs_newHashes].
  destruct (30 <? S (cs_newHashes st))%nat; cbn [snd cs_cache].
  - unfold saveImageHashesCacheSync.
    destruct (writeFails _); cbn [cs_cache]; apply JsMapFacts.get_set_same.
  - apply JsMapFacts.get_set_same.
Qed.

(** X5: a call of [getImageHash] that finds its URL in the map when it
    starts answers the digest held and downloads nothing.  A call for a URL
    that is not there downloads it, and counts a new hash when its download
    ends, whatever was set in between: two calls for the same new URL
    started together both download it and count two new hashes, where made
    one after the other the second is answered from the map, without a
    download. *)
Theorem getImageHash_overlap (fetch fetch' : string -> string)
  (writeFails : CacheState -> bool) (st : CacheState) (u : string) :
  truthy u = true ->
  (forall d, JsMap.get (cs_cache st) u = Some d ->
     startHash st (Some u) = Answered d /\
     hashTogether fetch writeFails st [Some u; Some u] = ([d; d], st, 0)) /\
  (JsMap.get (cs_cache st) u = None ->
     (exists st',
        hashTogether fetch writeFails st [Some u; Some u]
        = ([fetch u; fetch u], st', 2) /\
        JsMap.get (cs_cache st') u = Some (fetch u) /\
        (cs_newHashes st + 2 <= 30 ->
         cs_newHashes st' = cs_newHashes st + 2)) /\
     (let r := getImageHashCounted fetch writeFails st (Some u) in
      fst r = fetch u /\
      getImageHashCounted fetch' writeFails (snd r) (Some u) = (fetch u, snd r) /\
      (cs_newHashes st + 1 <= 30 ->
       cs_newHashes (snd r) = cs_newHashes st + 1))).
Proof.
  intros Ht. split.
  - intros d Hd. unfold hashTogether, startHash. cbn [map].
    rewrite Ht, Hd. split; reflexivity.
  - intros Hnone.
    assert (Hstart : startHash st (Some u) = Downloading u)
      by (unfold startHash; now rewrite Ht, Hnone).
    split.
    + unfold hashTogether. cbn [map]. rewrite Hstart.
      cbn [fold_left fst snd app]. eexists. split; [reflexivity|].
      split; [apply finishHash_holds|].
      intros Hn. unfold finishHash. cbv zeta. cbn [cs_newHashes].
      destruct (Nat.ltb_spec 30 (S (cs_newHashes st))) as [Hlt|_]; [lia|].
      cbn [snd cs_newHashes].
      destruct (Nat.ltb_spec 30 (S (S (cs_newHashes st)))) as [Hlt|_]; [lia|].
      cbn [snd cs_newHashes]. lia.
    + cbv zeta. rewrite (getImageHashCounted_steps fetch), Hstart.
      cbn [fst snd]. split; [reflexivity|]. split.
      * rewrite getImageHashCounted_steps.
        assert (Hagain : startHash
                           (snd (finishHash writeFails st u (Some (fetch u))))
                           (Some u) = Answered (fetch u))
          by (unfold startHash; now rewrite Ht, finishHash_holds).
        now rewrite Hagain.
      * intros Hn. unfold finishHash. cbv zeta. cbn [cs_newHashes].
        destruct (Nat.ltb_spec 30 (S (cs_newHashes st))) as [Hlt|_]; [lia|].
        cbn [snd cs_newHashes]. lia.
Qed.

(** X6: the file written by [saveImageHashesCacheSync] gives back, when a
    new cache is constructed from it, the map that was saved; a file of
    another version, or no readable file, gives the empty map. *)
Theorem cache_file_round_trip (st : CacheState) (file : CacheFile) :
  (NoDup (JsMap.keys (cs_cache st)) ->
   cs_cache (newImageHashesCache (cs_file (saveImageHashesCacheSync false st)))
   = cs_cache st) /\
  (cf_version file <> imageHashesCacheVersion ->
   cs_cache (newImageHashesCache (Some file)) = JsMap.empty) /\
  cs_cache (newImageHashesCache None) = JsMap.empty /\
  saveImageHashesCacheSync true st = st.
Proof.
  split; [|split; [|split; reflexivity]].
  - intros Hnd. cbn. now apply of_entries_NoDup.
  - intros Hv. cbn. apply Z.eqb_neq in Hv. now rewrite Hv.
Qed.

Lemma filter_all_held (c : JsMap.t string) (l : list string) :
  (forall k, In k l -> In k (JsMap.keys c)) ->
  filter (fun k => negb (JsMap.has c k)) l = [].
Proof.
  induction l as [|x l IH]; intros Hl; [reflexivity|].
  cbn [filter].
  rewrite (proj2 (JsMapFacts.has_keys c x)) by (apply Hl; now left).
  cbn [negb]. apply IH. intros k Hk. apply Hl. now right.
Qed.

Lemma unsaved_nil_saved (c : JsMap.t string) (n : nat) :
  NoDup (JsMap.keys c) ->
  unsaved {| cs_cache := c; cs_newHashes := n;
             cs_file := Some {| cf_version := imageHashesCacheVersion;
                                cf_entries := c |} |} = [].
Proof.
  intros Hnd. unfold unsaved.
  cbn [cs_file cs_cache loadCache cf_version cf_entries].
  rewrite Z.eqb_refl, (of_entries_NoDup c Hnd).
  apply filter_all_held. auto.
Qed.

Lemma flushInvariant_new (file : option CacheFile) :
  flushInvariant (newImageHashesCache file).
Proof.
  unfold flushInvariant, newImageHashesCache, unsaved. cbn [cs_cache cs_newHashes cs_file].
  split; [apply loadCache_keys_NoDup|].
  rewrite filter_all_held by auto. simpl. lia.
Qed.

Lemma flushInvariant_step (fetch : string -> string)
  (writeFails : CacheState -> bool) (st : CacheState) (url : option string) :
  (forall st', writeFails st' = false) ->
  flushInvariant st ->
  flushInvariant (snd (getImageHashCounted fetch writeFails st url)).
Proof.
  intros Hw (Hnd & Hu & Hn). unfold getImageHashCounted.
  destruct url as [u|]; [|now repeat split].
  destruct (truthy u); [|now repeat split].
  destruct (JsMap.get (cs_cache st) u) as [d|] eqn:Hget; [now repeat split|].
  cbn [cs_newHashes].
  destruct (Nat.ltb_spec 30 (S (cs_newHashes st))) as [Hlt|Hge]; cbn [snd].
  - rewrite Hw. cbn [saveImageHashesCacheSync cs_cache cs_file cs_newHashes].
    assert (Hnd' : NoDup (JsMap.keys (JsMap.set (cs_cache st) u (fetch u))))
      by now apply JsMapFacts.NoDup_keys_set.
    split; [exact Hnd'|].
    rewrite (unsaved_nil_saved _ 0 Hnd'). simpl. lia.
  - unfold flushInvariant. cbn [cs_cache cs_newHashes].
    split; [now apply JsMapFacts.NoDup_keys_set|]. split; [|lia].
    unfold unsaved in *. cbn [cs_cache cs_file cs_newHashes].
    rewrite JsMapFacts.keys_set_absent
      by now apply JsMapFacts.get_None_keys.
    rewrite filter_app, length_app. cbn [filter].
    destruct (negb (JsMap.has (loadCache (cs_file st)) u)); simpl; lia.
Qed.

(** X7: when writes to the cache file succeed, then whatever URLs are
    hashed one after the other by a new cache, at most 30 URLs of its map
    are missing from the file (and never more than were counted since the
    last save). *)
Theorem cache_file_lags_by_30 (fetch : string -> string)
  (writeFails : CacheState -> bool) (file : option CacheFile)
  (urls : list (option string)) :
  (forall st, writeFails st = false) ->
  let st := hashAll fetch writeFails (newImageHashesCache file) urls in
  length (unsaved st) <= cs_newHashes st /\ cs_newHashes st <= 30.
Proof.
  intros Hw. cbv zeta.
  assert (H : forall st, flushInvariant st ->
            flushInvariant (hashAll fetch writeFails st urls)).
  { induction urls as [|u r IH]; intros st Hst; [exact Hst|].
    apply IH. now apply flushInvariant_step. }
  exact (proj2 (H _ (flushInvariant_new file))).
Qed.

(** ** What a build that succeeds returns *)

(** Below [2^53] a product of integers is exact. *)
Lemma roundToDouble_small (n : Z) :
  (Z.abs n < 2 ^ 53)%Z -> roundToDouble n = n.
Proof.
  intros H. unfold roundToDouble. cbv zeta.
  destruct (Z.ltb_spec (Z.abs n) (2 ^ 53)); [reflexivity | lia].
Qed.

(** From [2^53] on it is rounded: the square of 94906267 is odd and the
    doubles around it are even. *)
Example mulNumber_rounds :
  mulNumber 94906267 94906267 = 9007199515875288%Z /\
  (94906267 * 94906267 = 9007199515875289)%Z /\
  mulNumber 94906265 94906265 = (94906265 * 94906265)%Z.
Proof. repeat split. Qed.

Section BuildResult.

Variable E : Env.

Lemma present_string (es : list (string * JsVal)) (k x : string) :
  (forall k' v, In (k', v) es -> isMissingValue v = false) ->
  In (k, JsString x) es -> x <> "".
Proof.
  intros H Hin Hx. specialize (H _ _ Hin). cbn [isMissingValue] in H.
  subst x. discriminate H.
Qed.

Lemma buildStep_builtFrom (cdnInfo : JsMap.t MapCDNInfo)
  (mapsMetadata : JsMap.t MapMetadata)
  (acc res : JsMap.t WebsiteMapInfo * JsMap.t WebsiteMapTag)
  (k : string) (m : MapInfo) :
  buildStep E cdnInfo mapsMetadata acc (k, m) = inr res ->
  exists i, fst res = JsMap.set (fst acc) k i /\
            builtFrom E cdnInfo mapsMetadata k m i.
Proof.
  unfold buildStep. cbn [fst snd].
  destruct (JsMap.get cdnInfo (springName m)) as [mi|] eqn:Hcdn; [|discriminate].
  destruct (JsMap.get mapsMetadata k) as [meta|] eqn:Hmeta; [|discriminate].
  destruct (assertExtracted meta) eqn:Hfiles; cbn [bindE]; [discriminate|].
  destruct (rawInfo E k m mi meta (getDerivedInfo E m meta)) as [|info] eqn:Hraw;
    cbn [bindE]; [discriminate|].
  destruct (checkEntries (springName m) (info_entries info)) as [|[]] eqn:Hck;
    cbn [bindE]; [discriminate|].
  intros [= <-]. exists (checkedInfo info). split; [reflexivity|].
  destruct (rawInfo_canonical E _ _ _ _ _ _ Hraw) as [Hcan Hid].
  pose proof (proj1 (checkEntries_ok _ _) Hck) as Hok. clear Hck.
  rename Hok into Hck.
  unfold rawInfo in Hraw. destruct (first (photo m)) as [|ph]; [discriminate|].
  injection Hraw as <-. unfold info_entries in Hck.
  cbn [raw_name raw_rowyId raw_downloadUrl raw_width raw_height raw_title
       raw_description raw_author] in Hck.
  exists mi, meta. split; [exact Hcdn|]. split; [exact Hmeta|].
  split.
  { intros f Hf. unfold assertExtracted in Hfiles.
    destruct (forallb (includes (extractedFiles meta)) requiredFiles) eqn:Hall;
      [|discriminate].
    rewrite forallb_forall in Hall. now apply includes_In, Hall. }
  split; [reflexivity|]. split; [reflexivity|].
  split; [exact Hid|].
  split; [apply (present_string _ "rowyId" _ Hck); simpl; tauto|].
  split; [reflexivity|].
  split; [apply (present_string _ "name" _ Hck); simpl; tauto|].
  split; [reflexivity|].
  split; [apply (present_string _ "author" _ Hck); simpl; tauto|].
  assert (Hdl : exists x, first (mirrors mi) = Defined x /\ x <> "").
  { destruct (first (mirrors mi)) as [|url] eqn:Hf.
    - specialize (Hck "downloadUrl" JsUndefined). cbn in Hck.
      discriminate Hck. tauto.
    - exists url. split; [reflexivity|].
      apply (present_string _ "downloadUrl" _ Hck). simpl. tauto. }
  destruct Hdl as [url [Hx Hxne]].
  assert (Hw : exists z, d_width (getDerivedInfo E m meta) = Defined z).
  { destruct (d_width (getDerivedInfo E m meta)) as [|z] eqn:Hf; [|eauto].
    specialize (Hck "width" JsUndefined). cbn in Hck.
    discriminate Hck. tauto. }
  assert (Hh : exists z, d_height (getDerivedInfo E m meta) = Defined z).
  { destruct (d_height (getDerivedInfo E m meta)) as [|z] eqn:Hf; [|eauto].
    specialize (Hck "height" JsUndefined). cbn in Hck.
    discriminate Hck. tauto. }
  destruct Hw as [w Hw], Hh as [h Hh].
  unfold checkedInfo.
  cbn [mi_downloadUrl mi_width mi_height mi_mapSize mi_teamCount mi_maxPlayers
       mi_title mi_description raw_downloadUrl raw_width raw_height
       raw_teamCount raw_maxPlayers raw_title raw_description].
  rewrite Hx, Hw, Hh. cbn [reqR].
  repeat (split; [first [ reflexivity | assumption
                        | intros _; reflexivity
                        | intros Hsmall; now apply roundToDouble_small ]|]).
  split.
  { unfold or_null. destruct (title m) as [|t]; [discriminate|].
    unfold truthy. destruct (String.eqb_spec t ""); cbn [negb];
      [discriminate | congruence]. }
  split; [|exact Hcan].
  unfold or_null. destruct (description m) as [|t]; [discriminate|].
  unfold truthy. destruct (String.eqb_spec t ""); cbn [negb];
    [discriminate | congruence].
Qed.

Lemma In_keys_set {V : Type} (m : JsMap.t V) (k k' : string) (v : V) :
  In k' (JsMap.keys (JsMap.set m k v)) <-> k' = k \/ In k' (JsMap.keys m).
Proof.
  destruct (in_dec string_dec k (JsMap.keys m)) as [Hin|Hout].
  - rewrite JsMapFacts.keys_set_present by assumption.
    split; [tauto | intros [->|H]; assumption].
  - rewrite JsMapFacts.keys_set_absent by assumption.
    rewrite in_app_iff. simpl. intuition congruence.
Qed.

Lemma foldE_builtFrom (cdnInfo : JsMap.t MapCDNInfo)
  (mapsMetadata : JsMap.t MapMetadata) (l : MapList) :
  forall acc res,
    foldE (buildStep E cdnInfo mapsMetadata) l acc = inr res ->
    (forall k, In k (JsMap.keys (fst res)) <->
               In k (JsMap.keys (fst acc)) \/ In k (map fst l)) /\
    (forall k i, JsMap.get (fst res) k = Some i ->
       JsMap.get (fst acc) k = Some i \/
       exists m, In (k, m) l /\ builtFrom E cdnInfo mapsMetadata k m i).
Proof.
  induction l as [|[k0 m0] r IH]; intros acc res; cbn [foldE].
  - intros [= <-]. split; [intros k; simpl; tauto | intros k i H; now left].
  - destruct (buildStep E cdnInfo mapsMetadata acc (k0, m0)) as [|acc1] eqn:Hs;
      cbn [bindE]; [discriminate|].
    intros Hr. destruct (IH _ _ Hr) as [Hkeys Hget].
    destruct (buildStep_builtFrom _ _ _ _ _ _ Hs) as [i0 [Hacc1 Hb0]].
    rewrite Hacc1 in Hkeys, Hget. split.
    + intros k. rewrite Hkeys, In_keys_set. simpl. intuition congruence.
    + intros k i Hk. destruct (Hget k i Hk) as [Hk1|[m [Hm Hb]]].
      * rewrite JsMapFacts.get_set in Hk1.
        destruct (String.eqb_spec k0 k) as [->|Hne].
        -- injection Hk1 as <-. right. exists m0. split; [now left | exact Hb0].
        -- now left.
      * right. exists m. split; [now right | exact Hb].
Qed.

(** The slug of every tag of a record that was built is a key of the
    vocabulary built with it. *)
Lemma built_tags_in_vocabulary (maps : MapList) (cdnInfo : JsMap.t MapCDNInfo)
  (mapsMetadata : JsMap.t MapMetadata) (infos : JsMap.t WebsiteMapInfo)
  (tags : JsMap.t WebsiteMapTag) (k : string) (i : WebsiteMapInfo) (ref : string) :
  buildWebflowInfo E maps cdnInfo mapsMetadata = inr (infos, tags) ->
  JsMap.get infos k = Some i -> In ref (mi_mapTags i) ->
  JsMap.has tags (slugFromName E ref) = true.
Proof.
  intros Hb Hget Href. unfold buildWebflowInfo in Hb.
  pose proof (buildWebflowInfo_vocabulary E _ _ _ _ _ Hb) as Hv.
  cbn [snd] in Hv. subst tags.
  destruct (foldE_builtFrom _ _ _ _ _ Hb) as [_ Hg]. cbn [fst] in Hg.
  destruct (Hg k i Hget) as [H|[m [Hm Hbf]]]; [discriminate H|].
  destruct Hbf as (mi & meta & _ & Hmeta & _ & Htags & _).
  apply addTags_has_new. unfold discoveredTags. apply in_flat_map.
  exists (k, m). split; [exact Hm|]. cbn [fst snd]. rewrite Hmeta. congruence.
Qed.

(** X8: when the build succeeds it returns one canonical record for each
    row of the source and no other; the record of a row carries the row
    identifier and the name, author, team and player counts of its source
    map, the first mirror of its CDN entry as download URL, the derived
    tags and terrains as written, the derived width and height with their
    product as map size (the exact product below [2^53], the nearest double
    from there on), image URLs under the image proxy, and none of its
    checked fields is empty. *)
Theorem buildWebflowInfo_result (maps : MapList) (cdnInfo : JsMap.t MapCDNInfo)
  (mapsMetadata : JsMap.t MapMetadata) (infos : JsMap.t WebsiteMapInfo)
  (tags : JsMap.t WebsiteMapTag) :
  buildWebflowInfo E maps cdnInfo mapsMetadata = inr (infos, tags) ->
  (forall k, In k (JsMap.keys infos) <-> In k (map fst maps)) /\
  (forall k i, JsMap.get infos k = Some i ->
     exists m, In (k, m) maps /\ builtFrom E cdnInfo mapsMetadata k m i).
Proof.
  intros Hb. unfold buildWebflowInfo in Hb.
  destruct (foldE_builtFrom _ _ _ _ _ Hb) as [Hkeys Hget]. cbn [fst] in *.
  split.
  - intros k. rewrite Hkeys. simpl. tauto.
  - intros k i Hk. destruct (Hget k i Hk) as [H|H]; [discriminate H | exact H].
Qed.

End BuildResult.

(** The build of the one-map source succeeds, and its records are those of
    the row [row1]: a map of 8 by 12, of size 96. *)
Lemma buildWebflowInfo_result_witness :
  match buildWebflowInfo (demoEnv ["ffa"]) (src_maps demoSource)
          (src_cdnInfo demoSource) (src_mapsMetadata demoSource) with
  | inr built =>
      map (fun e => (fst e, mi_width (snd e), mi_height (snd e),
                     mi_mapSize (snd e), mi_mapTags (snd e))) (fst built)
      = [("row1", 8%Z, 12%Z, 96%Z, ["ffa"])] /\
      (forall k, In k (JsMap.keys (fst built)) <-> In k ["row1"]) /\
      (forall k i, JsMap.get (fst built) k = Some i ->
         exists m, In (k, m) (src_maps demoSource) /\
           builtFrom (demoEnv ["ffa"]) (src_cdnInfo demoSource)
                     (src_mapsMetadata demoSource) k m i)
  | inl _ => False
  end.
Proof.
  destruct (buildWebflowInfo (demoEnv ["ffa"]) (src_maps demoSource)
              (src_cdnInfo demoSource) (src_mapsMetadata demoSource))
    as [e|[infos tags]] eqn:Hb.
  - vm_compute in Hb. discriminate Hb.
  - split.
    + vm_compute in Hb. injection Hb as <- _. reflexivity.
    + exact (buildWebflowInfo_result (demoEnv ["ffa"]) (src_maps demoSource)
               (src_cdnInfo demoSource) (src_mapsMetadata demoSource)
               infos tags Hb).
Defined.

(** [sameImage(u, u)] on a new cache: the two calls start together, both
    download the image and two new hashes are counted; one call after the
    other downloads it once. *)
Lemma getImageHash_overlap_witness :
  (exists st',
     hashTogether demoDigest (fun _ => false) (newImageHashesCache None)
       [Some "https://img/a.png"; Some "https://img/a.png"]
     = (["sha256:https://img/a.png"; "sha256:https://img/a.png"], st', 2) /\
     cs_newHashes st' = 2) /\
  cs_newHashes
    (hashAll demoDigest (fun _ => false) (newImageHashesCache None)
       [Some "https://img/a.png"; Some "https://img/a.png"]) = 1.
Proof.
  destruct (getImageHash_overlap demoDigest demoDigest (fun _ => false)
              (newImageHashesCache None) "https://img/a.png" eq_refl)
    as [_ Hnew].
  destruct (Hnew eq_refl) as [[st' [Hrun [_ Hcount]]] _].
  split; [|reflexivity].
  exists st'. split; [exact Hrun|]. apply Hcount. cbn. lia.
Defined.

(** A new cache with no file, asked for two URLs, twice for the first. *)
Lemma cache_file_lags_by_30_witness :
  length (unsaved
            (hashAll demoDigest (fun _ => false) (newImageHashesCache None)
               [Some "https://img/a.png"; None; Some "https://img/b.png";
                Some "https://img/a.png"]))
  <= cs_newHashes
       (hashAll demoDigest (fun _ => false) (newImageHashesCache None)
          [Some "https://img/a.png"; None; Some "https://img/b.png";
           Some "https://img/a.png"]) /\
  cs_newHashes
    (hashAll demoDigest (fun _ => false) (newImageHashesCache None)
       [Some "https://img/a.png"; None; Some "https://img/b.png";
        Some "https://img/a.png"]) <= 30.
Proof.
  apply (cache_file_lags_by_30 demoDigest (fun _ => false) None
           [Some "https://img/a.png"; None; Some "https://img/b.png";
            Some "https://img/a.png"]).
  intros st. reflexivity.
Defined.

(** ** Resolution of references *)

Lemma mapE_known {A B : Type} (f : A -> Res B) (g : A -> B) (l : list A)
  (ys : list B) :
  (forall x y, f x = inr y -> y = g x) ->
  mapE f l = inr ys -> ys = map g l.
Proof.
  intros H. revert ys. induction l as [|x r IH]; intros ys; cbn [mapE].
  - now intros [= <-].
  - destruct (f x) as [|y] eqn:Hx; cbn [bindE]; [discriminate|].
    destruct (mapE f r) as [|zs]; cbn [bindE]; [discriminate|].
    intros [= <-]. simpl. now rewrite (H x y Hx), (IH zs eq_refl).
Qed.

Lemma resolveRef_found (field : RefField) (refs : JsMap.t IWebflowItem)
  (ref id : string) :
  resolveRef field refs false ref = inr id ->
  id = keepUnresolved refs ref /\ JsMap.has refs ref = true.
Proof.
  unfold resolveRef, keepUnresolved, JsMap.has.
  destruct (JsMap.get refs ref); [|discriminate].
  intros [= <-]. now split.
Qed.

Lemma resolveItemRefs_shape (mapInfos out : JsMap.t WebsiteMapInfo)
  (field : RefField) (refs : JsMap.t IWebflowItem) :
  resolveItemRefsInMapInfos mapInfos field refs false = inr out ->
  out = map (fun e =>
               (fst e,
                withRefs field (snd e)
                  (map (keepUnresolved refs) (refsOf field (snd e)))))
            mapInfos.
Proof.
  unfold resolveItemRefsInMapInfos. apply mapE_known.
  intros e y.
  destruct (mapE (resolveRef field refs false) (refsOf field (snd e)))
    as [|l] eqn:Hl; cbn [bindE]; [discriminate|].
  intros [= <-]. f_equal. f_equal.
  apply (mapE_known _ _ _ _
           (fun ref id H => proj1 (resolveRef_found field refs ref id H)) Hl).
Qed.

Lemma resolveItemRefs_known_iff (mapInfos : JsMap.t WebsiteMapInfo)
  (field : RefField) (refs : JsMap.t IWebflowItem) :
  (forall k i ref, In (k, i) mapInfos -> In ref (refsOf field i) ->
     JsMap.has refs ref = true) <->
  exists out, resolveItemRefsInMapInfos mapInfos field refs false = inr out.
Proof.
  split.
  - intros Hall. unfold resolveItemRefsInMapInfos.
    eexists. apply mapE_total. intros e He.
    rewrite (mapE_total _ (keepUnresolved refs)); [reflexivity|].
    intros ref Href. destruct e as [k i].
    specialize (Hall k i ref He Href).
    unfold resolveRef, keepUnresolved, JsMap.has in *.
    destruct (JsMap.get refs ref); [reflexivity | discriminate].
  - intros [out Hres] k i ref Hin Href.
    destruct (JsMap.has refs ref) eqn:Hhas; [reflexivity|].
    assert (Hnone : JsMap.get refs ref = None).
    { unfold JsMap.has in Hhas. destruct (JsMap.get refs ref);
        [discriminate | reflexivity]. }
    destruct (resolveItemRefs_missing mapInfos field refs k i ref Hin Href Hnone)
      as [ref' [_ Hfail]].
    congruence.
Qed.

Lemma idOf_known (refs : JsMap.t IWebflowItem) (l : list string) :
  (forall ref, In ref l -> JsMap.has refs ref = true) ->
  Forall2 (idOf refs) l (map (keepUnresolved refs) l).
Proof.
  induction l as [|ref r IH]; intros H; cbn [map]; constructor.
  - specialize (H ref (or_introl eq_refl)).
    unfold idOf, keepUnresolved, JsMap.has in *.
    destruct (JsMap.get refs ref) as [t|]; [eauto | discriminate].
  - apply IH. intros x Hx. apply H. now right.
Qed.

Lemma withRefs_resolvedFrom (field : RefField) (refs : JsMap.t IWebflowItem)
  (i : WebsiteMapInfo) :
  (forall ref, In ref (refsOf field i) -> JsMap.has refs ref = true) ->
  resolvedFrom field refs i
    (withRefs field i (map (keepUnresolved refs) (refsOf field i))).
Proof.
  intros H. split; [repeat split|].
  destruct field; cbn [withRefs mi_mapTags mi_mapTerrains refsOf] in *;
    (split; [now apply idOf_known | reflexivity]).
Qed.

(** X9: outside a dry run the resolution of the tags (of the terrains)
    succeeds exactly when every tag (every terrain) of every record is a key
    of the reference map; its result then has the same keys in the same
    order, in every record each reference of the list is replaced by the
    identifier of the item held under it, every other field is unchanged,
    and a dry run gives the same result. *)
Theorem resolveItemRefs_total_on_known (mapInfos : JsMap.t WebsiteMapInfo)
  (refs : JsMap.t IWebflowItem) :
  ((forall k i ref, In (k, i) mapInfos -> In ref (mi_mapTags i) ->
      JsMap.has refs ref = true) <->
   exists out, resolveItemRefsInMapInfos mapInfos MapTags refs false = inr out) /\
  ((forall k i ref, In (k, i) mapInfos -> In ref (mi_mapTerrains i) ->
      JsMap.has refs ref = true) <->
   exists out,
     resolveItemRefsInMapInfos mapInfos MapTerrains refs false = inr out) /\
  (forall field out,
     resolveItemRefsInMapInfos mapInfos field refs false = inr out ->
     Forall2 (fun e e' => fst e' = fst e /\
                          resolvedFrom field refs (snd e) (snd e'))
             mapInfos out /\
     resolveItemRefsInMapInfos mapInfos field refs true = inr out).
Proof.
  split; [exact (resolveItemRefs_known_iff mapInfos MapTags refs)|].
  split; [exact (resolveItemRefs_known_iff mapInfos MapTerrains refs)|].
  intros field out Hres.
  pose proof (proj2 (resolveItemRefs_known_iff mapInfos field refs)
                (ex_intro _ out Hres)) as Hknown.
  rewrite resolveItemRefs_dry_run, (resolveItemRefs_shape _ _ _ _ Hres).
  split; [|reflexivity].
  clear Hres. induction mapInfos as [|[k i] r IH]; cbn [map]; constructor.
  - cbn [fst snd]. split; [reflexivity|].
    apply withRefs_resolvedFrom. intros ref Href.
    apply (Hknown k i ref); [now left | exact Href].
  - apply IH. intros k' i' ref Hin Href.
    apply (Hknown k' i' ref); [now right | exact Href].
Qed.

(** The record of the concrete source with its tag [ffa], resolved against
    a tag map that holds the item [tag-ffa] under [ffa]. *)
Lemma resolveItemRefs_total_on_known_witness :
  exists i',
    resolveItemRefsInMapInfos [("row1", demoRecordWith ["ffa"])] MapTags
      [("ffa", ffaEntry)] false
    = inr [("row1", i')] /\
    mi_mapTags (demoRecordWith ["ffa"]) = ["ffa"] /\
    mi_mapTags i' = ["tag-ffa"] /\
    mi_name i' = "Red Comet".
Proof.
  destruct (resolveItemRefs_total_on_known [("row1", demoRecordWith ["ffa"])]
              [("ffa", ffaEntry)]) as [[Hknown _] [_ Hshape]].
  destruct Hknown as [out Hout].
  { intros k i ref [[= <- <-]|[]] [<-|[]]. reflexivity. }
  destruct (Hshape MapTags out Hout) as [Hall _].
  destruct out as [|[k' i'] [|e2 out2]];
    [ exfalso; inversion Hall
    | idtac
    | exfalso; inversion Hall as [|? ? ? ? _ Hrest]; inversion Hrest ].
  assert (Hhead : k' = "row1" /\
                  resolvedFrom MapTags [("ffa", ffaEntry)]
                    (demoRecordWith ["ffa"]) i')
    by (inversion Hall; assumption).
  destruct Hhead as [-> [Hsame [Htags _]]].
  exists i'. split; [exact Hout|]. split; [reflexivity|]. split.
  - change (mi_mapTags (demoRecordWith ["ffa"])) with ["ffa"] in Htags.
    destruct (mi_mapTags i') as [|id [|id2 ids]];
      [ exfalso; inversion Htags
      | idtac
      | exfalso; inversion Htags as [|? ? ? ? _ Hrest]; inversion Hrest ].
    assert (Hid : idOf [("ffa", ffaEntry)] "ffa" id) by (inversion Htags; assumption).
    destruct Hid as [t [Hget ->]]. injection Hget as <-. reflexivity.
  - exact (proj1 Hsame).
Defined.

(** ** Reading the destination *)

(** X10: the paging loop over a collection returns every item of the
    collection, once and in order, whatever the number of items; it ends at
    the first empty page, so the bound on the number of pages plays no
    part once it exceeds the number of items left. *)
Theorem paging_returns_every_item {F : Type} (items : list (CollectionItem F)) :
  getAllWebflowItems items = items /\
  (forall fuel offset, length items - offset < fuel ->
     getAllWebflowItems_from fuel offset items = skipn offset items) /\
  (forall offset, length items <= offset -> listItems items 100 offset = []).
Proof.
  split; [apply getAllWebflowItems_all|].
  split; [intros fuel offset; apply getAllWebflowItems_from_all|].
  intros offset H. unfold listItems. now rewrite skipn_all2.
Qed.

Lemma indexMapStep_keyed (acc : JsMap.t WebflowMapInfo * nat)
  (w : WebflowMapInfo) :
  keyedBy (fun x => mi_rowyId (wm_info x)) (fst acc) ->
  keyedBy (fun x => mi_rowyId (wm_info x)) (fst (indexMapStep acc w)).
Proof.
  intros H. unfold indexMapStep. cbv zeta.
  destruct (JsMap.has (fst acc) (mi_rowyId (wm_info w))); cbn [fst].
  - exact (keyedBy_set (fun x => mi_rowyId (wm_info x)) (fst acc) _ H).
  - exact (keyedBy_set (fun x => mi_rowyId (wm_info x)) (fst acc) w H).
Qed.

Lemma indexMapStep_from (ws : list WebflowMapInfo)
  (acc : JsMap.t WebflowMapInfo * nat) (w : WebflowMapInfo) :
  (forall e, In e (fst acc) ->
     exists x, In x ws /\ wm_item (snd e) = wm_item x /\
               wm_fieldData (snd e) = wm_fieldData x) ->
  In w ws ->
  forall e, In e (fst (indexMapStep acc w)) ->
    exists x, In x ws /\ wm_item (snd e) = wm_item x /\
              wm_fieldData (snd e) = wm_fieldData x.
Proof.
  intros H Hw e. unfold indexMapStep. cbv zeta.
  destruct (JsMap.has (fst acc) (mi_rowyId (wm_info w))); cbn [fst];
    intros He; apply In_set in He as [->|He]; auto;
    exists w; repeat split; assumption.
Qed.

(** X11: the destination maps are indexed under the row identifier their
    record holds, each key once, and every entry is the reading of a listed
    item; when the listed items have distinct row identifiers no record is
    renamed: the index is the listing, in order, under the row
    identifiers. *)
Theorem indexMaps_keyed (ws : list WebflowMapInfo) :
  keyedBy (fun w => mi_rowyId (wm_info w)) (indexMaps ws) /\
  (forall e, In e (indexMaps ws) ->
     exists w, In w ws /\ wm_item (snd e) = wm_item w /\
               wm_fieldData (snd e) = wm_fieldData w) /\
  (NoDup (map (fun w => mi_rowyId (wm_info w)) ws) ->
   indexMaps ws = map (fun w => (mi_rowyId (wm_info w), w)) ws).
Proof.
  unfold indexMaps.
  assert (H : forall l acc,
            (forall w, In w l -> In w ws) ->
            keyedBy (fun w => mi_rowyId (wm_info w)) (fst acc) ->
            (forall e, In e (fst acc) ->
               exists x, In x ws /\ wm_item (snd e) = wm_item x /\
                         wm_fieldData (snd e) = wm_fieldData x) ->
            keyedBy (fun w => mi_rowyId (wm_info w))
                    (fst (fold_left indexMapStep l acc)) /\
            (forall e, In e (fst (fold_left indexMapStep l acc)) ->
               exists x, In x ws /\ wm_item (snd e) = wm_item x /\
                         wm_fieldData (snd e) = wm_fieldData x)).
  { induction l as [|w r IH]; intros acc Hl Hk Hf; [now split|].
    cbn [fold_left]. apply IH.
    - intros x Hx. apply Hl. now right.
    - now apply indexMapStep_keyed.
    - apply indexMapStep_from; [exact Hf | apply Hl; now left]. }
  destruct (H ws (JsMap.empty, O)) as [Hk Hf].
  - auto.
  - apply keyedBy_empty.
  - intros e [].
  - split; [exact Hk|]. split; [exact Hf|].
    intros Hnd. exact (indexMaps_NoDup ws Hnd).
Qed.

(** X12: the destination tags and terrains are indexed by slug; looking a
    slug up gives the last listed item with that slug (an earlier item with
    the same slug is not in the index), and nothing when no item has it. *)
Theorem indexBySlug_last_wins (ws : list IWebflowItem) (k : string) :
  JsMap.get (indexBySlug ws) k = find (fun w => wf_slug w =? k) (rev ws) /\
  keyedBy wf_slug (indexBySlug ws).
Proof.
  split.
  - unfold indexBySlug. rewrite of_entries_get, <- map_rev, find_map.
    cbn [fst]. now destruct (find (fun x => wf_slug x =? k) (rev ws)).
  - unfold indexBySlug, JsMap.of_entries.
    assert (H : forall l (m : JsMap.t IWebflowItem), keyedBy wf_slug m ->
              keyedBy wf_slug
                (fold_left (fun m e => JsMap.set m (fst e) (snd e))
                   (map (fun t => (wf_slug t, t)) l) m)).
    { induction l as [|t r IH]; intros m Hm; [exact Hm|].
      apply IH. exact (keyedBy_set wf_slug m t Hm). }
    apply H, keyedBy_empty.
Qed.

(** ** The calls of the reconciliation *)

Section Calls.

Variable E : Env.

Lemma attempt_calls {A : Type} (c : Call) (effect : Store -> Store * A)
  (s : Store) :
  run_calls (attempt E c effect s) = [c].
Proof. unfold attempt, run_calls. now destruct (callFails E s c). Qed.

Lemma bind_calls_length {A B : Type} (m : M A) (f : A -> M B) (s : Store)
  (n k : nat) :
  length (run_calls (m s)) <= n ->
  (forall a s', length (run_calls (f a s')) <= k) ->
  length (run_calls (bind m f s)) <= n + k.
Proof.
  intros Hm Hf. rewrite bind_run.
  destruct (run_result (m s)) as [e|a]; unfold run_calls in *; cbn [fst snd].
  - lia.
  - rewrite length_app. specialize (Hf a (run_store (m s))). lia.
Qed.

Lemma foldM_calls_bound {A B : Type} (f : B -> A -> M B) (l : list A) :
  (forall b x s, length (run_calls (f b x s)) <= 1) ->
  forall b s, length (run_calls (foldM f l b s)) <= length l.
Proof.
  intros Hf. induction l as [|x r IH]; intros b s; cbn [foldM].
  - simpl. lia.
  - change (length (x :: r)) with (1 + length r).
    apply bind_calls_length; [apply Hf | intros a s'; apply IH].
Qed.

Lemma additionStep_one_call (ty : IWebflowItemType)
  (equals : IWebsiteItem -> IWebflowItem -> bool) (v : Vocabulary)
  (dryRun : bool) (dest : JsMap.t IWebflowItem) (x : IWebsiteItem) (s : Store) :
  length (run_calls (additionStep E ty equals v dryRun dest x s)) <= 1.
Proof.
  unfold additionStep.
  destruct (JsMap.get dest (ws_slug x)) as [w|].
  - destruct (negb (equals x w)); [|simpl; lia].
    destruct (negb dryRun); [|simpl; lia].
    change 1 with (1 + 0). apply bind_calls_length.
    + unfold updateItem. rewrite attempt_calls. simpl. lia.
    + intros a s'. simpl. lia.
  - destruct (negb dryRun); [|simpl; lia].
    change 1 with (1 + 0). apply bind_calls_length.
    + unfold createItem. rewrite attempt_calls. simpl. lia.
    + intros a s'. simpl. lia.
Qed.

(** X13: the addition pass over a vocabulary attempts at most one call for
    each item of the source, and each call is a create or an update in the
    collection of that vocabulary: it never deletes, publishes or touches
    another collection. *)
Theorem additions_one_call_per_item (ty : IWebflowItemType)
  (equals : IWebsiteItem -> IWebflowItem -> bool)
  (src : JsMap.t IWebsiteItem) (dest : JsMap.t IWebflowItem)
  (v : Vocabulary) (dryRun : bool) (s : Store) :
  length (run_calls
            (syncCollectionToWebflowAdditions E ty equals src dest v dryRun s))
  <= length (JsMap.values src) /\
  Forall (fun c => callColl c = VocabColl v /\
                   (isCreate c = true \/ isUpdate c = true))
         (run_calls
            (syncCollectionToWebflowAdditions E ty equals src dest v dryRun s)).
Proof.
  split.
  - unfold syncCollectionToWebflowAdditions. apply foldM_calls_bound.
    intros b x s'. apply additionStep_one_call.
  - eapply Forall_impl; [|apply (additions_calls E ty equals src dest v dryRun s)].
    intros c (Hc & Hd & Hp). split; [exact Hc|].
    destruct c; simpl in *; auto; discriminate.
Qed.

Lemma has_middle {V : Type} (a r : list (string * V)) (k : string) (v : V) :
  JsMap.has (a ++ (k, v) :: r) k = true.
Proof.
  apply JsMapFacts.has_keys. unfold JsMap.keys. rewrite map_app.
  apply in_or_app. right. now left.
Qed.

Lemma delete_middle {V : Type} (a r : list (string * V)) (k : string) (v : V) :
  ~ In k (map fst a) -> JsMap.delete (a ++ (k, v) :: r) k = a ++ r.
Proof.
  induction a as [|[k0 v0] a IH]; intros Hk; cbn [JsMap.delete app].
  - now rewrite String.eqb_refl.
  - destruct (String.eqb_spec k0 k) as [->|Hne].
    + exfalso. apply Hk. now left.
    + rewrite IH; [reflexivity|]. intros H. apply Hk. now right.
Qed.

Lemma removals_fold (v : Vocabulary) (src : JsMap.t IWebsiteItem)
  (rest : list (string * IWebflowItem)) :
  forall done dest' s s' calls,
    NoDup (map fst (done ++ rest)) ->
    (forall e, In e rest -> fst e = wf_slug (snd e)) ->
    foldM (removalStep E v src false) rest
          (filter (keptBy src) done ++ rest) s = (s', calls, inr dest') ->
    dest' = filter (keptBy src) (done ++ rest) /\
    calls = map (fun e => DeleteItem (VocabColl v) (item_id (wf_item (snd e))))
                (filter (fun e => negb (keptBy src e)) rest).
Proof.
  induction rest as [|[k w] r IH]; intros done dest' s s' calls Hnd Hkey; cbn [foldM].
  - rewrite !app_nil_r. intros [= <- <- <-]. now split.
  - assert (Hk : k = wf_slug w) by (apply (Hkey (k, w)); now left).
    assert (Hnd' : NoDup (map fst ((done ++ [(k, w)]) ++ r)))
      by now rewrite <- app_assoc.
    assert (Hkey' : forall e, In e r -> fst e = wf_slug (snd e))
      by (intros e He; apply Hkey; now right).
    assert (Hkb : keptBy src (k, w) = JsMap.has src (wf_slug w)) by reflexivity.
    assert (Hsplit : filter (keptBy src) (done ++ (k, w) :: r)
                     = filter (keptBy src) (done ++ [(k, w)]) ++ filter (keptBy src) r).
    { change ((k, w) :: r) with ([(k, w)] ++ r).
      now rewrite app_assoc, filter_app. }
    intros Hrun. apply bind_inr in Hrun as (s1 & l1 & d1 & l2 & H1 & H2 & ->).
    unfold removalStep in H1. cbn [fst snd] in H1.
    rewrite has_middle in H1. cbn [negb] in H1.
    specialize (IH (done ++ [(k, w)]) dest' s1 s' l2 Hnd' Hkey').
    rewrite filter_app in IH. cbn [filter] in IH. rewrite Hkb in IH.
    cbn [filter]. rewrite Hkb.
    destruct (JsMap.has src (wf_slug w)) eqn:Hkept; cbn [negb] in *.
    + apply ret_inr in H1 as (-> & -> & ->).
      rewrite <- app_assoc in IH. cbn [app] in IH.
      destruct (IH H2) as [-> ->]. split; [|reflexivity].
      now rewrite <- app_assoc.
    + apply bind_inr in H1 as (s0 & l0 & u & l0' & Hdel & Hret & ->).
      apply ret_inr in Hret as (-> & -> & ->).
      unfold deleteItem in Hdel.
      apply (attempt_inr E) in Hdel as (_ & _ & _ & ->).
      rewrite <- Hk in H2. rewrite delete_middle in H2.
      * rewrite app_nil_r in IH. destruct (IH H2) as [-> ->]. split.
        -- now rewrite <- app_assoc.
        -- reflexivity.
      * intros Hin. apply in_map_iff in Hin as [e [He Hin]].
        apply filter_In in Hin as [Hin _].
        clear -Hnd He Hin. subst k.
        induction done as [|d done IHd]; [destruct Hin|].
        cbn [map app] in Hnd. inversion Hnd as [|? ? Hd Hr]; subst.
        destruct Hin as [->|Hin].
        -- apply Hd. rewrite map_app. apply in_or_app. right. now left.
        -- now apply IHd.
Qed.

(** X15: outside a dry run, a removal pass that completes over a local map
    keyed by slug leaves in it exactly the entries whose slug is in the
    source, in their order, and its calls are the deletions of the other
    entries, one for each in the order of the map; in a dry run it makes no
    call and leaves the map as it is. *)
Theorem removals_delete_the_rest (v : Vocabulary) (src : JsMap.t IWebsiteItem)
  (dest : JsMap.t IWebflowItem) (s : Store) :
  keyedBy wf_slug dest ->
  (forall s' calls dest',
     syncCollectionToWebflowRemovals E v src dest false s = (s', calls, inr dest') ->
     dest' = filter (keptBy src) dest /\
     calls = map (fun e => DeleteItem (VocabColl v) (item_id (wf_item (snd e))))
                 (filter (fun e => negb (keptBy src e)) dest)) /\
  syncCollectionToWebflowRemovals E v src dest true s = (s, [], inr dest).
Proof.
  intros [Hnd Hkey]. split.
  - intros s' calls dest' Hrun. unfold syncCollectionToWebflowRemovals in Hrun.
    exact (removals_fold v src dest [] dest' s s' calls Hnd Hkey Hrun).
  - unfold syncCollectionToWebflowRemovals.
    assert (H : forall l d, foldM (removalStep E v src true) l d s = (s, [], inr d)).
    { induction l as [|e r IH]; intros d; cbn [foldM]; [reflexivity|].
      unfold bind. unfold removalStep at 1.
      destruct (negb (JsMap.has d (fst e))); cbn [ret];
        [now rewrite IH|].
      destruct (negb (JsMap.has src (wf_slug (snd e)))); cbn [negb ret];
        now rewrite IH. }
    apply H.
Qed.

Lemma inPhases_nil (ps : list (Call -> bool)) : inPhases ps [].
Proof.
  induction ps as [|p ps IH]; [reflexivity|].
  exists [], []. repeat split; [constructor | exact IH].
Qed.

Lemma inPhases_skip (p : Call -> bool) (ps : list (Call -> bool))
  (l : list Call) :
  inPhases ps l -> inPhases (p :: ps) l.
Proof. intros H. exists [], l. repeat split; [constructor | exact H]. Qed.

Lemma inPhases_first (p : Call -> bool) (ps : list (Call -> bool))
  (l1 l2 : list Call) :
  Forall (fun c => p c = true) l1 -> inPhases (p :: ps) l2 ->
  inPhases (p :: ps) (l1 ++ l2).
Proof.
  intros H1 (a & b & -> & Ha & Hb). exists (l1 ++ a), b.
  rewrite app_assoc. repeat split; [|exact Hb].
  apply Forall_app. now split.
Qed.

Lemma inPhases_app (ps1 ps2 : list (Call -> bool)) (l1 l2 : list Call) :
  inPhases ps1 l1 -> inPhases ps2 l2 -> inPhases (ps1 ++ ps2) (l1 ++ l2).
Proof.
  revert l1. induction ps1 as [|p ps1 IH]; intros l1; cbn [inPhases app].
  - intros -> H. exact H.
  - intros (a & b & -> & Ha & Hb) H2. exists a, (b ++ l2).
    rewrite app_assoc. repeat split; [exact Ha | now apply IH].
Qed.

Lemma phased_first {A B : Type} (p : Call -> bool) (ps : list (Call -> bool))
  (m : M A) (f : A -> M B) :
  allCalls (fun c => p c = true) m -> (forall a, phased (p :: ps) (f a)) ->
  phased (p :: ps) (bind m f).
Proof.
  intros Hm Hf s. rewrite bind_run. specialize (Hm s).
  destruct (run_result (m s)) as [e|a]; unfold run_calls in *; cbn [fst snd].
  - rewrite <- (app_nil_r (snd (fst (m s)))).
    apply inPhases_first; [exact Hm | apply inPhases_nil].
  - apply inPhases_first; [exact Hm | apply Hf].
Qed.

Lemma phased_app {A B : Type} (ps1 ps2 : list (Call -> bool))
  (m : M A) (f : A -> M B) :
  phased ps1 m -> (forall a, phased ps2 (f a)) ->
  phased (ps1 ++ ps2) (bind m f).
Proof.
  intros Hm Hf s. rewrite bind_run. specialize (Hm s).
  destruct (run_result (m s)) as [e|a]; unfold run_calls in *; cbn [fst snd].
  - rewrite <- (app_nil_r (snd (fst (m s)))).
    apply inPhases_app; [exact Hm | apply inPhases_nil].
  - apply inPhases_app; [exact Hm | apply Hf].
Qed.

Lemma phased_skip {A : Type} (p : Call -> bool) (ps : list (Call -> bool))
  (m : M A) :
  phased ps m -> phased (p :: ps) m.
Proof. intros H s. apply inPhases_skip, H. Qed.

Lemma phased_one {A : Type} (p : Call -> bool) (m : M A) :
  allCalls (fun c => p c = true) m -> phased [p] m.
Proof.
  intros H s. exists (run_calls (m s)), []. rewrite app_nil_r.
  repeat split. apply H.
Qed.

Ltac calls_step :=
  first [ apply allCalls_ret
        | apply allCalls_liftE
        | apply allCalls_attempt
        | apply allCalls_bind; [|intros ?]
        | apply allCalls_foldM; intros ? ? ].

Lemma mapAdditions_create (dryRun : bool) (l : list WebsiteMapInfo)
  (acc : JsMap.t WebflowMapInfo * list Update) :
  allCalls (fun c => isMapCreate c = true)
           (foldM (mapAdditionStep E dryRun) l acc).
Proof.
  calls_step. unfold mapAdditionStep.
  destruct (JsMap.get (fst b) (mi_rowyId x)); [calls_step|].
  destruct (negb dryRun); [|calls_step].
  calls_step; [|calls_step; calls_step].
  unfold createMapItem. calls_step. reflexivity.
Qed.

Lemma mapRemovals_delete (src : JsMap.t WebsiteMapInfo) (dryRun : bool)
  (l : list (string * WebflowMapInfo)) (dest : JsMap.t WebflowMapInfo) :
  allCalls (fun c => isMapDelete c = true)
           (foldM (mapRemovalStep E src dryRun) l dest).
Proof.
  calls_step. unfold mapRemovalStep.
  destruct (negb (JsMap.has b (fst x))); [calls_step|].
  destruct (negb (JsMap.has src (mi_rowyId (wm_info (snd x))))); [|calls_step].
  destruct (negb dryRun); [|calls_step].
  calls_step; [|calls_step]. unfold deleteItem. calls_step. reflexivity.
Qed.

Lemma mapUpdates_update (dryRun : bool) (l : list Update)
  (dest : JsMap.t WebflowMapInfo) :
  allCalls (fun c => isMapUpdate c = true)
           (foldM (mapUpdateStep E dryRun) l dest).
Proof.
  calls_step. unfold mapUpdateStep.
  destruct (negb dryRun); [|calls_step].
  calls_step; [|calls_step; calls_step].
  unfold updateMapItem. calls_step. reflexivity.
Qed.

Lemma syncMaps_phased (src : JsMap.t WebsiteMapInfo)
  (dest : JsMap.t WebflowMapInfo) (dryRun : bool) :
  phased [isMapCreate; isMapDelete; isMapUpdate]
         (syncMapsToWebflow E src dest dryRun).
Proof.
  unfold syncMapsToWebflow.
  apply phased_first; [apply mapAdditions_create|]. intros acc.
  apply phased_skip.
  apply phased_first; [apply mapRemovals_delete|]. intros dest1.
  apply phased_skip. apply phased_one. apply mapUpdates_update.
Qed.

(** X16: the reconciliation of the maps calls the destination in three
    phases: first the creations of the maps that are missing, then the
    deletions of the maps that are no longer in the source, then the updates
    of the maps that differ; every call is on the collection of the maps. *)
Theorem syncMaps_create_delete_update (src : JsMap.t WebsiteMapInfo)
  (dest : JsMap.t WebflowMapInfo) (dryRun : bool) (s : Store) :
  exists creates deletes updates,
    run_calls (syncMapsToWebflow E src dest dryRun s)
    = creates ++ deletes ++ updates /\
    Forall (fun c => isCreate c = true /\ callColl c = MapsColl) creates /\
    Forall (fun c => isDelete c = true /\ callColl c = MapsColl) deletes /\
    Forall (fun c => isUpdate c = true /\ callColl c = MapsColl) updates.
Proof.
  destruct (syncMaps_phased src dest dryRun s)
    as (l1 & r1 & -> & H1 & l2 & r2 & -> & H2 & l3 & r3 & -> & H3 & ->).
  exists l1, l2, l3. rewrite app_nil_r. split; [reflexivity|].
  repeat split; (eapply Forall_impl; [|eassumption]); intros c Hc;
    destruct c as [[|?] ?|[|?] ? ?|[|?] ?|[|?] ?]; cbn in *;
    try discriminate; now split.
Qed.

Lemma additions_write (ty : IWebflowItemType)
  (equals : IWebsiteItem -> IWebflowItem -> bool)
  (src : JsMap.t IWebsiteItem) (dest : JsMap.t IWebflowItem)
  (v : Vocabulary) (dryRun : bool) :
  allCalls (fun c => isVocabWrite c = true)
           (syncCollectionToWebflowAdditions E ty equals src dest v dryRun).
Proof.
  eapply allCalls_weaken; [|apply additions_calls].
  intros c (Hc & Hd & Hp).
  destruct c as [k ?|k ? ?|k ?|k ?]; cbn in *; subst; try discriminate;
    reflexivity.
Qed.

Lemma removals_vocab_delete (v : Vocabulary) (src : JsMap.t IWebsiteItem)
  (dest : JsMap.t IWebflowItem) (dryRun : bool) :
  allCalls (fun c => isVocabDelete c = true)
           (syncCollectionToWebflowRemovals E v src dest dryRun).
Proof.
  eapply allCalls_weaken; [|apply removals_calls].
  intros c (Hc & Hd).
  destruct c as [k ?|k ? ?|k ?|k ?]; cbn in *; subst; try discriminate;
    reflexivity.
Qed.

(** X17: the calls of a sync come in six phases, in this order: creations
    and updates of tags and terrains; creations of maps; deletions of maps;
    updates of maps; publications; deletions of tags and terrains.  This
    holds for every destination and every outcome of the calls. *)
Theorem syncCommand_six_phases (src : Source) (dryRun : bool) (s : Store) :
  inPhases syncPhases (run_calls (syncCommand E src dryRun s)).
Proof.
  revert s. change (phased syncPhases (syncCommand E src dryRun)).
  unfold syncCommand, syncPhases.
  apply phased_first;
    [apply silent_allCalls, getAllWebflowMaps_silent | intros webflowMaps].
  apply phased_first;
    [apply silent_allCalls, getAllWebflowMapTags_silent | intros webflowMapTags].
  apply phased_first;
    [apply silent_allCalls, getAllWebflowMapTerrains_silent
    | intros webflowMapTerrains].
  apply phased_first; [apply allCalls_liftE | intros built]. cbv zeta.
  apply phased_first; [apply additions_write | intros tags1].
  apply phased_first; [apply allCalls_liftE | intros infos1].
  apply phased_first; [apply additions_write | intros terrains1].
  apply phased_first; [apply allCalls_liftE | intros infos2].
  apply phased_skip.
  apply (phased_app [isMapCreate; isMapDelete; isMapUpdate]
                    [isPublish; isVocabDelete]);
    [apply syncMaps_phased | intros maps1].
  apply phased_first; [apply publish_calls_kind | intros ?].
  apply phased_first; [apply publish_calls_kind | intros ?].
  apply phased_first; [apply publish_calls_kind | intros ?].
  apply phased_skip.
  apply phased_first; [apply removals_vocab_delete | intros tags2].
  apply phased_first; [apply removals_vocab_delete | intros ?].
  apply phased_one. apply allCalls_ret.
Qed.

Lemma pureResult_bindE {A B : Type} (r : Res A) (f : A -> Res B) :
  pureResult r -> (forall a, pureResult (f a)) -> pureResult (bindE r f).
Proof.
  intros Hr Hf c. destruct r as [e|a]; cbn [bindE].
  - intros [= ->]. now apply (Hr c).
  - apply Hf.
Qed.

Lemma pureResult_inr {A : Type} (a : A) : pureResult (inr a : Res A).
Proof. intros c. discriminate. Qed.

Lemma pureResult_mapE {A B : Type} (f : A -> Res B) (l : list A) :
  (forall x, pureResult (f x)) -> pureResult (mapE f l).
Proof.
  intros Hf. induction l as [|x r IH]; cbn [mapE]; [apply pureResult_inr|].
  apply pureResult_bindE; [apply Hf | intros y].
  apply pureResult_bindE; [exact IH | intros ys; apply pureResult_inr].
Qed.

Lemma pureResult_foldE {A B : Type} (f : B -> A -> Res B) (l : list A) (b : B) :
  (forall b' x, pureResult (f b' x)) -> pureResult (foldE f l b).
Proof.
  intros Hf. revert b. induction l as [|x r IH]; intros b; cbn [foldE];
    [apply pureResult_inr|].
  apply pureResult_bindE; [apply Hf | intros b'; apply IH].
Qed.

Lemma newWebflowMapInfo_pure (item : CollectionItem WebflowMapFieldsRead) :
  pureResult (newWebflowMapInfo item).
Proof.
  intros c. unfold newWebflowMapInfo.
  destruct (item_fieldData item); discriminate.
Qed.

Lemma newNameSlugItem_pure (item : CollectionItem NameSlugFields) :
  pureResult (newNameSlugItem item).
Proof.
  intros c. unfold newNameSlugItem.
  destruct (item_fieldData item); discriminate.
Qed.

Lemma recordItem_pure (dest : JsMap.t IWebflowItem)
  (item : CollectionItem NameSlugFields) :
  pureResult (recordItem WebflowMapTag dest item).
Proof.
  unfold recordItem. apply pureResult_bindE.
  - intros c. unfold assertSlug. destruct (item_fieldData item) as [|o];
      [discriminate|]. destruct (truthy (nf_slug o)); discriminate.
  - intros slug. apply pureResult_bindE;
      [apply newNameSlugItem_pure | intros w; apply pureResult_inr].
Qed.

Lemma checkEntries_pure (spring : string) (es : list (string * JsVal)) :
  pureResult (checkEntries spring es).
Proof.
  intros c. induction es as [|[k v] r IH]; cbn [checkEntries]; [discriminate|].
  destruct (isMissingValue v); [discriminate | exact IH].
Qed.

Lemma buildWebflowInfo_pure (maps : MapList) (cdnInfo : JsMap.t MapCDNInfo)
  (mapsMetadata : JsMap.t MapMetadata) :
  pureResult (buildWebflowInfo E maps cdnInfo mapsMetadata).
Proof.
  unfold buildWebflowInfo. apply pureResult_foldE. intros acc [k m].
  unfold buildStep. cbn [fst snd].
  destruct (JsMap.get cdnInfo (springName m)); [|intros c; discriminate].
  destruct (JsMap.get mapsMetadata k) as [meta|]; [|intros c; discriminate].
  apply pureResult_bindE.
  { intros c. unfold assertExtracted.
    destruct (forallb _ _); discriminate. }
  intros _. cbv zeta. apply pureResult_bindE.
  { intros c. unfold rawInfo. destruct (first (photo m)); discriminate. }
  intros info. apply pureResult_bindE;
    [apply checkEntries_pure | intros _; apply pureResult_inr].
Qed.

Lemma resolveItemRefs_pure (mapInfos : JsMap.t WebsiteMapInfo)
  (field : RefField) (refs : JsMap.t IWebflowItem) (dryRun : bool) :
  pureResult (resolveItemRefsInMapInfos mapInfos field refs dryRun).
Proof.
  unfold resolveItemRefsInMapInfos. apply pureResult_mapE. intros e.
  apply pureResult_bindE; [|intros l; apply pureResult_inr].
  apply pureResult_mapE. intros ref c. unfold resolveRef.
  destruct (JsMap.get refs ref); [discriminate|].
  destruct dryRun; discriminate.
Qed.

Lemma failStop_ret {A : Type} (a : A) : failStop (ret a).
Proof. intros s c. discriminate. Qed.

Lemma failStop_liftE {A : Type} (r : Res A) : pureResult r -> failStop (liftE r).
Proof. intros H s c Hr. cbn in Hr. now apply H in Hr. Qed.

Lemma failStop_attempt {A : Type} (c : Call) (effect : Store -> Store * A) :
  failStop (attempt E c effect).
Proof.
  intros s c'. unfold attempt, run_result, run_calls.
  destruct (callFails E s c); cbn [fst snd]; [|discriminate].
  intros [= <-]. now exists [].
Qed.

Lemma failStop_bind {A B : Type} (m : M A) (f : A -> M B) :
  failStop m -> (forall a, failStop (f a)) -> failStop (bind m f).
Proof.
  intros Hm Hf s c. rewrite bind_run.
  destruct (run_result (m s)) as [e|a] eqn:Hr;
    unfold run_result, run_calls in *; cbn [fst snd].
  - intros [= ->]. apply (Hm s c). exact Hr.
  - intros H. destruct (Hf a _ c H) as [before Hb]. unfold run_calls in Hb.
    exists (snd (fst (m s)) ++ before). now rewrite Hb, app_assoc.
Qed.

Lemma failStop_foldM {A B : Type} (f : B -> A -> M B) (l : list A) (b : B) :
  (forall b' x, failStop (f b' x)) -> failStop (foldM f l b).
Proof.
  intros Hf. revert b. induction l as [|x r IH]; intros b; cbn [foldM].
  - apply failStop_ret.
  - apply failStop_bind; [apply Hf | intros b'; apply IH].
Qed.

Ltac stop_step :=
  first [ apply failStop_ret
        | apply failStop_attempt
        | apply failStop_bind; [|intros ?]
        | apply failStop_foldM; intros b x ].

Lemma additions_failStop (src : JsMap.t IWebsiteItem)
  (equals : IWebsiteItem -> IWebflowItem -> bool)
  (dest : JsMap.t IWebflowItem) (v : Vocabulary) (dryRun : bool) :
  failStop (syncCollectionToWebflowAdditions E WebflowMapTag equals src dest v
                                             dryRun).
Proof.
  unfold syncCollectionToWebflowAdditions. stop_step. unfold additionStep.
  destruct (JsMap.get b (ws_slug x)) as [w|].
  - destruct (negb (equals x w)); [|stop_step].
    destruct (negb dryRun); [|stop_step].
    stop_step; [unfold updateItem; stop_step|].
    apply failStop_liftE, recordItem_pure.
  - destruct (negb dryRun); [|stop_step].
    stop_step; [unfold createItem; stop_step|].
    apply failStop_liftE, recordItem_pure.
Qed.

Lemma removals_failStop (v : Vocabulary) (src : JsMap.t IWebsiteItem)
  (dest : JsMap.t IWebflowItem) (dryRun : bool) :
  failStop (syncCollectionToWebflowRemovals E v src dest dryRun).
Proof.
  unfold syncCollectionToWebflowRemovals. stop_step. unfold removalStep.
  destruct (negb (JsMap.has b (fst x))); [stop_step|].
  destruct (negb (JsMap.has src (wf_slug (snd x)))); [|stop_step].
  destruct (negb dryRun); [|stop_step].
  stop_step; [unfold deleteItem; stop_step | stop_step].
Qed.

Lemma syncMaps_failStop (src : JsMap.t WebsiteMapInfo)
  (dest : JsMap.t WebflowMapInfo) (dryRun : bool) :
  failStop (syncMapsToWebflow E src dest dryRun).
Proof.
  unfold syncMapsToWebflow. stop_step; [|stop_step].
  - stop_step. unfold mapAdditionStep.
    destruct (JsMap.get (fst b) (mi_rowyId x)); [stop_step|].
    destruct (negb dryRun); [|stop_step].
    stop_step; [unfold createMapItem; stop_step|].
    stop_step; [apply failStop_liftE, newWebflowMapInfo_pure | stop_step].
  - stop_step. unfold mapRemovalStep.
    destruct (negb (JsMap.has b (fst x))); [stop_step|].
    destruct (negb (JsMap.has src (mi_rowyId (wm_info (snd x))))); [|stop_step].
    destruct (negb dryRun); [|stop_step].
    stop_step; [unfold deleteItem; stop_step | stop_step].
  - stop_step. unfold mapUpdateStep.
    destruct (negb dryRun); [|stop_step].
    stop_step; [unfold updateMapItem; stop_step|].
    stop_step; [apply failStop_liftE, newWebflowMapInfo_pure | stop_step].
Qed.

Lemma publish_failStop {F : Type} (c : Coll) (items : list (CollectionItem F))
  (dryRun : bool) :
  failStop (publishUpdatedWebflowItems E c items dryRun).
Proof.
  unfold publishUpdatedWebflowItems.
  destruct (negb dryRun); [|stop_step].
  stop_step. unfold publishItem. stop_step.
Qed.

Lemma read_failStop {A B : Type} (f : Store -> list A) (g : A -> Res B)
  (h : list B -> JsMap.t B) :
  (forall x, pureResult (g x)) ->
  failStop (fun s => (s, [], let? l := mapE g (f s) in inr (h l))).
Proof.
  intros Hg s c Hr. unfold run_result in Hr. cbn [snd] in Hr.
  exfalso. revert Hr. apply pureResult_bindE;
    [now apply pureResult_mapE | intros l; apply pureResult_inr].
Qed.

(** X18: when a sync ends with the failure of a remote call, that call is
    the last one it attempted: nothing is called after a failure, and the
    errors raised by the script itself (a missing value, a missing
    reference, a failed assertion) are never reported as the failure of a
    call. *)
Theorem sync_stops_at_failed_call (src : Source) (dryRun : bool) (s : Store)
  (c : Call) :
  run_result (syncCommand E src dryRun s) = inl (RemoteError c) ->
  exists before, run_calls (syncCommand E src dryRun s) = before ++ [c].
Proof.
  revert s c. change (failStop (syncCommand E src dryRun)).
  unfold syncCommand.
  apply failStop_bind.
  { unfold getAllWebflowMaps.
    apply (read_failStop (fun s => getAllWebflowItems (st_maps s))
             newWebflowMapInfo indexMaps newWebflowMapInfo_pure). }
  intros webflowMaps. apply failStop_bind.
  { unfold getAllWebflowMapTags.
    apply (read_failStop (fun s => getAllWebflowItems (vocabItems Tags s))
             newNameSlugItem indexBySlug newNameSlugItem_pure). }
  intros webflowMapTags. apply failStop_bind.
  { unfold getAllWebflowMapTerrains.
    apply (read_failStop (fun s => getAllWebflowItems (vocabItems Terrains s))
             newNameSlugItem indexBySlug newNameSlugItem_pure). }
  intros webflowMapTerrains.
  apply failStop_bind; [apply failStop_liftE, buildWebflowInfo_pure|].
  intros built. cbv zeta.
  apply failStop_bind; [apply additions_failStop | intros tags1].
  apply failStop_bind; [apply failStop_liftE, resolveItemRefs_pure | intros i1].
  apply failStop_bind; [apply additions_failStop | intros terrains1].
  apply failStop_bind; [apply failStop_liftE, resolveItemRefs_pure | intros i2].
  apply failStop_bind; [apply syncMaps_failStop | intros maps1].
  apply failStop_bind; [apply publish_failStop | intros ?].
  apply failStop_bind; [apply publish_failStop | intros ?].
  apply failStop_bind; [apply publish_failStop | intros ?].
  apply failStop_bind; [apply removals_failStop | intros tags2].
  apply failStop_bind; [apply removals_failStop | intros ?].
  apply failStop_ret.
Qed.

End Calls.

(** ** What a completed reconciliation leaves in the destination *)

Section Outcome.

Variable E : Env.
Variable good : Store -> Prop.
Hypothesis contract : DestinationContract E good.

Lemma settled_vocab_in_store (src : JsMap.t IWebsiteItem)
  (dest : JsMap.t IWebflowItem) (items : list (CollectionItem NameSlugFields)) :
  linked vocabRel dest items -> vocabSettled src dest ->
  vocabularyInStore src items.
Proof.
  intros L [P Q]. split.
  - intros i Hi. destruct (P i Hi) as [w [Hw Hs]].
    destruct (linked_get _ _ _ _ _ L Hw) as [it [Hin [_ [Hf _]]]].
    exists it. split; [exact Hin|].
    destruct (sameAs_inv i w Hs) as [Hn Hsl]. now rewrite Hf, Hn, Hsl.
  - intros it Hit. destruct L as [H _].
    destruct (Forall2_In_r _ _ _ _ H Hit) as [e [He [_ [Hf _]]]].
    eexists. split; [exact Hf|]. cbn [nf_slug]. now apply Q.
Qed.

Lemma settled_maps_in_store (src : JsMap.t WebsiteMapInfo)
  (dest : JsMap.t WebflowMapInfo)
  (items : list (CollectionItem WebflowMapFieldsRead)) :
  linked mapRel dest items -> mapsSettled E src dest ->
  mapsInStore E src items.
Proof.
  intros L [P Q]. split.
  - intros m Hm. destruct (P m Hm) as [w [Hw Hs]].
    destruct (linked_get _ _ _ _ _ L Hw) as [it [Hin [_ [Hf [Hi _]]]]].
    exists it, (wm_fieldData w). split; [exact Hin|]. split; [exact Hf|].
    now rewrite <- Hi.
  - intros it Hit. destruct L as [H _].
    destruct (Forall2_In_r _ _ _ _ H Hit) as [e [He [_ [Hf [Hi _]]]]].
    eexists. split; [exact Hf|].
    specialize (Q e He). rewrite Hi in Q. exact Q.
Qed.

Lemma keyedBy_values_keys {V : Type} (key : V -> string) (m : JsMap.t V) :
  keyedBy key m -> map key (JsMap.values m) = JsMap.keys m.
Proof.
  intros [_ H]. unfold JsMap.values, JsMap.keys. rewrite map_map.
  apply map_ext_in. intros e He. symmetry. now apply H.
Qed.

(** X14: outside a dry run, an addition pass that completes leaves every
    item of the source vocabulary in the destination collection with its
    name and slug, and in the local map under its slug; the local map still
    mirrors the collection, entries under other slugs are as they were, and
    the collection of the maps is untouched. *)
Theorem additions_settle_source (v : Vocabulary) (src : JsMap.t IWebsiteItem)
  (dest dest' : JsMap.t IWebflowItem) (s s' : Store) (calls : list Call) :
  keyedBy ws_slug src ->
  linked vocabRel dest (vocabItems v s) -> good s ->
  syncCollectionToWebflowAdditions E WebflowMapTag sameAs src dest v false s
  = (s', calls, inr dest') ->
  linked vocabRel dest' (vocabItems v s') /\
  st_maps s' = st_maps s /\
  (forall i, In i (JsMap.values src) ->
     exists w it,
       JsMap.get dest' (ws_slug i) = Some w /\
       wf_name w = ws_name i /\ wf_slug w = ws_slug i /\
       In it (vocabItems v s') /\
       item_fieldData it
       = Defined {| nf_name := ws_name i; nf_slug := ws_slug i |}) /\
  (forall k, ~ In k (JsMap.keys src) -> JsMap.get dest' k = JsMap.get dest k).
Proof.
  intros Hk L Hg Hrun. unfold syncCollectionToWebflowAdditions in Hrun.
  destruct (additions_establish E good contract v (JsMap.values src)
              (keyedBy_values_NoDup _ _ Hk) _ _ _ _ _ Hrun L Hg)
    as (L' & _ & Hm & _ & Hdone & Hother).
  split; [exact L'|]. split; [exact Hm|]. split.
  - intros i Hi. destruct (Hdone i Hi) as [w [Hw Hs]].
    destruct (linked_get _ _ _ _ _ L' Hw) as [it [Hin [_ [Hf _]]]].
    destruct (sameAs_inv i w Hs) as [Hn Hsl].
    exists w, it. repeat split; try assumption. now rewrite Hf, Hn, Hsl.
  - intros k Hnot. apply Hother. now rewrite (keyedBy_values_keys _ _ Hk).
Qed.

(** X20: outside a dry run, a reconciliation of the maps that completes
    leaves the collection of the maps holding the source records: every
    record has an item that reads back equal to it, every item holds the
    row identifier of a record, and the collections of the tags and of the
    terrains are untouched. *)
Theorem syncMaps_reconciles (src : JsMap.t WebsiteMapInfo)
  (dest dest' : JsMap.t WebflowMapInfo) (s s' : Store) (calls : list Call) :
  keyedBy mi_rowyId src ->
  (forall m, In m (JsMap.values src) -> canonicalImages m) ->
  linked mapRel dest (st_maps s) -> good s ->
  syncMapsToWebflow E src dest false s = (s', calls, inr dest') ->
  mapsInStore E src (st_maps s') /\
  linked mapRel dest' (st_maps s') /\
  (forall v, vocabItems v s' = vocabItems v s).
Proof.
  intros Hk Hc L Hg Hrun.
  destruct (syncMaps_establish E good contract _ _ _ _ _ _ Hk Hc Hrun L Hg)
    as (L' & _ & Hv & Hs).
  split; [exact (settled_maps_in_store _ _ _ L' Hs)|]. now split.
Qed.

Lemma getRowyMapTerrains_get (ref : string) :
  In ref terrainType_enum ->
  JsMap.get getRowyMapTerrains ref = Some {| ws_name := ref; ws_slug := ref |}.
Proof.
  intros H. unfold terrainType_enum in H.
  repeat (destruct H as [<-|H]; [reflexivity|]). destruct H.
Qed.

(** A reference that is a slug of the vocabulary was resolved to the
    identifier of the item that holds that slug when the run ends. *)
Lemma resolved_id_held (src : JsMap.t IWebsiteItem)
  (refsMap final : JsMap.t IWebflowItem)
  (items : list (CollectionItem NameSlugFields)) (ref : string) :
  NoDup (JsMap.keys refsMap) ->
  (forall e, In e final -> In e refsMap) ->
  linked vocabRel final items ->
  vocabSettled src final ->
  (exists i, In i (JsMap.values src) /\ ws_slug i = ref) ->
  heldIn items ref (keepUnresolved refsMap ref).
Proof.
  intros Hnd Hkept L [P _] [i [Hi Hs]].
  destruct (P i Hi) as [w [Hw _]]. rewrite Hs in Hw.
  pose proof (JsMapFacts.get_In _ _ _ Hw) as Hin. apply Hkept in Hin.
  pose proof (In_get _ _ _ Hnd Hin) as Hget.
  unfold keepUnresolved. rewrite Hget.
  destruct (linked_get _ _ _ _ _ L Hw) as [it [Hit [Hid [Hf Hk]]]].
  exists it, {| nf_name := wf_name w; nf_slug := wf_slug w |}.
  split; [exact Hit|]. split; [now symmetry|]. split; [exact Hf|].
  cbn [nf_slug]. now symmetry.
Qed.

Lemma Forall2_map_when {A B : Type} (P : A -> B -> Prop) (g : A -> B)
  (l : list A) :
  (forall x, In x l -> P x (g x)) -> Forall2 P l (map g l).
Proof.
  induction l as [|x r IH]; intros H; cbn [map]; constructor.
  - apply H. now left.
  - apply IH. intros y Hy. apply H. now right.
Qed.

(** What the resolution made of the records that were built, told with
    the items the destination holds when the run ends. *)
Lemma reconciled_resolved (src : Source) (s1 : Store)
  (infos : JsMap.t WebsiteMapInfo) (tags : JsMap.t WebsiteMapTag)
  (i1 i2 : JsMap.t WebsiteMapInfo) (tagRefs terrainRefs : JsMap.t IWebflowItem)
  (maps : JsMap.t WebflowMapInfo) (mapTags mapTerrains : JsMap.t IWebflowItem) :
  Reconciled E src s1 infos tags i1 i2 tagRefs terrainRefs maps mapTags
             mapTerrains ->
  JsMap.keys i2 = JsMap.keys infos /\
  (forall k m', In (k, m') i2 ->
     exists m,
       In (k, m) infos /\
       sameButRefs m m' /\
       Forall2 (fun ref id => slugFromName E ref = ref ->
                              heldIn (st_tags s1) ref id)
               (mi_mapTags m) (mi_mapTags m') /\
       Forall2 (fun ref id => In ref terrainType_enum ->
                              heldIn (st_terrains s1) ref id)
               (mi_mapTerrains m) (mi_mapTerrains m')).
Proof.
  intros [Hb H1 H2 Nt Nr Kt Kr LM LT LR ST SR SM].
  apply resolveItemRefs_shape in H1, H2. subst i1 i2. split.
  - unfold JsMap.keys. now rewrite !map_map.
  - intros k m' Hin. rewrite map_map in Hin.
    apply in_map_iff in Hin as [[k0 m] [Heq Hin]]. cbn [fst snd] in Heq.
    injection Heq as -> <-. exists m. split; [exact Hin|].
    split; [repeat split|].
    destruct (buildWebflowInfo_wellBuilt E _ _ _ _ Hb) as ([Nk _] & _ & Ktags).
    cbn [fst snd] in Nk, Ktags.
    pose proof (In_get _ _ _ Nk Hin) as Hget.
    cbn [withRefs mi_mapTags mi_mapTerrains refsOf]. split.
    + apply Forall2_map_when. intros ref Href Hslug.
      apply (resolved_id_held tags tagRefs mapTags); try assumption.
      pose proof (built_tags_in_vocabulary E _ _ _ _ _ _ _ ref Hb Hget Href)
        as Hhas.
      rewrite Hslug in Hhas. unfold JsMap.has in Hhas.
      destruct (JsMap.get tags ref) as [i|] eqn:Hi; [|discriminate].
      apply JsMapFacts.get_In in Hi. exists i. split.
      * apply in_map_iff. exists (ref, i). now split.
      * symmetry. exact (proj2 Ktags (ref, i) Hi).
    + apply Forall2_map_when. intros ref Href Hschema.
      apply (resolved_id_held getRowyMapTerrains terrainRefs mapTerrains);
        try assumption.
      exists {| ws_name := ref; ws_slug := ref |}. split; [|reflexivity].
      apply in_map_iff. exists (ref, {| ws_name := ref; ws_slug := ref |}).
      split; [reflexivity|].
      now apply JsMapFacts.get_In, getRowyMapTerrains_get.
Qed.

(** X19: a sync that completes, on a destination with no duplicate keys
    that keeps what is written, leaves the destination holding the source:
    the tags are those of the vocabulary that was built, the terrains those
    of the schema, and the maps those of the canonical records with their
    references resolved: nothing but the two reference lists is changed,
    every tag that is its own slug is replaced by the identifier of the tag
    item that holds that slug when the run ends, and every terrain of the
    schema by the identifier of the terrain item that holds it. *)
Theorem sync_reconciles (src : Source) (s0 s1 : Store) (calls : list Call) :
  good s0 -> uniquelyKeyed s0 ->
  syncCommand E src false s0 = (s1, calls, inr tt) ->
  exists infos tags resolved,
    buildWebflowInfo E (src_maps src) (src_cdnInfo src) (src_mapsMetadata src)
    = inr (infos, tags) /\
    vocabularyInStore tags (st_tags s1) /\
    vocabularyInStore getRowyMapTerrains (st_terrains s1) /\
    mapsInStore E resolved (st_maps s1) /\
    JsMap.keys resolved = JsMap.keys infos /\
    (forall k m', In (k, m') resolved ->
       exists m,
         In (k, m) infos /\
         sameButRefs m m' /\
         Forall2 (fun ref id => slugFromName E ref = ref ->
                                heldIn (st_tags s1) ref id)
                 (mi_mapTags m) (mi_mapTags m') /\
         Forall2 (fun ref id => In ref terrainType_enum ->
                                heldIn (st_terrains s1) ref id)
                 (mi_mapTerrains m) (mi_mapTerrains m')).
Proof.
  intros Hg Hu Hrun.
  destruct (first_run_reconciles E good contract src s0 s1 calls Hg Hu Hrun)
    as (infos & tags & i1 & i2 & tagRefs & terrainRefs & maps & mapTags &
        mapTerrains & Hrec).
  destruct (reconciled_resolved _ _ _ _ _ _ _ _ _ _ _ Hrec) as [Hkeys Hres].
  destruct Hrec as [Hb _ _ _ _ _ _ LM LT LR ST SR SM].
  exists infos, tags, i2. split; [exact Hb|].
  split; [exact (settled_vocab_in_store _ _ _ LT ST)|].
  split; [exact (settled_vocab_in_store _ _ _ LR SR)|].
  split; [exact (settled_maps_in_store _ _ _ LM SM)|].
  split; [exact Hkeys | exact Hres].
Qed.

Lemma held_is_listed (items : list (CollectionItem NameSlugFields))
  (refs ids : list string) (P : string -> Prop) (id : string) :
  Forall2 (fun ref i => P ref -> heldIn items ref i) refs ids ->
  (forall ref, In ref refs -> P ref) ->
  In id ids -> In id (map item_id items).
Proof.
  intros H2 HP Hid.
  destruct (Forall2_In_r _ _ _ _ H2 Hid) as [ref [Href Hheld]].
  destruct (Hheld (HP ref Href)) as (it & o & Hit & <- & _).
  now apply in_map.
Qed.

(** X27: when a sync completes, on a destination with no duplicate keys
    that keeps what is written, and from a source whose tags are their own
    slugs and whose terrains are those of the schema, every tag and every
    terrain a map item of the destination refers to is an item of the
    destination: no map is left referring to a tag or terrain that the run
    has deleted. *)
Theorem no_dangling_reference (src : Source) (s0 s1 : Store)
  (calls : list Call) (infos : JsMap.t WebsiteMapInfo)
  (tags : JsMap.t WebsiteMapTag) :
  good s0 -> uniquelyKeyed s0 ->
  syncCommand E src false s0 = (s1, calls, inr tt) ->
  buildWebflowInfo E (src_maps src) (src_cdnInfo src) (src_mapsMetadata src)
  = inr (infos, tags) ->
  (forall k i ref, In (k, i) infos -> In ref (mi_mapTags i) ->
     slugFromName E ref = ref) ->
  (forall k i ref, In (k, i) infos -> In ref (mi_mapTerrains i) ->
     In ref terrainType_enum) ->
  forall it o, In it (st_maps s1) -> item_fieldData it = Defined o ->
    (forall id, In id (reqRArr (r_game_tags_ref_2 o)) ->
       In id (map item_id (st_tags s1))) /\
    (forall id, In id (reqRArr (r_terrain_types o)) ->
       In id (map item_id (st_terrains s1))).
Proof.
  intros Hg Hu Hrun Hbuilt Hslugs Hschema it o Hit Ho.
  destruct (first_run_reconciles E good contract src s0 s1 calls Hg Hu Hrun)
    as (infos' & tags' & i1 & i2 & tagRefs & terrainRefs & maps & mapTags &
        mapTerrains & Hrec).
  destruct (reconciled_resolved _ _ _ _ _ _ _ _ _ _ _ Hrec) as [_ Hres].
  destruct Hrec as [Hb _ _ _ _ _ _ LM _ _ _ _ [P Q]].
  rewrite Hbuilt in Hb. injection Hb as <- <-.
  destruct (buildWebflowInfo_wellBuilt E _ _ _ _ Hbuilt) as ([_ Kinfos] & _ & _).
  cbn [fst] in Kinfos.
  destruct LM as (F2 & Nk & _).
  destruct (Forall2_In_r _ _ _ _ F2 Hit) as [[k w] [He (_ & Hf & Hinfo & Hk)]].
  cbn [fst snd] in Hf, Hinfo, Hk.
  rewrite Ho in Hf. injection Hf as ->.
  pose proof (Q _ He) as Hhas. cbn [snd] in Hhas. rewrite <- Hk in Hhas.
  unfold JsMap.has in Hhas.
  destruct (JsMap.get i2 k) as [m'|] eqn:Hm'; [|discriminate]. clear Hhas.
  apply JsMapFacts.get_In in Hm'.
  destruct (Hres k m' Hm') as (m & Hm & Hsame & Htags & Hterrains).
  assert (Hkey : mi_rowyId m' = k).
  { destruct Hsame as (_ & Hid & _). rewrite Hid.
    symmetry. exact (Kinfos (k, m) Hm). }
  destruct (P m') as [w' [Hw' Heq]].
  { apply in_map_iff. exists (k, m'). now split. }
  rewrite Hkey, (In_get _ _ _ Nk He) in Hw'. injection Hw' as <-.
  apply isWebflowMapInfoEqual_inv in Heq.
  destruct Heq as (_ & _ & _ & _ & _ & _ & _ & _ & _ & _ & _ & _ & _ & _ & _ &
                   Etags & Eterrains).
  apply isSameRefs_eq in Etags, Eterrains.
  rewrite Hinfo in Etags, Eterrains.
  cbn [readMapFields mi_mapTags mi_mapTerrains] in Etags, Eterrains.
  rewrite <- Etags, <- Eterrains. split; intros id Hid.
  - apply (held_is_listed _ _ _ _ id Htags); [|exact Hid].
    intros ref Href. exact (Hslugs k m ref Hm Href).
  - apply (held_is_listed _ _ _ _ id Hterrains); [|exact Hid].
    intros ref Href. exact (Hschema k m ref Hm Href).
Qed.

End Outcome.

(** ** Tags that are not slugs *)

Section TagsAsSlugs.

Variable E : Env.
Variable good : Store -> Prop.
Hypothesis contract : DestinationContract E good.

Lemma addTags_values (l : list string) (m : JsMap.t WebsiteMapTag)
  (i : WebsiteMapTag) :
  In i (JsMap.values (addTags E m l)) ->
  In i (JsMap.values m) \/ exists tg, ws_slug i = slugFromName E tg.
Proof.
  revert m. induction l as [|tg r IH]; intros m Hi; [now left|].
  change (addTags E m (tg :: r)) with
    (addTags E (JsMap.set m (slugFromName E tg)
                {| ws_name := toUpperCase E tg; ws_slug := slugFromName E tg |}) r)
    in Hi.
  destruct (IH _ Hi) as [Hin|Hex]; [|now right].
  apply In_values_set in Hin as [->|Hin]; [right; now exists tg | now left].
Qed.

Lemma vocabulary_slugs (maps : MapList) (cdnInfo : JsMap.t MapCDNInfo)
  (mapsMetadata : JsMap.t MapMetadata) (infos : JsMap.t WebsiteMapInfo)
  (tags : JsMap.t WebsiteMapTag) (i : WebsiteMapTag) :
  buildWebflowInfo E maps cdnInfo mapsMetadata = inr (infos, tags) ->
  In i (JsMap.values tags) -> string_forallb slug_class (ws_slug i) = true.
Proof.
  intros Hb Hi. unfold buildWebflowInfo in Hb.
  apply buildWebflowInfo_vocabulary in Hb. cbn [snd] in Hb. subst tags.
  apply addTags_values in Hi as [[]|[tg ->]]. apply slugFromName_class.
Qed.

Lemma bind_failing {A B : Type} (P : Call -> Prop) (m : M A) (f : A -> M B)
  (s : Store) :
  Forall P (run_calls (m s)) ->
  (forall a, run_result (m s) = inr a ->
     (exists e, run_result (f a (run_store (m s))) = inl e) /\
     Forall P (run_calls (f a (run_store (m s))))) ->
  (exists e, run_result (bind m f s) = inl e) /\
  Forall P (run_calls (bind m f s)).
Proof.
  intros Hm Hf. rewrite bind_run.
  destruct (run_result (m s)) as [e|a]; unfold run_result, run_calls in *;
    cbn [fst snd].
  - split; [now exists e | exact Hm].
  - destruct (Hf a eq_refl) as [He Hc]. split; [exact He|].
    apply Forall_app. now split.
Qed.

(** X21: a tag is looked up, when the references of the maps are resolved,
    under its own text, while the tags of the destination are kept under
    their slugs.  So when a map has a tag that is not made of [a-z], [0-9]
    and [-] only, and no tag of the destination has that text as slug, a
    sync outside a dry run ends in an error before any call on the
    collection of the maps. *)
Theorem sync_needs_slug_tags (src : Source) (s : Store)
  (infos : JsMap.t WebsiteMapInfo) (tags : JsMap.t WebsiteMapTag)
  (k : string) (i : WebsiteMapInfo) (t : string) :
  buildWebflowInfo E (src_maps src) (src_cdnInfo src) (src_mapsMetadata src)
  = inr (infos, tags) ->
  In (k, i) infos -> In t (mi_mapTags i) ->
  string_forallb slug_class t = false ->
  (forall it o, In it (st_tags s) -> item_fieldData it = Defined o ->
                nf_slug o <> t) ->
  good s -> NoDup (map item_id (st_tags s)) -> NoDup (map slugOf (st_tags s)) ->
  (exists e, run_result (syncCommand E src false s) = inl e) /\
  Forall (fun c => touchesMaps c = false)
         (run_calls (syncCommand E src false s)).
Proof.
  intros Hb Hin Ht Hclass Hstore Hg Hids Hslugs. unfold syncCommand.
  apply bind_failing; [constructor|]. intros M0 _.
  change (run_store (getAllWebflowMaps s)) with s.
  apply bind_failing; [constructor|]. intros Dt0 HDt0.
  change (run_store (getAllWebflowMapTags s)) with s.
  assert (Hread : exists ws, mapE newNameSlugItem (st_tags s) = inr ws /\
                             Dt0 = indexBySlug ws).
  { unfold getAllWebflowMapTags, run_result in HDt0. cbn [snd] in HDt0.
    rewrite getAllWebflowItems_all in HDt0.
    cbn [vocabItems WebflowMapTag construct] in HDt0.
    destruct (mapE newNameSlugItem (st_tags s)) as [|ws]; cbn [bindE] in HDt0;
      [discriminate|].
    injection HDt0 as <-. eauto. }
  destruct Hread as [ws [Hws ->]].
  destruct (read_vocab_linked _ _ Hids Hslugs Hws) as [L0 _].
  apply bind_failing; [constructor|]. intros Dr0 _.
  change (run_store (getAllWebflowMapTerrains s)) with s.
  apply bind_failing; [constructor|]. intros built Hbuilt.
  change (run_store (liftE (buildWebflowInfo E (src_maps src) (src_cdnInfo src)
                              (src_mapsMetadata src)) s)) with s.
  assert (Hbuilt' : built = (infos, tags)).
  { unfold liftE, run_result in Hbuilt. cbn [snd] in Hbuilt. congruence. }
  subst built. cbv zeta. cbn [fst snd].
  apply bind_failing.
  { eapply Forall_impl;
      [|apply (additions_calls E WebflowMapTag _ tags (indexBySlug ws) Tags false s)].
    intros c (Hc & _). unfold touchesMaps. now rewrite Hc. }
  intros Dt1 HDt1.
  unfold syncMapTagsToWebflowAdditions, syncCollectionToWebflowAdditions in *.
  revert HDt1.
  match goal with
  | |- run_result ?x = _ -> _ => destruct x as [[s1 l1] r1] eqn:Hadd
  end.
  intros HDt1. unfold run_result in HDt1. cbn [snd] in HDt1. subst r1.
  cbn [run_store fst].
  destruct (buildWebflowInfo_wellBuilt E _ _ _ _ Hb) as (_ & _ & Ktags).
  cbn [snd] in Ktags.
  destruct (additions_establish E good contract Tags (JsMap.values tags)
              (keyedBy_values_NoDup _ _ Ktags) _ _ _ _ _ Hadd L0 Hg)
    as (_ & _ & _ & _ & _ & Hother).
  assert (Hnone : JsMap.get Dt1 t = None).
  { rewrite Hother.
    - destruct (JsMap.get (indexBySlug ws) t) as [w|] eqn:Hw; [|reflexivity].
      destruct (linked_get _ _ _ _ _ L0 Hw) as [it [Hit [_ [Hf Hkey]]]].
      exfalso. apply (Hstore it _ Hit Hf). cbn [nf_slug]. now symmetry.
    - intros Hslug. apply in_map_iff in Hslug as [x [Hx Hxin]].
      pose proof (vocabulary_slugs _ _ _ _ _ _ Hb Hxin) as Hcl.
      rewrite Hx in Hcl. congruence. }
  destruct (resolveItemRefs_missing infos MapTags Dt1 k i t Hin Ht Hnone)
    as [ref' [_ Hfail]].
  apply bind_failing; [constructor|]. intros a Ha.
  unfold liftE, run_result in Ha. cbn [snd] in Ha. congruence.
Qed.

End TagsAsSlugs.

(** ** The further properties on concrete inputs *)

Lemma staleStore_good : demoGood staleStore.
Proof.
  intros it o [<-|[<-|[]]] [= <-]; unfold hostedFields; cbn; tauto.
Qed.

Lemma emptyStore_good : demoGood emptyStore.
Proof. intros it o []. Qed.

Lemma staleStore_uniquelyKeyed : uniquelyKeyed staleStore.
Proof.
  unfold uniquelyKeyed, staleStore. cbn.
  repeat match goal with
         | |- _ /\ _ => split
         | |- NoDup _ => constructor
         | |- ~ In _ _ => simpl; intuition discriminate
         end.
Qed.

(** The map of the destination refers to the tag [tag-old], which the
    source no longer has: the sync updates the map, then deletes the tag,
    and the map refers to items of the destination only. *)
Lemma no_dangling_reference_witness :
  map (fun it => (item_id it, tagsOfItem it)) (st_maps referringStore)
  = [("map-1", Defined ["tag-old"])] /\
  updatedMapIds (run_calls (syncCommand (demoEnv ["ffa"]) demoSource false referringStore)) = ["map-1"] /\
  filter isDelete (run_calls (syncCommand (demoEnv ["ffa"]) demoSource false referringStore))
  = [DeleteItem (VocabColl Tags) "tag-old"] /\
  map (fun it => (item_id it, tagsOfItem it))
      (st_maps (run_store (syncCommand (demoEnv ["ffa"]) demoSource false referringStore)))
  = [("map-1", Defined ["i0000000"])] /\
  forall it o,
    In it (st_maps (run_store (syncCommand (demoEnv ["ffa"]) demoSource false referringStore))) ->
    item_fieldData it = Defined o ->
    (forall id, In id (reqRArr (r_game_tags_ref_2 o)) ->
       In id (map item_id (st_tags (run_store (syncCommand (demoEnv ["ffa"]) demoSource false referringStore))))) /\
    (forall id, In id (reqRArr (r_terrain_types o)) ->
       In id (map item_id (st_terrains (run_store (syncCommand (demoEnv ["ffa"]) demoSource false referringStore))))).
Proof.
  split; [reflexivity|]. split; [vm_compute; reflexivity|].
  split; [vm_compute; reflexivity|]. split; [vm_compute; reflexivity|].
  destruct (buildWebflowInfo (demoEnv ["ffa"]) (src_maps demoSource)
              (src_cdnInfo demoSource) (src_mapsMetadata demoSource))
    as [e|[infos tags]] eqn:Hb.
  - vm_compute in Hb. discriminate Hb.
  - apply (no_dangling_reference (demoEnv ["ffa"]) demoGood
             (demo_contract ["ffa"]) demoSource referringStore
             (run_store (syncCommand (demoEnv ["ffa"]) demoSource false referringStore))
             (run_calls (syncCommand (demoEnv ["ffa"]) demoSource false referringStore))
             infos tags).
    + intros it o [<-|[]] [= <-]; unfold hostedFields; cbn; tauto.
    + unfold uniquelyKeyed, referringStore. cbn.
      repeat match goal with
             | |- _ /\ _ => split
             | |- NoDup _ => constructor
             | |- ~ In _ _ => simpl; intuition discriminate
             end.
    + vm_compute. reflexivity.
    + exact Hb.
    + vm_compute in Hb. injection Hb as <- _.
      intros k i ref [[= <- <-]|[]] [<-|[]]. reflexivity.
    + vm_compute in Hb. injection Hb as <- _.
      intros k i ref [[= <- <-]|[]] [].
Defined.

Lemma linked_nil {W F : Type} (rel : string -> W -> CollectionItem F -> Prop) :
  linked rel [] [].
Proof. split; [constructor | split; constructor]. Qed.

(** The tag [ffa] is added to an empty collection of tags. *)
Lemma additions_settle_source_witness :
  match run_result
          (syncCollectionToWebflowAdditions (demoEnv []) WebflowMapTag sameAs
             ffaVocabulary [] Tags false emptyStore) with
  | inr dest' =>
      exists w it,
        JsMap.get dest' "ffa" = Some w /\
        wf_name w = "FFA" /\ wf_slug w = "ffa" /\
        In it (st_tags
                 (run_store
                    (syncCollectionToWebflowAdditions (demoEnv []) WebflowMapTag
                       sameAs ffaVocabulary [] Tags false emptyStore))) /\
        item_fieldData it = Defined {| nf_name := "FFA"; nf_slug := "ffa" |}
  | inl _ => False
  end.
Proof.
  destruct (syncCollectionToWebflowAdditions (demoEnv []) WebflowMapTag sameAs
              ffaVocabulary [] Tags false emptyStore)
    as [[s' calls] [e|dest']] eqn:Hrun.
  - vm_compute in Hrun. discriminate Hrun.
  - unfold run_result, run_store. cbn [fst snd].
    assert (Hk : keyedBy ws_slug ffaVocabulary).
    { split; [repeat constructor; intros [] | intros e [<-|[]]; reflexivity]. }
    destruct (additions_settle_source (demoEnv []) demoGood (demo_contract [])
                Tags ffaVocabulary [] dest' emptyStore s' calls Hk
                (linked_nil vocabRel) emptyStore_good Hrun)
      as (_ & _ & H & _).
    exact (H {| ws_name := "FFA"; ws_slug := "ffa" |} (or_introl eq_refl)).
Defined.

(** The tag [old] of the out-of-date destination is not in the empty
    vocabulary: the removal pass deletes it. *)
Lemma removals_delete_the_rest_witness :
  run_calls (syncCollectionToWebflowRemovals (demoEnv []) Tags [] staleTags false
                                             staleStore)
  = [DeleteItem (VocabColl Tags) "tag-old"] /\
  syncCollectionToWebflowRemovals (demoEnv []) Tags [] staleTags true staleStore
  = (staleStore, [], inr staleTags).
Proof.
  assert (Hk : keyedBy wf_slug staleTags).
  { split; [repeat constructor; intros [] | intros e [<-|[]]; reflexivity]. }
  destruct (removals_delete_the_rest (demoEnv []) Tags [] staleTags staleStore Hk)
    as [Hrun Hdry].
  split; [|exact Hdry].
  destruct (syncCollectionToWebflowRemovals (demoEnv []) Tags [] staleTags false
              staleStore) as [[s' calls] [e|dest']] eqn:Heq.
  - vm_compute in Heq. discriminate Heq.
  - destruct (Hrun s' calls dest' eq_refl) as [_ ->]. reflexivity.
Defined.

(** With deletions failing, the sync of the out-of-date destination stops
    at the deletion of the map that is no longer in the source. *)
Lemma sync_stops_at_failed_call_witness :
  exists before,
    run_calls (syncCommand failingDeletes demoSource false staleStore)
    = before ++ [DeleteItem MapsColl "map-0"].
Proof.
  apply (sync_stops_at_failed_call failingDeletes demoSource false staleStore
           (DeleteItem MapsColl "map-0")).
  vm_compute. reflexivity.
Defined.

(** The sync of the out-of-date destination completes, and leaves the
    destination holding the source: the tag [ffa] in a new item, and the map
    with that item as its one tag. *)
Lemma sync_reconciles_witness :
  map (fun it => (item_id it, slugOf it))
      (st_tags (run_store (syncCommand (demoEnv ["ffa"]) demoSource false
                                       staleStore)))
  = [("i0000000", "ffa")] /\
  map (fun it => (item_id it,
                  match item_fieldData it with
                  | Defined o => r_game_tags_ref_2 o
                  | Undefined => Undefined
                  end))
      (st_maps (run_store (syncCommand (demoEnv ["ffa"]) demoSource false
                                       staleStore)))
  = [("map-1", Defined ["i0000000"])] /\
  exists infos tags resolved,
    buildWebflowInfo (demoEnv ["ffa"]) (src_maps demoSource)
      (src_cdnInfo demoSource) (src_mapsMetadata demoSource)
    = inr (infos, tags) /\
    vocabularyInStore tags
      (st_tags (run_store (syncCommand (demoEnv ["ffa"]) demoSource false
                                       staleStore))) /\
    vocabularyInStore getRowyMapTerrains
      (st_terrains (run_store (syncCommand (demoEnv ["ffa"]) demoSource false
                                       staleStore))) /\
    mapsInStore (demoEnv ["ffa"]) resolved
      (st_maps (run_store (syncCommand (demoEnv ["ffa"]) demoSource false
                                       staleStore))) /\
    JsMap.keys resolved = JsMap.keys infos /\
    (forall k m', In (k, m') resolved ->
       exists m,
         In (k, m) infos /\
         sameButRefs m m' /\
         Forall2 (fun ref id => slugFromName (demoEnv ["ffa"]) ref = ref ->
                    heldIn (st_tags (run_store (syncCommand (demoEnv ["ffa"]) demoSource false
                                       staleStore))) ref id)
                 (mi_mapTags m) (mi_mapTags m') /\
         Forall2 (fun ref id => In ref terrainType_enum ->
                    heldIn (st_terrains (run_store (syncCommand (demoEnv ["ffa"]) demoSource false
                                       staleStore))) ref id)
                 (mi_mapTerrains m) (mi_mapTerrains m')).
Proof.
  split; [vm_compute; reflexivity|]. split; [vm_compute; reflexivity|].
  apply (sync_reconciles (demoEnv ["ffa"]) demoGood (demo_contract ["ffa"])
           demoSource staleStore
           (run_store (syncCommand (demoEnv ["ffa"]) demoSource false staleStore))
           (run_calls (syncCommand (demoEnv ["ffa"]) demoSource false staleStore))).
  - exact staleStore_good.
  - exact staleStore_uniquelyKeyed.
  - vm_compute. reflexivity.
Defined.

(** The records built from the one-map source are reconciled into an empty
    collection of maps. *)
Lemma syncMaps_reconciles_witness :
  match buildWebflowInfo (demoEnv ["ffa"]) (src_maps demoSource)
          (src_cdnInfo demoSource) (src_mapsMetadata demoSource) with
  | inr built =>
      match run_result (syncMapsToWebflow (demoEnv ["ffa"]) (fst built) [] false
                                          emptyStore) with
      | inr _ =>
          mapsInStore (demoEnv ["ffa"]) (fst built)
            (st_maps (run_store (syncMapsToWebflow (demoEnv ["ffa"]) (fst built)
                                                   [] false emptyStore)))
      | inl _ => False
      end
  | inl _ => False
  end.
Proof.
  destruct (buildWebflowInfo (demoEnv ["ffa"]) (src_maps demoSource)
              (src_cdnInfo demoSource) (src_mapsMetadata demoSource))
    as [e|[infos tags]] eqn:Hb.
  - vm_compute in Hb. discriminate Hb.
  - cbn [fst].
    destruct (buildWebflowInfo_wellBuilt _ _ _ _ _ Hb) as (Hk & Hc & _).
    cbn [fst] in Hk, Hc.
    destruct (syncMapsToWebflow (demoEnv ["ffa"]) infos [] false emptyStore)
      as [[s' calls] [e|dest']] eqn:Hrun; unfold run_result, run_store;
      cbn [fst snd].
    + vm_compute in Hb. injection Hb as <- <-.
      vm_compute in Hrun. discriminate Hrun.
    + exact (proj1 (syncMaps_reconciles (demoEnv ["ffa"]) demoGood
                      (demo_contract ["ffa"]) infos [] dest' emptyStore s' calls
                      Hk Hc (linked_nil mapRel) emptyStore_good Hrun)).
Defined.

(** A map with the tag [FFA], which is not its slug [ffa]: the sync against
    an empty destination creates the tag and then fails. *)
Lemma sync_needs_slug_tags_witness :
  (exists e, run_result (syncCommand (demoEnv ["FFA"]) demoSource false emptyStore)
             = inl e) /\
  Forall (fun c => touchesMaps c = false)
         (run_calls (syncCommand (demoEnv ["FFA"]) demoSource false emptyStore)).
Proof.
  destruct (buildWebflowInfo (demoEnv ["FFA"]) (src_maps demoSource)
              (src_cdnInfo demoSource) (src_mapsMetadata demoSource))
    as [e|[infos tags]] eqn:Hb.
  - vm_compute in Hb. discriminate Hb.
  - assert (Hin : exists i, In ("row1", i) infos /\ In "FFA" (mi_mapTags i)).
    { vm_compute in Hb. injection Hb as <- _.
      eexists. split; [left; reflexivity | left; reflexivity]. }
    destruct Hin as [i [Hin Ht]].
    apply (sync_needs_slug_tags (demoEnv ["FFA"]) demoGood (demo_contract ["FFA"])
             demoSource emptyStore infos tags "row1" i "FFA" Hb Hin Ht).
    + reflexivity.
    + intros it o [].
    + exact emptyStore_good.
    + constructor.
    + constructor.
Defined.

(** ** The collection behind a reference field *)

Lemma filter_singleton {A : Type} (p : A -> bool) (l : list A) (x : A) :
  filter p l = [x] <->
  exists pre post, l = pre ++ x :: post /\ p x = true /\
                   forall y, In y (pre ++ post) -> p y = false.
Proof.
  split.
  - induction l as [|a l IH]; cbn [filter]; [discriminate|].
    destruct (p a) eqn:Ha.
    + intros [= -> Hr]. exists [], l. split; [reflexivity|]. split; [exact Ha|].
      intros y Hy. cbn [app] in Hy.
      destruct (p y) eqn:Hpy; [|reflexivity].
      assert (Hin : In y (filter p l)) by (apply filter_In; now split).
      rewrite Hr in Hin. destruct Hin.
    + intros Hf. destruct (IH Hf) as (pre & post & -> & Hx & Hrest).
      exists (a :: pre), post. split; [reflexivity|]. split; [exact Hx|].
      intros y [<-|Hy]; [exact Ha | now apply Hrest].
  - intros (pre & post & -> & Hx & Hrest).
    assert (Hnone : forall l', (forall y, In y l' -> p y = false) ->
                               filter p l' = []).
    { induction l' as [|a l' IH]; intros H; [reflexivity|].
      cbn [filter]. rewrite (H a) by now left.
      apply IH. intros y Hy. apply H. now right. }
    rewrite filter_app. cbn [filter]. rewrite Hx.
    rewrite !Hnone; [reflexivity | |];
      intros y Hy; apply Hrest; apply in_or_app; auto.
Qed.

(** X22: the collection behind a reference field is found exactly when one
    field of the collection of the maps, and no other, has the slug asked
    for; the identifier is then the one under that field.  With no such
    field the error reports 0 fields, and with two or more it reports their
    number: the first one is not taken. *)
Theorem getFieldCollection_unique (field : string)
  (fields : list CollectionField) :
  (forall id,
     getFieldCollection field fields = inr id <->
     exists pre f post,
       fields = pre ++ f :: post /\ fld_slug f = field /\
       fld_validations f = Defined id /\
       forall g, In g (pre ++ post) -> fld_slug g <> field) /\
  ((forall g, In g fields -> fld_slug g <> field) ->
   getFieldCollection field fields = inl (WrongFieldCount field 0)) /\
  (forall a b c f1 f2,
     fields = a ++ f1 :: b ++ f2 :: c ->
     fld_slug f1 = field -> fld_slug f2 = field ->
     exists n, 2 <= n /\
       getFieldCollection field fields = inl (WrongFieldCount field n)).
Proof.
  unfold getFieldCollection. cbv zeta.
  set (p := fun f => fld_slug f =? field).
  split; [|split].
  - intros id. split.
    + destruct (filter p fields) as [|f [|g r]] eqn:Hf; cbn; try discriminate.
      destruct (fld_validations f) as [|v] eqn:Hv; [discriminate|].
      intros [= <-].
      apply filter_singleton in Hf as (pre & post & -> & Hx & Hrest).
      exists pre, f, post. split; [reflexivity|].
      split; [now apply String.eqb_eq|]. split; [exact Hv|].
      intros g Hg. apply String.eqb_neq. now apply Hrest.
    + intros (pre & f & post & -> & Hs & Hv & Hrest).
      assert (Hf : filter p (pre ++ f :: post) = [f]).
      { apply filter_singleton. exists pre, post. split; [reflexivity|].
        split; [now apply String.eqb_eq|].
        intros y Hy. apply String.eqb_neq. now apply Hrest. }
      rewrite Hf. cbn. now rewrite Hv.
  - intros Hnone.
    assert (Hf : filter p fields = []).
    { induction fields as [|a l IH]; [reflexivity|]. cbn [filter].
      unfold p at 1. rewrite (proj2 (String.eqb_neq _ _)) by (apply Hnone; now left).
      apply IH. intros g Hg. apply Hnone. now right. }
    now rewrite Hf.
  - intros a b c f1 f2 -> H1 H2.
    assert (Hp1 : p f1 = true) by (unfold p; rewrite H1; apply String.eqb_refl).
    assert (Hp2 : p f2 = true) by (unfold p; rewrite H2; apply String.eqb_refl).
    assert (Hf : filter p (a ++ f1 :: b ++ f2 :: c)
                 = filter p a ++ f1 :: filter p b ++ f2 :: filter p c).
    { rewrite filter_app. cbn [filter]. rewrite Hp1, filter_app.
      cbn [filter]. now rewrite Hp2. }
    rewrite Hf.
    exists (length (filter p a ++ f1 :: filter p b ++ f2 :: filter p c)).
    assert (Hlen : 2 <= length (filter p a ++ f1 :: filter p b ++ f2 :: filter p c)).
    { rewrite length_app. cbn [length]. rewrite length_app. cbn [length]. lia. }
    split; [exact Hlen|].
    destruct (Nat.eqb_spec
                (length (filter p a ++ f1 :: filter p b ++ f2 :: filter p c)) 1)
      as [Heq|_]; [lia | reflexivity].
Qed.

(** ** Nothing to do *)

Section InSync.

Variable E : Env.

(** X23: when every item of the source vocabulary has an entry with the same
    name and slug in the local map, and every entry has a slug of the
    source, the addition pass and the removal pass make no call, leave the
    destination as it is and return the map unchanged, in a dry run or
    not. *)
Theorem vocabulary_in_sync_no_call (v : Vocabulary)
  (src : JsMap.t IWebsiteItem) (dest : JsMap.t IWebflowItem)
  (dryRun : bool) (s : Store) :
  vocabSettled src dest ->
  syncCollectionToWebflowAdditions E WebflowMapTag sameAs src dest v dryRun s
  = (s, [], inr dest) /\
  syncCollectionToWebflowRemovals E v src dest dryRun s = (s, [], inr dest).
Proof.
  intros [P Q]. split.
  - unfold syncCollectionToWebflowAdditions. now apply additions_no_call.
  - unfold syncCollectionToWebflowRemovals. now apply removals_no_call.
Qed.

(** X24: when every canonical record has, under its row identifier, an
    entry of the local map that compares equal to it, and every entry has
    the row identifier of a record, the reconciliation of the maps makes no
    call, leaves the destination as it is and returns the map unchanged, in
    a dry run or not. *)
Theorem maps_in_sync_no_call (src : JsMap.t WebsiteMapInfo)
  (dest : JsMap.t WebflowMapInfo) (dryRun : bool) (s : Store) :
  mapsSettled E src dest ->
  syncMapsToWebflow E src dest dryRun s = (s, [], inr dest).
Proof.
  intros Hsettled. now apply syncMaps_no_call.
Qed.

End InSync.

Lemma vocabulary_in_sync_no_call_witness :
  syncCollectionToWebflowAdditions (demoEnv []) WebflowMapTag sameAs
    ffaVocabulary [("ffa", ffaEntry)] Tags false staleStore
  = (staleStore, [], inr [("ffa", ffaEntry)]) /\
  syncCollectionToWebflowRemovals (demoEnv []) Tags ffaVocabulary
    [("ffa", ffaEntry)] false staleStore
  = (staleStore, [], inr [("ffa", ffaEntry)]).
Proof.
  apply (vocabulary_in_sync_no_call (demoEnv []) Tags ffaVocabulary
           [("ffa", ffaEntry)] false staleStore).
  split.
  - intros i [<-|[]]. exists ffaEntry. split; reflexivity.
  - intros e [<-|[]]. reflexivity.
Defined.

Lemma maps_in_sync_no_call_witness :
  syncMapsToWebflow (demoEnv []) [("row1", bareRecord)] [("row1", bareEntry)]
                    false staleStore
  = (staleStore, [], inr [("row1", bareEntry)]).
Proof.
  apply (maps_in_sync_no_call (demoEnv []) [("row1", bareRecord)]
           [("row1", bareEntry)] false staleStore).
  split.
  - intros m [<-|[]]. exists bareEntry. split; [reflexivity|].
    vm_compute. reflexivity.
  - intros e [<-|[]]. reflexivity.
Defined.
